(** * LazySorted: a shallow embedding of [lazysorted.c]

    The C extension keeps a Python list [xs] that is sorted lazily and a treap
    of pivot nodes (heap-allocated, linked by [left], [right] and [parent]
    pointers) recording which positions are already at their final place.

    The embedding follows the C code function by function:
    - [PivotNode]s live in a store [mem] indexed by addresses; [NULL] is
      [None]; reading or writing through [NULL] or through a freed address is
      undefined behaviour and is reported as [Crash];
    - [ob_item] is a [list obj]; an access outside [0, Py_SIZE) is [Crash];
    - [rand()] reads the next value of a stream [rand_at];
    - the comparisons [PyObject_RichCompareBool(.,.,Py_LT)] and [(.,.,Py_EQ)]
      are functions into [Z] (1, 0, or -1 on error) and every call is counted;
    - [Py_ssize_t] and [int] are unbounded [Z]: all indices are bounded by the
      length of the list;
    - [SORT_THRESH] and [CONTIG_THRESH] come from [params.h] and are
      parameters here;
    - loops over the pointer structure carry a fuel bounded by the number of
      allocated nodes; running out of it is reported as [Spin];
    - [assert] is compiled out ([NDEBUG]).  The calls of [assert_node],
      [assert_tree] and [assert_tree_flags] remain in the code: they walk the
      tree from the root and only read it.  These walks are not part of the
      model.  They return on every tree that is not empty and is a search
      tree held by the store ([holds_tree], [bst]); on an empty tree
      [assert_tree] reads through [NULL], and on a tree with a repeated
      index the walk of [assert_tree_flags] need not end.  The theorems
      about [bound_idx], [insert_pivot], [delete_node], [depivot] and
      [uniq_pivots] are therefore stated for such trees, before and after
      the call. *)

From Stdlib Require Import ZArith Lia Bool List.
From stdpp Require Import base option gmap list sorting.

Local Open Scope Z_scope.

(** ** Pivot nodes and the machine state *)

Definition ptr := positive.

(** [struct PivotNode]; a pointer is an [option ptr], [None] being [NULL]. *)
Record PivotNode := mkNode {
  idx : Z;
  flags : Z;
  priority : Z;
  node_left : option ptr;
  node_right : option ptr;
  node_parent : option ptr
}.

Definition SORTED_RIGHT : Z := 1.
Definition SORTED_LEFT : Z := 2.
Definition UNSORTED : Z := 0.
Definition SORTED_BOTH : Z := 3.

Definition with_flags (f : Z) (n : PivotNode) : PivotNode :=
  mkNode (idx n) f (priority n) (node_left n) (node_right n) (node_parent n).
Definition with_left (p : option ptr) (n : PivotNode) : PivotNode :=
  mkNode (idx n) (flags n) (priority n) p (node_right n) (node_parent n).
Definition with_right (p : option ptr) (n : PivotNode) : PivotNode :=
  mkNode (idx n) (flags n) (priority n) (node_left n) p (node_parent n).
Definition with_parent (p : option ptr) (n : PivotNode) : PivotNode :=
  mkNode (idx n) (flags n) (priority n) (node_left n) (node_right n) p.

(** The node [sort_point] and [find_item] pass as [start] to [insert_pivot]:
    [left] (at [l], holding [nl]) when it has no right child, else [right]. *)
Definition hint_of (l r : ptr) (nl : PivotNode) : option ptr :=
  match node_right nl with
  | None => Some l
  | Some _ => Some r
  end.

(** Test of a flag bit, [flags & F] as a C condition. *)
Definition has_flag (f : Z) (F : Z) : bool := negb (Z.land f F =? 0).

#[global] Instance ptr_opt_eq_dec : EqDecision (option ptr) := _.

(** ** The shape of the pivot tree

    A [tree] is the linked structure as a value: each node with its address
    and its fields [idx], [flags], [priority].  [repr h par t] says that the
    store [h] holds [t], the parent pointer of its root being [par]. *)

Inductive tree : Type :=
| Leaf
| Node (l : tree) (p : ptr) (i f pr : Z) (r : tree).

Definition root_of (t : tree) : option ptr :=
  match t with
  | Leaf => None
  | Node _ p _ _ _ _ => Some p
  end.

Fixpoint repr (h : gmap ptr PivotNode) (par : option ptr) (t : tree) : Prop :=
  match t with
  | Leaf => True
  | Node l p i f pr r =>
      h !! p = Some (mkNode i f pr (root_of l) (root_of r) par) /\
      repr h (Some p) l /\ repr h (Some p) r
  end.

(** The pivots in order: address, index, flags. *)
Fixpoint inorder (t : tree) : list (ptr * (Z * Z)) :=
  match t with
  | Leaf => []
  | Node l p i f _ r => inorder l ++ (p, (i, f)) :: inorder r
  end.

Definition ptrs (t : tree) : list ptr := fst <$> inorder t.

(** The indices of the pivots, in order; a search tree has them increasing. *)
Definition keys (t : tree) : list Z := (fun x => fst (snd x)) <$> inorder t.
Definition bst (t : tree) : Prop := StronglySorted Z.lt (keys t).

(** The descent of [bound_idx] on a tree, with the pivots [L] and [R] found
    so far. *)
Fixpoint bound_tree (k : Z) (t : tree) (L R : option ptr)
  : option ptr * option ptr :=
  match t with
  | Leaf => (L, R)
  | Node l p i _ _ r =>
      if i <? k then bound_tree k r (Some p) R
      else if i >? k then bound_tree k l L (Some p)
      else (Some p, R)
  end.

(** The address of the last pivot of a list, of the first one. *)
Definition last_ptr (xs : list (ptr * (Z * Z))) (d : option ptr) : option ptr :=
  match last xs with
  | Some x => Some x.1
  | None => d
  end.
Definition head_ptr (xs : list (ptr * (Z * Z))) (d : option ptr) : option ptr :=
  match xs with
  | x :: _ => Some x.1
  | [] => d
  end.

(** The pivots below an index, above an index. *)
Definition below (k : Z) (xs : list (ptr * (Z * Z))) : list (ptr * (Z * Z)) :=
  filter (fun x => x.2.1 < k) xs.
Definition above (k : Z) (xs : list (ptr * (Z * Z))) : list (ptr * (Z * Z)) :=
  filter (fun x => k < x.2.1) xs.

(** A tree with a hole: the path from the hole up to the root. *)
Inductive frame : Type :=
| InLeft (p : ptr) (i f pr : Z) (r : tree)
| InRight (l : tree) (p : ptr) (i f pr : Z).

Fixpoint plug (c : list frame) (t : tree) : tree :=
  match c with
  | [] => t
  | InLeft p i f pr r :: c' => plug c' (Node t p i f pr r)
  | InRight l p i f pr :: c' => plug c' (Node l p i f pr t)
  end.

(** The parent pointer of the tree that fills the hole. *)
Definition hole_parent (c : list frame) (par : option ptr) : option ptr :=
  match c with
  | [] => par
  | InLeft p _ _ _ _ :: _ => Some p
  | InRight _ p _ _ _ :: _ => Some p
  end.

(** The store holds the path [c], the hole being filled by the node at [q]. *)
Fixpoint repr_ctx (h : gmap ptr PivotNode) (par : option ptr)
    (c : list frame) (q : option ptr) : Prop :=
  match c with
  | [] => True
  | InLeft p i f pr r :: c' =>
      h !! p = Some (mkNode i f pr q (root_of r) (hole_parent c' par)) /\
      repr h (Some p) r /\ repr_ctx h par c' (Some p)
  | InRight l p i f pr :: c' =>
      h !! p = Some (mkNode i f pr (root_of l) q (hole_parent c' par)) /\
      repr h (Some p) l /\ repr_ctx h par c' (Some p)
  end.

(** The pivots before and after the hole, in order. *)
Fixpoint ctx_before (c : list frame) : list (ptr * (Z * Z)) :=
  match c with
  | [] => []
  | InLeft _ _ _ _ _ :: c' => ctx_before c'
  | InRight l p i f _ :: c' => ctx_before c' ++ inorder l ++ [(p, (i, f))]
  end.

Fixpoint ctx_after (c : list frame) : list (ptr * (Z * Z)) :=
  match c with
  | [] => []
  | InLeft p i f _ r :: c' => (p, (i, f)) :: inorder r ++ ctx_after c'
  | InRight _ _ _ _ _ :: c' => ctx_after c'
  end.

(** The addresses on a path. *)
Definition ctx_ptrs (c : list frame) : list ptr :=
  fst <$> (ctx_before c ++ ctx_after c).

(** The root pointer of [plug c t], given the root of [t]. *)
Fixpoint top_of (c : list frame) (q : option ptr) : option ptr :=
  match c with
  | [] => q
  | InLeft p _ _ _ _ :: c' => top_of c' (Some p)
  | InRight _ p _ _ _ :: c' => top_of c' (Some p)
  end.

(** ** The insertion of a pivot, on trees

    [insert_ctx k u c] is the path the first loop of [insert_pivot] walks
    down in [u] (below the path [c]) to the place of a new index [k];
    [rotate_ctx] is the second loop: the new node, at the hole of the path,
    is rotated above its parent as long as its priority is greater. *)
Fixpoint insert_ctx (k : Z) (u : tree) (c : list frame) : list frame :=
  match u with
  | Leaf => c
  | Node l p i f pr r =>
      if i <? k then insert_ctx k r (InRight l p i f pr :: c)
      else insert_ctx k l (InLeft p i f pr r :: c)
  end.

Fixpoint rotate_ctx (c : list frame) (a : tree) (n : ptr) (k fl pr : Z) (b : tree)
  : tree :=
  match c with
  | [] => Node a n k fl pr b
  | InLeft p i f ppr r :: c' =>
      if pr >? ppr then rotate_ctx c' a n k fl pr (Node b p i f ppr r)
      else plug c (Node a n k fl pr b)
  | InRight l p i f ppr :: c' =>
      if pr >? ppr then rotate_ctx c' (Node l p i f ppr a) n k fl pr b
      else plug c (Node a n k fl pr b)
  end.

(** A frame of the path to the place of [k]: the comparison made there. *)
Definition on_path (k : Z) (fr : frame) : Prop :=
  match fr with
  | InLeft _ i _ _ _ => k < i
  | InRight _ _ i _ _ => i < k
  end.

(** The tree after [insert_pivot(k, fl)] has put a node at [n], with
    priority [pr]. *)
Definition insert_tree (k fl : Z) (n : ptr) (pr : Z) (t : tree) : tree :=
  rotate_ctx (insert_ctx k t []) Leaf n k fl pr Leaf.

(** Two neighbouring pivots of [ps] that have [k] strictly between them
    delimit a region marked sorted: the right one has SORTED_RIGHT. *)
Definition flagged_around (ps : list (ptr * (Z * Z))) (k : Z) : Prop :=
  forall xs ys x y, ps = xs ++ x :: y :: ys -> x.2.1 < k < y.2.1 ->
    has_flag y.2.2 SORTED_RIGHT = true.



Section LazySorted.

(** The element type, the two comparisons, the random stream and the two
    constants of [params.h]. *)
Variable obj : Type.
Variable RichCompare_LT : obj -> obj -> Z.
Variable RichCompare_EQ : obj -> obj -> Z.
Variable rand_at : nat -> Z.
Variable SORT_THRESH : Z.
Variable CONTIG_THRESH : Z.

(** The [LSObject] ([ob_item], [root]) together with the C heap holding the
    nodes, the allocator, the counters of [rand()] and comparator calls, and
    the error indicator of the interpreter ([PyErr_Occurred]). *)
Record state := mkState {
  ob_item : list obj;
  root : option ptr;
  mem : gmap ptr PivotNode;
  brk : ptr;
  rnd : nat;
  ncmp : nat;
  pyerr : bool
}.

Definition Py_SIZE (s : state) : Z := Z.of_nat (length (ob_item s)).

Inductive outcome (A : Type) : Type :=
| Done (a : A) (s : state)
| Crash
| Spin.
Arguments Done {A} a s.
Arguments Crash {A}.
Arguments Spin {A}.

Definition M (A : Type) : Type := state -> outcome A.

Definition ret {A} (a : A) : M A := fun s => Done a s.
Definition bind {A B} (m : M A) (k : A -> M B) : M B :=
  fun s => match m s with
           | Done a s' => k a s'
           | Crash => Crash
           | Spin => Spin
           end.
Definition crash {A} : M A := fun _ => Crash.
Definition spin {A} : M A := fun _ => Spin.

Notation "x <- m ;; k" := (bind m (fun x => k))
  (at level 100, m at next level, right associativity).
Notation "m ;;; k" := (bind m (fun _ => k))
  (at level 100, right associativity).

(** *** Primitive accesses *)

(** [*p] for a node pointer. *)
Definition deref (p : option ptr) : M PivotNode :=
  fun s => match p with
           | None => Crash
           | Some q => match mem s !! q with
                       | Some n => Done n s
                       | None => Crash
                       end
           end.

(** [*p = n]. *)
Definition store (p : option ptr) (n : PivotNode) : M unit :=
  fun s => match p with
           | None => Crash
           | Some q => match mem s !! q with
                       | Some _ =>
                           Done tt (mkState (ob_item s) (root s)
                                      (<[q := n]> (mem s)) (brk s) (rnd s) (ncmp s) (pyerr s))
                       | None => Crash
                       end
           end.

Definition update (p : option ptr) (f : PivotNode -> PivotNode) : M unit :=
  n <- deref p ;; store p (f n).

Definition set_left (p v : option ptr) : M unit := update p (with_left v).
Definition set_right (p v : option ptr) : M unit := update p (with_right v).
Definition set_parent (p v : option ptr) : M unit := update p (with_parent v).
Definition set_flags (p : option ptr) (f : Z) : M unit := update p (with_flags f).

Definition get_root : M (option ptr) := fun s => Done (root s) s.
Definition set_root (r : option ptr) : M unit :=
  fun s => Done tt (mkState (ob_item s) r (mem s) (brk s) (rnd s) (ncmp s) (pyerr s)).

(** [PyMem_Malloc] followed by the initialisation of the node; allocation
    never fails and never hands out an address again. *)
Definition malloc (n : PivotNode) : M (option ptr) :=
  fun s => Done (Some (brk s))
             (mkState (ob_item s) (root s) (<[brk s := n]> (mem s))
                (Pos.succ (brk s)) (rnd s) (ncmp s) (pyerr s)).

(** [PyMem_Free]. *)
Definition free (p : option ptr) : M unit :=
  fun s => match p with
           | None => Done tt s
           | Some q => match mem s !! q with
                       | Some _ =>
                           Done tt (mkState (ob_item s) (root s)
                                      (delete q (mem s)) (brk s) (rnd s) (ncmp s) (pyerr s))
                       | None => Crash
                       end
           end.

(** [rand()]. *)
Definition rand : M Z :=
  fun s => Done (rand_at (rnd s))
             (mkState (ob_item s) (root s) (mem s) (brk s) (S (rnd s)) (ncmp s) (pyerr s)).

(** [ob_item[i]] as an rvalue. *)
Definition item_at (l : list obj) (i : Z) : option obj :=
  if i <? 0 then None else l !! Z.to_nat i.

Definition get_item (i : Z) : M obj :=
  fun s => match item_at (ob_item s) i with
           | Some x => Done x s
           | None => Crash
           end.

(** [ob_item[i] = x]. *)
Definition set_item (i : Z) (x : obj) : M unit :=
  fun s => match item_at (ob_item s) i with
           | Some _ =>
               Done tt (mkState (<[Z.to_nat i := x]> (ob_item s)) (root s)
                          (mem s) (brk s) (rnd s) (ncmp s) (pyerr s))
           | None => Crash
           end.

Definition get_size : M Z := fun s => Done (Py_SIZE s) s.

(** An exception is set. *)
Definition set_err : M unit :=
  fun s => Done tt (mkState (ob_item s) (root s) (mem s) (brk s) (rnd s) (ncmp s) true).

(** [PyErr_Occurred() != NULL]. *)
Definition err_occurred : M bool := fun s => Done (pyerr s) s.

(** A call of [PyObject_RichCompareBool] with result [c]: it is counted,
    and a negative result comes with an exception. *)
Definition compared (c : Z) : M Z :=
  fun s => Done c (mkState (ob_item s) (root s) (mem s) (brk s) (rnd s)
                     (S (ncmp s)) ((c <? 0) || pyerr s)).

(** [ISLT(X, Y)]: 1 if x < y, 0 if x >= y, -1 on error. *)
Definition ISLT (x y : obj) : M Z := compared (RichCompare_LT x y).
(** [PyObject_RichCompareBool(X, Y, Py_EQ)]. *)
Definition ISEQ (x y : obj) : M Z := compared (RichCompare_EQ x y).

(** Fuel for a walk along the pointers of the tree: a walk that visits more
    nodes than are allocated has entered a cycle. *)
Definition tree_fuel : M nat := fun s => Done (S (size (mem s))) s.

(** ** The treap of pivots *)

(** The loop [while (curr->left != NULL) curr = curr->left;]. *)
Fixpoint leftmost (fuel : nat) (curr : option ptr) : M (option ptr) :=
  match fuel with
  | O => spin
  | S f =>
      n <- deref curr ;;
      match node_left n with
      | None => ret curr
      | Some _ => leftmost f (node_left n)
      end
  end.

(** The loop
    [while (curr->parent != NULL && curr->parent->idx < curr->idx)
       curr = curr->parent;]. *)
Fixpoint climb (fuel : nat) (curr : option ptr) : M (option ptr) :=
  match fuel with
  | O => spin
  | S f =>
      n <- deref curr ;;
      match node_parent n with
      | None => ret curr
      | Some _ =>
          p <- deref (node_parent n) ;;
          if idx p <? idx n then climb f (node_parent n) else ret curr
      end
  end.

(** Returns the next (bigger) pivot, or NULL if it's the last pivot. *)
Definition next_pivot (current : option ptr) : M (option ptr) :=
  fuel <- tree_fuel ;;
  n <- deref current ;;
  match node_right n with
  | Some _ => leftmost fuel (node_right n)
  | None =>
      curr <- climb fuel current ;;
      c <- deref curr ;;
      ret (node_parent c)
  end.

(** The first loop of [insert_pivot]: put the node in its sorted order,
    starting from [current].  Returns [false] when an equal index is met:
    the C code then sets a [SystemError] and returns NULL. *)
Fixpoint insert_descend (fuel : nat) (k : Z) (node current : option ptr) : M bool :=
  match fuel with
  | O => spin
  | S f =>
      c <- deref current ;;
      if idx c <? k then
        match node_right c with
        | None => set_right current node ;;; set_parent node current ;;; ret true
        | Some _ => insert_descend f k node (node_right c)
        end
      else if idx c >? k then
        match node_left c with
        | None => set_left current node ;;; set_parent node current ;;; ret true
        | Some _ => insert_descend f k node (node_left c)
        end
      else set_err ;;; ret false
  end.

(** One rotation of [node] above its parent. *)
Definition rotate_up (node : option ptr) : M unit :=
  n <- deref node ;;
  p <- deref (node_parent n) ;;
  if idx n <? idx p then
    let child := node_right n in
    let parent := node_parent n in
    let grandparent := node_parent p in
    set_parent node grandparent ;;;
    set_right node parent ;;;
    set_parent parent node ;;;
    set_left parent child ;;;
    match child with
    | Some _ => set_parent child parent
    | None => ret tt
    end
  else
    let child := node_left n in
    let parent := node_parent n in
    let grandparent := node_parent p in
    set_parent node grandparent ;;;
    set_left node parent ;;;
    set_parent parent node ;;;
    set_right parent child ;;;
    match child with
    | Some _ => set_parent child parent
    | None => ret tt
    end.

(** The second loop of [insert_pivot]: reestablish the treap invariant by
    tree rotations. *)
Fixpoint insert_rotate (fuel : nat) (k : Z) (node : option ptr) : M unit :=
  match fuel with
  | O => spin
  | S f =>
      n <- deref node ;;
      p <- deref (node_parent n) ;;
      if priority n >? priority p then
        rotate_up node ;;;
        n' <- deref node ;;
        match node_parent n' with
        | Some _ =>
            g <- deref (node_parent n') ;;
            (if k <? idx g then set_left (node_parent n') node
             else set_right (node_parent n') node) ;;;
            insert_rotate f k node
        | None => set_root node
        end
      else ret tt
  end.

(** Inserts an index, returning a pointer to the node, or NULL on error;
    [start] is the node to insert from.  (The walks of [assert_tree] and
    [assert_tree_flags] after the rotations are left out.) *)
Definition insert_pivot (k : Z) (fl : Z) (start : option ptr) : M (option ptr) :=
  pr <- rand ;;
  node <- malloc (mkNode k fl pr None None None) ;;
  r <- get_root ;;
  match r with
  | None => set_parent node None ;;; set_root node ;;; ret node
  | Some _ =>
      fuel <- tree_fuel ;;
      linked <- insert_descend fuel k node start ;;
      if linked : bool then insert_rotate fuel k node ;;; ret node
      else ret None
  end.

(** Takes two trees and merges them into one while preserving the treap
    invariant. *)
Fixpoint merge_trees (fuel : nat) (left right : option ptr) : M (option ptr) :=
  match fuel with
  | O => spin
  | S f =>
      match left, right with
      | None, _ => ret right
      | _, None => ret left
      | Some _, Some _ =>
          l <- deref left ;;
          r <- deref right ;;
          if priority l >? priority r then
            set_parent right left ;;;
            l' <- deref left ;;
            m <- merge_trees f (node_right l') right ;;
            set_right left m ;;;
            ret left
          else
            set_parent left right ;;;
            r' <- deref right ;;
            m <- merge_trees f left (node_left r') ;;
            set_left right m ;;;
            ret right
      end
  end.

(** The block repeated three times in [delete_node]: the parent of [node]
    (or the root) adopts [repl] in place of [node]. *)
Definition adopt (node : option ptr) (repl : option ptr) : M unit :=
  n <- deref node ;;
  match node_parent n with
  | Some _ =>
      p <- deref (node_parent n) ;;
      if decide (node_left p = node) then set_left (node_parent n) repl
      else set_right (node_parent n) repl
  | None => set_root repl
  end.

(** Unlinks and frees [node].  (The walks of [assert_tree] on the root, on
    entry and on exit, are left out: the tree must not be empty, before or
    after.) *)
Definition delete_node (node : option ptr) : M unit :=
  n <- deref node ;;
  match node_left n with
  | None =>
      adopt node (node_right n) ;;;
      n1 <- deref node ;;
      match node_right n1 with
      | Some _ => set_parent (node_right n1) (node_parent n1)
      | None => ret tt
      end ;;;
      free node
  | Some _ =>
      match node_right n with
      | None =>
          adopt node (node_left n) ;;;
          n1 <- deref node ;;
          set_parent (node_left n1) (node_parent n1) ;;;
          free node
      | Some _ =>
          fuel <- tree_fuel ;;
          children <- merge_trees fuel (node_left n) (node_right n) ;;
          adopt node children ;;;
          n1 <- deref node ;;
          set_parent children (node_parent n1) ;;;
          free node
      end
  end.

(** If a sorted pivot is between two sorted sections, removes the pivot.
    (The walks of [assert_tree] and [assert_tree_flags] are left out.) *)
Definition depivot (left right : option ptr) : M unit :=
  l <- deref left ;;
  (if has_flag (flags l) SORTED_RIGHT then delete_node left else ret tt) ;;;
  r <- deref right ;;
  (if has_flag (flags r) SORTED_LEFT then delete_node right else ret tt).

(** If the value at middle is equal to the value at left, left is removed.
    If the value at middle is equal to the value at right, right is removed.
    Returns 0 on success, or -1 on failure.  (The walks of [assert_tree] and
    [assert_tree_flags] on the root, on entry and before the last return,
    are left out.) *)
Definition uniq_pivots (left middle right : option ptr) : M Z :=
  l <- deref left ;;
  c1 <- (if idx l >=? 0 then
           m <- deref middle ;;
           x <- get_item (idx l) ;;
           y <- get_item (idx m) ;;
           cmp <- ISEQ x y ;;
           if cmp <? 0 then ret (-1)
           else if negb (cmp =? 0) then
             set_flags middle (flags l) ;;; delete_node left ;;; ret 0
           else ret 0
         else ret 0) ;;
  if c1 <? 0 then ret (-1)
  else
    r <- deref right ;;
    sz <- get_size ;;
    if idx r <? sz then
      m <- deref middle ;;
      x <- get_item (idx m) ;;
      y <- get_item (idx r) ;;
      cmp <- ISEQ x y ;;
      if cmp <? 0 then ret (-1)
      else if negb (cmp =? 0) then
        set_flags middle (flags r) ;;; delete_node right ;;; ret 0
      else ret 0
    else ret 0.

(** The loop of [bound_idx]. *)
Fixpoint bound_loop (fuel : nat) (k : Z) (current left right : option ptr)
  : M (option ptr * option ptr) :=
  match fuel with
  | O => spin
  | S f =>
      match current with
      | None => ret (left, right)
      | Some _ =>
          c <- deref current ;;
          if idx c <? k then bound_loop f k (node_right c) current right
          else if idx c >? k then bound_loop f k (node_left c) left current
          else ret (current, right)
      end
  end.

(** Finds PivotNodes left and right that bound the index.  Never returns k
    in right, only in left, if applicable.  (The walks of [assert_tree] and
    [assert_tree_flags] on entry are left out.) *)
Definition bound_idx (k : Z) (rt : option ptr) : M (option ptr * option ptr) :=
  fuel <- tree_fuel ;;
  bound_loop fuel k rt None None.

(** ** Partial sorting of [ob_item] *)

(** [SWAP(i, j)]. *)
Definition SWAP (i j : Z) : M unit :=
  tmp <- get_item i ;;
  x <- get_item j ;;
  set_item i x ;;;
  set_item j tmp.

(** Picks a pivot point among the indices left <= i < right:
    [left + rand() % (right - left)]. *)
Definition pick_pivot (left right : Z) : M Z :=
  r <- rand ;;
  if right - left =? 0 then crash
  else ret (left + Z.rem r (right - left)).

(** The [for] loop of [partition], [n] iterations from [i]; [None] is the
    jump to [fail]. *)
Fixpoint partition_loop (n : nat) (i : Z) (pivot : obj) (last_less : Z)
  : M (option Z) :=
  match n with
  | O => ret (Some last_less)
  | S n' =>
      x <- get_item i ;;
      ltflag <- ISLT x pivot ;;
      if ltflag <? 0 then ret None
      else if negb (ltflag =? 0) then
        SWAP i (last_less + 1) ;;;
        partition_loop n' (i + 1) pivot (last_less + 1)
      else partition_loop n' (i + 1) pivot last_less
  end.

(** Partitions the data between left and right into
    [less than region | greater or equal to region]
    and returns the pivot index, or -1 on error. *)
Definition partition (left right : Z) : M Z :=
  piv_idx <- pick_pivot left right ;;
  pivot <- get_item piv_idx ;;
  SWAP left piv_idx ;;;
  r <- partition_loop (Z.to_nat (right - (left + 1))) (left + 1) pivot left ;;
  match r with
  | Some last_less => SWAP left last_less ;;; ret last_less
  | None => ret (-1)
  end.

(** The inner loop of [insertion_sort]:
    [for (j = i; j > 0 && ISLT(tmp, ob_item[j - 1]); j--)
       ob_item[j] = ob_item[j - 1];]
    started with [n = j]; the result is the final [j].  A comparison that
    fails returns -1, which is true as a C condition. *)
Fixpoint insertion_shift (n : nat) (j : Z) (tmp : obj) : M Z :=
  match n with
  | O => ret j
  | S n' =>
      if j >? 0 then
        x <- get_item (j - 1) ;;
        c <- ISLT tmp x ;;
        if negb (c =? 0) then set_item j x ;;; insertion_shift n' (j - 1) tmp
        else ret j
      else ret j
  end.

(** The outer loop of [insertion_sort], [n] iterations from [i]. *)
Fixpoint insertion_loop (n : nat) (i : Z) : M unit :=
  match n with
  | O => ret tt
  | S n' =>
      tmp <- get_item i ;;
      j <- insertion_shift (Z.to_nat i) i tmp ;;
      set_item j tmp ;;;
      insertion_loop n' (i + 1)
  end.

(** Runs insertion sort on the items left <= i < right. *)
Definition insertion_sort (left right : Z) : M unit :=
  insertion_loop (Z.to_nat (right - left)) left.

(** Runs quicksort on the items left <= i < right; returns 0, or -1 when a
    partition failed.  The recursion depth is at most [right - left]. *)
Fixpoint quick_sort_rec (fuel : nat) (left right : Z) : M Z :=
  match fuel with
  | O => spin
  | S f =>
      if right - left <=? SORT_THRESH then insertion_sort left right ;;; ret 0
      else
        piv_idx <- partition left right ;;
        if piv_idx <? 0 then ret (-1)
        else
          a <- quick_sort_rec f left piv_idx ;;
          if a <? 0 then ret (-1)
          else
            b <- quick_sort_rec f (piv_idx + 1) right ;;
            if b <? 0 then ret (-1) else ret 0
  end.

Definition quick_sort (left right : Z) : M Z :=
  quick_sort_rec (S (Z.to_nat (right - left))) left right.

(** The block repeated in [sort_point] and [find_item]:
    [if (left->right == NULL) middle = insert_pivot(piv_idx, UNSORTED, root, left);
     else middle = insert_pivot(piv_idx, UNSORTED, root, right);]. *)
Definition insert_between (piv_idx : Z) (left right : option ptr) : M (option ptr) :=
  l <- deref left ;;
  match node_right l with
  | None => insert_pivot piv_idx UNSORTED left
  | Some _ => insert_pivot piv_idx UNSORTED right
  end.

(** The quickselect loop of [sort_point].  [inl rc] is a [return rc] from
    inside the loop, [inr (left, right)] the exit through the loop
    condition. *)
Fixpoint quickselect (fuel : nat) (k : Z) (left right : option ptr)
  : M (Z + option ptr * option ptr) :=
  match fuel with
  | O => spin
  | S f =>
      l <- deref left ;;
      r <- deref right ;;
      if idx l + 1 + SORT_THRESH <=? idx r then
        piv_idx <- partition (idx l + 1) (idx r) ;;
        if piv_idx <? k then
          middle <- insert_between piv_idx left right ;;
          match middle with
          | None => ret (inl (-1))
          | Some _ =>
              u <- uniq_pivots left middle right ;;
              if u <? 0 then ret (inl (-1)) else quickselect f k middle right
          end
        else if piv_idx >? k then
          middle <- insert_between piv_idx left right ;;
          match middle with
          | None => ret (inl (-1))
          | Some _ =>
              u <- uniq_pivots left middle right ;;
              if u <? 0 then ret (inl (-1)) else quickselect f k left middle
          end
        else
          middle <- insert_between piv_idx left right ;;
          u <- uniq_pivots left middle right ;;
          if u <? 0 then ret (inl (-1)) else ret (inl 0)
      else ret (inr (left, right))
  end.

(** Fuel of the quickselect loops: every iteration that found a pivot makes
    the region between [left] and [right] smaller. *)
Definition select_fuel : M nat := fun s => Done (S (length (ob_item s))) s.

(** The end of [sort_point] and of the unsorted branch of [find_item]:
    insertion sort of the region, flags, [depivot]. *)
Definition finish_region (left right : option ptr) : M unit :=
  l <- deref left ;;
  r <- deref right ;;
  insertion_sort (idx l + 1) (idx r) ;;;
  l1 <- deref left ;;
  set_flags left (Z.lor (flags l1) SORTED_LEFT) ;;;
  r1 <- deref right ;;
  set_flags right (Z.lor (flags r1) SORTED_RIGHT) ;;;
  depivot left right.

(** Sorts the list sufficiently such that [ob_item[k]] is actually the kth
    value in sorted order.  Returns 0 on success and -1 on error. *)
Definition sort_point (k : Z) : M Z :=
  rt <- get_root ;;
  lr <- bound_idx k rt ;;
  let left := fst lr in
  let right := snd lr in
  l <- deref left ;;
  if idx l =? k then ret 0
  else
    r <- deref right ;;
    if has_flag (flags r) SORTED_RIGHT then ret 0
    else
      fuel <- select_fuel ;;
      q <- quickselect fuel k left right ;;
      match q with
      | inl rc => ret rc
      | inr lr' => finish_region (fst lr') (snd lr') ;;; ret 0
      end.

(** The [while (current->idx < stop)] loop of [sort_range]; returns the
    final [current].  The result of [quick_sort] is not looked at. *)
Fixpoint sort_range_loop (fuel : nat) (stop : Z) (current next : option ptr)
  : M (option ptr) :=
  match fuel with
  | O => spin
  | S f =>
      c <- deref current ;;
      if idx c <? stop then
        (if has_flag (flags c) SORTED_LEFT then ret tt
         else
           n <- deref next ;;
           quick_sort (idx c + 1) (idx n) ;;;
           c1 <- deref current ;;
           set_flags current (Z.lor (flags c1) SORTED_LEFT) ;;;
           n1 <- deref next ;;
           set_flags next (Z.lor (flags n1) SORTED_RIGHT)) ;;;
        c2 <- deref current ;;
        (if has_flag (flags c2) SORTED_RIGHT then delete_node current
         else ret tt) ;;;
        nn <- next_pivot next ;;
        sort_range_loop f stop next nn
      else ret current
  end.

(** Sorts the list sufficiently such that everything between indices start
    and stop is in sorted order.  Returns 0 on success and -1 on error. *)
Definition sort_range (start stop : Z) : M Z :=
  a <- sort_point start ;;
  if a <? 0 then ret (-1)
  else
    b <- sort_point stop ;;
    if b <? 0 then ret (-1)
    else
      rt <- get_root ;;
      cn <- bound_idx start rt ;;
      let current := fst cn in
      c <- deref current ;;
      next <- (if idx c =? start then next_pivot current else ret (snd cn)) ;;
      fuel <- tree_fuel ;;
      current <- sort_range_loop fuel stop current next ;;
      c <- deref current ;;
      (if has_flag (flags c) SORTED_LEFT then delete_node current
       else ret tt) ;;;
      ret 0.

(** The first loop of [find_item]: descent keyed by [ISLT(ob_item[idx], item)];
    [None] is the jump to [fail]. *)
Fixpoint find_descend (fuel : nat) (item : obj) (xs_len : Z)
    (current left right : option ptr) : M (option (option ptr * option ptr)) :=
  match fuel with
  | O => spin
  | S f =>
      match current with
      | None => ret (Some (left, right))
      | Some _ =>
          c <- deref current ;;
          if idx c =? -1 then find_descend f item xs_len (node_right c) current right
          else if idx c =? xs_len then
            find_descend f item xs_len (node_left c) left current
          else
            x <- get_item (idx c) ;;
            ltflag <- ISLT x item ;;
            if ltflag <? 0 then ret None
            else if negb (ltflag =? 0) then
              find_descend f item xs_len (node_right c) current right
            else find_descend f item xs_len (node_left c) left current
      end
  end.

(** The quickselect loop of [find_item]; [inl rc] is a [return rc] from
    inside the loop. *)
Fixpoint find_select (fuel : nat) (item : obj) (left right : option ptr)
  : M (Z + option ptr * option ptr) :=
  match fuel with
  | O => spin
  | S f =>
      l <- deref left ;;
      r <- deref right ;;
      if idx l + 1 + SORT_THRESH <=? idx r then
        piv_idx <- partition (idx l + 1) (idx r) ;;
        x <- get_item piv_idx ;;
        ltflag <- ISLT x item ;;
        if ltflag <? 0 then ret (inl (-2))
        else if negb (ltflag =? 0) then
          middle <- insert_between piv_idx left right ;;
          match middle with
          | None => ret (inl (-2))
          | Some _ =>
              u <- uniq_pivots left middle right ;;
              if u <? 0 then ret (inl (-1)) else find_select f item middle right
          end
        else
          middle <- insert_between piv_idx left right ;;
          match middle with
          | None => ret (inl (-2))
          | Some _ =>
              u <- uniq_pivots left middle right ;;
              if u <? 0 then ret (inl (-1)) else find_select f item left middle
          end
      else ret (inr (left, right))
  end.

(** The scan
    [for (k = left_idx; cmp == 0 && k < right_idx; k++)
       cmp = PyObject_RichCompareBool(item, ob_item[k], Py_EQ);]
    with at most [n] iterations; returns the final [k] and [cmp]. *)
Fixpoint find_scan (n : nat) (item : obj) (k right_idx : Z) (cmp : Z)
  : M (Z * Z) :=
  match n with
  | O => ret (k, cmp)
  | S n' =>
      if (cmp =? 0) && (k <? right_idx) then
        x <- get_item k ;;
        c <- ISEQ item x ;;
        find_scan n' item (k + 1) right_idx c
      else ret (k, cmp)
  end.

(** Returns the first index of item in the list, or -2 on error, or -1 if
    item is not present. *)
Definition find_item (item : obj) : M Z :=
  rt <- get_root ;;
  xs_len <- get_size ;;
  fuel <- tree_fuel ;;
  d <- find_descend fuel item xs_len rt None None ;;
  match d with
  | None => ret (-2)
  | Some lr =>
      let left := fst lr in
      let right := snd lr in
      l <- deref left ;;
      b <- (if has_flag (flags l) SORTED_LEFT then
              r <- deref right ;;
              ret (inr (idx l + 1,
                        if idx r =? xs_len then xs_len else idx r + 1))
            else
              sfuel <- select_fuel ;;
              q <- find_select sfuel item left right ;;
              match q with
              | inl rc => ret (inl rc)
              | inr lr' =>
                  l' <- deref (fst lr') ;;
                  r' <- deref (snd lr') ;;
                  let left_idx := idx l' + 1 in
                  let right_idx :=
                    if idx r' =? xs_len then xs_len else idx r' + 1 in
                  finish_region (fst lr') (snd lr') ;;;
                  ret (inr (left_idx, right_idx))
              end) ;;
      match b with
      | inl rc => ret rc
      | inr bounds =>
          kc <- find_scan (Z.to_nat (snd bounds - fst bounds)) item
                  (fst bounds) (snd bounds) 0 ;;
          if snd kc <? 0 then ret (-2)
          else if snd kc =? 0 then ret (-1)
          else ret (fst kc - 1)
      end
  end.

(** ** The methods of the LazySorted type *)

(** The copy loops of [ls_subscript] and [between]:
    [for (k = start, j = 0; j < n; k += step, j++) result[j] = ob_item[k];]
    with, when [point] is set, a [sort_point(k)] before each copy (the
    non contiguous slice); [None] is the [return NULL] inside the loop. *)
Fixpoint copy_items (n : nat) (point : bool) (k step : Z) : M (option (list obj)) :=
  match n with
  | O => ret (Some [])
  | S n' =>
      rc <- (if point then sort_point k else ret 0) ;;
      if rc <? 0 then ret None
      else
        x <- get_item k ;;
        rest <- copy_items n' point (k + step) step ;;
        ret (option_map (cons x) rest)
  end.

(** [ls_subscript] called with an integer that [PyNumber_AsSsize_t] turned
    into [k]; [None] is the [NULL] result.  The test
    [k == -1 && PyErr_Occurred()] looks at the error indicator as the call
    finds it; an index out of range sets [IndexError]. *)
Definition ls_subscript (k : Z) : M (option obj) :=
  xs_len <- get_size ;;
  e <- err_occurred ;;
  if (k =? -1) && e then ret None
  else
    let k := if k <? 0 then k + xs_len else k in
    if (k <? 0) || (k >=? xs_len) then set_err ;;; ret None
    else
      rc <- sort_point k ;;
      if rc <? 0 then ret None
      else x <- get_item k ;; ret (Some x).

(** [ls_subscript] called with a slice, after [PySlice_GetIndicesEx] has
    produced [start], [stop], [step] and [slicelength]. *)
Definition ls_subscript_slice (start stop step slicelength : Z)
  : M (option (list obj)) :=
  if slicelength <=? 0 then ret (Some [])
  else if (- CONTIG_THRESH <=? step) && (step <=? CONTIG_THRESH) then
    let left := if start <? stop then start else stop in
    let right := if start <? stop then stop else start in
    let left := if step <? 0 then left + 1 else left in
    let right := if step <? 0 then right + 1 else right in
    rc <- sort_range left right ;;
    if rc <? 0 then ret None
    else copy_items (Z.to_nat slicelength) false start step
  else copy_items (Z.to_nat slicelength) true start step.

(** Returns (possibly unsorted) data in a specified contiguous range. *)
Definition between (left right : Z) : M (option (list obj)) :=
  xlen <- get_size ;;
  let left := if left <? 0 then left + xlen
              else if left >? xlen then xlen else left in
  let right := if right <? 0 then right + xlen
               else if right >? xlen then xlen else right in
  if (left >=? right) || (right <=? 0) then ret (Some [])
  else
    a <- (if negb (left =? 0) then sort_point left else ret 0) ;;
    if a <? 0 then ret None
    else
      b <- (if negb (right =? xlen) then sort_point right else ret 0) ;;
      if b <? 0 then ret None
      else copy_items (Z.to_nat (right - left)) false left 1.

(** Results of [ls_index]: the index, the [ValueError] raised for an item
    that is not in the list, or [NULL] with the error of the comparison. *)
Inductive index_result : Type :=
| Index (k : Z)
| NotInList
| IndexFailed.

Definition ls_index (item : obj) : M index_result :=
  index <- find_item item ;;
  if index =? -2 then ret IndexFailed
  else if index =? -1 then ret NotInList
  else ret (Index index).

(** The first loop of [ls_count]:
    [for (cmp = 1; right->idx < xs_len && cmp; right = next_pivot(right))]. *)
Fixpoint count_bound (fuel : nat) (item : obj) (xs_len : Z)
    (right : option ptr) (cmp : Z) : M (option (option ptr)) :=
  match fuel with
  | O => spin
  | S f =>
      r <- deref right ;;
      if (idx r <? xs_len) && negb (cmp =? 0) then
        x <- get_item (idx r) ;;
        c <- ISEQ item x ;;
        if c <? 0 then ret None
        else
          nx <- next_pivot right ;;
          count_bound f item xs_len nx c
      else ret (Some right)
  end.

(** The second loop of [ls_count]: [for (k++; k < right->idx; k++)]. *)
Fixpoint count_scan (n : nat) (item : obj) (k : Z) (count : Z) : M (option Z) :=
  match n with
  | O => ret (Some count)
  | S n' =>
      x <- get_item k ;;
      c <- ISEQ item x ;;
      if c <? 0 then ret None
      else count_scan n' item (k + 1) (if negb (c =? 0) then count + 1 else count)
  end.

Definition ls_count (item : obj) : M (option Z) :=
  k <- find_item item ;;
  if k =? -2 then ret None
  else if k =? -1 then ret (Some 0)
  else
    rt <- get_root ;;
    lr <- bound_idx k rt ;;
    right <- (match snd lr with
              | None => next_pivot (fst lr)
              | Some _ => ret (snd lr)
              end) ;;
    xs_len <- get_size ;;
    fuel <- tree_fuel ;;
    b <- count_bound fuel item xs_len right 1 ;;
    match b with
    | None => ret None
    | Some right' =>
        r <- deref right' ;;
        count_scan (Z.to_nat (idx r - (k + 1))) item (k + 1) 1
    end.

Definition ls_contains (item : obj) : M Z :=
  i <- find_item item ;;
  if i =? -2 then ret (-1)
  else if i =? -1 then ret 0
  else ret 1.

(** The traversal of [ls_pivots]: the pairs [(idx, flags)] in order. *)
Fixpoint pivots_from (fuel : nat) (curr : option ptr) : M (list (Z * Z)) :=
  match fuel with
  | O => spin
  | S f =>
      match curr with
      | None => ret []
      | Some _ =>
          c <- deref curr ;;
          nx <- next_pivot curr ;;
          rest <- pivots_from f nx ;;
          ret ((idx c, flags c) :: rest)
      end
  end.

Definition ls_pivots : M (list (Z * Z)) :=
  rt <- get_root ;;
  fuel <- tree_fuel ;;
  first <- leftmost fuel rt ;;
  pivots_from fuel first.

Definition ls_length : M Z := get_size.

(** [newLSObject] followed by [LS_init]: the empty tree receives the pivot
    -1, the list is filled, and the pivot [Py_SIZE] is inserted. *)
Definition fresh : state := mkState [] None ∅ 1%positive 0%nat 0%nat false.

Definition set_list (l : list obj) : M unit :=
  fun s => Done tt (mkState l (root s) (mem s) (brk s) (rnd s) (ncmp s) (pyerr s)).

Definition LS_new (l : list obj) : M bool :=
  rt <- get_root ;;
  a <- insert_pivot (-1) UNSORTED rt ;;
  match a with
  | None => ret false
  | Some _ =>
      set_list l ;;;
      n <- get_size ;;
      rt' <- get_root ;;
      b <- insert_pivot n UNSORTED rt' ;;
      match b with
      | None => ret false
      | Some _ => ret true
      end
  end.

(** ** Specification predicates *)

(** Invariant 3 at position [p]: no element before [p] is greater than
    [ob_item[p]] and no element after [p] is smaller. *)
Definition order_statistic (a : list obj) (p : Z) : Prop :=
  forall x, item_at a p = Some x ->
    (forall i y, i < p -> item_at a i = Some y -> RichCompare_LT x y = 0) /\
    (forall i y, p < i -> item_at a i = Some y -> RichCompare_LT y x = 0).

(** [a'] has the length of [a] and the same items outside [lo, hi). *)
Definition same_outside (a a' : list obj) (lo hi : Z) : Prop :=
  length a' = length a /\
  forall j, ~ (lo <= j < hi) -> item_at a' j = item_at a j.

(** [x] is not smaller than the item just before position [lo] of [a]. *)
Definition above_boundary (a : list obj) (lo : Z) (x : obj) : Prop :=
  forall b, item_at a (lo - 1) = Some b -> RichCompare_LT x b = 0.

(** The loop invariant of [insertion_sort] on the region [lo, hi) of [a0]:
    nothing changed outside the region, and the items of the region are
    still not smaller than the item before the region. *)
Definition frame_inv (a0 : list obj) (lo hi : Z) (a : list obj) : Prop :=
  same_outside a0 a lo hi /\
  forall i x, lo <= i < hi -> item_at a i = Some x -> above_boundary a0 lo x.

(** The state [s] with another store, another root. *)
Definition set_mem (h : gmap ptr PivotNode) (s : state) : state :=
  mkState (ob_item s) (root s) h (brk s) (rnd s) (ncmp s) (pyerr s).
Definition with_root (r : option ptr) (s : state) : state :=
  mkState (ob_item s) r (mem s) (brk s) (rnd s) (ncmp s) (pyerr s).

(** The store and the root of [s] hold the tree [t]; the allocator has not
    yet handed out an address above those of [t]. *)
Definition holds_tree (s : state) (t : tree) : Prop :=
  repr (mem s) None t /\ root s = root_of t /\ NoDup (ptrs t) /\
  Forall (fun p => (p < brk s)%positive) (ptrs t).

(** Everything but the store and the root is as it was. *)
Definition same_list (s s' : state) : Prop :=
  ob_item s' = ob_item s /\ brk s' = brk s /\ rnd s' = rnd s /\
  ncmp s' = ncmp s /\ pyerr s' = pyerr s.

(** Every item of the region [lo, hi) of [a'] is an item of the region of
    [a]. *)
Definition region_from (a a' : list obj) (lo hi : Z) : Prop :=
  forall i x, lo <= i < hi -> item_at a' i = Some x ->
    exists j, lo <= j < hi /\ item_at a j = Some x.

(** [a'] is [a] with the items of the region [lo, hi) rearranged. *)
Definition shuffled (a a' : list obj) (lo hi : Z) : Prop :=
  same_outside a a' lo hi /\ a' ≡ₚ a /\ region_from a a' lo hi.

(** The items of the region [lo, hi) are in nondecreasing order: none
    compares less than an earlier one. *)
Definition sorted_region (a : list obj) (lo hi : Z) : Prop :=
  forall i j x y, lo <= i -> i < j -> j < hi ->
    item_at a i = Some x -> item_at a j = Some y -> RichCompare_LT y x = 0.

(** No item of the region [lo, hi) compares less than the item just before
    the region (if there is one). *)
Definition bounded_below (a : list obj) (lo hi : Z) : Prop :=
  forall b, item_at a (lo - 1) = Some b ->
    forall i x, lo <= i < hi -> item_at a i = Some x -> RichCompare_LT x b = 0.

(** The tree and the allocator are as they were. *)
Definition tree_untouched (s s' : state) : Prop :=
  root s' = root s /\ mem s' = mem s /\ brk s' = brk s.

(** The allocator has handed out no address from [brk] on. *)
Definition fresh_above (s : state) : Prop :=
  forall q : ptr, (brk s <= q)%positive -> mem s !! q = None.

(** A computation that keeps this. *)
Definition keeps_fresh {A} (m : M A) : Prop :=
  forall s a s', fresh_above s -> m s = Done a s' -> fresh_above s'.

(** Two neighbouring pivots [x] and [y]: SORTED_LEFT on [x] goes with
    SORTED_RIGHT on [y] (what [assert_tree_flags] checks), and then the
    items between them are in order. *)
Definition pair_ok (a : list obj) (x y : ptr * (Z * Z)) : Prop :=
  has_flag x.2.2 SORTED_LEFT = has_flag y.2.2 SORTED_RIGHT /\
  (has_flag y.2.2 SORTED_RIGHT = true -> sorted_region a (x.2.1 + 1) y.2.1).

Fixpoint pairs_ok (a : list obj) (ps : list (ptr * (Z * Z))) : Prop :=
  match ps with
  | [] => True
  | x :: tl =>
      match tl with
      | [] => True
      | y :: _ => pair_ok a x y
      end /\ pairs_ok a tl
  end.

(** The pivots [ps], in order, over the list [a]: the first is the sentinel
    -1 and the last the sentinel [len(a)], neither flagged towards the
    outside; every pivot is at an order statistic; the flags of neighbours
    describe the sorted regions. *)
Definition pivots_inv (a : list obj) (ps : list (ptr * (Z * Z))) : Prop :=
  (exists p0 f0, head ps = Some (p0, (-1, f0)) /\
                 has_flag f0 SORTED_RIGHT = false) /\
  (exists pN fN, last ps = Some (pN, (Z.of_nat (length a), fN)) /\
                 has_flag fN SORTED_LEFT = false) /\
  Forall (fun x => order_statistic a x.2.1) ps /\
  pairs_ok a ps.

(** A computation that leaves the error indicator as it finds it. *)
Definition keeps_err {A} (m : M A) : Prop :=
  forall s a s', m s = Done a s' -> pyerr s' = pyerr s.

(** The invariant of a LazySorted object. *)
Definition lazy_inv (s : state) (t : tree) : Prop :=
  holds_tree s t /\ bst t /\ fresh_above s /\ pivots_inv (ob_item s) (inorder t).


End LazySorted.

Arguments Done {obj A} a s.
Arguments Crash {obj A}.
Arguments Spin {obj A}.
Arguments bind {obj A B} m k s.
Arguments ret {obj A} a s.
Arguments keeps_fresh {obj A} m.
Arguments keeps_err {obj A} m.

Notation "x <- m ;; k" := (bind m (fun x => k))
  (at level 100, m at next level, right associativity).
Notation "m ;;; k" := (bind m (fun _ => k))
  (at level 100, right associativity).

(** The value returned by a run, if it returns. *)
Definition returned {obj A} (o : outcome obj A) : option A :=
  match o with
  | Done a _ => Some a
  | _ => None
  end.

(** The state a run ends in, if it returns. *)
Definition final {obj A} (o : outcome obj A) : option (state obj) :=
  match o with
  | Done _ s => Some s
  | _ => None
  end.

(** ** Concrete lists

    Lists of integers compared as integers; [picky_lt bx bp] is the [<] of a
    class whose [__lt__] raises when [bx] is compared with [bp]. *)

Definition int_lt (x y : Z) : Z := if x <? y then 1 else 0.
Definition int_eq (x y : Z) : Z := if x =? y then 1 else 0.
Definition picky_lt (bx bp : Z) (x y : Z) : Z :=
  if (x =? bx) && (y =? bp) then -1 else int_lt x y.

(** Two streams for [rand()]. *)
Definition rand_a (n : nat) : Z := (Z.of_nat n * 7919 + 13) mod 32768.
Definition rand_b (n : nat) : Z := (32000 + Z.of_nat n * 7919) mod 32768.

(** The values suggested for [params.h]. *)
Definition sort_thresh : Z := 16.
Definition contig_thresh : Z := 8.

(** Thirty-two equal items. *)
Definition ones : list Z := repeat 1 32.

(** The numbers 0..99 in a scrambled order. *)
Definition scrambled : list Z :=
  map (fun i => (Z.of_nat i * 37 + 11) mod 100) (seq 0 100).

(** [LazySorted(l)]. *)
Definition built (rnd : nat -> Z) (l : list Z) : outcome Z bool :=
  LS_new Z rnd l (fresh Z).

(** The state of a freshly built [LazySorted(l)]. *)
Definition built_state (rnd : nat -> Z) (l : list Z) : state Z :=
  match built rnd l with
  | Done _ s => s
  | _ => fresh Z
  end.

(** The state a run ends in, or the initial state when it does not return. *)
Definition state_after {A} (m : M Z A) (s : state Z) : state Z :=
  match m s with
  | Done _ s' => s'
  | _ => s
  end.

(** [ls[k]] on integers, with the threshold [T]. *)
Definition get (T : Z) (k : Z) : M Z (option Z) :=
  ls_subscript Z int_lt int_eq rand_a T k.

(** A list of five items on which a partition fails halfway. *)
Definition five : list Z := [5; 3; 7; 1; 9].
Definition five_state : state Z := built_state rand_a five.
Definition five_torn : state Z :=
  state_after (partition Z (picky_lt 9 3) rand_a 0 5) five_state.

(** The same five items between a smaller and a larger one. *)
Definition seven : list Z := [0; 5; 3; 7; 1; 9; 10].
Definition seven_state : state Z := built_state rand_a seven.

(** The scrambled list after [ls[20]]: pivots at -1, 4, 18, 21, 30, 36, 43,
    98 and 100; the pivot 36 (at address 5) has the pivot 43 (at address 4)
    as its right child. *)
Definition tree_state : state Z :=
  state_after (get sort_thresh 20) (built_state rand_a scrambled).
Definition pivot_36 : PivotNode :=
  mkNode 36 0 22678 (Some 7%positive) (Some 4%positive) (Some 3%positive).

(** A list whose position 0 holds its minimum. *)
Definition six_state : state Z := built_state rand_a [1; 5; 3; 4; 2; 9].

(** The list of five after a partition of the whole list. *)
Definition five_split : state Z :=
  state_after (partition Z int_lt rand_a 0 5) five_state.

(** The scrambled list as a new object, and the pivot tree of [tree_state]. *)
Definition scrambled_state : state Z := built_state rand_a scrambled.
Definition scrambled_tree : tree :=
  Node (Node (Node (Node (Node (Node Leaf 1%positive (-1) 0 13 Leaf)
                               6%positive 4 0 5748 Leaf)
                         9%positive 18 2 20494
                         (Node Leaf 8%positive 21 1 4656 Leaf))
                   7%positive 30 0 21586 Leaf)
             5%positive 36 0 22678 (Node Leaf 4%positive 43 0 6840 Leaf))
       3%positive 98 0 23770 (Node Leaf 2%positive 100 0 7932 Leaf).


(** * Properties *)

(** ** Trees held by a store *)

Section Shape.

Implicit Types (h : gmap ptr PivotNode) (t l r : tree) (c : list frame).
Implicit Types (par q : option ptr) (p : ptr) (n : PivotNode).

Lemma repr_plug h par c t :
  repr h par (plug c t) <->
  repr_ctx h par c (root_of t) /\ repr h (hole_parent c par) t.
Proof.
  revert t. induction c as [|[p i f pr r|l p i f pr] c IH]; intros t; simpl.
  - tauto.
  - rewrite IH. simpl. destruct c as [|[]]; simpl; tauto.
  - rewrite IH. simpl. destruct c as [|[]]; simpl; tauto.
Qed.

Lemma inorder_plug c t :
  inorder (plug c t) = ctx_before c ++ inorder t ++ ctx_after c.
Proof.
  revert t. induction c as [|[p i f pr r|l p i f pr] c IH]; intros t; simpl.
  - by rewrite app_nil_r.
  - rewrite IH. simpl. rewrite <- ?app_assoc. simpl. by rewrite <- ?app_assoc.
  - rewrite IH. simpl. rewrite <- ?app_assoc. simpl. by rewrite <- ?app_assoc.
Qed.

Lemma root_of_plug c t : root_of (plug c t) = top_of c (root_of t).
Proof.
  revert t. induction c as [|[] c IH]; intros t; simpl; [done|..]; by rewrite IH.
Qed.

Lemma elem_of_ptrs_Node p l p' i f pr r :
  p ∈ ptrs (Node l p' i f pr r) <-> p ∈ ptrs l \/ p = p' \/ p ∈ ptrs r.
Proof.
  unfold ptrs. simpl. rewrite fmap_app, elem_of_app. simpl.
  by rewrite elem_of_cons.
Qed.

Lemma elem_of_ctx_ptrs_InLeft p' p i f pr r c :
  p' ∈ ctx_ptrs (InLeft p i f pr r :: c) <->
  p' = p \/ p' ∈ ptrs r \/ p' ∈ ctx_ptrs c.
Proof.
  unfold ctx_ptrs, ptrs. simpl. rewrite !fmap_app. simpl.
  rewrite !elem_of_app, elem_of_cons, fmap_app, elem_of_app. tauto.
Qed.

Lemma elem_of_ctx_ptrs_InRight p' l p i f pr c :
  p' ∈ ctx_ptrs (InRight l p i f pr :: c) <->
  p' = p \/ p' ∈ ptrs l \/ p' ∈ ctx_ptrs c.
Proof.
  unfold ctx_ptrs, ptrs. simpl. rewrite !fmap_app. simpl.
  rewrite !elem_of_app, list_elem_of_singleton. tauto.
Qed.

Lemma repr_ext h h' par t :
  (forall p, p ∈ ptrs t -> h' !! p = h !! p) -> repr h par t -> repr h' par t.
Proof.
  revert par. induction t as [|l IHl p' i f pr r IHr]; intros par Hsame; [done|].
  setoid_rewrite elem_of_ptrs_Node in Hsame.
  intros (Hn & Hl & Hr). simpl. split; [|split].
  - rewrite Hsame; [done|tauto].
  - apply IHl; [|done]. intros p Hp. apply Hsame. tauto.
  - apply IHr; [|done]. intros p Hp. apply Hsame. tauto.
Qed.

Lemma repr_ctx_ext h h' par c q :
  (forall p, p ∈ ctx_ptrs c -> h' !! p = h !! p) ->
  repr_ctx h par c q -> repr_ctx h' par c q.
Proof.
  revert q. induction c as [|[p i f pr r|l p i f pr] c IH]; intros q Hsame; [done|..].
  - setoid_rewrite elem_of_ctx_ptrs_InLeft in Hsame.
    intros (Hn & Hr & Hc). simpl. split; [|split].
    + rewrite Hsame; [done|tauto].
    + eapply repr_ext; [|done]. intros p' Hp. apply Hsame. tauto.
    + apply IH; [|done]. intros p' Hp. apply Hsame. tauto.
  - setoid_rewrite elem_of_ctx_ptrs_InRight in Hsame.
    intros (Hn & Hl & Hc). simpl. split; [|split].
    + rewrite Hsame; [done|tauto].
    + eapply repr_ext; [|done]. intros p' Hp. apply Hsame. tauto.
    + apply IH; [|done]. intros p' Hp. apply Hsame. tauto.
Qed.

Lemma ptrs_plug c t : ptrs (plug c t) ≡ₚ ptrs t ++ ctx_ptrs c.
Proof.
  unfold ptrs, ctx_ptrs. rewrite inorder_plug, !fmap_app.
  rewrite (Permutation_app_comm (fst <$> ctx_before c)).
  rewrite <- app_assoc. apply Permutation_app_head, Permutation_app_comm.
Qed.

Lemma plug_app c1 c2 t : plug (c1 ++ c2) t = plug c2 (plug c1 t).
Proof. revert t. induction c1 as [|[] c1 IH]; intros t; simpl; [done|..]; apply IH. Qed.

(** Every pivot of a tree sits at the hole of some path. *)
Lemma find_ctx t p x :
  (p, x) ∈ inorder t ->
  exists c l pr r, t = plug c (Node l p x.1 x.2 pr r).
Proof.
  induction t as [|l IHl p' i f pr r IHr]; simpl; [by intros ?%elem_of_nil|].
  rewrite elem_of_app, elem_of_cons. intros [Hl|[Heq|Hr]].
  - destruct (IHl Hl) as (c & l0 & pr0 & r0 & ->).
    exists (c ++ [InLeft p' i f pr r]), l0, pr0, r0. by rewrite plug_app.
  - injection Heq as -> ->. by exists [], l, pr, r.
  - destruct (IHr Hr) as (c & l0 & pr0 & r0 & ->).
    exists (c ++ [InRight l p' i f pr]), l0, pr0, r0. by rewrite plug_app.
Qed.

Lemma ptrs_Node l p i f pr r : ptrs (Node l p i f pr r) = ptrs l ++ p :: ptrs r.
Proof. unfold ptrs. simpl. by rewrite fmap_app. Qed.

Lemma NoDup_plug_Node c l p i f pr r :
  NoDup (ptrs (plug c (Node l p i f pr r))) ->
  (p ∉ ptrs l) /\ (p ∉ ptrs r) /\ (p ∉ ctx_ptrs c) /\
  (forall x, x ∈ ptrs l -> (x ∉ ptrs r) /\ (x ∉ ctx_ptrs c)) /\
  (forall x, x ∈ ptrs r -> x ∉ ctx_ptrs c) /\
  NoDup (ptrs l) /\ NoDup (ptrs r) /\ NoDup (ctx_ptrs c).
Proof.
  rewrite ptrs_plug, ptrs_Node.
  rewrite !NoDup_app, NoDup_cons. setoid_rewrite elem_of_app.
  setoid_rewrite elem_of_cons. naive_solver.
Qed.


Lemma bst_node (A B : list (ptr * (Z * Z))) (l r : tree) (p : ptr) (i f : Z) :
  StronglySorted Z.lt
    ((fun x => x.2.1) <$> (A ++ (inorder l ++ (p, (i, f)) :: inorder r) ++ B)) ->
  Forall (fun x => x.2.1 < i) (inorder l) /\
  Forall (fun x => i < x.2.1) (inorder r).
Proof.
  rewrite !fmap_app, fmap_cons. intros Hs.
  apply StronglySorted_app_1_r, StronglySorted_app_1_l in Hs.
  apply StronglySorted_app in Hs as (Hlr & _ & Hr).
  apply StronglySorted_cons in Hr as [Hr _].
  split; apply Forall_forall.
  - intros x Hx. apply (Hlr x.2.1 i).
    + apply list_elem_of_fmap. eauto.
    + simpl. apply elem_of_cons. by left.
  - intros x Hx. rewrite Forall_forall in Hr. apply Hr.
    apply list_elem_of_fmap. eauto.
Qed.


Lemma repr_lookup h par t p x :
  repr h par t -> (p, x) ∈ inorder t ->
  exists n, h !! p = Some n /\ idx n = x.1 /\ flags n = x.2.
Proof.
  intros Hr Hin. destruct (find_ctx t p x Hin) as (c & l & pr & r & ->).
  apply repr_plug in Hr as [_ Hr]. destruct Hr as (Hn & _). eauto.
Qed.

Lemma filter_none {A} (P : A -> Prop) `{forall x, Decision (P x)} (xs : list A) :
  Forall (fun x => ~ P x) xs -> filter P xs = [].
Proof.
  induction 1 as [|x xs Hx _ IH]; [done|]. by rewrite filter_cons_False.
Qed.

Lemma filter_all {A} (P : A -> Prop) `{forall x, Decision (P x)} (xs : list A) :
  Forall P xs -> filter P xs = xs.
Proof.
  induction 1 as [|x xs Hx _ IH]; [done|]. rewrite filter_cons_True by done.
  by rewrite IH.
Qed.

Lemma last_ptr_app_cons xs x ys d :
  last_ptr (xs ++ x :: ys) d = last_ptr ys (Some x.1).
Proof.
  unfold last_ptr. rewrite last_app, last_cons. by destruct (last ys).
Qed.

Lemma bound_tree_found k t L R p f :
  bst t -> (p, (k, f)) ∈ inorder t -> (bound_tree k t L R).1 = Some p.
Proof.
  revert L R. induction t as [|l IHl p' i f' pr r IHr]; intros L R Hs;
    simpl; [by intros ?%elem_of_nil|].
  pose proof (bst_node [] [] l r p' i f') as Hnode. simpl in Hnode.
  rewrite app_nil_r in Hnode. destruct (Hnode Hs) as [Hl Hr].
  unfold bst, keys in Hs. simpl in Hs. rewrite fmap_app in Hs.
  pose proof (StronglySorted_app_1_l _ _ _ Hs) as Hsl.
  apply StronglySorted_app_1_r in Hs. simpl in Hs.
  apply StronglySorted_cons in Hs as [_ Hsr].
  rewrite elem_of_app, elem_of_cons. intros [Hin|[Heq|Hin]].
  - rewrite Forall_forall in Hl. specialize (Hl _ Hin). simpl in Hl.
    destruct (Z.ltb_spec i k); [lia|]. destruct (Z.gtb_spec i k); [|lia].
    by apply IHl.
  - injection Heq as -> -> ->.
    destruct (Z.ltb_spec i i); [lia|]. destruct (Z.gtb_spec i i); [lia|]. done.
  - rewrite Forall_forall in Hr. specialize (Hr _ Hin). simpl in Hr.
    destruct (Z.ltb_spec i k); [|lia]. by apply IHr.
Qed.

Lemma bound_tree_between k t L R :
  bst t -> k ∉ keys t ->
  bound_tree k t L R
  = (last_ptr (below k (inorder t)) L, head_ptr (above k (inorder t)) R).
Proof.
  revert L R. induction t as [|l IHl p i f pr r IHr]; intros L R Hs Hk; [done|].
  pose proof (bst_node [] [] l r p i f) as Hnode. simpl in Hnode.
  rewrite app_nil_r in Hnode. destruct (Hnode Hs) as [Hl Hr].
  unfold bst, keys in Hs, Hk. simpl in Hs, Hk. rewrite fmap_app in Hs, Hk.
  pose proof (StronglySorted_app_1_l _ _ _ Hs) as Hsl.
  apply StronglySorted_app_1_r in Hs. simpl in Hs, Hk.
  apply StronglySorted_cons in Hs as [_ Hsr].
  rewrite elem_of_app, elem_of_cons in Hk.
  simpl. unfold below, above. rewrite !filter_app, !filter_cons. simpl.
  destruct (Z.ltb_spec i k) as [Hlt|Hge].
  - (* everything in [l] and the node are below [k] *)
    rewrite IHr by (unfold keys; tauto).
    rewrite decide_True by done. rewrite (decide_False (P := k < i)) by lia.
    rewrite last_ptr_app_cons. f_equal.
    assert (filter (fun x => k < x.2.1) (inorder l) = []) as ->; [|done].
    apply filter_none. eapply Forall_impl; [exact Hl|].
    simpl. intros. lia.
  - destruct (Z.gtb_spec i k) as [Hgt|Hle]; [|lia].
    rewrite IHl by (unfold keys; tauto).
    rewrite decide_False by lia. rewrite (decide_True (P := k < i)) by lia.
    assert (filter (fun x => x.2.1 < k) (inorder r) = []) as ->.
    { apply filter_none. eapply Forall_impl; [exact Hr|].
      simpl. intros. lia. }
    rewrite app_nil_r. f_equal. unfold below, above.
    destruct (filter (fun x => k < x.2.1) (inorder l)); done.
Qed.


Lemma sorted_split (xs ys : list (ptr * (Z * Z))) (a : ptr * (Z * Z)) :
  StronglySorted Z.lt ((fun x => x.2.1) <$> (xs ++ a :: ys)) ->
  Forall (fun x => x.2.1 < a.2.1) xs /\ Forall (fun x => a.2.1 < x.2.1) ys.
Proof.
  rewrite fmap_app, fmap_cons. intros Hs.
  apply StronglySorted_app in Hs as (Hlr & _ & Hr).
  apply StronglySorted_cons in Hr as [Hr _].
  split; apply Forall_forall.
  - intros x Hx. apply (Hlr x.2.1 a.2.1).
    + apply list_elem_of_fmap. eauto.
    + apply elem_of_cons. by left.
  - intros x Hx. rewrite Forall_forall in Hr. apply Hr.
    apply list_elem_of_fmap. eauto.
Qed.

(** Around two neighbours [a] and [b] of a sorted list of pivots: what lies
    below and above an index strictly between them. *)
Lemma neighbours_split (xs ys : list (ptr * (Z * Z))) (a b : ptr * (Z * Z)) (k : Z) :
  StronglySorted Z.lt ((fun x => x.2.1) <$> (xs ++ a :: b :: ys)) ->
  a.2.1 < k < b.2.1 ->
  below k (xs ++ a :: b :: ys) = xs ++ [a] /\
  above k (xs ++ a :: b :: ys) = b :: ys /\
  k ∉ (fun x => x.2.1) <$> (xs ++ a :: b :: ys).
Proof.
  intros Hs Hk. destruct (sorted_split xs (b :: ys) a Hs) as [Hxs Hab].
  replace (xs ++ a :: b :: ys) with ((xs ++ [a]) ++ b :: ys) in Hs
    by (by rewrite <- app_assoc).
  destruct (sorted_split (xs ++ [a]) ys b Hs) as [_ Hys].
  assert (Forall (fun x => x.2.1 < k) xs) as Hxk.
  { eapply Forall_impl; [exact Hxs|]. simpl. intros. lia. }
  assert (Forall (fun x => k < x.2.1) ys) as Hyk.
  { eapply Forall_impl; [exact Hys|]. simpl. intros. lia. }
  unfold below, above. rewrite !filter_app, !filter_cons.
  rewrite (decide_True (P := a.2.1 < k)) by lia.
  rewrite (decide_False (P := b.2.1 < k)) by lia.
  rewrite (decide_False (P := k < a.2.1)) by lia.
  rewrite (decide_True (P := k < b.2.1)) by lia.
  rewrite (filter_all _ xs Hxk), (filter_all _ ys Hyk).
  rewrite (filter_none (fun x => x.2.1 < k) ys),
          (filter_none (fun x => k < x.2.1) xs).
  - split; [done|]. split; [done|].
    rewrite fmap_app, !fmap_cons, elem_of_app, !elem_of_cons,
      !list_elem_of_fmap.
    intros [(x & -> & Hx)|[->|[->|(y & -> & Hy)]]]; try lia.
    + rewrite Forall_forall in Hxk. specialize (Hxk _ Hx). lia.
    + rewrite Forall_forall in Hyk. specialize (Hyk _ Hy). lia.
  - eapply Forall_impl; [exact Hxk|]. simpl. intros. lia.
  - eapply Forall_impl; [exact Hyk|]. simpl. intros. lia.
Qed.


Lemma split_unique (xs xs' ys ys' : list (ptr * (Z * Z))) (p : ptr) (a a' : Z * Z) :
  NoDup (fst <$> (xs ++ (p, a) :: ys)) ->
  xs ++ (p, a) :: ys = xs' ++ (p, a') :: ys' ->
  xs = xs' /\ a = a' /\ ys = ys'.
Proof.
  revert xs'. induction xs as [|x xs IH]; intros xs' Hnd Heq.
  - destruct xs' as [|x' xs'].
    + simpl in Heq. injection Heq as -> ->. done.
    + simpl in Heq. injection Heq as <- ->. simpl in Hnd.
      apply NoDup_cons in Hnd as [Hnot _]. exfalso. apply Hnot.
      rewrite fmap_app, elem_of_app, fmap_cons, elem_of_cons. simpl. tauto.
  - destruct xs' as [|x' xs'].
    + simpl in Heq. injection Heq as -> Heq. simpl in Hnd.
      apply NoDup_cons in Hnd as [Hnot _]. exfalso. apply Hnot.
      rewrite fmap_app, elem_of_app, fmap_cons, elem_of_cons. simpl. tauto.
    + simpl in Heq. injection Heq as -> Heq. simpl in Hnd.
      apply NoDup_cons in Hnd as [_ Hnd].
      destruct (IH xs' Hnd Heq) as (-> & -> & ->). done.
Qed.

Lemma ptrs_plug_flags c l p i f f' pr r :
  ptrs (plug c (Node l p i f' pr r)) = ptrs (plug c (Node l p i f pr r)).
Proof. unfold ptrs. rewrite !inorder_plug. simpl. by rewrite !fmap_app. Qed.

Lemma keys_plug_flags c l p i f f' pr r :
  keys (plug c (Node l p i f' pr r)) = keys (plug c (Node l p i f pr r)).
Proof. unfold keys. rewrite !inorder_plug. simpl. by rewrite !fmap_app. Qed.


Lemma plug_insert_ctx k u c : plug (insert_ctx k u c) Leaf = plug c u.
Proof.
  revert c. induction u as [|l IHl p i f pr r IHr]; intros c; simpl; [done|].
  destruct (i <? k); [by rewrite IHr|by rewrite IHl].
Qed.

Lemma keys_Node l p i f pr r : keys (Node l p i f pr r) = keys l ++ i :: keys r.
Proof. unfold keys. simpl. by rewrite fmap_app. Qed.

Lemma on_path_insert_ctx k u c :
  k ∉ keys u -> Forall (on_path k) c -> Forall (on_path k) (insert_ctx k u c).
Proof.
  revert c. induction u as [|l IHl p i f pr r IHr]; intros c Hk Hc; simpl; [done|].
  rewrite keys_Node, elem_of_app, elem_of_cons in Hk.
  destruct (Z.ltb_spec i k).
  - apply IHr; [tauto|]. constructor; [done|done].
  - apply IHl; [tauto|]. constructor; [simpl; lia|done].
Qed.

Lemma insert_ctx_length k u c :
  (length (insert_ctx k u c) <= length (inorder u) + length c)%nat.
Proof.
  revert c. induction u as [|l IHl p i f pr r IHr]; intros c; simpl; [lia|].
  rewrite length_app. simpl. destruct (i <? k).
  - specialize (IHr (InRight l p i f pr :: c)). simpl in IHr. lia.
  - specialize (IHl (InLeft p i f pr r :: c)). simpl in IHl. lia.
Qed.

Lemma insert_ctx_cons k u c :
  u <> Leaf \/ c <> [] -> insert_ctx k u c <> [].
Proof.
  revert c. induction u as [|l IHl p i f pr r IHr]; intros c H; simpl.
  - by destruct H.
  - destruct (i <? k); [apply IHr|apply IHl]; by right.
Qed.

Lemma inorder_rotate_ctx c a p k fl pr b :
  inorder (rotate_ctx c a p k fl pr b) = inorder (plug c (Node a p k fl pr b)).
Proof.
  revert a b. induction c as [|[q i f ppr r|l q i f ppr] c IH]; intros a b; simpl; [done|..].
  - destruct (pr >? ppr); [|done]. rewrite IH, !inorder_plug. simpl.
    rewrite <- ?app_assoc. simpl. by rewrite <- ?app_assoc.
  - destruct (pr >? ppr); [|done]. rewrite IH, !inorder_plug. simpl.
    rewrite <- ?app_assoc. simpl. by rewrite <- ?app_assoc.
Qed.

Lemma path_sorted k c u :
  bst (plug c u) -> Forall (on_path k) c ->
  Forall (fun x => x.2.1 < k) (ctx_before c) /\
  Forall (fun x => k < x.2.1) (ctx_after c).
Proof.
  revert u. induction c as [|[q i f ppr r|l q i f ppr] c IH]; intros u Hs Hc; simpl.
  - done.
  - apply Forall_cons in Hc as [Hi Hc]. simpl in Hi, Hs.
    destruct (IH _ Hs Hc) as [Hb Ha]. split; [done|].
    unfold bst, keys in Hs. rewrite inorder_plug in Hs.
    apply bst_node in Hs as [_ Hr].
    constructor; [done|]. apply Forall_app. split; [|done].
    eapply Forall_impl; [exact Hr|]. simpl. intros. lia.
  - apply Forall_cons in Hc as [Hi Hc]. simpl in Hi, Hs.
    destruct (IH _ Hs Hc) as [Hb Ha]. split; [|done].
    unfold bst, keys in Hs. rewrite inorder_plug in Hs.
    apply bst_node in Hs as [Hl _].
    apply Forall_app. split; [done|]. apply Forall_app. split.
    + eapply Forall_impl; [exact Hl|]. simpl. intros. lia.
    + by constructor.
Qed.

Lemma not_in_plug p c t :
  p ∉ ptrs (plug c t) <-> p ∉ ptrs t /\ p ∉ ctx_ptrs c.
Proof. rewrite ptrs_plug, elem_of_app. tauto. Qed.

Lemma top_of_cons (c : list frame) (q q' : option ptr) :
  c <> [] -> top_of c q = top_of c q'.
Proof. by destruct c as [|[] c]. Qed.

(** The pivots around a new pivot: those before it are below [k], those
    after it above. *)
Lemma insert_tree_split (k fl : Z) (n : ptr) (pr : Z) (t : tree) :
  bst t -> k ∉ keys t ->
  exists xs ys,
    inorder t = xs ++ ys /\
    inorder (insert_tree k fl n pr t) = xs ++ (n, (k, fl)) :: ys /\
    Forall (fun x => x.2.1 < k) xs /\ Forall (fun x => k < x.2.1) ys.
Proof.
  intros Hs Hk. unfold insert_tree.
  pose proof (plug_insert_ctx k t []) as Hplug. simpl in Hplug.
  rewrite <- Hplug in Hs.
  destruct (path_sorted k _ Leaf Hs (on_path_insert_ctx k t [] Hk (Forall_nil_2 _)))
    as [Hb Ha].
  exists (ctx_before (insert_ctx k t [])), (ctx_after (insert_ctx k t [])).
  split; [by rewrite <- Hplug at 1; rewrite inorder_plug|].
  split; [by rewrite inorder_rotate_ctx, inorder_plug|done].
Qed.

Lemma insert_tree_inorder (k fl : Z) (n : ptr) (pr : Z) (t : tree) :
  bst t -> k ∉ keys t ->
  inorder (insert_tree k fl n pr t)
  = below k (inorder t) ++ (n, (k, fl)) :: above k (inorder t).
Proof.
  intros Hs Hk.
  destruct (insert_tree_split k fl n pr t Hs Hk) as (xs & ys & -> & -> & Hb & Ha).
  unfold below, above. rewrite !filter_app.
  rewrite (filter_all _ _ Hb), (filter_all _ _ Ha).
  rewrite (filter_none (fun x => x.2.1 < k) ys),
          (filter_none (fun x => k < x.2.1) xs).
  - by rewrite app_nil_r.
  - eapply Forall_impl; [exact Hb|]. simpl. intros. lia.
  - eapply Forall_impl; [exact Ha|]. simpl. intros. lia.
Qed.

Lemma insert_tree_bst (k fl : Z) (n : ptr) (pr : Z) (t : tree) :
  bst t -> k ∉ keys t -> bst (insert_tree k fl n pr t).
Proof.
  intros Hs Hk.
  destruct (insert_tree_split k fl n pr t Hs Hk) as (xs & ys & Ht & Hi & Hb & Ha).
  unfold bst, keys in Hs |- *. rewrite Ht, fmap_app in Hs. rewrite Hi, fmap_app, fmap_cons.
  apply StronglySorted_app in Hs as (Hlr & Hxs & Hys).
  apply StronglySorted_app_2; [|done|].
  - intros x1 x2 Hx1 Hx2. apply elem_of_cons in Hx2 as [->|Hx2]; [|by apply Hlr].
    apply list_elem_of_fmap in Hx1 as (x & -> & Hx).
    rewrite Forall_forall in Hb. by apply Hb.
  - apply StronglySorted_cons. split; [|done].
    apply Forall_fmap. eapply Forall_impl; [exact Ha|]. done.
Qed.

Lemma NoDup_Node (l : tree) (p : ptr) (i f pr : Z) (r : tree) :
  NoDup (ptrs (Node l p i f pr r)) <->
  NoDup (ptrs l) /\ NoDup (ptrs r) /\ p ∉ ptrs l /\ p ∉ ptrs r /\
  (forall x, x ∈ ptrs l -> x ∉ ptrs r).
Proof.
  rewrite ptrs_Node, NoDup_app, NoDup_cons. setoid_rewrite elem_of_cons.
  naive_solver.
Qed.

(** A tree keeps being represented when its root gets another parent and
    nothing else changes. *)
Lemma ctx_ptrs_plug_Leaf (c : list frame) : ptrs (plug c Leaf) ≡ₚ ctx_ptrs c.
Proof. by rewrite ptrs_plug. Qed.

(** After a rotation the parent of the hole points to the new node. *)
Lemma NoDup_plug (c : list frame) (t : tree) :
  NoDup (ptrs (plug c t)) <->
  NoDup (ptrs t) /\ NoDup (ctx_ptrs c) /\ (forall x, x ∈ ptrs t -> x ∉ ctx_ptrs c).
Proof. rewrite ptrs_plug, NoDup_app. naive_solver. Qed.

Lemma ptrs_plug_inorder (c : list frame) (t t' : tree) :
  inorder t' = inorder t -> ptrs (plug c t') = ptrs (plug c t).
Proof. intros H. unfold ptrs. by rewrite !inorder_plug, H. Qed.



End Shape.


Section Properties.

Variable obj : Type.
Variable RichCompare_LT : obj -> obj -> Z.
Variable RichCompare_EQ : obj -> obj -> Z.
Variable rand_at : nat -> Z.
Variable SORT_THRESH : Z.
Variable CONTIG_THRESH : Z.

Local Abbreviation state := (state obj).
Local Abbreviation M := (M obj).
Local Abbreviation ISLT := (ISLT obj RichCompare_LT).
Local Abbreviation insertion_shift := (insertion_shift obj RichCompare_LT).
Local Abbreviation insertion_loop := (insertion_loop obj RichCompare_LT).
Local Abbreviation insertion_sort := (insertion_sort obj RichCompare_LT).
Local Abbreviation order_statistic := (order_statistic obj RichCompare_LT).
Local Abbreviation above_boundary := (above_boundary obj RichCompare_LT).

(** ** Array accesses *)

Lemma item_at_Some (l : list obj) (i : Z) (x : obj) :
  item_at obj l i = Some x -> 0 <= i < Z.of_nat (length l).
Proof.
  unfold item_at. destruct (Z.ltb_spec i 0) as [Hneg|Hpos]; [discriminate|].
  intros Hx%lookup_lt_Some. lia.
Qed.

Lemma item_at_in_range (l : list obj) (i : Z) :
  0 <= i < Z.of_nat (length l) -> exists x, item_at obj l i = Some x.
Proof.
  intros Hi. unfold item_at. destruct (Z.ltb_spec i 0) as [Hneg|Hpos]; [lia|].
  destruct (lookup_lt_is_Some_2 l (Z.to_nat i)) as [x Hx]; [lia|]. eauto.
Qed.

Lemma item_at_insert_eq (l : list obj) (i : Z) (x : obj) :
  0 <= i < Z.of_nat (length l) ->
  item_at obj (<[Z.to_nat i := x]> l) i = Some x.
Proof.
  intros Hi. unfold item_at. destruct (Z.ltb_spec i 0) as [Hneg|Hpos]; [lia|].
  apply list_lookup_insert_eq. lia.
Qed.

Lemma item_at_insert_ne (l : list obj) (i j : Z) (x : obj) :
  0 <= i -> i <> j ->
  item_at obj (<[Z.to_nat i := x]> l) j = item_at obj l j.
Proof.
  intros Hi Hne. unfold item_at. destruct (Z.ltb_spec j 0) as [Hneg|Hpos]; [done|].
  apply list_lookup_insert_ne. lia.
Qed.

(** ** Reasoning about runs *)

Lemma bind_Done {A B} (m : M A) (k : A -> M B) (s s' : state) (b : B) :
  bind m k s = Done b s' ->
  exists a s1, m s = Done a s1 /\ k a s1 = Done b s'.
Proof.
  unfold bind. destruct (m s) as [a s1| |]; [|discriminate..]. eauto.
Qed.

Lemma ret_Done {A} (a b : A) (s s' : state) :
  ret a s = Done b s' -> b = a /\ s' = s.
Proof. unfold ret. by intros [= -> ->]. Qed.

Lemma get_item_Done (i : Z) (x : obj) (s s' : state) :
  get_item obj i s = Done x s' -> s' = s /\ item_at obj (ob_item obj s) i = Some x.
Proof.
  unfold get_item. destruct (item_at obj (ob_item obj s) i); [|discriminate].
  by intros [= -> ->].
Qed.

Lemma set_item_Done (i : Z) (x : obj) (u : unit) (s s' : state) :
  set_item obj i x s = Done u s' ->
  0 <= i < Z.of_nat (length (ob_item obj s)) /\
  ob_item obj s' = <[Z.to_nat i := x]> (ob_item obj s) /\
  tree_untouched obj s s' /\ rnd obj s' = rnd obj s /\ ncmp obj s' = ncmp obj s.
Proof.
  unfold set_item. destruct (item_at obj (ob_item obj s) i) eqn:Hi; [|discriminate].
  intros [= _ <-]. apply item_at_Some in Hi. split; [done|]. by repeat split.
Qed.

Lemma ISLT_Done (x y : obj) (c : Z) (s s' : state) :
  ISLT x y s = Done c s' ->
  c = RichCompare_LT x y /\ ob_item obj s' = ob_item obj s /\
  tree_untouched obj s s' /\ rnd obj s' = rnd obj s.
Proof. unfold ISLT, compared. by intros [= <- <-]. Qed.

Lemma rand_Done (r : Z) (s s' : state) :
  rand obj rand_at s = Done r s' ->
  r = rand_at (rnd obj s) /\ ob_item obj s' = ob_item obj s /\
  tree_untouched obj s s' /\ ncmp obj s' = ncmp obj s.
Proof. unfold rand. by intros [= <- <-]. Qed.

Lemma tree_untouched_refl (s : state) : tree_untouched obj s s.
Proof. by repeat split. Qed.

Lemma tree_untouched_trans (s1 s2 s3 : state) :
  tree_untouched obj s1 s2 -> tree_untouched obj s2 s3 -> tree_untouched obj s1 s3.
Proof.
  intros (H1 & H2 & H3) (H4 & H5 & H6). repeat split; congruence.
Qed.

(** Splits a hypothesis [H : (x <- m ;; k) s = Done b s'] into the run of
    [m] and the run of [k]. *)
Ltac inv_bind H :=
  let a := fresh "a" in
  let s1 := fresh "s" in
  let H1 := fresh "Hrun" in
  apply bind_Done in H as (a & s1 & H1 & H).


(** ** Swaps and partitions rearrange a region *)

Lemma insert_Permutation (l : list obj) (i : nat) (x y : obj) :
  l !! i = Some x -> <[i := y]> l ≡ₚ y :: delete i l.
Proof.
  intros Hi. pose proof (lookup_lt_Some _ _ _ Hi) as Hlt.
  rewrite insert_take_drop by done. rewrite delete_take_drop.
  by rewrite <- Permutation_middle.
Qed.

Lemma swap_Permutation (l : list obj) (i j : nat) (x y : obj) :
  l !! i = Some x -> l !! j = Some y ->
  <[j := x]> (<[i := y]> l) ≡ₚ l.
Proof.
  intros Hi Hj. destruct (decide (i = j)) as [->|Hne].
  - rewrite list_insert_insert_eq. assert (x = y) as -> by congruence.
    by rewrite list_insert_id.
  - assert (<[i := y]> l !! j = Some y) as Hj'.
    { by rewrite list_lookup_insert_ne. }
    rewrite (insert_Permutation _ j y x Hj').
    pose proof (delete_Permutation _ _ _ Hj') as H1.
    pose proof (insert_Permutation l i x y Hi) as H2.
    assert (y :: delete j (<[i := y]> l) ≡ₚ y :: delete i l) as H3.
    { etrans; [symmetry; exact H1 | exact H2]. }
    apply (inj (y ::.)) in H3. rewrite H3.
    symmetry. by apply delete_Permutation.
Qed.

Lemma shuffled_refl (a : list obj) (lo hi : Z) : shuffled obj a a lo hi.
Proof.
  split; [by split|]. split; [done|]. intros i x Hi Hx. eauto.
Qed.

Lemma shuffled_order_statistic (a a' : list obj) (lo hi p : Z) :
  shuffled obj a a' lo hi -> ~ (lo <= p < hi) ->
  order_statistic a p -> order_statistic a' p.
Proof.
  intros ([Hlen Hout] & _ & Hreg) Hp Hos x Hx.
  rewrite Hout in Hx by done. destruct (Hos x Hx) as [Hbefore Hafter].
  split; intros i y Hi Hy.
  - destruct (decide (lo <= i < hi)) as [Hin|Hnin].
    + destruct (Hreg i y Hin Hy) as (j & Hj & Hjy). apply (Hbefore j); [lia|done].
    + rewrite Hout in Hy by done. by apply (Hbefore i).
  - destruct (decide (lo <= i < hi)) as [Hin|Hnin].
    + destruct (Hreg i y Hin Hy) as (j & Hj & Hjy). apply (Hafter j); [lia|done].
    + rewrite Hout in Hy by done. by apply (Hafter i).
Qed.

Section Shuffle.

Variable a0 : list obj.
Variables lo hi : Z.
Hypothesis Hlo : 0 <= lo.

Local Abbreviation shuffled0 := (shuffled obj a0).

Lemma SWAP_shuffled (i j : Z) (u : unit) (s s' : state) :
  lo <= i < hi -> lo <= j < hi ->
  shuffled0 (ob_item obj s) lo hi ->
  SWAP obj i j s = Done u s' ->
  shuffled0 (ob_item obj s') lo hi /\ tree_untouched obj s s' /\
  rnd obj s' = rnd obj s.
Proof.
  intros Hi Hj ([Hlen Hout] & Hperm & Hreg) Hrun. unfold SWAP in Hrun.
  inv_bind Hrun. apply get_item_Done in Hrun0 as [-> Hx].
  inv_bind Hrun. apply get_item_Done in Hrun0 as [-> Hy].
  inv_bind Hrun. apply set_item_Done in Hrun0 as (Hri & Ha1 & Ht1 & Hr1 & _).
  apply set_item_Done in Hrun as (Hrj & Ha2 & Ht2 & Hr2 & _).
  split; [|split; [by eapply tree_untouched_trans|congruence]].
  rewrite Ha1, length_insert in Hrj.
  rewrite Ha2, Ha1. split; [split|split].
  - by rewrite !length_insert.
  - intros k Hk. rewrite !item_at_insert_ne by lia. by apply Hout.
  - rewrite <- Hperm. unfold item_at in Hx, Hy.
    destruct (Z.ltb_spec i 0); [lia|]. destruct (Z.ltb_spec j 0); [lia|].
    by apply swap_Permutation.
  - intros k z Hk. destruct (Z.eq_dec k j) as [->|Hkj].
    + rewrite item_at_insert_eq by (rewrite length_insert; lia).
      intros [= <-]. by apply (Hreg i).
    + rewrite item_at_insert_ne by lia. destruct (Z.eq_dec k i) as [->|Hki].
      * rewrite item_at_insert_eq by lia. intros [= <-]. by apply (Hreg j).
      * rewrite item_at_insert_ne by lia. by apply Hreg.
Qed.

Lemma partition_loop_shuffled (n : nat) :
  forall (i last_less : Z) (pivot : obj) (r : option Z) (s s' : state),
    lo <= last_less < i -> i + Z.of_nat n <= hi ->
    shuffled0 (ob_item obj s) lo hi ->
    partition_loop obj RichCompare_LT n i pivot last_less s = Done r s' ->
    shuffled0 (ob_item obj s') lo hi /\ tree_untouched obj s s' /\
    rnd obj s' = rnd obj s /\
    forall ll, r = Some ll -> last_less <= ll < i + Z.of_nat n.
Proof.
  induction n as [|n IH]; intros i last_less pivot r s s' Hll Hn Hsh Hrun.
  - simpl in Hrun. apply ret_Done in Hrun as [-> ->].
    split; [done|]. split; [apply tree_untouched_refl|]. split; [done|].
    intros ll [= <-]. lia.
  - simpl in Hrun. inv_bind Hrun. apply get_item_Done in Hrun0 as [-> Hx].
    inv_bind Hrun. apply ISLT_Done in Hrun0 as (-> & Ha & Ht & Hr).
    destruct (RichCompare_LT a pivot <? 0).
    { apply ret_Done in Hrun as [-> ->]. rewrite Ha.
      split; [done|]. split; [done|]. split; [done|]. intros ll [=]. }
    destruct (negb (RichCompare_LT a pivot =? 0)).
    + inv_bind Hrun.
      apply SWAP_shuffled in Hrun0 as (Hsh1 & Ht1 & Hr1);
        [| lia | lia | by rewrite Ha].
      apply IH in Hrun as (Hsh2 & Ht2 & Hr2 & Hres); [| lia | lia | done].
      split; [done|]. split.
      { eapply tree_untouched_trans; [exact Ht|].
        by eapply tree_untouched_trans. }
      split; [congruence|]. intros ll Hq. specialize (Hres ll Hq). lia.
    + apply IH in Hrun as (Hsh2 & Ht2 & Hr2 & Hres);
        [| lia | lia | by rewrite Ha].
      split; [done|]. split; [by eapply tree_untouched_trans|].
      split; [congruence|]. intros ll Hq. specialize (Hres ll Hq). lia.
Qed.

End Shuffle.


(** [rand()] returns a value between 0 and [RAND_MAX]. *)
Hypothesis rand_nonneg : forall n, 0 <= rand_at n.

Lemma pick_pivot_Done (left right p : Z) (s s' : state) :
  left < right ->
  pick_pivot obj rand_at left right s = Done p s' ->
  left <= p < right /\ ob_item obj s' = ob_item obj s /\
  tree_untouched obj s s' /\ ncmp obj s' = ncmp obj s.
Proof.
  intros Hlr Hrun. unfold pick_pivot in Hrun. inv_bind Hrun.
  apply rand_Done in Hrun0 as (-> & Ha & Ht & Hc).
  destruct (Z.eqb_spec (right - left) 0) as [Heq|Hne]; [lia|].
  apply ret_Done in Hrun as [-> ->].
  pose proof (Z.rem_bound_pos (rand_at (rnd obj s)) (right - left)
                (rand_nonneg _) ltac:(lia)).
  split; [lia|done].
Qed.

Lemma partition_shuffled (left right rc : Z) (s s' : state) :
  0 <= left < right ->
  partition obj RichCompare_LT rand_at left right s = Done rc s' ->
  shuffled obj (ob_item obj s) (ob_item obj s') left right /\
  tree_untouched obj s s' /\ (rc = -1 \/ left <= rc < right).
Proof.
  intros Hlr Hrun. unfold partition in Hrun.
  inv_bind Hrun. apply pick_pivot_Done in Hrun0 as (Hp & Ha & Ht & _); [|lia].
  inv_bind Hrun. apply get_item_Done in Hrun0 as [-> Hpiv].
  inv_bind Hrun.
  apply (SWAP_shuffled (ob_item obj s) left right) in Hrun0
    as (Hsh1 & Ht1 & _); [| first [lia | rewrite Ha; apply shuffled_refl] ..].
  inv_bind Hrun.
  apply (partition_loop_shuffled (ob_item obj s) left right) in Hrun0
    as (Hsh2 & Ht2 & _ & Hres); [| first [lia | done] ..].
  assert (tree_untouched obj s s2) as Ht02.
  { eapply tree_untouched_trans; [exact Ht|].
    by eapply tree_untouched_trans. }
  destruct a2 as [last_less|].
  - specialize (Hres last_less eq_refl). inv_bind Hrun.
    apply (SWAP_shuffled (ob_item obj s) left right) in Hrun0
      as (Hsh3 & Ht3 & _); [| first [lia | done] ..].
    apply ret_Done in Hrun as [-> ->].
    split; [done|]. split; [by eapply tree_untouched_trans|]. right. lia.
  - apply ret_Done in Hrun as [-> ->]. split; [done|]. split; [done|]. by left.
Qed.

(** ** The hint of [insert_pivot] *)

Lemma deref_Done (p : option ptr) (n : PivotNode) (s s' : state) :
  deref obj p s = Done n s' ->
  s' = s /\ exists q, p = Some q /\ mem obj s !! q = Some n.
Proof.
  unfold deref. destruct p as [q|]; [|discriminate].
  destruct (mem obj s !! q) as [m|] eqn:Hq; [|discriminate].
  intros [= <- <-]. eauto.
Qed.

Lemma deref_run (q : ptr) (n : PivotNode) (s : state) :
  mem obj s !! q = Some n -> deref obj (Some q) s = Done n s.
Proof. intros Hq. unfold deref. by rewrite Hq. Qed.

(** ** Runs of the store primitives *)

Lemma bind_run {A B} (m : M A) (k : A -> M B) (s s1 : state) (a : A) :
  m s = Done a s1 -> bind m k s = k a s1.
Proof. intros Hm. unfold bind. by rewrite Hm. Qed.

Lemma update_run (p : ptr) (n : PivotNode) (f : PivotNode -> PivotNode)
    (s : state) :
  mem obj s !! p = Some n ->
  update obj (Some p) f s = Done tt (set_mem obj (<[p := f n]> (mem obj s)) s).
Proof.
  intros Hp. unfold update. rewrite (bind_run _ _ _ _ _ (deref_run p n s Hp)).
  unfold store. by rewrite Hp.
Qed.

Lemma free_run (p : ptr) (n : PivotNode) (s : state) :
  mem obj s !! p = Some n ->
  free obj (Some p) s = Done tt (set_mem obj (delete p (mem obj s)) s).
Proof. intros Hp. unfold free. by rewrite Hp. Qed.

Lemma same_list_refl (s : state) : same_list obj s s.
Proof. by repeat split. Qed.

Lemma same_list_trans (s1 s2 s3 : state) :
  same_list obj s1 s2 -> same_list obj s2 s3 -> same_list obj s1 s3.
Proof.
  intros (?&?&?&?&?) (?&?&?&?&?). repeat split; congruence.
Qed.

Lemma same_list_set_mem (h : gmap ptr PivotNode) (s : state) :
  same_list obj s (set_mem obj h s).
Proof. by repeat split. Qed.

Lemma same_list_with_root (r : option ptr) (s : state) :
  same_list obj s (with_root obj r s).
Proof. by repeat split. Qed.

Section Hint.

Variable k : Z.
Variable s : state.
(** A state whose store extends the store of [s]. *)
Variable s1 : state.
Hypothesis Hext : forall q n, mem obj s !! q = Some n -> mem obj s1 !! q = Some n.
Variable node : option ptr.

Lemma insert_descend_step (f : nat) (c : ptr) (nc : PivotNode) (st : state) :
  mem obj st !! c = Some nc ->
  insert_descend obj (S f) k node (Some c) st
  = if idx nc <? k then
      match node_right nc with
      | None => (set_right obj (Some c) node ;;;
                 set_parent obj node (Some c) ;;; ret true) st
      | Some _ => insert_descend obj f k node (node_right nc) st
      end
    else if idx nc >? k then
      match node_left nc with
      | None => (set_left obj (Some c) node ;;;
                 set_parent obj node (Some c) ;;; ret true) st
      | Some _ => insert_descend obj f k node (node_left nc) st
      end
    else (set_err obj ;;; ret false) st.
Proof.
  intros Hc. simpl. unfold bind at 1. rewrite (deref_run c nc st Hc).
  destruct (idx nc <? k); [by destruct (node_right nc)|].
  destruct (idx nc >? k); [by destruct (node_left nc)|done].
Qed.

Lemma insert_descend_reaches_hint (f : nat) :
  forall (cur : ptr) (L R : option ptr) (l r : ptr) (nl : PivotNode) (s' : state)
         (f1 f2 : nat),
    bound_loop obj f k (Some cur) L R s = Done (Some l, Some r) s' ->
    (forall l0 n0, L = Some l0 -> mem obj s !! l0 = Some n0 -> node_right n0 <> None) ->
    mem obj s !! l = Some nl -> idx nl <> k ->
    (f <= f1)%nat -> (1 <= f2)%nat ->
    insert_descend obj f1 k node (Some cur) s1
    = insert_descend obj f2 k node (hint_of l r nl) s1.
Proof.
  induction f as [|f IH]; intros cur L R l r nl s' f1 f2 Hrun HL Hl Hk Hf1 Hf2;
    [discriminate|].
  simpl in Hrun. inv_bind Hrun.
  apply deref_Done in Hrun0 as (-> & q & Hq & Hcur).
  injection Hq as Hq. subst q. rename a into nc.
  destruct f1 as [|f1]; [lia|]. destruct f2 as [|f2]; [lia|].
  rewrite (insert_descend_step f1 cur nc s1 (Hext _ _ Hcur)).
  destruct (Z.ltb_spec (idx nc) k) as [Hlt|Hge].
  - (* the walk goes right *)
    destruct (node_right nc) as [c2|] eqn:Hright.
    + rewrite (IH c2 (Some cur) R l r nl s' f1 (S f2));
        [done|done| |done|done|lia|lia].
      intros l0 n0 [= <-] Hl0. rewrite Hcur in Hl0. injection Hl0 as <-.
      by rewrite Hright.
    + destruct f as [|f]; [discriminate|]. simpl in Hrun.
      apply ret_Done in Hrun as [Heq _]. injection Heq as Hl' HR.
      subst l R. rewrite Hcur in Hl. injection Hl as <-.
      unfold hint_of. rewrite Hright.
      rewrite (insert_descend_step f2 cur nc s1 (Hext _ _ Hcur)).
      destruct (Z.ltb_spec (idx nc) k); [|lia]. by rewrite Hright.
  - destruct (Z.gtb_spec (idx nc) k) as [Hgt|Hle].
    + (* the walk goes left *)
      destruct (node_left nc) as [c2|] eqn:Hleft.
      * rewrite (IH c2 L (Some cur) l r nl s' f1 (S f2));
          [done|done|done|done|done|lia|lia].
      * destruct f as [|f]; [discriminate|]. simpl in Hrun.
        apply ret_Done in Hrun as [Heq _]. injection Heq as HL' Hr'.
        subst L r. unfold hint_of. destruct (node_right nl) eqn:Hnl.
        2:{ by destruct (HL l nl eq_refl Hl). }
        rewrite (insert_descend_step f2 cur nc s1 (Hext _ _ Hcur)).
        destruct (Z.ltb_spec (idx nc) k); [lia|].
        destruct (Z.gtb_spec (idx nc) k); [|lia]. by rewrite Hleft.
    + (* an equal index: [left] would be that node *)
      apply ret_Done in Hrun as [Heq _]. injection Heq as Hl' HR.
      subst l. rewrite Hcur in Hl. injection Hl as <-. lia.
Qed.

End Hint.


Local Arguments insert_descend : simpl never.

Lemma insert_pivot_from_hint (k fl : Z) (s s' : state) (l r : ptr) (nl : PivotNode) :
  bound_idx obj k (root obj s) s = Done (Some l, Some r) s' ->
  mem obj s !! l = Some nl -> idx nl <> k ->
  mem obj s !! brk obj s = None ->
  insert_pivot obj rand_at k fl (hint_of l r nl) s
  = insert_pivot obj rand_at k fl (root obj s) s.
Proof.
  intros Hb Hl Hk Hfresh. unfold bound_idx in Hb. inv_bind Hb.
  unfold tree_fuel in Hrun. injection Hrun as <- <-.
  destruct (root obj s) as [rt|] eqn:Hroot; [|discriminate].
  unfold insert_pivot, bind, rand, malloc, get_root, tree_fuel. simpl.
  rewrite Hroot.
  match goal with
  | |- context [insert_descend obj ?fu k ?nd (Some rt) ?st] =>
      assert (forall q n, mem obj s !! q = Some n -> mem obj st !! q = Some n)
        as Hext;
      [ intros q n Hq; simpl; rewrite lookup_insert_ne; [done|congruence] |];
      rewrite (insert_descend_reaches_hint k s st Hext nd
                 (S (size (mem obj s))) rt None None l r nl s' fu fu)
  end; [done | done | done | done | done | | lia].
  simpl. rewrite map_size_insert_None by done. lia.
Qed.

(** ** Insertion sort stays inside its region *)

Section InsertionFrame.

Variable a0 : list obj.
Variables lo hi : Z.
Hypothesis Hlo : 0 <= lo.
Hypothesis Hhi : hi <= Z.of_nat (length a0).

Local Abbreviation frame_inv := (frame_inv obj RichCompare_LT a0 lo hi).

Lemma frame_inv_start : order_statistic a0 (lo - 1) -> frame_inv a0.
Proof.
  intros Hos. split; [by split|].
  intros i x Hi Hx b Hb. destruct (Hos b Hb) as [_ Hafter].
  apply (Hafter i x); [lia|done].
Qed.

Lemma insertion_shift_frame (n : nat) :
  forall (j : Z) (tmp : obj) (s : state),
    n = Z.to_nat j -> lo <= j < hi ->
    frame_inv (ob_item obj s) -> above_boundary a0 lo tmp ->
    exists j' s',
      insertion_shift n j tmp s = Done j' s' /\ lo <= j' <= j /\
      frame_inv (ob_item obj s').
Proof.
  induction n as [|n IH]; intros j tmp s Hn Hj Hinv Htmp.
  - exists j, s. simpl. split; [done|]. split; [lia|done].
  - simpl. destruct (Z.gtb_spec j 0) as [Hpos|Hnpos]; [|lia].
    destruct Hinv as [[Hlen Hout] Hreg].
    destruct (item_at_in_range (ob_item obj s) (j - 1)) as [x Hx]; [lia|].
    unfold bind at 1, get_item at 1. rewrite Hx.
    unfold bind at 1, ISLT, compared. simpl.
    destruct (Z.eq_dec j lo) as [->|Hne].
    + (* the boundary: the item before the region stops the shift *)
      rewrite Hout in Hx by lia. rewrite (Htmp x Hx). simpl.
      eexists _, _. split; [reflexivity|]. split; [lia|]. simpl.
      split; [by split|done].
    + destruct (Z.eqb_spec (RichCompare_LT tmp x) 0) as [Hc|Hc]; simpl.
      * eexists _, _. split; [reflexivity|]. split; [lia|]. simpl.
        split; [by split|done].
      * destruct (item_at_in_range (ob_item obj s) j) as [y Hy]; [lia|].
        unfold bind at 1, set_item at 1. simpl. rewrite Hy.
        match goal with
        | |- context [insertion_shift n (j - 1) tmp ?st] =>
            destruct (IH (j - 1) tmp st) as (j' & s' & Hrun & Hj' & Hinv');
              [lia | lia | | exact Htmp | ]
        end.
        { simpl. split; [split|].
          - rewrite length_insert. done.
          - intros k Hk. rewrite item_at_insert_ne by lia. by apply Hout.
          - intros i z Hi. destruct (Z.eq_dec i j) as [->|Hij].
            + rewrite item_at_insert_eq by lia. intros [= <-].
              apply (Hreg (j - 1)); [lia|done].
            + rewrite item_at_insert_ne by lia. by apply Hreg. }
        rewrite Hrun. exists j', s'. split; [done|]. split; [lia|done].
Qed.

Lemma insertion_loop_frame (n : nat) :
  forall (i : Z) (s : state),
    lo <= i -> i + Z.of_nat n <= hi ->
    frame_inv (ob_item obj s) ->
    exists s', insertion_loop n i s = Done tt s' /\ frame_inv (ob_item obj s').
Proof.
  induction n as [|n IH]; intros i s Hi Hn Hinv.
  - exists s. by split.
  - simpl. pose proof Hinv as [[Hlen Hout] Hreg].
    destruct (item_at_in_range (ob_item obj s) i) as [tmp Htmp]; [lia|].
    unfold bind at 1, get_item at 1. rewrite Htmp.
    destruct (insertion_shift_frame (Z.to_nat i) i tmp s)
      as (j & s1 & Hrun & Hj & Hinv1); [done | lia | done | |].
    { apply (Hreg i); [lia|done]. }
    unfold bind at 1. rewrite Hrun.
    destruct Hinv1 as [[Hlen1 Hout1] Hreg1].
    destruct (item_at_in_range (ob_item obj s1) j) as [y Hy]; [lia|].
    unfold bind at 1, set_item at 1. rewrite Hy.
    apply IH; [lia | lia |]. simpl. split; [split|].
    + by rewrite length_insert.
    + intros k Hk. rewrite item_at_insert_ne by lia. by apply Hout1.
    + intros k z Hk. destruct (Z.eq_dec k j) as [->|Hkj].
      * rewrite item_at_insert_eq by lia. intros [= <-].
        apply (Hreg i); [lia|done].
      * rewrite item_at_insert_ne by lia. by apply Hreg1.
Qed.

End InsertionFrame.

(** C10. When [insertion_sort] runs on a region [left, right) of the list
    and the position just before the region holds an order statistic (as the
    left bounding pivot does; for the sentinel -1 there is no such position),
    the call returns and every position outside [left, right) keeps its
    item: the inner loop never shifts past the left boundary although its
    test is [j > 0]. *)
Theorem insertion_sort_frame (s : state) (left right : Z) :
  0 <= left -> right <= Py_SIZE obj s ->
  order_statistic (ob_item obj s) (left - 1) ->
  exists s',
    insertion_sort left right s = Done tt s' /\
    length (ob_item obj s') = length (ob_item obj s) /\
    forall j, ~ (left <= j < right) ->
      item_at obj (ob_item obj s') j = item_at obj (ob_item obj s) j.
Proof.
  intros Hl Hr Hos. unfold insertion_sort.
  destruct (Z.le_gt_cases left right) as [Hle|Hgt].
  - destruct (insertion_loop_frame (ob_item obj s) left right Hl Hr
                (Z.to_nat (right - left)) left s)
      as (s' & Hrun & [[Hlen Hout] _]); [lia | lia | |].
    { by apply frame_inv_start. }
    exists s'. by repeat split.
  - replace (Z.to_nat (right - left)) with 0%nat by lia.
    exists s. by repeat split.
Qed.


(** ** Walks in a tree held by the store *)

Lemma holds_tree_size (s : state) (t : tree) :
  holds_tree obj s t -> (length (inorder t) <= size (mem obj s))%nat.
Proof.
  intros (Hr & _ & Hnd & _).
  assert (list_to_set (ptrs t) ⊆ dom (mem obj s)) as Hsub.
  { intros p Hp. apply elem_of_list_to_set in Hp. apply elem_of_dom.
    unfold ptrs in Hp. apply list_elem_of_fmap in Hp as ([p' x] & -> & Hin).
    destruct (repr_lookup _ _ _ _ _ Hr Hin) as (n & Hn & _). eauto. }
  apply subseteq_size in Hsub. rewrite size_list_to_set in Hsub by done.
  rewrite size_dom in Hsub. unfold ptrs in Hsub.
  by rewrite length_fmap in Hsub.
Qed.

Lemma bound_loop_tree (k : Z) (s : state) (t : tree) :
  forall (par : option ptr) (fuel : nat) (L R : option ptr),
    repr (mem obj s) par t -> (length (inorder t) < fuel)%nat ->
    bound_loop obj fuel k (root_of t) L R s = Done (bound_tree k t L R) s.
Proof.
  induction t as [|l IHl p i f pr r IHr]; intros par fuel L R Hr Hfuel;
    (destruct fuel as [|fuel]; [simpl in Hfuel; lia|]); [done|].
  destruct Hr as (Hp & Hl & Hrr). simpl in Hfuel. rewrite length_app in Hfuel.
  simpl in Hfuel. simpl. unfold bind. rewrite (deref_run p _ s Hp). simpl.
  destruct (i <? k).
  - apply (IHr (Some p)); [done|lia].
  - destruct (i >? k); [|done]. apply (IHl (Some p)); [done|lia].
Qed.

Lemma bound_idx_tree (k : Z) (s : state) (t : tree) :
  holds_tree obj s t ->
  bound_idx obj k (root obj s) s = Done (bound_tree k t None None) s.
Proof.
  intros Ht. pose proof (holds_tree_size s t Ht) as Hsize.
  destruct Ht as (Hr & Hroot & _). unfold bound_idx, bind, tree_fuel.
  rewrite Hroot. apply (bound_loop_tree k s t None); [done|lia].
Qed.

(** [sort_point] at an index that is a pivot. *)
Lemma sort_point_pivot_run (k : Z) (s : state) (t : tree) (p : ptr) (f : Z) :
  holds_tree obj s t -> bst t -> (p, (k, f)) ∈ inorder t ->
  sort_point obj RichCompare_LT RichCompare_EQ rand_at SORT_THRESH k s = Done 0 s.
Proof.
  intros Ht Hs Hin. unfold sort_point, bind at 1, get_root.
  unfold bind at 1. rewrite (bound_idx_tree k s t Ht).
  pose proof (bound_tree_found k t None None p f Hs Hin) as Hl.
  destruct (bound_tree k t None None) as [l r]. simpl in Hl. subst l. simpl.
  destruct Ht as (Hr & _).
  destruct (repr_lookup _ _ _ _ _ Hr Hin) as (n & Hn & Hi & _).
  unfold bind at 1. rewrite (deref_run p n s Hn). simpl in Hi.
  rewrite Hi, Z.eqb_refl. done.
Qed.

(** X4.  When the pivot tree is a search tree that holds a pivot with index
    [k], [sort_point(k)] returns 0 at once: it makes no comparison, draws no
    random number and leaves the list and the tree as they are. *)
Theorem sort_point_at_pivot (k : Z) (s : state) (t : tree) (p : ptr) (f : Z) :
  holds_tree obj s t -> bst t -> (p, (k, f)) ∈ inorder t ->
  sort_point obj RichCompare_LT RichCompare_EQ rand_at SORT_THRESH k s = Done 0 s.
Proof. apply sort_point_pivot_run. Qed.


(** What [bound_idx] returns for an index strictly between two neighbouring
    pivots: those two pivots. *)
Lemma bound_idx_between (k : Z) (s : state) (t : tree)
    (xs ys : list (ptr * (Z * Z))) (l r : ptr) (il fl ir fr : Z) :
  holds_tree obj s t -> bst t ->
  inorder t = xs ++ (l, (il, fl)) :: (r, (ir, fr)) :: ys ->
  il < k < ir ->
  bound_idx obj k (root obj s) s = Done (Some l, Some r) s.
Proof.
  intros Ht Hs Hin Hk. rewrite (bound_idx_tree k s t Ht).
  unfold bst, keys in Hs. rewrite Hin in Hs.
  destruct (neighbours_split xs ys (l, (il, fl)) (r, (ir, fr)) k Hs Hk)
    as (Hbelow & Habove & Hnot).
  rewrite bound_tree_between; [| by unfold bst, keys; rewrite Hin
                               | by unfold keys; rewrite Hin].
  rewrite Hin, Hbelow, Habove. unfold last_ptr. by rewrite last_snoc.
Qed.

(** [sort_point] inside a region already sorted. *)
Lemma sort_point_sorted_run (k : Z) (s : state) (t : tree)
    (xs ys : list (ptr * (Z * Z))) (l r : ptr) (il fl ir fr : Z) :
  holds_tree obj s t -> bst t ->
  inorder t = xs ++ (l, (il, fl)) :: (r, (ir, fr)) :: ys ->
  il < k < ir ->
  has_flag fr SORTED_RIGHT = true ->
  sort_point obj RichCompare_LT RichCompare_EQ rand_at SORT_THRESH k s = Done 0 s.
Proof.
  intros Ht Hs Hin Hk Hflag. unfold sort_point, bind at 1, get_root.
  unfold bind at 1.
  rewrite (bound_idx_between k s t xs ys l r il fl ir fr Ht Hs Hin Hk). simpl.
  destruct Ht as (Hr & _).
  destruct (repr_lookup _ _ _ l (il, fl) Hr) as (nl & Hnl & Hil & _).
  { rewrite Hin. apply elem_of_app. right. apply elem_of_cons. by left. }
  destruct (repr_lookup _ _ _ r (ir, fr) Hr) as (nr & Hnr & _ & Hfr).
  { rewrite Hin. apply elem_of_app. right. apply elem_of_cons. right.
    apply elem_of_cons. by left. }
  simpl in Hil, Hfr.
  unfold bind at 1. rewrite (deref_run l nl s Hnl).
  destruct (Z.eqb_spec (idx nl) k) as [Heq|_]; [lia|].
  unfold bind at 1. rewrite (deref_run r nr s Hnr). by rewrite Hfr, Hflag.
Qed.

(** X5.  When [k] lies strictly between two neighbouring pivots of a search
    tree and the right one carries SORTED_RIGHT, [sort_point(k)] returns 0
    at once and changes nothing. *)
Theorem sort_point_in_sorted_region (k : Z) (s : state) (t : tree)
    (xs ys : list (ptr * (Z * Z))) (l r : ptr) (il fl ir fr : Z) :
  holds_tree obj s t -> bst t ->
  inorder t = xs ++ (l, (il, fl)) :: (r, (ir, fr)) :: ys ->
  il < k < ir ->
  has_flag fr SORTED_RIGHT = true ->
  sort_point obj RichCompare_LT RichCompare_EQ rand_at SORT_THRESH k s = Done 0 s.
Proof. apply sort_point_sorted_run. Qed.


Lemma holds_tree_lookup (s : state) (t : tree) (p : ptr) (i f : Z) :
  holds_tree obj s t -> (p, (i, f)) ∈ inorder t ->
  exists n, mem obj s !! p = Some n /\ idx n = i /\ flags n = f.
Proof.
  intros (Hr & _) Hin. by destruct (repr_lookup _ _ _ _ _ Hr Hin) as (n & ? & ? & ?); eauto.
Qed.

Lemma head_ptr_app (xs ys : list (ptr * (Z * Z))) (d : option ptr) :
  head_ptr (xs ++ ys) d = head_ptr xs (head_ptr ys d).
Proof. by destruct xs. Qed.

Lemma leftmost_tree (s : state) :
  forall (t : tree) (par : option ptr) (fuel : nat) (d : option ptr),
    t <> Leaf -> repr (mem obj s) par t -> (length (inorder t) <= fuel)%nat ->
    leftmost obj fuel (root_of t) s = Done (head_ptr (inorder t) d) s.
Proof.
  induction t as [|l IHl p i f pr r _]; intros par fuel d Hne Hr Hfuel; [done|].
  destruct Hr as (Hp & Hl & _). simpl in Hfuel. rewrite length_app in Hfuel.
  simpl in Hfuel. destruct fuel as [|fuel]; [lia|].
  cbn [leftmost root_of]. rewrite (bind_run _ _ _ _ _ (deref_run p _ s Hp)).
  cbn [node_left]. destruct l as [|ll lp li lf lpr lr]; [done|].
  etrans.
  { apply (IHl (Some p) fuel (head_ptr ((p, (i, f)) :: inorder r) d));
      [done|done|simpl in *; lia]. }
  by rewrite <- head_ptr_app.
Qed.

Lemma climb_tree (s : state) :
  forall (c : list frame) (l : tree) (q : ptr) (i f pr : Z) (r : tree) (fuel : nat),
    repr (mem obj s) None (plug c (Node l q i f pr r)) ->
    bst (plug c (Node l q i f pr r)) ->
    (length c < fuel)%nat ->
    exists q' n',
      climb obj fuel (Some q) s = Done (Some q') s /\
      mem obj s !! q' = Some n' /\
      node_parent n' = head_ptr (ctx_after c) None.
Proof.
  induction c as [|[p' i' f' pr' r'|l' p' i' f' pr'] c IH];
    intros l q i f pr r fuel Hr Hs Hfuel;
    (destruct fuel as [|fuel]; [simpl in Hfuel; lia|]); simpl in Hfuel.
  - destruct Hr as (Hq & _). exists q. eexists. 
    cbn [climb]. rewrite (bind_run _ _ _ _ _ (deref_run q _ s Hq)).
    cbn [node_parent]. done.
  - pose proof Hr as Hr0. apply repr_plug in Hr0 as (Hc & Hq & _).
    destruct Hc as (Hp' & _). simpl in Hs.
    unfold bst, keys in Hs. rewrite inorder_plug in Hs.
    apply bst_node in Hs as [Hlt _]. rewrite Forall_forall in Hlt.
    specialize (Hlt (q, (i, f))). simpl in Hlt.
    assert (i < i') as Hi.
    { apply Hlt. apply elem_of_app. right. apply elem_of_cons. by left. }
    exists q. eexists. cbn [climb].
    rewrite (bind_run _ _ _ _ _ (deref_run q _ s Hq)).
    cbn [node_parent hole_parent].
    rewrite (bind_run _ _ _ _ _ (deref_run p' _ s Hp')). cbn [idx].
    destruct (Z.ltb_spec i' i); [lia|]. done.
  - pose proof Hr as Hr0. apply repr_plug in Hr0 as (Hc & Hq & _).
    destruct Hc as (Hp' & _). simpl in Hs. pose proof Hs as Hs0.
    unfold bst, keys in Hs0. rewrite inorder_plug in Hs0.
    apply bst_node in Hs0 as [_ Hgt]. rewrite Forall_forall in Hgt.
    specialize (Hgt (q, (i, f))). simpl in Hgt.
    assert (i' < i) as Hi.
    { apply Hgt. apply elem_of_app. right. apply elem_of_cons. by left. }
    destruct (IH l' p' i' f' pr' (Node l q i f pr r) fuel Hr Hs ltac:(lia))
      as (q' & n' & Hrun & Hq' & Hpar).
    exists q', n'. split; [|done]. cbn [climb].
    rewrite (bind_run _ _ _ _ _ (deref_run q _ s Hq)).
    cbn [node_parent hole_parent].
    rewrite (bind_run _ _ _ _ _ (deref_run p' _ s Hp')). cbn [idx].
    destruct (Z.ltb_spec i' i); [|lia]. done.
Qed.

Lemma length_ctx_le (c : list frame) (t : tree) :
  (length c + length (inorder t) <= length (inorder (plug c t)))%nat.
Proof.
  revert t. induction c as [|[] c IH]; intros t; simpl; [lia|..];
    (etrans; [|apply IH]); simpl; rewrite length_app; simpl; lia.
Qed.

(** [next_pivot] on a pivot of a search tree. *)
Lemma next_pivot_tree (s : state) (t : tree) (xs ys : list (ptr * (Z * Z)))
    (p : ptr) (a : Z * Z) :
  holds_tree obj s t -> bst t -> inorder t = xs ++ (p, a) :: ys ->
  next_pivot obj (Some p) s = Done (head_ptr ys None) s.
Proof.
  intros Ht Hs Hin. pose proof (holds_tree_size s t Ht) as Hsize.
  destruct Ht as (Hr & _ & Hnd & _).
  assert ((p, a) ∈ inorder t) as Hp.
  { rewrite Hin. apply elem_of_app. right. apply elem_of_cons. by left. }
  destruct (find_ctx t p a Hp) as (c & l & pr & r & ->).
  destruct a as [i f]. simpl in *.
  pose proof (length_ctx_le c (Node l p i f pr r)) as Hlen.
  simpl in Hlen. rewrite length_app in Hlen. simpl in Hlen.
  rewrite inorder_plug in Hin. simpl in Hin.
  rewrite <- app_assoc in Hin. simpl in Hin. rewrite app_assoc in Hin.
  assert (NoDup (fst <$> ((ctx_before c ++ inorder l) ++
            (p, (i, f)) :: inorder r ++ ctx_after c))) as Hnd'.
  { unfold ptrs in Hnd. rewrite inorder_plug in Hnd. simpl in Hnd.
    by rewrite <- !app_assoc in Hnd |- *. }
  destruct (split_unique _ _ _ _ p (i, f) (i, f) Hnd' Hin) as (_ & _ & Hys).
  subst ys.
  pose proof Hr as Hr0. apply repr_plug in Hr0 as (_ & Hn & _ & Hrr).
  unfold next_pivot, bind at 1, tree_fuel.
  rewrite (bind_run _ _ _ _ _ (deref_run p _ s Hn)). cbn [node_right].
  destruct r as [|rl rp ri rf rpr rr].
  - cbn [root_of]. simpl app.
    destruct (climb_tree s c l p i f pr Leaf (S (size (mem obj s))) Hr Hs ltac:(lia))
      as (q' & n' & Hrun & Hq' & Hpar).
    rewrite (bind_run _ _ _ _ _ Hrun).
    rewrite (bind_run _ _ _ _ _ (deref_run q' _ s Hq')).
    by rewrite Hpar.
  - etrans.
    { apply (leftmost_tree s (Node rl rp ri rf rpr rr) (Some p)
               (S (size (mem obj s))) (head_ptr (ctx_after c) None));
        [done|done|simpl in *; lia]. }
    by rewrite head_ptr_app.
Qed.

(** X10.  [next_pivot] on a pivot of a search tree returns the pivot that
    follows it in the order of the indices, NULL for the last pivot, and
    changes nothing. *)
Theorem next_pivot_successor (s : state) (t : tree)
    (xs ys : list (ptr * (Z * Z))) (p : ptr) (a : Z * Z) :
  holds_tree obj s t -> bst t -> inorder t = xs ++ (p, a) :: ys ->
  next_pivot obj (Some p) s = Done (head_ptr ys None) s.
Proof. apply next_pivot_tree. Qed.

(** The traversal of [ls_pivots] from a pivot on. *)
Lemma pivots_from_tree (s : state) (t : tree) :
  holds_tree obj s t -> bst t ->
  forall (ys xs : list (ptr * (Z * Z))) (fuel : nat),
    inorder t = xs ++ ys -> (length ys < fuel)%nat ->
    pivots_from obj fuel (head_ptr ys None) s = Done (snd <$> ys) s.
Proof.
  intros Ht Hs. induction ys as [|[p a] ys IH]; intros xs fuel Hin Hfuel;
    (destruct fuel as [|fuel]; [simpl in Hfuel; lia|]); [done|].
  simpl in Hfuel. cbn [pivots_from head_ptr fst].
  destruct (holds_tree_lookup s t p a.1 a.2 Ht) as (n & Hn & Hi & Hf).
  { rewrite Hin. apply elem_of_app. right. apply elem_of_cons. left.
    by destruct a. }
  rewrite (bind_run _ _ _ _ _ (deref_run p _ s Hn)).
  rewrite (bind_run _ _ _ _ _ (next_pivot_tree s t xs ys p a Ht Hs Hin)).
  rewrite (bind_run _ _ _ _ _ (IH (xs ++ [(p, a)]) fuel
             ltac:(by rewrite <- app_assoc) ltac:(lia))).
  rewrite Hi, Hf. by destruct a.
Qed.

(** X11.  On a search tree that is not empty, [ls_pivots] returns the
    pairs (index, flags) of all the pivots, in increasing order of the
    indices, and changes nothing. *)
Theorem ls_pivots_in_order (s : state) (t : tree) :
  holds_tree obj s t -> bst t -> t <> Leaf ->
  ls_pivots obj s = Done (snd <$> inorder t) s.
Proof.
  intros Ht Hs Hne. pose proof (holds_tree_size s t Ht) as Hsize.
  pose proof Ht as (Hr & Hroot & _).
  unfold ls_pivots, bind at 1, get_root. unfold bind at 1, tree_fuel.
  rewrite Hroot.
  rewrite (bind_run _ _ _ _ _
             (leftmost_tree s t None (S (size (mem obj s))) None Hne Hr ltac:(lia))).
  apply (pivots_from_tree s t Ht Hs (inorder t) []); [done|lia].
Qed.


(** ** Changing the flags of a pivot *)

Lemma set_flags_tree (s : state) (t : tree) (p : ptr) (f : Z)
    (xs ys : list (ptr * (Z * Z))) (i f0 : Z) :
  holds_tree obj s t -> inorder t = xs ++ (p, (i, f0)) :: ys ->
  exists s' t',
    set_flags obj (Some p) f s = Done tt s' /\
    holds_tree obj s' t' /\ inorder t' = xs ++ (p, (i, f)) :: ys /\
    same_list obj s s' /\ root obj s' = root obj s.
Proof.
  intros (Hr & Hroot & Hnd & Hbrk) Hin.
  assert ((p, (i, f0)) ∈ inorder t) as Hp.
  { rewrite Hin. apply elem_of_app. right. apply elem_of_cons. by left. }
  destruct (find_ctx t p (i, f0) Hp) as (c & l & pr & r & ->). simpl in *.
  pose proof Hr as Hr'. apply repr_plug in Hr' as [Hc (Hn & Hl & Hrr)].
  destruct (NoDup_plug_Node _ _ _ _ _ _ _ Hnd) as (Hpl & Hpr & Hpc & _).
  unfold set_flags. rewrite (update_run p _ _ s Hn).
  eexists _, (plug c (Node l p i f pr r)). split; [reflexivity|].
  split; [|split; [|split; [apply same_list_set_mem|done]]].
  - split; [|split; [|split]].
    + simpl. apply repr_plug. split.
      * eapply repr_ctx_ext; [|exact Hc]. intros q Hq.
        rewrite lookup_insert_ne; [done|]. by intros ->.
      * simpl. split; [by rewrite lookup_insert_eq|]. split.
        -- eapply repr_ext; [|exact Hl]. intros q Hq.
           rewrite lookup_insert_ne; [done|]. by intros ->.
        -- eapply repr_ext; [|exact Hrr]. intros q Hq.
           rewrite lookup_insert_ne; [done|]. by intros ->.
    + simpl. rewrite Hroot. by rewrite !root_of_plug.
    + by rewrite (ptrs_plug_flags c l p i f0 f pr r).
    + simpl. by rewrite (ptrs_plug_flags c l p i f0 f pr r).
  - rewrite inorder_plug in Hin |- *. simpl in Hin |- *.
    rewrite <- !app_assoc in Hin |- *. simpl in Hin |- *.
    rewrite app_assoc in Hin.
    assert (NoDup (fst <$> ((ctx_before c ++ inorder l) ++
              (p, (i, f0)) :: inorder r ++ ctx_after c))) as Hnd'.
    { unfold ptrs in Hnd. rewrite inorder_plug in Hnd. simpl in Hnd.
      by rewrite <- !app_assoc in Hnd |- *. }
    destruct (split_unique _ _ _ _ p (i, f0) (i, f0) Hnd' Hin) as (<- & _ & <-).
    by rewrite <- app_assoc.
Qed.


(** ** Inserting a pivot *)

Ltac lookup_solve :=
  simpl;
  repeat first [rewrite lookup_insert_eq | rewrite lookup_insert_ne by congruence];
  first [reflexivity | eassumption].

Ltac step_deref :=
  match goal with
  | |- context [bind (deref obj (Some ?q)) ?k ?st] =>
      let H := fresh "Hd" in
      eassert (mem obj st !! q = Some _) as H by lookup_solve;
      rewrite (bind_run _ _ _ _ _ (deref_run q _ st H)); clear H; simpl
  end.

Ltac step_update :=
  match goal with
  | |- context [bind (update obj (Some ?q) ?f) ?k ?st] =>
      let H := fresh "Hd" in
      eassert (mem obj st !! q = Some _) as H by lookup_solve;
      rewrite (bind_run _ _ _ _ _ (update_run q _ f st H)); clear H; simpl
  | |- context [update obj (Some ?q) ?f ?st] =>
      let H := fresh "Hd" in
      eassert (mem obj st !! q = Some _) as H by lookup_solve;
      rewrite (update_run q _ f st H); clear H; simpl
  end.

Lemma insert_descend_spec (k fl pr : Z) (n : ptr) :
  forall (u : tree) (c : list frame) (s : state) (fuel : nat) (par0 : option ptr),
    u <> Leaf ->
    repr (mem obj s) None (plug c u) ->
    mem obj s !! n = Some (mkNode k fl pr None None par0) ->
    n ∉ ptrs (plug c u) -> NoDup (ptrs (plug c u)) ->
    k ∉ keys u ->
    (length (inorder u) <= fuel)%nat ->
    exists h',
      insert_descend obj fuel k (Some n) (root_of u) s = Done true (set_mem obj h' s) /\
      repr h' None (plug (insert_ctx k u c) (Node Leaf n k fl pr Leaf)).
Proof.
  induction u as [|l IHl p i f ppr r IHr]; intros c s fuel par0 Hu Hr Hn Hfresh Hnd Hk Hfuel;
    [done|].
  simpl in Hfuel. rewrite length_app in Hfuel. simpl in Hfuel.
  destruct fuel as [|fuel]; [lia|].
  pose proof Hr as Hr0. apply repr_plug in Hr0 as (Hc & Hp & Hl & Hrr).
  rewrite keys_Node, elem_of_app, elem_of_cons in Hk.
  pose proof Hfresh as Hfresh0. apply not_in_plug in Hfresh0 as [Hnu Hnc].
  rewrite elem_of_ptrs_Node in Hnu.
  destruct (NoDup_plug_Node _ _ _ _ _ _ _ Hnd) as (Hpl & Hpr & Hpc & Hlrc & Hrc & _).
  assert (n <> p) as Hnp by tauto.
  cbn [root_of]. rewrite (insert_descend_step k (Some n) fuel p _ s Hp).
  cbn [idx node_left node_right root_of insert_ctx].
  destruct (Z.ltb_spec i k) as [Hlt|Hge].
  - destruct r as [|rl rp ri rf rpr rr].
    + cbn [root_of insert_ctx]. unfold set_right, set_parent.
      step_update. step_update.
      eexists. split; [reflexivity|].
      apply repr_plug. split; [|split; [|split]].
      * eapply repr_ctx_ext; [|exact Hc]. intros x Hx.
        rewrite !lookup_insert_ne; [done|intros ?; subst; tauto..].
      * lookup_solve.
      * eapply repr_ext; [|exact Hl]. intros x Hx.
        rewrite !lookup_insert_ne; [done|intros ?; subst; tauto..].
      * simpl. split; [lookup_solve|done].
    + apply (IHr (InRight l p i f ppr :: c) s fuel par0); try done; [tauto|lia].
  - assert (k < i) as Hgt by lia. destruct (Z.gtb_spec i k) as [_|Hle]; [|lia].
    destruct l as [|ll lp li lf lpr lr].
    + cbn [root_of insert_ctx]. unfold set_left, set_parent.
      step_update. step_update.
      eexists. split; [reflexivity|].
      apply repr_plug. split; [|split; [|split]].
      * eapply repr_ctx_ext; [|exact Hc]. intros x Hx.
        rewrite !lookup_insert_ne; [done|intros ?; subst; tauto..].
      * lookup_solve.
      * simpl. split; [lookup_solve|done].
      * eapply repr_ext; [|exact Hrr]. intros x Hx.
        rewrite !lookup_insert_ne; [done|intros ?; subst; tauto..].
    + apply (IHl (InLeft p i f ppr r :: c) s fuel par0); try done; [tauto|lia].
Qed.

Lemma rotate_up_left (s : state) (a b r : tree) (n p : ptr)
    (k fl pr i f ppr : Z) (gp : option ptr) :
  mem obj s !! n = Some (mkNode k fl pr (root_of a) (root_of b) (Some p)) ->
  mem obj s !! p = Some (mkNode i f ppr (Some n) (root_of r) gp) ->
  repr (mem obj s) (Some n) a -> repr (mem obj s) (Some n) b ->
  repr (mem obj s) (Some p) r ->
  NoDup (ptrs (Node (Node a n k fl pr b) p i f ppr r)) ->
  k < i ->
  exists h',
    rotate_up obj (Some n) s = Done tt (set_mem obj h' s) /\
    repr h' gp (Node a n k fl pr (Node b p i f ppr r)) /\
    (forall x, x <> n -> x <> p -> x ∉ ptrs b -> h' !! x = mem obj s !! x).
Proof.
  intros Hn Hp Ha Hb Hr Hnd Hlt.
  apply NoDup_Node in Hnd as (Hnd1 & Hndr & Hp1 & Hpr & Hsep).
  apply NoDup_Node in Hnd1 as (Hnda & Hndb & Hna & Hnb & Hab).
  rewrite elem_of_ptrs_Node in Hp1. setoid_rewrite elem_of_ptrs_Node in Hsep.
  assert (n <> p) as Hnp by (intros ->; tauto).
  unfold rotate_up. step_deref. step_deref.
  destruct (Z.ltb_spec k i) as [_|?]; [|lia].
  unfold set_parent, set_right, set_left. do 4 step_update.
  destruct b as [|bl cb bi bf bpr br].
  - simpl. eexists. split; [reflexivity|]. split.
    + simpl. split; [lookup_solve|]. split; [|split; [lookup_solve|split; [done|]]].
      * eapply repr_ext; [|exact Ha]. intros x Hx.
        rewrite !lookup_insert_ne; [done|intros ?; subst; tauto..].
      * eapply repr_ext; [|exact Hr]. intros x Hx.
        rewrite !lookup_insert_ne; [done|intros ?; subst; naive_solver..].
    + intros x Hxn Hxp _. rewrite !lookup_insert_ne; [done|congruence..].
  - destruct Hb as (Hcb & Hbl & Hbr). simpl in Hcb.
    apply NoDup_Node in Hndb as (_ & _ & Hcbl & Hcbr & _).
    rewrite elem_of_ptrs_Node in Hnb. rewrite elem_of_ptrs_Node in Hp1.
    setoid_rewrite elem_of_ptrs_Node in Hab.
    setoid_rewrite elem_of_ptrs_Node in Hsep.
    assert (cb <> n) as Hcn by (intros ->; tauto).
    assert (cb <> p) as Hcp by (intros ->; tauto).
    simpl. step_update.
    eexists. split; [reflexivity|]. split.
    + simpl. split; [lookup_solve|]. split; [|split; [lookup_solve|split; [split; [lookup_solve|split]|]]].
      * eapply repr_ext; [|exact Ha]. intros x Hx.
        rewrite !lookup_insert_ne; [done|intros ?; subst; naive_solver..].
      * eapply repr_ext; [|exact Hbl]. intros x Hx.
        rewrite !lookup_insert_ne; [done|intros ?; subst; naive_solver..].
      * eapply repr_ext; [|exact Hbr]. intros x Hx.
        rewrite !lookup_insert_ne; [done|intros ?; subst; naive_solver..].
      * eapply repr_ext; [|exact Hr]. intros x Hx.
        rewrite !lookup_insert_ne; [done|intros ?; subst; naive_solver..].
    + intros x Hxn Hxp Hxb. rewrite elem_of_ptrs_Node in Hxb.
      rewrite !lookup_insert_ne; [done|intros ?; subst; tauto..].
Qed.

Lemma rotate_up_right (s : state) (a b l : tree) (n p : ptr)
    (k fl pr i f ppr : Z) (gp : option ptr) :
  mem obj s !! n = Some (mkNode k fl pr (root_of a) (root_of b) (Some p)) ->
  mem obj s !! p = Some (mkNode i f ppr (root_of l) (Some n) gp) ->
  repr (mem obj s) (Some n) a -> repr (mem obj s) (Some n) b ->
  repr (mem obj s) (Some p) l ->
  NoDup (ptrs (Node l p i f ppr (Node a n k fl pr b))) ->
  i < k ->
  exists h',
    rotate_up obj (Some n) s = Done tt (set_mem obj h' s) /\
    repr h' gp (Node (Node l p i f ppr a) n k fl pr b) /\
    (forall x, x <> n -> x <> p -> x ∉ ptrs a -> h' !! x = mem obj s !! x).
Proof.
  intros Hn Hp Ha Hb Hl Hnd Hlt.
  apply NoDup_Node in Hnd as (Hndl & Hnd1 & Hpl & Hp1 & Hsep).
  apply NoDup_Node in Hnd1 as (Hnda & Hndb & Hna & Hnb & Hab).
  rewrite elem_of_ptrs_Node in Hp1. setoid_rewrite elem_of_ptrs_Node in Hsep.
  assert (n <> p) as Hnp by (intros ->; tauto).
  unfold rotate_up. step_deref. step_deref.
  destruct (Z.ltb_spec k i) as [?|_]; [lia|].
  unfold set_parent, set_right, set_left. do 4 step_update.
  destruct a as [|al ca ai af apr ar].
  - simpl. eexists. split; [reflexivity|]. split.
    + simpl. split; [lookup_solve|].
      split; [split; [lookup_solve|split; [|done]]|].
      * eapply repr_ext; [|exact Hl]. intros x Hx.
        rewrite !lookup_insert_ne; [done|intros ?; subst; naive_solver..].
      * eapply repr_ext; [|exact Hb]. intros x Hx.
        rewrite !lookup_insert_ne; [done|intros ?; subst; naive_solver..].
    + intros x Hxn Hxp _. rewrite !lookup_insert_ne; [done|congruence..].
  - destruct Ha as (Hca & Hal & Har). simpl in Hca.
    apply NoDup_Node in Hnda as (_ & _ & Hcal & Hcar & _).
    rewrite elem_of_ptrs_Node in Hna. rewrite elem_of_ptrs_Node in Hp1.
    setoid_rewrite elem_of_ptrs_Node in Hab.
    setoid_rewrite elem_of_ptrs_Node in Hsep.
    assert (ca <> n) as Hcn by (intros ->; tauto).
    assert (ca <> p) as Hcp by (intros ->; tauto).
    simpl. step_update.
    eexists. split; [reflexivity|]. split.
    + simpl. split; [lookup_solve|].
      split; [split; [lookup_solve|split; [|split; [lookup_solve|split]]]|].
      * eapply repr_ext; [|exact Hl]. intros x Hx.
        rewrite !lookup_insert_ne; [done|intros ?; subst; naive_solver..].
      * eapply repr_ext; [|exact Hal]. intros x Hx.
        rewrite !lookup_insert_ne; [done|intros ?; subst; naive_solver..].
      * eapply repr_ext; [|exact Har]. intros x Hx.
        rewrite !lookup_insert_ne; [done|intros ?; subst; naive_solver..].
      * eapply repr_ext; [|exact Hb]. intros x Hx.
        rewrite !lookup_insert_ne; [done|intros ?; subst; naive_solver..].
    + intros x Hxn Hxp Hxa. rewrite elem_of_ptrs_Node in Hxa.
      rewrite !lookup_insert_ne; [done|intros ?; subst; tauto..].
Qed.

Lemma retarget_ctx (s : state) (c : list frame) (p n : ptr) (k : Z) :
  c <> [] -> repr_ctx (mem obj s) None c (Some p) ->
  Forall (on_path k) c -> NoDup (ctx_ptrs c) ->
  exists g G h',
    hole_parent c None = Some g /\ mem obj s !! g = Some G /\
    (if k <? idx G then set_left obj (Some g) (Some n)
     else set_right obj (Some g) (Some n)) s = Done tt (set_mem obj h' s) /\
    repr_ctx h' None c (Some n) /\
    (forall x, x <> g -> h' !! x = mem obj s !! x).
Proof.
  intros Hne Hc Hpath Hnd.
  destruct c as [|[g gi gf gpr gr|gl g gi gf gpr] c]; [done|..];
    apply Forall_cons in Hpath as [Hk _]; simpl in Hk;
    destruct Hc as (Hg & Hsub & Hc);
    rewrite <- ctx_ptrs_plug_Leaf in Hnd; simpl in Hnd;
    destruct (NoDup_plug_Node _ _ _ _ _ _ _ Hnd) as (Hgl & Hgr & Hgc & _);
    exists g; eexists; eexists; (split; [reflexivity|]); (split; [exact Hg|]); simpl.
  - destruct (Z.ltb_spec k gi) as [_|?]; [|lia].
    unfold set_left. step_update. split; [reflexivity|]. split.
    + split; [lookup_solve|]. split.
      * eapply repr_ext; [|exact Hsub]. intros x Hx.
        rewrite !lookup_insert_ne; [done|intros ?; subst; tauto..].
      * eapply repr_ctx_ext; [|exact Hc]. intros x Hx.
        rewrite !lookup_insert_ne; [done|intros ?; subst; tauto..].
    + intros x Hx. rewrite !lookup_insert_ne; [done|congruence..].
  - destruct (Z.ltb_spec k gi) as [?|_]; [lia|].
    unfold set_right. step_update. split; [reflexivity|]. split.
    + split; [lookup_solve|]. split.
      * eapply repr_ext; [|exact Hsub]. intros x Hx.
        rewrite !lookup_insert_ne; [done|intros ?; subst; tauto..].
      * eapply repr_ctx_ext; [|exact Hc]. intros x Hx.
        rewrite !lookup_insert_ne; [done|intros ?; subst; tauto..].
    + intros x Hx. rewrite !lookup_insert_ne; [done|congruence..].
Qed.

Lemma state_eta (s : state) : with_root obj (root obj s) (set_mem obj (mem obj s) s) = s.
Proof. by destruct s. Qed.

Lemma insert_rotate_spec (k fl pr : Z) (n : ptr) :
  forall (c : list frame) (a b : tree) (s : state) (fuel : nat),
    c <> [] -> Forall (on_path k) c ->
    repr (mem obj s) None (plug c (Node a n k fl pr b)) ->
    NoDup (ptrs (plug c (Node a n k fl pr b))) ->
    root obj s = root_of (plug c (Node a n k fl pr b)) ->
    (length c <= fuel)%nat ->
    exists h',
      insert_rotate obj fuel k (Some n) s
        = Done tt (with_root obj (root_of (rotate_ctx c a n k fl pr b))
                     (set_mem obj h' s)) /\
      repr h' None (rotate_ctx c a n k fl pr b).
Proof.
  induction c as [|fr c IH]; intros a b s fuel Hne Hpath Hr Hnd Hroot Hfuel; [done|].
  destruct fuel as [|fuel]; [simpl in Hfuel; lia|]. simpl in Hfuel.
  apply Forall_cons in Hpath as [Hk Hpath].
  destruct fr as [p i f ppr r|l p i f ppr]; simpl in Hk.
  - simpl plug in Hr, Hnd, Hroot.
    pose proof Hr as Hr0. apply repr_plug in Hr0 as (Hc & Hp & (Hn & Ha & Hb) & Hrr).
    simpl root_of in Hp.
    pose proof Hnd as Hnd0. apply NoDup_plug in Hnd0 as (HndT & Hndc & Hsep).
    cbn [insert_rotate]. step_deref. step_deref.
    destruct (pr >? ppr) eqn:Hpri; cbn [rotate_ctx]; rewrite ?Hpri.
    + destruct (rotate_up_left s a b r n p k fl pr i f ppr (hole_parent c None)
                  Hn Hp Ha Hb Hrr HndT Hk) as (h1 & Hrun1 & Hrep1 & Hframe1).
      rewrite (bind_run _ _ _ _ _ Hrun1).
      pose proof Hrep1 as (Hn1 & _).
      step_deref.
      destruct c as [|gfr c'].
      * simpl. exists h1. split; [reflexivity|exact Hrep1].
      * assert (repr_ctx h1 None (gfr :: c') (Some p)) as Hc1.
        { eapply repr_ctx_ext; [|exact Hc]. intros x Hx.
          setoid_rewrite elem_of_ptrs_Node in Hsep.
          setoid_rewrite elem_of_ptrs_Node in Hsep.
          apply Hframe1; [intros ->|intros ->|intros Hxb];
            eapply Hsep; try exact Hx; tauto. }
        destruct (retarget_ctx (set_mem obj h1 s) (gfr :: c') p n k
                    ltac:(done) Hc1 Hpath Hndc)
          as (g & G & h2 & Hg & HG & Hrun2 & Hc2 & Hframe2).
        rewrite Hg in Hrep1 |- *. step_deref. rewrite (bind_run _ _ _ _ _ Hrun2).
        destruct (IH a (Node b p i f ppr r) (set_mem obj h2 (set_mem obj h1 s)) fuel)
          as (h' & Hrun & Hrep); [done|done| | | |simpl in Hfuel |- *; lia|].
        -- apply repr_plug. split; [exact Hc2|]. rewrite ?Hg.
           eapply repr_ext; [|exact Hrep1]. intros x Hx. apply Hframe2.
           intros ->. 
           assert (g ∈ ctx_ptrs (gfr :: c')) as Hgc.
           { destruct gfr; simpl in Hg; injection Hg as ->.
             - apply elem_of_ctx_ptrs_InLeft. by left.
             - apply elem_of_ctx_ptrs_InRight. by left. }
           eapply (Hsep g); [|exact Hgc].
           rewrite !elem_of_ptrs_Node in Hx. rewrite !elem_of_ptrs_Node. tauto.
        -- rewrite (ptrs_plug_inorder _ (Node (Node a n k fl pr b) p i f ppr r));
             [done|]. simpl. rewrite <- ?app_assoc. simpl. by rewrite <- ?app_assoc.
        -- simpl root. rewrite Hroot, !root_of_plug. by destruct gfr.
        -- exists h'. split; [exact Hrun|exact Hrep].
    + exists (mem obj s). split; [|exact Hr].
      simpl. by rewrite <- Hroot, state_eta.
  - simpl plug in Hr, Hnd, Hroot.
    pose proof Hr as Hr0. apply repr_plug in Hr0 as (Hc & Hp & Hl & (Hn & Ha & Hb)).
    simpl root_of in Hp.
    pose proof Hnd as Hnd0. apply NoDup_plug in Hnd0 as (HndT & Hndc & Hsep).
    cbn [insert_rotate]. step_deref. step_deref.
    destruct (pr >? ppr) eqn:Hpri; cbn [rotate_ctx]; rewrite ?Hpri.
    + destruct (rotate_up_right s a b l n p k fl pr i f ppr (hole_parent c None)
                  Hn Hp Ha Hb Hl HndT Hk) as (h1 & Hrun1 & Hrep1 & Hframe1).
      rewrite (bind_run _ _ _ _ _ Hrun1).
      pose proof Hrep1 as (Hn1 & _).
      step_deref.
      destruct c as [|gfr c'].
      * simpl. exists h1. split; [reflexivity|exact Hrep1].
      * assert (repr_ctx h1 None (gfr :: c') (Some p)) as Hc1.
        { eapply repr_ctx_ext; [|exact Hc]. intros x Hx.
          setoid_rewrite elem_of_ptrs_Node in Hsep.
          setoid_rewrite elem_of_ptrs_Node in Hsep.
          apply Hframe1; [intros ->|intros ->|intros Hxb];
            eapply Hsep; try exact Hx; tauto. }
        destruct (retarget_ctx (set_mem obj h1 s) (gfr :: c') p n k
                    ltac:(done) Hc1 Hpath Hndc)
          as (g & G & h2 & Hg & HG & Hrun2 & Hc2 & Hframe2).
        rewrite Hg in Hrep1 |- *. step_deref. rewrite (bind_run _ _ _ _ _ Hrun2).
        destruct (IH (Node l p i f ppr a) b (set_mem obj h2 (set_mem obj h1 s)) fuel)
          as (h' & Hrun & Hrep); [done|done| | | |simpl in Hfuel |- *; lia|].
        -- apply repr_plug. split; [exact Hc2|]. rewrite ?Hg.
           eapply repr_ext; [|exact Hrep1]. intros x Hx. apply Hframe2.
           intros ->. 
           assert (g ∈ ctx_ptrs (gfr :: c')) as Hgc.
           { destruct gfr; simpl in Hg; injection Hg as ->.
             - apply elem_of_ctx_ptrs_InLeft. by left.
             - apply elem_of_ctx_ptrs_InRight. by left. }
           eapply (Hsep g); [|exact Hgc].
           rewrite !elem_of_ptrs_Node in Hx. rewrite !elem_of_ptrs_Node. tauto.
        -- rewrite (ptrs_plug_inorder _ (Node l p i f ppr (Node a n k fl pr b)));
             [done|]. simpl. rewrite <- ?app_assoc. simpl. by rewrite <- ?app_assoc.
        -- simpl root. rewrite Hroot, !root_of_plug. by destruct gfr.
        -- exists h'. split; [exact Hrun|exact Hrep].
    + exists (mem obj s). split; [|exact Hr].
      simpl. by rewrite <- Hroot, state_eta.
Qed.

(** [insert_pivot] after the allocation of the node. *)
Lemma insert_pivot_alloc (k fl : Z) (start : option ptr) (s : state) :
  insert_pivot obj rand_at k fl start s
  = let n := brk obj s in
    let s2 := mkState obj (ob_item obj s) (root obj s)
                (<[n := mkNode k fl (rand_at (rnd obj s)) None None None]> (mem obj s))
                (Pos.succ n) (S (rnd obj s)) (ncmp obj s) (pyerr obj s) in
    match root obj s with
    | None => (set_parent obj (Some n) None ;;; set_root obj (Some n) ;;;
               ret (Some n)) s2
    | Some _ =>
        (fuel <- tree_fuel obj ;;
         linked <- insert_descend obj fuel k (Some n) start ;;
         if linked : bool then insert_rotate obj fuel k (Some n) ;;; ret (Some n)
         else ret None) s2
    end.
Proof. destruct s as [a [rt|] h b r c e]; reflexivity. Qed.

Lemma holds_tree_insert_pivot (k fl : Z) (s : state) (t : tree) :
  holds_tree obj s t -> k ∉ keys t ->
  exists s',
    insert_pivot obj rand_at k fl (root obj s) s = Done (Some (brk obj s)) s' /\
    holds_tree obj s' (insert_tree k fl (brk obj s) (rand_at (rnd obj s)) t) /\
    ob_item obj s' = ob_item obj s /\ brk obj s' = Pos.succ (brk obj s) /\
    rnd obj s' = S (rnd obj s) /\ ncmp obj s' = ncmp obj s /\
    pyerr obj s' = pyerr obj s.
Proof.
  intros Ht Hk. pose proof Ht as (Hr & Hroot & Hnd & Hbrk).
  rewrite insert_pivot_alloc.
  set (n := brk obj s). set (pr := rand_at (rnd obj s)).
  assert (n ∉ ptrs t) as Hfresh.
  { intros Hin. rewrite Forall_forall in Hbrk. specialize (Hbrk _ Hin).
    unfold n in Hbrk. lia. }
  cbv zeta.
  set (s2 := mkState obj (ob_item obj s) (root obj s)
               (<[n := mkNode k fl pr None None None]> (mem obj s))
               (Pos.succ n) (S (rnd obj s)) (ncmp obj s) (pyerr obj s)).
  assert (holds_tree obj s2 t) as Ht2.
  { split; [|split; [done|split; [done|]]].
    - eapply repr_ext; [|exact Hr]. intros x Hx. simpl.
      rewrite lookup_insert_ne; [done|]. by intros ->.
    - eapply Forall_impl; [exact Hbrk|]. simpl. fold n. intros. lia. }
  destruct t as [|l p i f ppr r].
  - simpl in Hroot. rewrite Hroot. unfold set_parent.
    rewrite (bind_run _ _ _ _ _
               (update_run n (mkNode k fl pr None None None) _ s2
                  ltac:(simpl; by rewrite lookup_insert_eq))).
    eexists. split; [reflexivity|]. 
    split; [|done]. split; [|split; [done|split]].
    + simpl. by rewrite lookup_insert_eq.
    + apply NoDup_singleton.
    + constructor; [apply Pos.lt_succ_diag_r|constructor].
  - rewrite Hroot. cbn [root_of]. unfold bind at 1, tree_fuel.
    pose proof (holds_tree_size s2 _ Ht2) as Hsize.
    destruct (insert_descend_spec k fl pr n (Node l p i f ppr r) [] s2
                (S (size (mem obj s2))) None)
      as (h1 & Hrun1 & Hrep1); [done| | |done|done|done|lia|].
    { by destruct Ht2. }
    { simpl. by rewrite lookup_insert_eq. }
    simpl root_of in Hrun1. rewrite (bind_run _ _ _ _ _ Hrun1).
    set (C := insert_ctx k (Node l p i f ppr r) []) in *.
    assert (C <> []) as HC by (apply insert_ctx_cons; by left).
    pose proof (plug_insert_ctx k (Node l p i f ppr r) []) as Hplug.
    fold C in Hplug. simpl in Hplug.
    assert (NoDup (ptrs (plug C (Node Leaf n k fl pr Leaf)))) as Hnd1.
    { apply NoDup_plug. rewrite <- Hplug in Hnd, Hfresh.
      apply NoDup_plug in Hnd as (_ & Hndc & _).
      apply not_in_plug in Hfresh as [_ Hfresh].
      split; [apply NoDup_singleton|]. split; [done|].
      intros x Hx. apply list_elem_of_singleton in Hx. by subst x. }
    destruct (insert_rotate_spec k fl pr n C Leaf Leaf (set_mem obj h1 s2)
                (S (size (mem obj s2))))
      as (h2 & Hrun2 & Hrep2); [done| |done|done| | |].
    { apply on_path_insert_ctx; [done|constructor]. }
    { simpl. rewrite Hroot. rewrite <- Hplug at 1. rewrite !root_of_plug.
      by apply top_of_cons. }
    { pose proof (insert_ctx_length k (Node l p i f ppr r) []) as Hlen.
      fold C in Hlen. simpl in Hlen, Hsize. simpl. lia. }
    unfold bind at 1. rewrite Hrun2. 
    eexists. split; [reflexivity|]. split; [|done].
    unfold insert_tree. fold C.
    split; [exact Hrep2|]. split; [done|].
    unfold ptrs. rewrite inorder_rotate_ctx. fold (ptrs (plug C (Node Leaf n k fl pr Leaf))).
    split; [done|]. simpl.
    apply Forall_forall. intros x Hx.
    rewrite ptrs_plug, elem_of_app in Hx. destruct Hx as [Hx|Hx].
    + apply list_elem_of_singleton in Hx. subst x. apply Pos.lt_succ_diag_r.
    + rewrite <- ctx_ptrs_plug_Leaf, Hplug in Hx.
      rewrite Forall_forall in Hbrk. specialize (Hbrk _ Hx). fold n in Hbrk. lia.
Qed.


(** X7.  [insert_pivot(k, fl, root, root)] on a search tree that has no
    pivot with index [k]: the call returns the newly allocated node; the
    tree is again a search tree and holds the old pivots, at their
    addresses and with their flags, and the new pivot [(k, fl)] at its place
    in the order; one [rand()] is drawn, and the list, the comparison count
    and the error indicator are as they were. *)
Theorem insert_pivot_inserts (k fl : Z) (s : state) (t : tree) :
  holds_tree obj s t -> bst t -> k ∉ keys t ->
  exists s' t',
    insert_pivot obj rand_at k fl (root obj s) s = Done (Some (brk obj s)) s' /\
    holds_tree obj s' t' /\ bst t' /\
    inorder t' = below k (inorder t) ++ (brk obj s, (k, fl)) :: above k (inorder t) /\
    ob_item obj s' = ob_item obj s /\ rnd obj s' = S (rnd obj s) /\
    ncmp obj s' = ncmp obj s /\ pyerr obj s' = pyerr obj s.
Proof.
  intros Ht Hs Hk.
  destruct (holds_tree_insert_pivot k fl s t Ht Hk)
    as (s' & Hrun & Ht' & Hitems & _ & Hrnd & Hncmp & Herr).
  exists s', (insert_tree k fl (brk obj s) (rand_at (rnd obj s)) t).
  split; [exact Hrun|]. split; [exact Ht'|].
  split; [by apply insert_tree_bst|].
  split; [by apply insert_tree_inorder|done].
Qed.


(** ** Inserting an index that is already a pivot *)

Lemma insert_descend_duplicate (k : Z) (node : option ptr) (s : state) :
  forall (u : tree) (par : option ptr) (fuel : nat),
    repr (mem obj s) par u -> bst u -> k ∈ keys u ->
    (length (inorder u) <= fuel)%nat ->
    insert_descend obj fuel k node (root_of u) s
    = Done false (mkState obj (ob_item obj s) (root obj s) (mem obj s) (brk obj s)
                    (rnd obj s) (ncmp obj s) true).
Proof.
  induction u as [|l IHl p i f pr r IHr]; intros par fuel Hr Hs Hk Hfuel.
  { by apply elem_of_nil in Hk. }
  destruct Hr as (Hp & Hl & Hrr).
  simpl in Hfuel. rewrite length_app in Hfuel. simpl in Hfuel.
  destruct fuel as [|fuel]; [lia|].
  pose proof (bst_node [] [] l r p i f) as Hnode. simpl in Hnode.
  rewrite app_nil_r in Hnode. destruct (Hnode Hs) as [Hlt Hgt].
  unfold bst in Hs. rewrite keys_Node in Hs, Hk.
  pose proof (StronglySorted_app_1_l _ _ _ Hs) as Hsl.
  apply StronglySorted_app_1_r, StronglySorted_cons in Hs as [_ Hsr].
  rewrite elem_of_app, elem_of_cons in Hk.
  cbn [root_of]. rewrite (insert_descend_step k node fuel p _ s Hp).
  cbn [idx node_left node_right].
  destruct Hk as [Hk|[->|Hk]].
  - apply list_elem_of_fmap in Hk as (x & -> & Hx).
    rewrite Forall_forall in Hlt. specialize (Hlt _ Hx).
    destruct (Z.ltb_spec i x.2.1); [lia|]. destruct (Z.gtb_spec i x.2.1); [|lia].
    destruct l as [|ll lp li lf lpr lr]; [by apply elem_of_nil in Hx|].
    apply (IHl (Some p) fuel); [done|done| |lia].
    apply list_elem_of_fmap. eauto.
  - destruct (Z.ltb_spec i i); [lia|]. destruct (Z.gtb_spec i i); [lia|]. done.
  - apply list_elem_of_fmap in Hk as (x & -> & Hx).
    rewrite Forall_forall in Hgt. specialize (Hgt _ Hx).
    destruct (Z.ltb_spec i x.2.1); [|lia].
    destruct r as [|rl rp ri rf rpr rr]; [by apply elem_of_nil in Hx|].
    apply (IHr (Some p) fuel); [done|done| |lia].
    apply list_elem_of_fmap. eauto.
Qed.

(** X12.  [insert_pivot(k, ...)] from the root of a search tree that already
    has a pivot with index [k]: the call returns NULL with the error
    indicator set; the tree is the same, but the node allocated for the
    insertion stays in the store, linked from nowhere (it is not freed), and
    one [rand()] has been drawn. *)
Theorem insert_pivot_duplicate (k fl : Z) (s : state) (t : tree) :
  holds_tree obj s t -> bst t -> k ∈ keys t ->
  exists s',
    insert_pivot obj rand_at k fl (root obj s) s = Done None s' /\
    pyerr obj s' = true /\ holds_tree obj s' t /\
    mem obj s' !! brk obj s
      = Some (mkNode k fl (rand_at (rnd obj s)) None None None) /\
    (forall q, q <> brk obj s -> mem obj s' !! q = mem obj s !! q) /\
    ob_item obj s' = ob_item obj s /\ rnd obj s' = S (rnd obj s).
Proof.
  intros Ht Hs Hk. pose proof Ht as (Hr & Hroot & Hnd & Hbrk).
  rewrite insert_pivot_alloc. cbv zeta.
  set (n := brk obj s). set (pr := rand_at (rnd obj s)).
  set (s2 := mkState obj (ob_item obj s) (root obj s)
               (<[n := mkNode k fl pr None None None]> (mem obj s))
               (Pos.succ n) (S (rnd obj s)) (ncmp obj s) (pyerr obj s)).
  assert (holds_tree obj s2 t) as Ht2.
  { split; [|split; [done|split; [done|]]].
    - eapply repr_ext; [|exact Hr]. intros x Hx. simpl.
      rewrite lookup_insert_ne; [done|]. intros <-.
      rewrite Forall_forall in Hbrk. specialize (Hbrk _ Hx). unfold n in Hbrk. lia.
    - eapply Forall_impl; [exact Hbrk|]. simpl. fold n. intros. lia. }
  pose proof (holds_tree_size s2 _ Ht2) as Hsize.
  destruct t as [|l p i f ppr r]; [by apply elem_of_nil in Hk|].
  rewrite Hroot. cbn [root_of]. unfold bind at 1, tree_fuel.
  change (Some p) with (root_of (Node l p i f ppr r)).
  rewrite (bind_run _ _ _ _ _
             (insert_descend_duplicate k (Some n) s2 (Node l p i f ppr r) None
                (S (size (mem obj s2))) ltac:(by destruct Ht2) Hs Hk ltac:(lia))).
  eexists. split; [reflexivity|]. split; [done|]. split; [exact Ht2|].
  split; [simpl; by rewrite lookup_insert_eq|]. split; [|done].
  intros q Hq. simpl. by rewrite lookup_insert_ne.
Qed.


(** ** Deleting a pivot *)

Ltac sep_at x :=
  repeat match goal with
         | H : forall y : ptr, _ |- _ => pose proof (H x); clear H
         end;
  subst;
  rewrite ?elem_of_app, ?elem_of_ptrs_Node, ?elem_of_cons in *;
  intuition congruence.

Lemma ptrs_app_inorder (t a b : tree) :
  inorder t = inorder a ++ inorder b -> ptrs t = ptrs a ++ ptrs b.
Proof. intros H. unfold ptrs. by rewrite H, fmap_app. Qed.

(** [merge_trees] on two trees with the same parent pointer. *)
Lemma merge_trees_spec :
  forall (fuel : nat) (par : option ptr) (a b : tree) (s : state),
    repr (mem obj s) par a -> repr (mem obj s) par b ->
    NoDup (ptrs a ++ ptrs b) ->
    (length (inorder a) + length (inorder b) < fuel)%nat ->
    exists h' m,
      merge_trees obj fuel (root_of a) (root_of b) s
        = Done (root_of m) (set_mem obj h' s) /\
      repr h' par m /\ inorder m = inorder a ++ inorder b /\
      (forall x, x ∉ ptrs a -> x ∉ ptrs b -> h' !! x = mem obj s !! x).
Proof.
  induction fuel as [|fuel IH]; intros par a b s Ha Hb Hnd Hfuel; [lia|].
  destruct a as [|al ap ai af apr ar].
  { exists (mem obj s), b. split; [by destruct s|]. by split. }
  destruct b as [|bl bp bi bf bpr br].
  { exists (mem obj s), (Node al ap ai af apr ar).
    split; [by destruct s|]. split; [done|]. by rewrite app_nil_r. }
  pose proof Ha as (Hap & Hal & Har). pose proof Hb as (Hbp & Hbl & Hbr).
  pose proof Hnd as Hnd0. apply NoDup_app in Hnd0 as (HndA & Hsep & HndB).
  pose proof HndA as HndA0. pose proof HndB as HndB0.
  apply NoDup_Node in HndA0 as (Hndal & Hndar & Hapal & Hapar & Hsepa).
  apply NoDup_Node in HndB0 as (Hndbl & Hndbr & Hbpbl & Hbpbr & Hsepb).
  assert (ap ∉ ptrs (Node bl bp bi bf bpr br)) as HapB.
  { apply Hsep. rewrite elem_of_ptrs_Node. tauto. }
  assert (bp ∉ ptrs (Node al ap ai af apr ar)) as HbpA.
  { intros Hin. apply (Hsep bp Hin). rewrite elem_of_ptrs_Node. tauto. }
  assert (ap <> bp) as Hne.
  { intros ->. apply HapB. rewrite elem_of_ptrs_Node. tauto. }
  simpl in Hfuel. rewrite !length_app in Hfuel. simpl in Hfuel.
  cbn [merge_trees root_of]. step_deref. step_deref.
  destruct (apr >? bpr) eqn:Hpri.
  - unfold set_parent, set_right. step_update. step_deref.
    match goal with
    | |- context [bind (merge_trees obj fuel (root_of ar) (Some bp)) _ ?st] =>
        destruct (IH (Some ap) ar (Node bl bp bi bf bpr br) st)
          as (h2 & m & Hrun & Hm & Hin & Hframe)
    end.
    + eapply repr_ext; [|exact Har]. intros x Hx. simpl.
      rewrite lookup_insert_ne; [done|]. intros Heq. clear IH. sep_at x.
    + simpl. split; [lookup_solve|]. split.
      * eapply repr_ext; [|exact Hbl]. intros x Hx.
        rewrite lookup_insert_ne; [done|]. intros Heq. clear IH. sep_at x.
      * eapply repr_ext; [|exact Hbr]. intros x Hx.
        rewrite lookup_insert_ne; [done|]. intros Heq. clear IH. sep_at x.
    + apply NoDup_app. split; [done|]. split; [|done]. intros x Hx Hxb. clear IH. sep_at x.
    + simpl. rewrite length_app. simpl. lia.
    + cbn [root_of] in Hrun. rewrite (bind_run _ _ _ _ _ Hrun).
      assert (h2 !! ap = Some (mkNode ai af apr (root_of al) (root_of ar) par)) as Hap2.
      { rewrite Hframe; [simpl; by rewrite lookup_insert_ne|done|done]. }
      step_update.
      exists (<[ap := mkNode ai af apr (root_of al) (root_of m) par]> h2),
             (Node al ap ai af apr m).
      split; [reflexivity|].
      pose proof (ptrs_app_inorder m ar (Node bl bp bi bf bpr br) Hin) as Hptrs.
      split; [|split].
      * simpl. split; [by rewrite lookup_insert_eq|]. split.
        -- eapply repr_ext; [|exact Hal]. intros x Hx.
           rewrite lookup_insert_ne by (intros Heq; clear IH Hframe; sep_at x).
           rewrite Hframe; [|clear IH Hframe; sep_at x..].
           simpl. rewrite lookup_insert_ne; [done|]. intros Heq. clear IH. sep_at x.
        -- eapply repr_ext; [|exact Hm]. intros x Hx.
           rewrite lookup_insert_ne; [done|]. intros Heq.
           rewrite Hptrs in Hx. clear IH Hframe. sep_at x.
      * simpl. rewrite Hin. simpl. by rewrite <- !app_assoc.
      * intros x Hxa Hxb.
        rewrite lookup_insert_ne by (intros Heq; clear IH Hframe; sep_at x).
        rewrite Hframe; [|clear IH Hframe; sep_at x..].
        simpl. rewrite lookup_insert_ne; [done|]. intros Heq. clear IH. sep_at x.
  - unfold set_parent, set_left. step_update. step_deref.
    match goal with
    | |- context [bind (merge_trees obj fuel (Some ap) (root_of bl)) _ ?st] =>
        destruct (IH (Some bp) (Node al ap ai af apr ar) bl st)
          as (h2 & m & Hrun & Hm & Hin & Hframe)
    end.
    + simpl. split; [lookup_solve|]. split.
      * eapply repr_ext; [|exact Hal]. intros x Hx.
        rewrite lookup_insert_ne; [done|]. intros Heq. clear IH. sep_at x.
      * eapply repr_ext; [|exact Har]. intros x Hx.
        rewrite lookup_insert_ne; [done|]. intros Heq. clear IH. sep_at x.
    + eapply repr_ext; [|exact Hbl]. intros x Hx. simpl.
      rewrite lookup_insert_ne; [done|]. intros Heq. clear IH. sep_at x.
    + apply NoDup_app. split; [done|]. split; [|done]. intros x Hx Hxb. clear IH. sep_at x.
    + simpl. rewrite length_app. simpl. lia.
    + cbn [root_of] in Hrun. rewrite (bind_run _ _ _ _ _ Hrun).
      assert (h2 !! bp = Some (mkNode bi bf bpr (root_of bl) (root_of br) par)) as Hbp2.
      { rewrite Hframe; [simpl; by rewrite lookup_insert_ne|done|done]. }
      step_update.
      exists (<[bp := mkNode bi bf bpr (root_of m) (root_of br) par]> h2),
             (Node m bp bi bf bpr br).
      split; [reflexivity|].
      pose proof (ptrs_app_inorder m (Node al ap ai af apr ar) bl Hin) as Hptrs.
      split; [|split].
      * simpl. split; [by rewrite lookup_insert_eq|]. split.
        -- eapply repr_ext; [|exact Hm]. intros x Hx.
           rewrite lookup_insert_ne; [done|]. intros Heq.
           rewrite Hptrs in Hx. clear IH Hframe. sep_at x.
        -- eapply repr_ext; [|exact Hbr]. intros x Hx.
           rewrite lookup_insert_ne by (intros Heq; clear IH Hframe; sep_at x).
           rewrite Hframe; [|clear IH Hframe; sep_at x..].
           simpl. rewrite lookup_insert_ne; [done|]. intros Heq. clear IH. sep_at x.
      * simpl. rewrite Hin. simpl. by rewrite <- !app_assoc.
      * intros x Hxa Hxb.
        rewrite lookup_insert_ne by (intros Heq; clear IH Hframe; sep_at x).
        rewrite Hframe; [|clear IH Hframe; sep_at x..].
        simpl. rewrite lookup_insert_ne; [done|]. intros Heq. clear IH. sep_at x.
Qed.

Lemma root_in_ptrs (t : tree) (p : ptr) : root_of t = Some p -> p ∈ ptrs t.
Proof.
  destruct t as [|l q i f pr r]; [done|]. intros [= ->].
  rewrite elem_of_ptrs_Node. tauto.
Qed.

(** The parent of [node], or the root, adopts [q'] in place of [node]. *)
Lemma adopt_ctx (s : state) (c : list frame) (p : ptr) (n : PivotNode)
    (q' : option ptr) :
  mem obj s !! p = Some n -> node_parent n = hole_parent c None ->
  repr_ctx (mem obj s) None c (Some p) ->
  NoDup (ctx_ptrs c) -> p ∉ ctx_ptrs c ->
  root obj s = top_of c (Some p) ->
  exists h',
    adopt obj (Some p) q' s
      = Done tt (with_root obj (top_of c q') (set_mem obj h' s)) /\
    repr_ctx h' None c q' /\
    (forall x, x ∉ ctx_ptrs c -> h' !! x = mem obj s !! x).
Proof.
  intros Hn Hpar Hc Hnd Hp Hroot. unfold adopt.
  rewrite (bind_run _ _ _ _ _ (deref_run p _ s Hn)). rewrite Hpar.
  destruct c as [|[g gi gf gpr gr|gl g gi gf gpr] c].
  - exists (mem obj s). split; [|by split].
    destruct s. reflexivity.
  - destruct Hc as (Hg & Hsub & Hc). cbn [hole_parent].
    rewrite <- ctx_ptrs_plug_Leaf in Hnd. simpl in Hnd.
    destruct (NoDup_plug_Node _ _ _ _ _ _ _ Hnd) as (_ & Hgr & Hgc & _).
    step_deref. rewrite decide_True by done.
    unfold set_left. step_update.
    exists (<[g := mkNode gi gf gpr q' (root_of gr) (hole_parent c None)]> (mem obj s)).
    split.
    { cbn [top_of]. simpl in Hroot. rewrite <- Hroot. reflexivity. }
    split.
    + split; [lookup_solve|]. split.
      * eapply repr_ext; [|exact Hsub]. intros x Hx.
        rewrite lookup_insert_ne; [done|]. by intros <-.
      * eapply repr_ctx_ext; [|exact Hc]. intros x Hx.
        rewrite lookup_insert_ne; [done|]. by intros <-.
    + intros x Hx. rewrite lookup_insert_ne; [done|]. intros <-.
      apply Hx. apply elem_of_ctx_ptrs_InLeft. by left.
  - destruct Hc as (Hg & Hsub & Hc). cbn [hole_parent].
    rewrite <- ctx_ptrs_plug_Leaf in Hnd. simpl in Hnd.
    destruct (NoDup_plug_Node _ _ _ _ _ _ _ Hnd) as (Hgl & _ & Hgc & _).
    step_deref. rewrite decide_False.
    2:{ intros Heq. apply root_in_ptrs in Heq. apply Hp.
        apply elem_of_ctx_ptrs_InRight. tauto. }
    unfold set_right. step_update.
    exists (<[g := mkNode gi gf gpr (root_of gl) q' (hole_parent c None)]> (mem obj s)).
    split.
    { cbn [top_of]. simpl in Hroot. rewrite <- Hroot. reflexivity. }
    split.
    + split; [lookup_solve|]. split.
      * eapply repr_ext; [|exact Hsub]. intros x Hx.
        rewrite lookup_insert_ne; [done|]. by intros <-.
      * eapply repr_ctx_ext; [|exact Hc]. intros x Hx.
        rewrite lookup_insert_ne; [done|]. by intros <-.
    + intros x Hx. rewrite lookup_insert_ne; [done|]. intros <-.
      apply Hx. apply elem_of_ctx_ptrs_InRight. by left.
Qed.

(** The end of [delete_node]: [node] is replaced by the tree [m] made of
    its children, and freed. *)
Lemma delete_tail (s : state) (c : list frame) (p : ptr) (n : PivotNode)
    (m : tree) (K : PivotNode -> M unit) :
  mem obj s !! p = Some n -> node_parent n = hole_parent c None ->
  repr_ctx (mem obj s) None c (Some p) -> repr (mem obj s) (Some p) m ->
  NoDup (ptrs m) -> NoDup (ctx_ptrs c) -> p ∉ ptrs m -> p ∉ ctx_ptrs c ->
  (forall x, x ∈ ptrs m -> x ∉ ctx_ptrs c) ->
  root obj s = top_of c (Some p) ->
  K n = match root_of m with
        | Some _ => set_parent obj (root_of m) (node_parent n)
        | None => ret tt
        end ->
  exists h',
    (adopt obj (Some p) (root_of m) ;;;
     n1 <- deref obj (Some p) ;; K n1 ;;; free obj (Some p)) s
      = Done tt (with_root obj (root_of (plug c m)) (set_mem obj h' s)) /\
    repr h' None (plug c m) /\ h' !! p = None /\
    (forall x, x <> p -> x ∉ ptrs m -> x ∉ ctx_ptrs c -> h' !! x = mem obj s !! x).
Proof.
  intros Hn Hpar Hc Hm Hndm Hndc Hpm Hpc Hsep Hroot HK.
  destruct (adopt_ctx s c p n (root_of m) Hn Hpar Hc Hndc Hpc Hroot)
    as (h1 & Hrun1 & Hc1 & Hframe1).
  rewrite (bind_run _ _ _ _ _ Hrun1).
  assert (h1 !! p = Some n) as Hn1 by (by rewrite Hframe1).
  step_deref. rewrite HK. rewrite root_of_plug.
  destruct m as [|ml mp mi mf mpr mr].
  - cbn [root_of]. unfold bind at 1, ret at 1.
    rewrite (free_run p n) by done. 
    exists (delete p h1). split; [reflexivity|]. split; [|split].
    + apply repr_plug. split; [|done].
      eapply repr_ctx_ext; [|exact Hc1]. intros x Hx.
      rewrite lookup_delete_ne; [done|]. by intros <-.
    + by rewrite lookup_delete_eq.
    + intros x Hxp _ Hxc. rewrite lookup_delete_ne by done. by apply Hframe1.
  - destruct Hm as (Hmp & Hml & Hmr). cbn [root_of] in *.
    apply NoDup_Node in Hndm as (Hndml & Hndmr & Hmpl & Hmpr & Hsepm).
    rewrite elem_of_ptrs_Node in Hpm.
    setoid_rewrite elem_of_ptrs_Node in Hsep.
    assert (mp <> p) as Hmpp by (intros ->; tauto).
    assert (mp ∉ ctx_ptrs c) as Hmpc by (apply Hsep; tauto).
    assert (h1 !! mp = Some (mkNode mi mf mpr (root_of ml) (root_of mr) (Some p)))
      as Hmp1 by (by rewrite Hframe1).
    unfold set_parent.
    match goal with
    | |- context [bind (update obj (Some mp) ?f) _ ?st] =>
        rewrite (bind_run _ _ _ _ _ (update_run mp _ f st Hmp1))
    end.
    rewrite (free_run p n) by lookup_solve.
    exists (delete p (<[mp := mkNode mi mf mpr (root_of ml) (root_of mr)
                            (node_parent n)]> h1)).
    split; [reflexivity|]. split; [|split].
    + apply repr_plug. split.
      * eapply repr_ctx_ext; [|exact Hc1]. intros x Hx.
        rewrite lookup_delete_ne by (by intros <-).
        rewrite lookup_insert_ne; [done|]. by intros <-.
      * simpl. rewrite lookup_delete_ne by done. rewrite lookup_insert_eq.
        rewrite Hpar. split; [done|]. split.
        -- eapply repr_ext; [|exact Hml]. intros x Hx.
           rewrite lookup_delete_ne by (intros <-; tauto).
           rewrite lookup_insert_ne by (by intros <-).
           apply Hframe1. apply Hsep. tauto.
        -- eapply repr_ext; [|exact Hmr]. intros x Hx.
           rewrite lookup_delete_ne by (intros <-; tauto).
           rewrite lookup_insert_ne by (by intros <-).
           apply Hframe1. apply Hsep. tauto.
    + by rewrite lookup_delete_eq.
    + intros x Hxp Hxm Hxc. rewrite elem_of_ptrs_Node in Hxm.
      rewrite lookup_delete_ne by done.
      rewrite lookup_insert_ne by (intros <-; tauto). by apply Hframe1.
Qed.

Lemma ptrs_without (t t' : tree) (xs ys : list (ptr * (Z * Z))) (pa : ptr * (Z * Z)) :
  inorder t = xs ++ pa :: ys -> inorder t' = xs ++ ys ->
  ptrs t ≡ₚ pa.1 :: ptrs t'.
Proof.
  intros Ht Ht'. unfold ptrs. rewrite Ht, Ht', !fmap_app, fmap_cons.
  by rewrite <- Permutation_middle.
Qed.

(** [delete_node] on a pivot of the tree. *)
Lemma delete_node_tree (s : state) (t : tree)
    (xs ys : list (ptr * (Z * Z))) (p : ptr) (a : Z * Z) :
  holds_tree obj s t -> inorder t = xs ++ (p, a) :: ys ->
  exists s' t',
    delete_node obj (Some p) s = Done tt s' /\
    holds_tree obj s' t' /\ inorder t' = xs ++ ys /\
    same_list obj s s' /\ mem obj s' !! p = None /\
    (forall x, x ∉ ptrs t -> mem obj s' !! x = mem obj s !! x).
Proof.
  intros Ht Hin. pose proof (holds_tree_size s t Ht) as Hsize.
  destruct Ht as (Hr & Hroot & Hnd & Hbrk).
  assert ((p, a) ∈ inorder t) as Hp.
  { rewrite Hin. apply elem_of_app. right. apply elem_of_cons. by left. }
  destruct (find_ctx t p a Hp) as (c & l & pr & r & ->).
  destruct a as [i f]. simpl in *.
  assert (xs = ctx_before c ++ inorder l /\ ys = inorder r ++ ctx_after c)
    as [-> ->].
  { rewrite inorder_plug in Hin. simpl in Hin.
    rewrite <- app_assoc in Hin. simpl in Hin. rewrite app_assoc in Hin.
    assert (NoDup (fst <$> ((ctx_before c ++ inorder l) ++
              (p, (i, f)) :: inorder r ++ ctx_after c))) as Hnd'.
    { unfold ptrs in Hnd. rewrite inorder_plug in Hnd. simpl in Hnd.
      by rewrite <- !app_assoc in Hnd |- *. }
    by destruct (split_unique _ _ _ _ p (i, f) (i, f) Hnd' Hin) as (-> & _ & ->). }
  pose proof Hr as Hr0. apply repr_plug in Hr0 as (Hc & Hn & Hl & Hrr).
  cbn [root_of] in Hc.
  destruct (NoDup_plug_Node _ _ _ _ _ _ _ Hnd)
    as (Hpl & Hpr & Hpc & Hlsep & Hrsep & Hndl & Hndr & Hndc).
  rewrite root_of_plug in Hroot. cbn [root_of] in Hroot.
  pose proof (length_ctx_le c (Node l p i f pr r)) as Hlen.
  simpl in Hlen. rewrite length_app in Hlen. simpl in Hlen.
  (* the subtree that replaces the node, and the run up to it *)
  assert (exists h' t',
    delete_node obj (Some p) s
      = Done tt (with_root obj (root_of (plug c t')) (set_mem obj h' s)) /\
    repr h' None (plug c t') /\ inorder t' = inorder l ++ inorder r /\
    h' !! p = None /\
    (forall x, x ∉ ptrs (plug c (Node l p i f pr r)) -> h' !! x = mem obj s !! x))
    as (h' & t' & Hrun & Hrep & Hin' & Hfree & Hframe).
  { unfold delete_node.
    rewrite (bind_run _ _ _ _ _ (deref_run p _ s Hn)).
    cbn [node_left node_right].
    destruct l as [|ll lp li lf lpr lr]; cbn [root_of].
    - destruct (delete_tail s c p _ r
                  (fun n1 => match node_right n1 with
                             | Some _ => set_parent obj (node_right n1) (node_parent n1)
                             | None => ret tt
                             end)
                  Hn eq_refl Hc Hrr Hndr Hndc Hpr Hpc Hrsep Hroot eq_refl)
        as (h' & Hrun & Hrep & Hfree & Hframe).
      exists h', r. split; [exact Hrun|]. split; [done|]. split; [done|].
      split; [done|]. intros x Hx. apply not_in_plug in Hx as [Hx Hxc].
      rewrite elem_of_ptrs_Node in Hx. apply Hframe; tauto.
    - destruct r as [|rl rp ri rf rpr rr]; cbn [root_of].
      + destruct (delete_tail s c p _ (Node ll lp li lf lpr lr)
                    (fun n1 => set_parent obj (node_left n1) (node_parent n1))
                    Hn eq_refl Hc Hl Hndl Hndc Hpl Hpc
                    (fun x Hx => proj2 (Hlsep x Hx)) Hroot eq_refl)
          as (h' & Hrun & Hrep & Hfree & Hframe).
        exists h', (Node ll lp li lf lpr lr). split; [exact Hrun|].
        split; [done|]. split; [by rewrite app_nil_r|].
        split; [done|]. intros x Hx. apply not_in_plug in Hx as [Hx Hxc].
        rewrite elem_of_ptrs_Node in Hx. apply Hframe; tauto.
      + unfold bind at 1, tree_fuel.
        destruct (merge_trees_spec (S (size (mem obj s))) (Some p)
                    (Node ll lp li lf lpr lr) (Node rl rp ri rf rpr rr) s Hl Hrr)
          as (h1 & m & Hrun1 & Hm & Hinm & Hframe1).
        { apply NoDup_app. split; [done|]. split; [|done].
          intros x Hx. by apply Hlsep. }
        { simpl in *. rewrite !length_app in *. simpl in *. lia. }
        cbn [root_of] in Hrun1. rewrite (bind_run _ _ _ _ _ Hrun1).
        pose proof (ptrs_app_inorder m _ _ Hinm) as Hptrs.
        assert (root_of m <> None) as Hmne.
        { destruct m; [|done]. simpl in Hinm. by destruct (inorder ll). }
        destruct (delete_tail (set_mem obj h1 s) c p
                    (mkNode i f pr (Some lp) (Some rp) (hole_parent c None)) m
                    (fun n1 => set_parent obj (root_of m) (node_parent n1)))
          as (h' & Hrun & Hrep & Hfree & Hframe); try done.
        * simpl. by rewrite Hframe1.
        * eapply repr_ctx_ext; [|exact Hc]. intros x Hx. simpl.
          apply Hframe1; intros Hx'.
          -- by apply (Hlsep x Hx').
          -- by apply (Hrsep x Hx').
        * rewrite Hptrs. apply NoDup_app. split; [done|]. split; [|done].
          intros x Hx. by apply Hlsep.
        * rewrite Hptrs, elem_of_app. tauto.
        * intros x Hx. rewrite Hptrs, elem_of_app in Hx. destruct Hx as [Hx|Hx].
          -- by apply Hlsep.
          -- by apply Hrsep.
        * by destruct (root_of m).
        * exists h', m. split; [exact Hrun|]. split; [done|]. split; [done|].
          split; [done|]. intros x Hx. apply not_in_plug in Hx as [Hx Hxc].
          rewrite elem_of_ptrs_Node in Hx.
          rewrite Hframe.
          -- simpl. apply Hframe1; tauto.
          -- tauto.
          -- rewrite Hptrs, elem_of_app. tauto.
          -- done. }
  exists (with_root obj (root_of (plug c t')) (set_mem obj h' s)), (plug c t').
  split; [exact Hrun|].
  assert (inorder (plug c t')
          = (ctx_before c ++ inorder l) ++ inorder r ++ ctx_after c) as Hin2.
  { rewrite inorder_plug, Hin'. by rewrite <- !app_assoc. }
  pose proof (ptrs_without _ _ _ _ _ Hin Hin2) as Hperm. simpl in Hperm.
  split; [|split; [done|split; [done|split; [done|done]]]].
  split; [done|]. split; [done|]. split.
  - rewrite Hperm in Hnd. by apply NoDup_cons in Hnd as [_ Hnd].
  - simpl. rewrite Hperm in Hbrk. by apply Forall_cons in Hbrk as [_ Hbrk].
Qed.

Lemma sorted_remove (xs ys : list Z) (k : Z) :
  StronglySorted Z.lt (xs ++ k :: ys) -> StronglySorted Z.lt (xs ++ ys).
Proof.
  induction xs as [|x xs IH]; simpl; intros Hs.
  - by apply StronglySorted_cons in Hs as [_ Hs].
  - apply StronglySorted_cons in Hs as [Hx Hs]. apply StronglySorted_cons.
    split; [|by apply IH].
    rewrite Forall_app, Forall_cons in Hx. rewrite Forall_app. tauto.
Qed.

(** X13.  [delete_node] on a pivot of a search tree that holds another
    pivot as well: the node is unlinked and freed, its two subtrees being
    merged when it has two children; the tree afterwards is a search tree,
    not empty, that holds the other pivots, at their addresses, with their
    flags and in the same order; the list and the counters are untouched, as
    is every node that is not part of the tree.  The two walks of
    [assert_tree] on the root, before and after, only read a tree that is
    not empty. *)
Theorem delete_node_removes (s : state) (t : tree)
    (xs ys : list (ptr * (Z * Z))) (p : ptr) (a : Z * Z) :
  holds_tree obj s t -> bst t -> inorder t = xs ++ (p, a) :: ys ->
  xs ++ ys <> [] ->
  exists s' t',
    delete_node obj (Some p) s = Done tt s' /\
    holds_tree obj s' t' /\ bst t' /\ t' <> Leaf /\
    inorder t' = xs ++ ys /\
    same_list obj s s' /\ mem obj s' !! p = None /\
    (forall x, x ∉ ptrs t -> mem obj s' !! x = mem obj s !! x).
Proof.
  intros Ht Hs Hin Hne.
  destruct (delete_node_tree s t xs ys p a Ht Hin)
    as (s' & t' & Hrun & Ht' & Hin' & Hrest).
  exists s', t'. split; [done|]. split; [done|]. split; [|split; [|done]].
  - unfold bst, keys in Hs |- *. rewrite Hin in Hs. rewrite Hin'.
    rewrite fmap_app in Hs |- *. rewrite fmap_cons in Hs.
    by apply sorted_remove in Hs.
  - intros ->. simpl in Hin'. by rewrite <- Hin' in Hne.
Qed.


(** ** A new LazySorted object *)

Lemma holds_tree_fresh : holds_tree obj (fresh obj) Leaf.
Proof. split; [done|]. split; [done|]. split; constructor. Qed.

(** The run of [LS_init] on a new object. *)
Lemma LS_new_run (l : list obj) :
  exists s t,
    LS_new obj rand_at l (fresh obj) = Done true s /\
    ob_item obj s = l /\ holds_tree obj s t /\ bst t /\
    inorder t = [(1%positive, (-1, UNSORTED));
                 (2%positive, (Z.of_nat (length l), UNSORTED))] /\
    ncmp obj s = 0%nat /\ rnd obj s = 2%nat /\ pyerr obj s = false.
Proof.
  destruct (holds_tree_insert_pivot (-1) UNSORTED (fresh obj) Leaf
              holds_tree_fresh ltac:(by intros ?%elem_of_nil))
    as (s1 & Hrun1 & Ht1 & Hitems1 & Hbrk1 & Hrnd1 & Hncmp1 & Herr1).
  set (t1 := insert_tree (-1) UNSORTED (brk obj (fresh obj))
               (rand_at (rnd obj (fresh obj))) Leaf) in *.
  set (s1' := mkState obj l (root obj s1) (mem obj s1) (brk obj s1) (rnd obj s1)
                (ncmp obj s1) (pyerr obj s1)).
  assert (holds_tree obj s1' t1) as Ht1' by exact Ht1.
  assert (bst t1) as Hs1 by (repeat constructor).
  assert (Z.of_nat (length l) ∉ keys t1) as Hk.
  { change (keys t1) with [-1]. intros Hin.
    apply list_elem_of_singleton in Hin. lia. }
  destruct (holds_tree_insert_pivot (Z.of_nat (length l)) UNSORTED s1' t1 Ht1' Hk)
    as (s2 & Hrun2 & Ht2 & Hitems2 & Hbrk2 & Hrnd2 & Hncmp2 & Herr2).
  exists s2, (insert_tree (Z.of_nat (length l)) UNSORTED (brk obj s1')
                (rand_at (rnd obj s1')) t1).
  split.
  - unfold LS_new. unfold bind at 1, get_root.
    rewrite (bind_run _ _ _ _ _ Hrun1). unfold bind at 1, set_list.
    fold s1'. unfold bind at 1, get_size, Py_SIZE. unfold bind at 1, get_root.
    change (ob_item obj s1') with l.
    by rewrite (bind_run _ _ _ _ _ Hrun2).
  - split; [by rewrite Hitems2|]. split; [exact Ht2|].
    split; [by apply insert_tree_bst|].
    split.
    + rewrite (insert_tree_inorder _ _ _ _ t1 Hs1 Hk). simpl.
      unfold below, above. rewrite !filter_cons, !filter_nil. simpl.
      rewrite decide_True by lia. rewrite decide_False by lia.
      simpl in Hbrk1. by rewrite Hbrk1.
    + rewrite Hncmp2, Hrnd2, Herr2. simpl. by rewrite Hncmp1, Hrnd1, Herr1.
Qed.

(** X8.  [LS_init] on a new object, for every list and every [rand()]:
    the construction succeeds without a comparison, the list is the one
    given, and the pivot tree is a search tree that holds exactly the two
    sentinels, index -1 and index [len(list)], both UNSORTED. *)
Theorem LS_new_sentinels (l : list obj) :
  exists s t,
    LS_new obj rand_at l (fresh obj) = Done true s /\
    ob_item obj s = l /\ holds_tree obj s t /\ bst t /\
    inorder t = [(1%positive, (-1, UNSORTED));
                 (2%positive, (Z.of_nat (length l), UNSORTED))] /\
    ncmp obj s = 0%nat /\ rnd obj s = 2%nat /\ pyerr obj s = false.
Proof. apply LS_new_run. Qed.


(** ** The allocator's invariant *)

Lemma keeps_fresh_ret {A} (a : A) : keeps_fresh (ret (obj := obj) a).
Proof. by intros s a' s' Hf [= _ <-]. Qed.

Lemma keeps_fresh_bind {A B} (m : M A) (k : A -> M B) :
  keeps_fresh m -> (forall a, keeps_fresh (k a)) -> keeps_fresh (bind m k).
Proof.
  intros Hm Hk s b s' Hf Hrun. unfold bind in Hrun.
  destruct (m s) as [a s1| |] eqn:Hms; [|done..].
  eapply Hk; [|exact Hrun]. eapply Hm; [exact Hf|exact Hms].
Qed.

(** A computation that reads only. *)
Lemma keeps_fresh_read {A} (m : M A) :
  (forall s a s', m s = Done a s' -> mem obj s' = mem obj s /\ brk obj s' = brk obj s) ->
  keeps_fresh m.
Proof.
  intros Hm s a s' Hf Hrun q Hq. destruct (Hm s a s' Hrun) as [Hmem Hbrk].
  rewrite Hmem. apply Hf. by rewrite <- Hbrk.
Qed.

Lemma keeps_fresh_deref (p : option ptr) : keeps_fresh (deref obj p).
Proof.
  apply keeps_fresh_read. intros s a s' Hrun.
  by apply deref_Done in Hrun as (-> & _).
Qed.

Lemma keeps_fresh_update (p : option ptr) (f : PivotNode -> PivotNode) :
  keeps_fresh (update obj p f).
Proof.
  intros s a s' Hf Hrun q Hq. unfold update, bind, deref, store in Hrun.
  destruct p as [p|]; [|done]. destruct (mem obj s !! p) as [n|] eqn:Hp; [|done].
  rewrite Hp in Hrun. injection Hrun as _ <-. simpl in Hq |- *.
  rewrite lookup_insert_ne; [by apply Hf|]. intros Heq. rewrite Heq in Hp.
  by rewrite (Hf q Hq) in Hp.
Qed.

Lemma keeps_fresh_set_root (r : option ptr) : keeps_fresh (set_root obj r).
Proof. apply keeps_fresh_read. by intros s a s' [= _ <-]. Qed.

Lemma keeps_fresh_get_root : keeps_fresh (get_root obj).
Proof. apply keeps_fresh_read. by intros s a s' [= _ <-]. Qed.

Lemma keeps_fresh_tree_fuel : keeps_fresh (tree_fuel obj).
Proof. apply keeps_fresh_read. by intros s a s' [= _ <-]. Qed.

Lemma keeps_fresh_rand : keeps_fresh (rand obj rand_at).
Proof. apply keeps_fresh_read. by intros s a s' [= _ <-]. Qed.

Lemma keeps_fresh_set_err : keeps_fresh (set_err obj).
Proof. apply keeps_fresh_read. by intros s a s' [= _ <-]. Qed.

Lemma keeps_fresh_malloc (n : PivotNode) : keeps_fresh (malloc obj n).
Proof.
  intros s a s' Hf [= _ <-] q Hq. simpl in Hq |- *.
  rewrite lookup_insert_ne by lia. apply Hf. lia.
Qed.

Lemma keeps_fresh_free (p : option ptr) : keeps_fresh (free obj p).
Proof.
  intros s a s' Hf Hrun q Hq. unfold free in Hrun.
  destruct p as [p|]; [|by injection Hrun as _ <-; apply Hf].
  destruct (mem obj s !! p) as [n|] eqn:Hp; [|done].
  injection Hrun as _ <-. simpl in Hq |- *.
  destruct (decide (p = q)) as [->|Hne]; [by rewrite lookup_delete_eq|].
  rewrite lookup_delete_ne by done. by apply Hf.
Qed.

Ltac kf :=
  repeat first
    [ apply keeps_fresh_ret
    | apply keeps_fresh_deref
    | apply keeps_fresh_update
    | apply keeps_fresh_set_root
    | apply keeps_fresh_get_root
    | apply keeps_fresh_tree_fuel
    | apply keeps_fresh_rand
    | apply keeps_fresh_set_err
    | apply keeps_fresh_malloc
    | apply keeps_fresh_free
    | assumption
    | apply keeps_fresh_bind; [|intros ?]
    | match goal with
      | |- keeps_fresh (if ?b then _ else _) => destruct b
      | |- keeps_fresh (match ?x with _ => _ end) => destruct x
      end ].

Lemma keeps_fresh_insert_descend (k : Z) (node : option ptr) :
  forall (fuel : nat) (current : option ptr),
    keeps_fresh (insert_descend obj fuel k node current).
Proof.
  induction fuel as [|fuel IH]; intros current; [by intros s a s' _ ?|].
  cbn [insert_descend]. unfold set_left, set_right, set_parent. kf; apply IH.
Qed.

Lemma keeps_fresh_rotate_up (node : option ptr) : keeps_fresh (rotate_up obj node).
Proof. unfold rotate_up, set_left, set_right, set_parent. kf. Qed.

Lemma keeps_fresh_insert_rotate (k : Z) (node : option ptr) :
  forall fuel : nat, keeps_fresh (insert_rotate obj fuel k node).
Proof.
  induction fuel as [|fuel IH]; [by intros s a s' _ ?|].
  cbn [insert_rotate]. pose proof (keeps_fresh_rotate_up node).
  unfold set_left, set_right. kf.
Qed.

Lemma keeps_fresh_insert_pivot (k fl : Z) (start : option ptr) :
  keeps_fresh (insert_pivot obj rand_at k fl start).
Proof.
  unfold insert_pivot, set_parent.
  pose proof (keeps_fresh_insert_descend k) as Hd.
  pose proof (keeps_fresh_insert_rotate k) as Hr. kf; [apply Hd|apply Hr].
Qed.

Lemma keeps_fresh_merge_trees :
  forall (fuel : nat) (left right' : option ptr),
    keeps_fresh (merge_trees obj fuel left right').
Proof.
  induction fuel as [|fuel IH]; intros left right'; [by intros s a s' _ ?|].
  cbn [merge_trees]. unfold set_left, set_right, set_parent. kf; apply IH.
Qed.

Lemma keeps_fresh_adopt (node repl : option ptr) : keeps_fresh (adopt obj node repl).
Proof. unfold adopt, set_left, set_right. kf. Qed.

Lemma keeps_fresh_delete_node (node : option ptr) : keeps_fresh (delete_node obj node).
Proof.
  unfold delete_node, set_parent.
  pose proof keeps_fresh_adopt as Ha. pose proof keeps_fresh_merge_trees as Hm.
  kf; first [apply Ha | apply Hm].
Qed.


(** ** What a completed partition establishes *)

Lemma SWAP_Done (i j : Z) (u : unit) (s s' : state) :
  SWAP obj i j s = Done u s' ->
  exists x y,
    item_at obj (ob_item obj s) i = Some x /\
    item_at obj (ob_item obj s) j = Some y /\
    ob_item obj s' = <[Z.to_nat j := x]> (<[Z.to_nat i := y]> (ob_item obj s)) /\
    ncmp obj s' = ncmp obj s.
Proof.
  intros Hrun. unfold SWAP in Hrun.
  inv_bind Hrun. apply get_item_Done in Hrun0 as [-> Hx].
  inv_bind Hrun. apply get_item_Done in Hrun0 as [-> Hy].
  inv_bind Hrun. apply set_item_Done in Hrun0 as (_ & Ha1 & _ & _ & Hc1).
  apply set_item_Done in Hrun as (_ & Ha2 & _ & _ & Hc2).
  exists a, a0. rewrite Ha2, Ha1. repeat split; [done|done|congruence].
Qed.

Lemma ISLT_count (x y : obj) (c : Z) (s s' : state) :
  ISLT x y s = Done c s' -> ncmp obj s' = S (ncmp obj s).
Proof. unfold ISLT, compared. by intros [= <- <-]. Qed.

Section Split.

Variable pivot : obj.
Variable left : Z.
Hypothesis Hleft : 0 <= left.

(** The invariant of the loop of [partition]: the pivot item is at [left],
    the items after it up to [last_less] are less than the pivot, the items
    from there up to [i] are not. *)
Lemma partition_loop_splits (n : nat) :
  forall (i last_less ll : Z) (s s' : state),
    left <= last_less < i ->
    item_at obj (ob_item obj s) left = Some pivot ->
    (forall j x, left < j <= last_less -> item_at obj (ob_item obj s) j = Some x ->
                 0 < RichCompare_LT x pivot) ->
    (forall j x, last_less < j < i -> item_at obj (ob_item obj s) j = Some x ->
                 RichCompare_LT x pivot = 0) ->
    partition_loop obj RichCompare_LT n i pivot last_less s = Done (Some ll) s' ->
    item_at obj (ob_item obj s') left = Some pivot /\
    (forall j x, left < j <= ll -> item_at obj (ob_item obj s') j = Some x ->
                 0 < RichCompare_LT x pivot) /\
    (forall j x, ll < j < i + Z.of_nat n ->
                 item_at obj (ob_item obj s') j = Some x ->
                 RichCompare_LT x pivot = 0) /\
    ncmp obj s' = (ncmp obj s + n)%nat.
Proof.
  induction n as [|n IH]; intros i last_less ll s s' Hll Hpiv Hless Hnot Hrun.
  - simpl in Hrun. apply ret_Done in Hrun as [[= ->] ->].
    split; [done|]. split; [done|]. split; [|lia].
    intros j x Hj. apply Hnot. lia.
  - simpl in Hrun. inv_bind Hrun. apply get_item_Done in Hrun0 as [-> Hx].
    inv_bind Hrun. pose proof (ISLT_count _ _ _ _ _ Hrun0) as Hcnt.
    apply ISLT_Done in Hrun0 as (-> & Ha & _ & _).
    destruct (Z.ltb_spec (RichCompare_LT a pivot) 0) as [Hneg|Hnn].
    { by apply ret_Done in Hrun as [[=] _]. }
    destruct (Z.eqb_spec (RichCompare_LT a pivot) 0) as [Hz|Hnz]; simpl in Hrun.
    + apply IH in Hrun as (H1 & H2 & H3 & H4); [| lia | by rewrite Ha | |].
      * split; [done|]. split; [done|]. split; [|lia].
        intros j x Hj. apply H3. lia.
      * intros j x Hj. rewrite Ha. by apply Hless.
      * intros j x Hj. rewrite Ha. destruct (Z.eq_dec j i) as [->|Hne].
        -- rewrite Hx. by intros [= <-].
        -- apply Hnot. lia.
    + inv_bind Hrun. apply SWAP_Done in Hrun0 as (x & y & Hxi & Hy & Harr & Hc).
      rewrite Ha in Hxi, Hy, Harr. rewrite Hx in Hxi. injection Hxi as <-.
      pose proof (item_at_Some _ _ _ Hx) as Hir.
      pose proof (item_at_Some _ _ _ Hy) as Hlr.
      apply IH in Hrun as (H1 & H2 & H3 & H4); [| lia | | |].
      * split; [done|]. split; [done|]. split; [|lia].
        intros j z Hj. apply H3. lia.
      * rewrite Harr. rewrite !item_at_insert_ne by lia. done.
      * intros j z Hj. rewrite Harr.
        destruct (Z.eq_dec j (last_less + 1)) as [->|Hne].
        -- rewrite item_at_insert_eq by (rewrite length_insert; lia).
           intros [= <-]. lia.
        -- rewrite !item_at_insert_ne by lia. apply Hless. lia.
      * intros j z Hj. rewrite Harr.
        destruct (Z.eq_dec j (last_less + 1)) as [->|Hne]; [lia|].
        rewrite item_at_insert_ne by lia.
        destruct (Z.eq_dec j i) as [->|Hji].
        -- rewrite item_at_insert_eq by lia. intros [= <-].
           apply (Hnot (last_less + 1)); [lia|done].
        -- rewrite item_at_insert_ne by lia. apply Hnot. lia.
Qed.

End Split.


(** The postcondition of a [partition] that found its pivot index. *)
Lemma partition_post (left right rc : Z) (s s' : state) :
  0 <= left < right ->
  partition obj RichCompare_LT rand_at left right s = Done rc s' ->
  rc <> -1 ->
  left <= rc < right /\
  shuffled obj (ob_item obj s) (ob_item obj s') left right /\
  tree_untouched obj s s' /\
  (exists pivot,
      item_at obj (ob_item obj s') rc = Some pivot /\
      (forall j x, left <= j < rc -> item_at obj (ob_item obj s') j = Some x ->
                   0 < RichCompare_LT x pivot) /\
      (forall j x, rc < j < right -> item_at obj (ob_item obj s') j = Some x ->
                   RichCompare_LT x pivot = 0)) /\
  ncmp obj s' = (ncmp obj s + Z.to_nat (right - left - 1))%nat /\
  rnd obj s' = S (rnd obj s).
Proof.
  intros Hlr Hrun Hrc.
  destruct (partition_shuffled left right rc s s' Hlr Hrun) as (Hsh & Ht & Hin).
  split; [lia|]. split; [done|]. split; [done|].
  unfold partition in Hrun. inv_bind Hrun.
  assert (rnd obj s0 = S (rnd obj s)) as Hrnd.
  { unfold pick_pivot in Hrun0. inv_bind Hrun0.
    unfold rand in Hrun1. injection Hrun1 as <- <-.
    destruct (right - left =? 0); [discriminate|].
    by apply ret_Done in Hrun0 as [_ ->]. }
  apply pick_pivot_Done in Hrun0 as (Hp & Ha & _ & Hc0); [|lia].
  inv_bind Hrun. apply get_item_Done in Hrun0 as [-> Hpiv].
  rename a0 into pivot. rewrite Ha in Hpiv.
  inv_bind Hrun. pose proof Hrun0 as Hsw1.
  apply (SWAP_shuffled (ob_item obj s) left right) in Hsw1 as (_ & _ & Hr1);
    [| first [lia | rewrite Ha; apply shuffled_refl] ..].
  apply SWAP_Done in Hrun0 as (x & y & Hx & Hy & Harr1 & Hc1).
  rewrite Ha in Hx, Hy, Harr1. rewrite Hpiv in Hy. injection Hy as <-.
  pose proof (item_at_Some _ _ _ Hx) as Hxr.
  pose proof (item_at_Some _ _ _ Hpiv) as Hpr.
  assert (item_at obj (ob_item obj s1) left = Some pivot) as Hl1.
  { rewrite Harr1. destruct (Z.eq_dec a left) as [->|Hne].
    - rewrite item_at_insert_eq by (rewrite length_insert; lia). congruence.
    - rewrite item_at_insert_ne by lia. by rewrite item_at_insert_eq by lia. }
  inv_bind Hrun. destruct a1 as [ll|].
  2:{ apply ret_Done in Hrun as [-> _]. done. }
  pose proof Hrun0 as Hloop.
  apply (partition_loop_shuffled (ob_item obj s1) left right) in Hloop
    as (_ & _ & Hr2 & Hres); [| first [lia | apply shuffled_refl] ..].
  specialize (Hres ll eq_refl).
  apply (partition_loop_splits pivot left) in Hrun0
    as (Hl2 & Hless & Hnot & Hc2); [| first [lia | done | intros; lia] ..].
  inv_bind Hrun. pose proof Hrun0 as Hsw3.
  apply (SWAP_shuffled (ob_item obj s2) left right) in Hsw3 as (_ & _ & Hr3);
    [| first [lia | apply shuffled_refl] ..].
  apply SWAP_Done in Hrun0 as (x3 & y3 & Hx3 & Hy3 & Harr3 & Hc3).
  apply ret_Done in Hrun as [-> ->].
  rewrite Hl2 in Hx3. injection Hx3 as <-.
  pose proof (item_at_Some _ _ _ Hl2) as Hlr2.
  pose proof (item_at_Some _ _ _ Hy3) as Hyr.
  split; [|split; [lia|congruence]].
  exists pivot. rewrite Harr3. split; [|split].
  - rewrite item_at_insert_eq by (rewrite length_insert; lia). done.
  - intros j z Hj. rewrite item_at_insert_ne by lia.
    destruct (Z.eq_dec j left) as [->|Hne].
    + rewrite item_at_insert_eq by lia. intros [= <-].
      apply (Hless ll); [lia|done].
    + rewrite item_at_insert_ne by lia. apply Hless. lia.
  - intros j z Hj. rewrite !item_at_insert_ne by lia. apply Hnot. lia.
Qed.

(** X1.  A [partition] that does not return -1 returns an index [rc] of the
    region [left, right); the list is the old one with the items of the
    region rearranged and the tree is untouched; the items of the region
    before [rc] compared less than the item at [rc], those after [rc] did
    not; and exactly [right - left - 1] comparisons and one [rand()] were
    made. *)
Theorem partition_splits (left right rc : Z) (s s' : state) :
  0 <= left < right ->
  partition obj RichCompare_LT rand_at left right s = Done rc s' ->
  rc <> -1 ->
  left <= rc < right /\
  shuffled obj (ob_item obj s) (ob_item obj s') left right /\
  tree_untouched obj s s' /\
  (exists pivot,
      item_at obj (ob_item obj s') rc = Some pivot /\
      (forall j x, left <= j < rc -> item_at obj (ob_item obj s') j = Some x ->
                   0 < RichCompare_LT x pivot) /\
      (forall j x, rc < j < right -> item_at obj (ob_item obj s') j = Some x ->
                   RichCompare_LT x pivot = 0)) /\
  ncmp obj s' = (ncmp obj s + Z.to_nat (right - left - 1))%nat /\
  rnd obj s' = S (rnd obj s).
Proof. apply partition_post. Qed.


(** ** Insertion sort sorts *)

Lemma item_at_insert (l : list obj) (i j : Z) (x : obj) :
  0 <= i < Z.of_nat (length l) ->
  item_at obj (<[Z.to_nat i := x]> l) j
  = if Z.eq_dec j i then Some x else item_at obj l j.
Proof.
  intros Hi. destruct (Z.eq_dec j i) as [->|Hne].
  - by apply item_at_insert_eq.
  - apply item_at_insert_ne; lia.
Qed.

Lemma swap_shuffled (a0 V : list obj) (lo hi p q : Z) (x y : obj) :
  0 <= lo -> lo <= p < hi -> lo <= q < hi ->
  item_at obj V p = Some x -> item_at obj V q = Some y ->
  shuffled obj a0 V lo hi ->
  shuffled obj a0 (<[Z.to_nat q := x]> (<[Z.to_nat p := y]> V)) lo hi.
Proof.
  intros Hlo Hp Hq Hx Hy ([Hlen Hout] & Hperm & Hreg).
  pose proof (item_at_Some _ _ _ Hx) as Hpr.
  pose proof (item_at_Some _ _ _ Hy) as Hqr.
  split; [split|split].
  - by rewrite !length_insert.
  - intros k Hk. rewrite !item_at_insert_ne by lia. by apply Hout.
  - rewrite <- Hperm. unfold item_at in Hx, Hy.
    destruct (Z.ltb_spec p 0); [lia|]. destruct (Z.ltb_spec q 0); [lia|].
    by apply swap_Permutation.
  - intros k z Hk. rewrite item_at_insert by (rewrite length_insert; lia).
    destruct (Z.eq_dec k q) as [->|Hkq].
    + intros [= <-]. by apply (Hreg p).
    + rewrite item_at_insert by lia. destruct (Z.eq_dec k p) as [->|Hkp].
      * intros [= <-]. by apply (Hreg q).
      * by apply Hreg.
Qed.

Section Keyed.

(** The comparisons never fail and compare by a key. *)
Variable key : obj -> Z.
Hypothesis LT_key :
  forall x y, RichCompare_LT x y = if key x <? key y then 1 else 0.

Lemma LT_zero (x y : obj) : RichCompare_LT x y = 0 <-> key y <= key x.
Proof. rewrite LT_key. destruct (Z.ltb_spec (key x) (key y)); lia. Qed.

Lemma LT_pos (x y : obj) : 0 < RichCompare_LT x y <-> key x < key y.
Proof. rewrite LT_key. destruct (Z.ltb_spec (key x) (key y)); lia. Qed.

(** ** The error indicator under a comparison that never fails *)

Lemma keeps_err_ret {A} (a : A) : keeps_err (ret (obj := obj) a).
Proof. by intros s a' s' [= _ <-]. Qed.

Lemma keeps_err_bind {A B} (m : M A) (k : A -> M B) :
  keeps_err m -> (forall a, keeps_err (k a)) -> keeps_err (bind m k).
Proof.
  intros Hm Hk s b s' Hrun. unfold bind in Hrun.
  destruct (m s) as [a s1| |] eqn:Hms; [|done..].
  rewrite (Hk a s1 b s' Hrun). by apply (Hm s a s1).
Qed.

Lemma keeps_err_get_item (i : Z) : keeps_err (get_item obj i).
Proof.
  intros s a s'. unfold get_item.
  destruct (item_at obj (ob_item obj s) i); [|done]. by intros [= _ <-].
Qed.

Lemma keeps_err_set_item (i : Z) (x : obj) : keeps_err (set_item obj i x).
Proof.
  intros s a s'. unfold set_item.
  destruct (item_at obj (ob_item obj s) i); [|done]. by intros [= _ <-].
Qed.

Lemma keeps_err_rand : keeps_err (rand obj rand_at).
Proof. by intros s a s' [= _ <-]. Qed.

Lemma keeps_err_ISLT (x y : obj) : keeps_err (ISLT x y).
Proof.
  intros s a s'. unfold ISLT, compared. rewrite LT_key.
  intros [= _ <-]. simpl. by destruct (key x <? key y).
Qed.

Ltac ke :=
  repeat first
    [ apply keeps_err_ret
    | apply keeps_err_get_item
    | apply keeps_err_set_item
    | apply keeps_err_rand
    | apply keeps_err_ISLT
    | assumption
    | apply keeps_err_bind; [|intros ?]
    | match goal with
      | |- keeps_err (if ?b then _ else _) => destruct b
      | |- keeps_err (match ?x with _ => _ end) => destruct x
      end ].

Lemma keeps_err_SWAP (i j : Z) : keeps_err (SWAP obj i j).
Proof. unfold SWAP. ke. Qed.

Lemma keeps_err_partition_loop (pivot : obj) :
  forall (n : nat) (i last_less : Z),
    keeps_err (partition_loop obj RichCompare_LT n i pivot last_less).
Proof.
  induction n as [|n IH]; intros i last_less; cbn [partition_loop]; [ke|].
  pose proof (keeps_err_SWAP i (last_less + 1)) as Hswap.
  pose proof (IH (i + 1) (last_less + 1)) as IH1.
  pose proof (IH (i + 1) last_less) as IH2. ke.
Qed.

Lemma keeps_err_partition (left right : Z) :
  keeps_err (partition obj RichCompare_LT rand_at left right).
Proof.
  unfold partition, pick_pivot.
  apply keeps_err_bind; [ke; by intros ? ? ? ?|intros p].
  apply keeps_err_bind; [ke|intros pivot].
  apply keeps_err_bind; [apply keeps_err_SWAP|intros _].
  apply keeps_err_bind; [apply keeps_err_partition_loop|intros [ll|]]; [|ke].
  apply keeps_err_bind; [apply keeps_err_SWAP|intros _]. ke.
Qed.

Lemma keeps_err_insertion_shift (tmp : obj) :
  forall (n : nat) (j : Z),
    keeps_err (insertion_shift n j tmp).
Proof.
  induction n as [|n IH]; intros j; cbn [insertion_shift]; [ke|].
  pose proof (IH (j - 1)) as IH1. ke.
Qed.

Lemma keeps_err_insertion_loop :
  forall (n : nat) (i : Z), keeps_err (insertion_loop n i).
Proof.
  induction n as [|n IH]; intros i; cbn [insertion_loop]; [ke|].
  apply keeps_err_bind; [ke|intros tmp].
  apply keeps_err_bind; [apply keeps_err_insertion_shift|intros j].
  apply keeps_err_bind; [ke|intros _]. apply IH.
Qed.

Lemma keeps_err_insertion_sort (left right : Z) :
  keeps_err (insertion_sort left right).
Proof. apply keeps_err_insertion_loop. Qed.

Section InsertionSorts.

Variable a0 : list obj.
Variables lo hi : Z.
Hypothesis Hlo : 0 <= lo.
Hypothesis Hhi : hi <= Z.of_nat (length a0).
Hypothesis Hbound : bounded_below obj RichCompare_LT a0 lo hi.

(** The list [V] is the list of the state with [tmp] written at [j]: it is a
    rearrangement of [a0]; apart from position [j], its items up to [i] are
    in order, and those after [j] are greater than [tmp]. *)
Lemma insertion_shift_sorts (n : nat) :
  forall (i j : Z) (tmp : obj) (s : state),
    n = Z.to_nat j -> lo <= j <= i -> i < hi ->
    let V := <[Z.to_nat j := tmp]> (ob_item obj s) in
    shuffled obj a0 V lo hi ->
    (forall p q x y, lo <= p -> p < q -> q <= i -> p <> j -> q <> j ->
        item_at obj V p = Some x -> item_at obj V q = Some y -> key x <= key y) ->
    (forall q y, j < q <= i -> item_at obj V q = Some y -> key tmp < key y) ->
    exists j' s',
      insertion_shift n j tmp s = Done j' s' /\ lo <= j' <= j /\
      tree_untouched obj s s' /\ rnd obj s' = rnd obj s /\
      let V' := <[Z.to_nat j' := tmp]> (ob_item obj s') in
      shuffled obj a0 V' lo hi /\
      (forall p q x y, lo <= p -> p < q -> q <= i ->
          item_at obj V' p = Some x -> item_at obj V' q = Some y ->
          key x <= key y).
Proof.
  induction n as [|n IH]; intros i j tmp s Hn Hj Hi V Hsh Hsorted Hgt.
  - (* j = 0: the loop stops on [j > 0] *)
    exists j, s. simpl. split; [done|]. split; [lia|].
    split; [apply tree_untouched_refl|]. split; [done|]. split; [done|].
    intros p q x y Hp Hpq Hq Hx Hy. assert (j = 0) as -> by lia.
    destruct (Z.eq_dec q 0) as [->|Hq0]; [lia|].
    destruct (Z.eq_dec p 0) as [->|Hp0].
    + unfold V in Hx. destruct Hsh as [[Hlen _] _].
      unfold V in Hlen. rewrite length_insert in Hlen.
      rewrite item_at_insert_eq in Hx by lia. injection Hx as <-.
      pose proof (Hgt q y ltac:(lia) Hy). lia.
    + by apply (Hsorted p q).
  - simpl. destruct (Z.gtb_spec j 0) as [Hpos|Hnpos]; [|lia].
    pose proof Hsh as ([Hlen Hout] & Hperm & Hreg).
    unfold V in Hlen. rewrite length_insert in Hlen.
    destruct (item_at_in_range (ob_item obj s) (j - 1)) as [x Hx]; [lia|].
    unfold bind at 1, get_item at 1. rewrite Hx.
    unfold bind at 1, ISLT, compared. simpl.
    assert (item_at obj V j = Some tmp) as HVj.
    { unfold V. by rewrite item_at_insert_eq by lia. }
    assert (forall p, p <> j -> item_at obj V p = item_at obj (ob_item obj s) p)
      as HVne.
    { intros p Hp. unfold V. by rewrite item_at_insert_ne by lia. }
    assert (forall p q y z, lo <= p -> p < q -> q <= i ->
              item_at obj V p = Some y -> item_at obj V q = Some z ->
              key y <= key z \/ (p < j /\ q = j)) as Hcases.
    { intros p q y z Hp Hpq Hq Hy Hz.
      destruct (Z.eq_dec q j) as [->|Hqj]; [right; lia|]. left.
      destruct (Z.eq_dec p j) as [->|Hpj].
      - rewrite HVj in Hy. injection Hy as <-.
        pose proof (Hgt q z ltac:(lia) Hz). lia.
      - by apply (Hsorted p q). }
    assert (key x <= key tmp ->
            forall p q y z, lo <= p -> p < q -> q <= i ->
              item_at obj V p = Some y -> item_at obj V q = Some z ->
              key y <= key z) as Hstop.
    { intros Hle p q y z Hp Hpq Hq Hy Hz.
      destruct (Hcases p q y z Hp Hpq Hq Hy Hz) as [Hok|[Hpj ->]]; [done|].
      rewrite HVj in Hz. injection Hz as <-.
      destruct (Z.eq_dec p (j - 1)) as [->|Hpj1].
      - rewrite HVne in Hy by lia. rewrite Hx in Hy. injection Hy as <-. done.
      - assert (key y <= key x); [|lia].
        apply (Hsorted p (j - 1)); [lia..| done |].
        rewrite HVne by lia. done. }
    destruct (Z.eq_dec j lo) as [->|Hne].
    + (* the boundary: the item before the region stops the shift *)
      assert (RichCompare_LT tmp x = 0) as Hc.
      { destruct (Hreg lo tmp ltac:(lia) HVj) as (k & Hk & Hka).
        apply (Hbound x) with (i := k); [|done|done].
        rewrite <- Hout by lia. rewrite HVne by lia. done. }
      rewrite Hc. simpl. eexists _, _. split; [reflexivity|]. split; [lia|].
      split; [by repeat split|]. split; [done|]. simpl. split; [done|].
      apply Hstop. by apply LT_zero.
    + destruct (Z.eqb_spec (RichCompare_LT tmp x) 0) as [Hc|Hc]; simpl.
      * eexists _, _. split; [reflexivity|]. split; [lia|].
        split; [by repeat split|]. split; [done|]. simpl. split; [done|].
        apply Hstop. by apply LT_zero.
      * assert (key tmp < key x) as Hlt.
        { apply LT_pos. rewrite LT_key in *.
          destruct (key tmp <? key x); [lia|done]. }
        destruct (item_at_in_range (ob_item obj s) j) as [y Hy]; [lia|].
        unfold bind at 1, set_item at 1. simpl. rewrite Hy.
        match goal with
        | |- context [insertion_shift n (j - 1) tmp ?st] =>
            destruct (IH i (j - 1) tmp st) as (j' & s' & Hrun & Hj' & Ht & Hr & Hpost)
        end; [lia | lia | lia | | | | ].
        4:{ rewrite Hrun. exists j', s'. split; [done|]. split; [lia|].
            split; [|split; [|done]].
            - destruct Ht as (H1 & H2 & H3). by repeat split.
            - done. }
        all: simpl.
        all: assert (<[Z.to_nat (j - 1) := tmp]>
                       (<[Z.to_nat j := x]> (ob_item obj s))
                     = <[Z.to_nat j := x]> (<[Z.to_nat (j - 1) := tmp]> V)) as HV1
               by (unfold V; rewrite (list_insert_insert_ne _ (Z.to_nat j)) by lia;
                   by rewrite list_insert_insert_eq).
        all: assert (forall p, item_at obj
                       (<[Z.to_nat (j - 1) := tmp]>
                          (<[Z.to_nat j := x]> (ob_item obj s))) p
                     = if Z.eq_dec p (j - 1) then Some tmp
                       else if Z.eq_dec p j then Some x else item_at obj V p)
               as Hitems
               by (intros p; rewrite item_at_insert
                     by (rewrite length_insert; lia);
                   destruct (Z.eq_dec p (j - 1)); [done|];
                   rewrite item_at_insert by lia;
                   destruct (Z.eq_dec p j); [done|]; symmetry; by apply HVne).
        -- rewrite HV1. apply swap_shuffled; [lia | lia | lia | | done | done].
           rewrite HVne by lia. done.
        -- intros p q y0 z Hp Hpq Hq Hpj Hqj. rewrite !Hitems.
           destruct (Z.eq_dec p (j - 1)); [lia|].
           destruct (Z.eq_dec q (j - 1)); [lia|].
           destruct (Z.eq_dec p j) as [->|Hpj'];
             destruct (Z.eq_dec q j) as [->|Hqj']; try lia.
           ++ intros [= <-] Hz. apply (Hsorted (j - 1) q); [lia..| |done].
              rewrite HVne by lia. done.
           ++ intros Hy0 [= <-]. apply (Hsorted p (j - 1)); [lia..|done|].
              rewrite HVne by lia. done.
           ++ intros Hy0 Hz. by apply (Hsorted p q).
        -- intros q z Hq. rewrite Hitems.
           destruct (Z.eq_dec q (j - 1)); [lia|].
           destruct (Z.eq_dec q j) as [->|Hqj].
           ++ by intros [= <-].
           ++ intros Hz. apply (Hgt q); [lia|done].
Qed.

Lemma insertion_loop_sorts (n : nat) :
  forall (i : Z) (s : state),
    lo <= i -> i + Z.of_nat n <= hi ->
    shuffled obj a0 (ob_item obj s) lo hi ->
    (forall p q x y, lo <= p -> p < q -> q < i ->
        item_at obj (ob_item obj s) p = Some x ->
        item_at obj (ob_item obj s) q = Some y -> key x <= key y) ->
    exists s',
      insertion_loop n i s = Done tt s' /\
      tree_untouched obj s s' /\ rnd obj s' = rnd obj s /\
      shuffled obj a0 (ob_item obj s') lo hi /\
      (forall p q x y, lo <= p -> p < q -> q < i + Z.of_nat n ->
          item_at obj (ob_item obj s') p = Some x ->
          item_at obj (ob_item obj s') q = Some y -> key x <= key y).
Proof.
  induction n as [|n IH]; intros i s Hi Hn Hsh Hsorted.
  - exists s. simpl. split; [done|]. split; [apply tree_untouched_refl|].
    split; [done|]. split; [done|].
    intros p q x y Hp Hpq Hq. apply Hsorted; lia.
  - simpl. pose proof Hsh as ([Hlen Hout] & _ & _).
    destruct (item_at_in_range (ob_item obj s) i) as [tmp Htmp]; [lia|].
    unfold bind at 1, get_item at 1. rewrite Htmp.
    assert (<[Z.to_nat i := tmp]> (ob_item obj s) = ob_item obj s) as Hid.
    { apply list_insert_id. unfold item_at in Htmp.
      by destruct (i <? 0). }
    destruct (insertion_shift_sorts (Z.to_nat i) i i tmp s)
      as (j & s1 & Hrun & Hj & Ht1 & Hr1 & Hsh1 & Hsorted1);
      [done | lia | lia | by rewrite Hid | | |].
    { rewrite Hid. intros p q x y Hp Hpq Hq Hpi Hqi. apply Hsorted; lia. }
    { intros q y Hq. lia. }
    unfold bind at 1. rewrite Hrun.
    pose proof Hsh1 as ([Hlen1 _] & _ & _). rewrite length_insert in Hlen1.
    destruct (item_at_in_range (ob_item obj s1) j) as [y Hy]; [lia|].
    unfold bind at 1, set_item at 1. rewrite Hy.
    match goal with
    | |- context [insertion_loop n (i + 1) ?st] =>
        destruct (IH (i + 1) st) as (s' & Hrun' & Ht' & Hr' & Hsh' & Hsorted')
    end; [lia | lia | done | |].
    { simpl. intros p q x0 y0 Hp Hpq Hq. apply Hsorted1; lia. }
    exists s'. split; [done|]. split.
    { eapply tree_untouched_trans; [exact Ht1|].
      destruct Ht' as (H1 & H2 & H3). by repeat split. }
    split; [simpl in Hr'; congruence|]. split; [done|].
    intros p q x0 y0 Hp Hpq Hq. apply Hsorted'; lia.
Qed.

End InsertionSorts.

(** The run of [insertion_sort] on a region bounded below. *)
Lemma insertion_sort_post (s : state) (left right : Z) :
  0 <= left -> right <= Py_SIZE obj s ->
  bounded_below obj RichCompare_LT (ob_item obj s) left right ->
  exists s',
    insertion_sort left right s = Done tt s' /\
    shuffled obj (ob_item obj s) (ob_item obj s') left right /\
    sorted_region obj RichCompare_LT (ob_item obj s') left right /\
    tree_untouched obj s s' /\ rnd obj s' = rnd obj s.
Proof.
  intros Hl Hr Hb. unfold insertion_sort.
  destruct (Z.le_gt_cases left right) as [Hle|Hgt].
  - destruct (insertion_loop_sorts (ob_item obj s) left right Hl Hr Hb
                (Z.to_nat (right - left)) left s)
      as (s' & Hrun & Ht & Hrnd & Hsh & Hsorted);
      [lia | lia | apply shuffled_refl | intros; lia |].
    exists s'. split; [done|]. split; [done|]. split; [|done].
    intros i j x y Hi Hij Hj Hx Hy. apply LT_zero.
    apply (Hsorted i j); [lia | lia | lia | done | done].
  - replace (Z.to_nat (right - left)) with 0%nat by lia.
    exists s. split; [done|]. split; [apply shuffled_refl|].
    split; [intros i j x y Hi Hij Hj; lia|].
    split; [apply tree_untouched_refl|done].
Qed.

(** X2.  [insertion_sort] on a region [left, right) of the list, no item of
    which is less than the item just before the region: the call returns,
    the region is in nondecreasing order, the list is the old one with the
    items of the region rearranged, and the tree is untouched. *)
Theorem insertion_sort_sorts (s : state) (left right : Z) :
  0 <= left -> right <= Py_SIZE obj s ->
  bounded_below obj RichCompare_LT (ob_item obj s) left right ->
  exists s',
    insertion_sort left right s = Done tt s' /\
    shuffled obj (ob_item obj s) (ob_item obj s') left right /\
    sorted_region obj RichCompare_LT (ob_item obj s') left right /\
    tree_untouched obj s s' /\ rnd obj s' = rnd obj s.
Proof. apply insertion_sort_post. Qed.

(** ** Sorting the region between two neighbouring pivots *)

Lemma holds_tree_untouched (s s' : state) (t : tree) :
  tree_untouched obj s s' -> holds_tree obj s t -> holds_tree obj s' t.
Proof.
  intros (Hroot & Hmem & Hbrk) (Hr & Hrt & Hnd & Hb).
  unfold holds_tree. by rewrite Hroot, Hmem, Hbrk.
Qed.

Lemma has_flag_lor (f a b : Z) :
  Z.land a b = 0 -> has_flag (Z.lor f a) b = has_flag f b.
Proof.
  intros Hab. unfold has_flag.
  by rewrite Z.land_lor_distr_l, Hab, Z.lor_0_r.
Qed.

(** The end of [sort_point] between two neighbouring pivots neither of
    which is sorted on its far side: the region is sorted, both pivots get
    their flag and stay in the tree. *)
Lemma finish_region_keeps_pivots (s : state) (t : tree)
    (xs ys : list (ptr * (Z * Z))) (l r : ptr) (il fl ir fr : Z) :
  holds_tree obj s t ->
  inorder t = xs ++ (l, (il, fl)) :: (r, (ir, fr)) :: ys ->
  has_flag fl SORTED_RIGHT = false -> has_flag fr SORTED_LEFT = false ->
  -1 <= il -> ir <= Py_SIZE obj s ->
  bounded_below obj RichCompare_LT (ob_item obj s) (il + 1) ir ->
  exists s' t',
    finish_region obj RichCompare_LT (Some l) (Some r) s = Done tt s' /\
    shuffled obj (ob_item obj s) (ob_item obj s') (il + 1) ir /\
    sorted_region obj RichCompare_LT (ob_item obj s') (il + 1) ir /\
    holds_tree obj s' t' /\
    inorder t' = xs ++ (l, (il, Z.lor fl SORTED_LEFT))
                    :: (r, (ir, Z.lor fr SORTED_RIGHT)) :: ys /\
    rnd obj s' = rnd obj s /\ pyerr obj s' = pyerr obj s.
Proof.
  intros Ht Hin Hfl Hfr Hil Hir Hb.
  assert ((l, (il, fl)) ∈ inorder t) as Hl.
  { rewrite Hin. apply elem_of_app. right. apply elem_of_cons. by left. }
  assert ((r, (ir, fr)) ∈ inorder t) as Hr.
  { rewrite Hin. apply elem_of_app. right. apply elem_of_cons. right.
    apply elem_of_cons. by left. }
  destruct (holds_tree_lookup s t l il fl Ht Hl) as (nl & Hnl & Hil' & Hfl').
  destruct (holds_tree_lookup s t r ir fr Ht Hr) as (nr & Hnr & Hir' & Hfr').
  unfold finish_region.
  rewrite (bind_run _ _ _ _ _ (deref_run l nl s Hnl)).
  rewrite (bind_run _ _ _ _ _ (deref_run r nr s Hnr)).
  rewrite Hil', Hir'.
  destruct (insertion_sort_post s (il + 1) ir ltac:(lia) Hir Hb)
    as (s1 & Hrun & Hsh & Hsorted & Hun & Hrnd).
  rewrite (bind_run _ _ _ _ _ Hrun).
  pose proof (holds_tree_untouched s s1 t Hun Ht) as Ht1.
  destruct (holds_tree_lookup s1 t l il fl Ht1 Hl) as (nl1 & Hnl1 & _ & Hfl1).
  rewrite (bind_run _ _ _ _ _ (deref_run l nl1 s1 Hnl1)). rewrite Hfl1.
  destruct (set_flags_tree s1 t l (Z.lor fl SORTED_LEFT) xs
              ((r, (ir, fr)) :: ys) il fl Ht1 Hin)
    as (s2 & t2 & Hrun2 & Ht2 & Hin2 & Hsl2 & _).
  rewrite (bind_run _ _ _ _ _ Hrun2).
  assert ((r, (ir, fr)) ∈ inorder t2) as Hr2.
  { rewrite Hin2. apply elem_of_app. right. apply elem_of_cons. right.
    apply elem_of_cons. by left. }
  destruct (holds_tree_lookup s2 t2 r ir fr Ht2 Hr2) as (nr2 & Hnr2 & _ & Hfr2).
  rewrite (bind_run _ _ _ _ _ (deref_run r nr2 s2 Hnr2)). rewrite Hfr2.
  destruct (set_flags_tree s2 t2 r (Z.lor fr SORTED_RIGHT)
              (xs ++ [(l, (il, Z.lor fl SORTED_LEFT))]) ys ir fr Ht2)
    as (s3 & t3 & Hrun3 & Ht3 & Hin3 & Hsl3 & _).
  { by rewrite <- app_assoc. }
  rewrite <- app_assoc in Hin3. simpl in Hin3.
  rewrite (bind_run _ _ _ _ _ Hrun3).
  assert ((l, (il, Z.lor fl SORTED_LEFT)) ∈ inorder t3) as Hl3.
  { rewrite Hin3. apply elem_of_app. right. apply elem_of_cons. by left. }
  assert ((r, (ir, Z.lor fr SORTED_RIGHT)) ∈ inorder t3) as Hr3.
  { rewrite Hin3. apply elem_of_app. right. apply elem_of_cons. right.
    apply elem_of_cons. by left. }
  destruct (holds_tree_lookup s3 t3 l _ _ Ht3 Hl3) as (nl3 & Hnl3 & _ & Hfl3).
  destruct (holds_tree_lookup s3 t3 r _ _ Ht3 Hr3) as (nr3 & Hnr3 & _ & Hfr3).
  unfold depivot.
  rewrite (bind_run _ _ _ _ _ (deref_run l nl3 s3 Hnl3)).
  rewrite Hfl3, (has_flag_lor fl SORTED_LEFT SORTED_RIGHT eq_refl), Hfl.
  unfold bind at 1, ret at 1.
  rewrite (bind_run _ _ _ _ _ (deref_run r nr3 s3 Hnr3)).
  rewrite Hfr3, (has_flag_lor fr SORTED_RIGHT SORTED_LEFT eq_refl), Hfr.
  exists s3, t3. split; [done|].
  pose proof (keeps_err_insertion_sort _ _ _ _ _ Hrun) as He1.
  destruct Hsl2 as (Hi2 & _ & Hrnd2 & _ & He2), Hsl3 as (Hi3 & _ & Hrnd3 & _ & He3).
  rewrite Hi3, Hi2. split; [done|]. split; [done|]. split; [done|].
  split; [done|]. split; congruence.
Qed.

(** The quickselect loop of [sort_point] is not entered when the two
    pivots are less than SORT_THRESH apart. *)
Lemma quickselect_small (fuel : nat) (k : Z) (l r : ptr) (nl nr : PivotNode)
    (s : state) :
  mem obj s !! l = Some nl -> mem obj s !! r = Some nr ->
  idx nr < idx nl + 1 + SORT_THRESH ->
  quickselect obj RichCompare_LT RichCompare_EQ rand_at SORT_THRESH
    (S fuel) k (Some l) (Some r) s = Done (inr (Some l, Some r)) s.
Proof.
  intros Hnl Hnr Hsmall. simpl.
  rewrite (bind_run _ _ _ _ _ (deref_run l nl s Hnl)).
  rewrite (bind_run _ _ _ _ _ (deref_run r nr s Hnr)).
  by destruct (Z.leb_spec (idx nl + 1 + SORT_THRESH) (idx nr)) as [Hle|_]; [lia|].
Qed.

(** [sort_point] on a region shorter than SORT_THRESH between two neighbours. *)
Lemma sort_point_small_run (k : Z) (s : state) (t : tree)
    (xs ys : list (ptr * (Z * Z))) (l r : ptr) (il fl ir fr : Z) :
  holds_tree obj s t -> bst t ->
  inorder t = xs ++ (l, (il, fl)) :: (r, (ir, fr)) :: ys ->
  il < k < ir ->
  ir < il + 1 + SORT_THRESH ->
  has_flag fr SORTED_RIGHT = false ->
  has_flag fl SORTED_RIGHT = false -> has_flag fr SORTED_LEFT = false ->
  -1 <= il -> ir <= Py_SIZE obj s ->
  bounded_below obj RichCompare_LT (ob_item obj s) (il + 1) ir ->
  exists s' t',
    sort_point obj RichCompare_LT RichCompare_EQ rand_at SORT_THRESH k s
      = Done 0 s' /\
    shuffled obj (ob_item obj s) (ob_item obj s') (il + 1) ir /\
    sorted_region obj RichCompare_LT (ob_item obj s') (il + 1) ir /\
    holds_tree obj s' t' /\
    inorder t' = xs ++ (l, (il, Z.lor fl SORTED_LEFT))
                    :: (r, (ir, Z.lor fr SORTED_RIGHT)) :: ys /\
    rnd obj s' = rnd obj s /\ pyerr obj s' = pyerr obj s.
Proof.
  intros Ht Hs Hin Hk Hsmall Hfrr Hfl Hfr Hil Hir Hb.
  destruct (finish_region_keeps_pivots s t xs ys l r il fl ir fr
              Ht Hin Hfl Hfr Hil Hir Hb) as (s' & t' & Hrun & Hrest).
  exists s', t'. split; [|exact Hrest].
  assert ((l, (il, fl)) ∈ inorder t) as Hl.
  { rewrite Hin. apply elem_of_app. right. apply elem_of_cons. by left. }
  assert ((r, (ir, fr)) ∈ inorder t) as Hr.
  { rewrite Hin. apply elem_of_app. right. apply elem_of_cons. right.
    apply elem_of_cons. by left. }
  destruct (holds_tree_lookup s t l il fl Ht Hl) as (nl & Hnl & Hil' & Hfl').
  destruct (holds_tree_lookup s t r ir fr Ht Hr) as (nr & Hnr & Hir' & Hfr').
  unfold sort_point, bind at 1, get_root.
  rewrite (bind_run _ _ _ _ _ (bound_idx_between k s t xs ys l r il fl ir fr
                                 Ht Hs Hin Hk)). simpl fst. simpl snd.
  rewrite (bind_run _ _ _ _ _ (deref_run l nl s Hnl)).
  destruct (Z.eqb_spec (idx nl) k) as [Heq|_]; [lia|].
  rewrite (bind_run _ _ _ _ _ (deref_run r nr s Hnr)).
  rewrite Hfr', Hfrr. unfold bind at 1, select_fuel.
  rewrite (bind_run _ _ _ _ _
             (quickselect_small _ k l r nl nr s Hnl Hnr ltac:(lia))).
  simpl fst. simpl snd. by rewrite (bind_run _ _ _ _ _ Hrun).
Qed.

(** X6.  [sort_point(k)] for an index strictly between two neighbouring
    pivots that are less than SORT_THRESH apart, in a region not yet sorted
    and with neither pivot sorted on its far side: the call returns 0
    without a [rand()], the region between the two pivots is sorted by
    insertion sort, the items outside it stay where they are, and the tree
    keeps all its pivots, with SORTED_LEFT added to the left one and
    SORTED_RIGHT to the right one. *)
Theorem sort_point_small_region (k : Z) (s : state) (t : tree)
    (xs ys : list (ptr * (Z * Z))) (l r : ptr) (il fl ir fr : Z) :
  holds_tree obj s t -> bst t ->
  inorder t = xs ++ (l, (il, fl)) :: (r, (ir, fr)) :: ys ->
  il < k < ir ->
  ir < il + 1 + SORT_THRESH ->
  has_flag fr SORTED_RIGHT = false ->
  has_flag fl SORTED_RIGHT = false -> has_flag fr SORTED_LEFT = false ->
  -1 <= il -> ir <= Py_SIZE obj s ->
  bounded_below obj RichCompare_LT (ob_item obj s) (il + 1) ir ->
  exists s' t',
    sort_point obj RichCompare_LT RichCompare_EQ rand_at SORT_THRESH k s
      = Done 0 s' /\
    shuffled obj (ob_item obj s) (ob_item obj s') (il + 1) ir /\
    sorted_region obj RichCompare_LT (ob_item obj s') (il + 1) ir /\
    holds_tree obj s' t' /\
    inorder t' = xs ++ (l, (il, Z.lor fl SORTED_LEFT))
                    :: (r, (ir, Z.lor fr SORTED_RIGHT)) :: ys /\
    rnd obj s' = rnd obj s.
Proof.
  intros Ht Hs Hin Hk Hsmall Hfrr Hfl Hfr Hil Hir Hb.
  destruct (sort_point_small_run k s t xs ys l r il fl ir fr Ht Hs Hin Hk
              Hsmall Hfrr Hfl Hfr Hil Hir Hb)
    as (s' & t' & Hrun & Hsh & Hsorted & Ht' & Hin' & Hrnd & _).
  by exists s', t'.
Qed.


(** ** Quicksort sorts *)

Lemma shuffled_trans (a b c : list obj) (lo hi : Z) :
  shuffled obj a b lo hi -> shuffled obj b c lo hi -> shuffled obj a c lo hi.
Proof.
  intros ([Hl1 Ho1] & Hp1 & Hr1) ([Hl2 Ho2] & Hp2 & Hr2).
  split; [split|split].
  - congruence.
  - intros j Hj. rewrite Ho2, Ho1; done.
  - by rewrite Hp2.
  - intros i x Hi Hx. destruct (Hr2 i x Hi Hx) as (j & Hj & Hjx).
    by apply (Hr1 j).
Qed.

Lemma shuffled_widen (a b : list obj) (lo hi lo' hi' : Z) :
  shuffled obj a b lo' hi' -> lo <= lo' -> hi' <= hi -> shuffled obj a b lo hi.
Proof.
  intros ([Hl Ho] & Hp & Hr) Hlo Hhi. split; [split|split]; [done| |done|].
  - intros j Hj. apply Ho. lia.
  - intros i x Hi Hx. destruct (decide (lo' <= i < hi')) as [Hin|Hout].
    + destruct (Hr i x Hin Hx) as (j & Hj & Hjx). exists j. split; [lia|done].
    + exists i. split; [done|]. by rewrite <- Ho.
Qed.

Lemma bounded_below_shuffled (a b : list obj) (lo hi : Z) :
  shuffled obj a b lo hi ->
  bounded_below obj RichCompare_LT a lo hi ->
  bounded_below obj RichCompare_LT b lo hi.
Proof.
  intros ([Hl Ho] & _ & Hr) Hb x Hx i y Hi Hy.
  rewrite Ho in Hx by lia. destruct (Hr i y Hi Hy) as (j & Hj & Hjy).
  by apply (Hb x Hx j).
Qed.

Lemma SWAP_run (i j : Z) (s : state) :
  0 <= i < Py_SIZE obj s -> 0 <= j < Py_SIZE obj s ->
  exists s', SWAP obj i j s = Done tt s' /\ Py_SIZE obj s' = Py_SIZE obj s.
Proof.
  unfold Py_SIZE. intros Hi Hj.
  destruct (item_at_in_range (ob_item obj s) i) as [x Hx]; [lia|].
  destruct (item_at_in_range (ob_item obj s) j) as [y Hy]; [lia|].
  unfold SWAP, bind, get_item, set_item. rewrite Hx, Hy, Hx. simpl.
  destruct (item_at_in_range (<[Z.to_nat i := y]> (ob_item obj s)) j)
    as [z Hz]; [rewrite length_insert; lia|].
  rewrite Hz. eexists. split; [reflexivity|]. simpl.
  by rewrite !length_insert.
Qed.

Lemma partition_loop_run (n : nat) :
  forall (i last_less : Z) (pivot : obj) (s : state),
    (forall x y, 0 <= RichCompare_LT x y) ->
    0 <= last_less < i -> i + Z.of_nat n <= Py_SIZE obj s ->
    exists ll s',
      partition_loop obj RichCompare_LT n i pivot last_less s = Done (Some ll) s' /\
      Py_SIZE obj s' = Py_SIZE obj s.
Proof.
  induction n as [|n IH]; intros i last_less pivot s Hnn Hll Hn.
  - by exists last_less, s.
  - simpl. unfold Py_SIZE in Hn.
    destruct (item_at_in_range (ob_item obj s) i) as [x Hx]; [lia|].
    unfold bind at 1, get_item at 1. rewrite Hx.
    unfold bind at 1, ISLT, compared.
    destruct (Z.ltb_spec (RichCompare_LT x pivot) 0) as [Hneg|_].
    { specialize (Hnn x pivot). lia. }
    destruct (negb (RichCompare_LT x pivot =? 0)).
    + match goal with
      | |- context [bind (SWAP obj i (last_less + 1)) _ ?st] =>
          destruct (SWAP_run i (last_less + 1) st) as (s1 & Hsw & Hlen)
      end; [unfold Py_SIZE; simpl; lia ..|].
      unfold bind at 1. rewrite Hsw.
      destruct (IH (i + 1) (last_less + 1) pivot s1) as (ll & s' & Hrun & Hlen');
        [done | lia | |].
      { rewrite Hlen. unfold Py_SIZE. simpl. lia. }
      exists ll, s'. split; [done|]. rewrite Hlen', Hlen. done.
    + match goal with
      | |- context [partition_loop obj RichCompare_LT n (i + 1) pivot last_less ?st] =>
          destruct (IH (i + 1) last_less pivot st) as (ll & s' & Hrun & Hlen')
      end; [done | lia | unfold Py_SIZE; simpl; lia |].
      exists ll, s'. split; [done|]. rewrite Hlen'. done.
Qed.

Lemma partition_run (left right : Z) (s : state) :
  (forall x y, 0 <= RichCompare_LT x y) ->
  0 <= left < right -> right <= Py_SIZE obj s ->
  exists rc s',
    partition obj RichCompare_LT rand_at left right s = Done rc s' /\ rc <> -1.
Proof.
  intros Hnn Hlr Hr. unfold partition, pick_pivot, rand, bind at 1 2. simpl.
  destruct (Z.eqb_spec (right - left) 0) as [Hz|_]; [lia|].
  unfold ret at 1.
  pose proof (Z.rem_bound_pos (rand_at (rnd obj s)) (right - left)
                (rand_nonneg _) ltac:(lia)) as Hrem.
  set (p := left + Z.rem (rand_at (rnd obj s)) (right - left)).
  match goal with
  | |- context [get_item obj p] =>
      match goal with
      | |- exists rc s', bind _ _ ?st = _ /\ _ => set (s0 := st)
      end
  end.
  assert (Py_SIZE obj s0 = Py_SIZE obj s) as Hlen0 by done.
  destruct (item_at_in_range (ob_item obj s0) p) as [pivot Hpiv];
    [unfold Py_SIZE in *; simpl in *; lia|].
  unfold bind at 1, get_item at 1. rewrite Hpiv.
  destruct (SWAP_run left p s0) as (s1 & Hsw & Hlen1); [lia | lia |].
  unfold bind at 1. rewrite Hsw.
  destruct (partition_loop_run (Z.to_nat (right - (left + 1))) (left + 1) left
              pivot s1 Hnn) as (ll & s2 & Hloop & Hlen2); [lia | lia |].
  unfold bind at 1. rewrite Hloop.
  pose proof Hloop as Hll.
  apply (partition_loop_shuffled (ob_item obj s1) left right) in Hll
    as (_ & _ & _ & Hres); [| first [lia | apply shuffled_refl] ..].
  specialize (Hres ll eq_refl).
  destruct (SWAP_run left ll s2) as (s3 & Hsw3 & Hlen3); [lia | lia |].
  unfold bind at 1. rewrite Hsw3. exists ll, s3. split; [done|lia].
Qed.


(** ** A comparison that fails inside [partition] *)

(** The loop of [partition] when the comparison of the item at [m] with the
    pivot fails and the earlier ones do not: the loop stops there, and what
    it swapped before stays swapped. *)
Lemma partition_loop_fails (pivot : obj) (left m : Z) (xm : obj) :
  0 <= left -> RichCompare_LT xm pivot < 0 ->
  forall (n : nat) (i last_less : Z) (s : state),
    left <= last_less < i -> i <= m < i + Z.of_nat n -> m < Py_SIZE obj s ->
    item_at obj (ob_item obj s) left = Some pivot ->
    (forall j x, left < j <= last_less ->
                 item_at obj (ob_item obj s) j = Some x ->
                 0 < RichCompare_LT x pivot) ->
    (forall j x, last_less < j < i ->
                 item_at obj (ob_item obj s) j = Some x ->
                 RichCompare_LT x pivot = 0) ->
    (forall j x, i <= j < m ->
                 item_at obj (ob_item obj s) j = Some x ->
                 0 <= RichCompare_LT x pivot) ->
    item_at obj (ob_item obj s) m = Some xm ->
    exists s' ll,
      partition_loop obj RichCompare_LT n i pivot last_less s = Done None s' /\
      left <= ll < m /\
      item_at obj (ob_item obj s') left = Some pivot /\
      (forall j x, left < j <= ll ->
                   item_at obj (ob_item obj s') j = Some x ->
                   0 < RichCompare_LT x pivot) /\
      (forall j x, ll < j < m ->
                   item_at obj (ob_item obj s') j = Some x ->
                   RichCompare_LT x pivot = 0) /\
      (forall j, m <= j ->
                 item_at obj (ob_item obj s') j = item_at obj (ob_item obj s) j) /\
      ncmp obj s' = (ncmp obj s + Z.to_nat (m - i + 1))%nat /\
      pyerr obj s' = true.
Proof.
  intros Hleft Hbad.
  induction n as [|n IH];
    intros i last_less s Hll Him Hsize Hpiv Hless Hnot Hok Hm; [lia|].
  cbn [partition_loop].
  destruct (Z.eq_dec i m) as [->|Hne].
  - unfold bind at 1, get_item. rewrite Hm. unfold bind at 1, ISLT, compared.
    destruct (Z.ltb_spec (RichCompare_LT xm pivot) 0) as [_|]; [|lia].
    eexists _, last_less. split; [reflexivity|]. simpl.
    split; [lia|]. split; [done|]. split; [done|]. split; [done|].
    split; [done|]. split; [|done].
    replace (m - m + 1) with 1 by lia. lia.
  - destruct (item_at_in_range (ob_item obj s) i) as [x Hx];
      [unfold Py_SIZE in Hsize; lia|].
    unfold bind at 1, get_item. rewrite Hx. unfold bind at 1, ISLT, compared.
    pose proof (Hok i x ltac:(lia) Hx) as Hc.
    destruct (Z.ltb_spec (RichCompare_LT x pivot) 0) as [|_]; [lia|].
    destruct (Z.eqb_spec (RichCompare_LT x pivot) 0) as [Hz|Hnz]; cbn [negb].
    + match goal with
      | |- context [partition_loop obj RichCompare_LT n (i + 1) pivot
                      last_less ?st] =>
          destruct (IH (i + 1) last_less st)
            as (s' & ll & Hrun & Hll' & H1 & H2 & H3 & H4 & H5 & H6)
      end; [lia | lia | done | done | done | | | done |].
      { intros j y Hj Hy. simpl in Hy. destruct (Z.eq_dec j i) as [->|Hji].
        - rewrite Hx in Hy. by injection Hy as <-.
        - apply (Hnot j); [lia|done]. }
      { intros j y Hj. apply Hok. lia. }
      exists s', ll. split; [done|]. split; [done|]. split; [done|].
      split; [done|]. split; [done|]. split; [done|]. split; [|done].
      simpl in H5. lia.
    + match goal with
      | |- context [bind (SWAP obj i (last_less + 1)) _ ?st] =>
          destruct (SWAP_run i (last_less + 1) st) as (s1 & Hsw & Hlen);
            [unfold Py_SIZE in Hsize |- *; simpl; lia ..|];
          assert (ob_item obj st = ob_item obj s) as Ha by done;
          assert (ncmp obj st = S (ncmp obj s)) as Hcnt by done
      end.
      unfold bind at 1. rewrite Hsw.
      apply SWAP_Done in Hsw as (x' & y & Hxi & Hy & Harr & Hc1).
      rewrite Ha in Hxi, Hy, Harr. rewrite Hx in Hxi. injection Hxi as <-.
      pose proof (item_at_Some _ _ _ Hx) as Hir.
      pose proof (item_at_Some _ _ _ Hy) as Hlr.
      destruct (IH (i + 1) (last_less + 1) s1)
        as (s' & ll & Hrun & Hll' & H1 & H2 & H3 & H4 & H5 & H6);
        [lia | lia | | | | | | |].
      { rewrite Hlen. done. }
      { rewrite Harr. rewrite !item_at_insert_ne by lia. done. }
      { intros j z Hj. rewrite Harr.
        destruct (Z.eq_dec j (last_less + 1)) as [->|Hjl].
        - rewrite item_at_insert_eq by (rewrite length_insert; lia).
          intros [= <-]. lia.
        - rewrite !item_at_insert_ne by lia. apply Hless. lia. }
      { intros j z Hj. rewrite Harr.
        destruct (Z.eq_dec j (last_less + 1)) as [->|Hjl]; [lia|].
        rewrite item_at_insert_ne by lia.
        destruct (Z.eq_dec j i) as [->|Hji].
        - rewrite item_at_insert_eq by lia. intros [= <-].
          apply (Hnot (last_less + 1)); [lia|done].
        - rewrite item_at_insert_ne by lia. apply Hnot. lia. }
      { intros j z Hj. rewrite Harr. rewrite !item_at_insert_ne by lia.
        apply Hok. lia. }
      { rewrite Harr. rewrite !item_at_insert_ne by lia. done. }
      exists s', ll. split; [done|]. split; [lia|]. split; [done|].
      split; [done|]. split; [done|]. split.
      { intros j Hj. rewrite (H4 j Hj), Harr.
        by rewrite !item_at_insert_ne by lia. }
      split; [|done]. rewrite H5, Hc1, Hcnt. lia.
Qed.

(** C3, as the code has it.  The comparisons of [partition] are those of
    the items at [left + 1], [left + 2], ... of the list after the first
    swap with the pivot item.  When the one at [m] fails and the earlier
    ones do not, [partition] returns -1 at once, after [m - left]
    comparisons and with the exception set, and undoes nothing: the pivot
    item stays at [left], the items compared before stay split into those
    less than the pivot, up to some [ll], and the others, and the items from
    [m] on are where the first swap left them.  The list is the old one with
    the items of [left, right) rearranged, the tree is not touched, and
    every position outside the region that held an order statistic still
    holds one. *)
Theorem partition_failure_keeps_swaps
    (left right m p : Z) (s : state) (pivot x0 xm : obj) :
  0 <= left -> left < m < right -> right <= Py_SIZE obj s ->
  p = left + Z.rem (rand_at (rnd obj s)) (right - left) ->
  item_at obj (ob_item obj s) left = Some x0 ->
  item_at obj (ob_item obj s) p = Some pivot ->
  (forall j x, left < j < m ->
     item_at obj (<[Z.to_nat p := x0]>
                    (<[Z.to_nat left := pivot]> (ob_item obj s))) j = Some x ->
     0 <= RichCompare_LT x pivot) ->
  item_at obj (<[Z.to_nat p := x0]>
                 (<[Z.to_nat left := pivot]> (ob_item obj s))) m = Some xm ->
  RichCompare_LT xm pivot < 0 ->
  exists s' ll,
    partition obj RichCompare_LT rand_at left right s = Done (-1) s' /\
    pyerr obj s' = true /\
    ncmp obj s' = (ncmp obj s + Z.to_nat (m - left))%nat /\
    rnd obj s' = S (rnd obj s) /\
    tree_untouched obj s s' /\
    shuffled obj (ob_item obj s) (ob_item obj s') left right /\
    left <= ll < m /\
    item_at obj (ob_item obj s') left = Some pivot /\
    (forall j x, left < j <= ll -> item_at obj (ob_item obj s') j = Some x ->
                 0 < RichCompare_LT x pivot) /\
    (forall j x, ll < j < m -> item_at obj (ob_item obj s') j = Some x ->
                 RichCompare_LT x pivot = 0) /\
    (forall j, m <= j ->
       item_at obj (ob_item obj s') j
       = item_at obj (<[Z.to_nat p := x0]>
                        (<[Z.to_nat left := pivot]> (ob_item obj s))) j) /\
    (forall q, ~ (left <= q < right) ->
       order_statistic (ob_item obj s) q -> order_statistic (ob_item obj s') q).
Proof.
  intros Hleft Hm Hright Hp Hx0 Hpiv Hok Hxm Hbad.
  pose proof (Z.rem_bound_pos (rand_at (rnd obj s)) (right - left)
                (rand_nonneg _) ltac:(lia)) as Hrem.
  assert (exists s' ll,
    partition obj RichCompare_LT rand_at left right s = Done (-1) s' /\
    pyerr obj s' = true /\
    ncmp obj s' = (ncmp obj s + Z.to_nat (m - left))%nat /\
    rnd obj s' = S (rnd obj s) /\
    left <= ll < m /\
    item_at obj (ob_item obj s') left = Some pivot /\
    (forall j x, left < j <= ll -> item_at obj (ob_item obj s') j = Some x ->
                 0 < RichCompare_LT x pivot) /\
    (forall j x, ll < j < m -> item_at obj (ob_item obj s') j = Some x ->
                 RichCompare_LT x pivot = 0) /\
    (forall j, m <= j ->
       item_at obj (ob_item obj s') j
       = item_at obj (<[Z.to_nat p := x0]>
                        (<[Z.to_nat left := pivot]> (ob_item obj s))) j))
    as (s' & ll & Hrun & Herr & Hcnt & Hrnd & Hll & H1 & H2 & H3 & H4).
  { unfold partition, pick_pivot, rand, bind at 1 2. simpl.
    destruct (Z.eqb_spec (right - left) 0) as [Hz|_]; [lia|].
    unfold ret at 1. rewrite <- Hp.
    match goal with
    | |- context [get_item obj p] =>
        match goal with
        | |- exists s' ll, bind _ _ ?st = _ /\ _ => set (s0 := st)
        end
    end.
    assert (ob_item obj s0 = ob_item obj s) as Ha0 by done.
    unfold bind at 1, get_item at 1. rewrite Ha0, Hpiv.
    destruct (SWAP_run left p s0) as (s1 & Hsw & Hlen1);
      [unfold Py_SIZE in Hright |- *; rewrite Ha0; lia ..|].
    unfold bind at 1. rewrite Hsw.
    pose proof Hsw as Hsw'.
    apply (SWAP_shuffled (ob_item obj s0) left right) in Hsw'
      as (_ & _ & Hrnd1); [| first [lia | apply shuffled_refl] ..].
    apply SWAP_Done in Hsw as (x & y & Hx & Hy & Harr & Hc1).
    rewrite Ha0 in Hx, Hy, Harr. rewrite Hx0 in Hx. injection Hx as <-.
    rewrite Hpiv in Hy. injection Hy as <-.
    pose proof (item_at_Some _ _ _ Hx0) as Hlr.
    pose proof (item_at_Some _ _ _ Hpiv) as Hpr.
    destruct (partition_loop_fails pivot left m xm Hleft Hbad
                (Z.to_nat (right - (left + 1))) (left + 1) left s1)
      as (s2 & ll & Hloop & Hll & H1 & H2 & H3 & H4 & H5 & H6);
      [lia | lia | | | | | | |].
    { rewrite Hlen1. unfold Py_SIZE in Hright |- *. rewrite Ha0. lia. }
    { rewrite Harr. destruct (Z.eq_dec p left) as [->|Hne].
      - rewrite item_at_insert_eq by (rewrite length_insert; lia).
        congruence.
      - rewrite item_at_insert_ne by lia. by rewrite item_at_insert_eq by lia. }
    { intros j x Hj. lia. }
    { intros j x Hj. lia. }
    { intros j x Hj. rewrite Harr. apply Hok. lia. }
    { by rewrite Harr. }
    unfold bind at 1. rewrite Hloop.
    pose proof Hloop as Hloop'.
    apply (partition_loop_shuffled (ob_item obj s1) left right) in Hloop'
      as (_ & _ & Hrnd2 & _); [| first [lia | apply shuffled_refl] ..].
    exists s2, ll. split; [done|]. split; [done|]. split.
    { rewrite H5, Hc1. simpl. lia. }
    split; [rewrite Hrnd2, Hrnd1; done|]. split; [done|]. split; [done|].
    split; [done|]. split; [done|].
    intros j Hj. by rewrite (H4 j Hj), Harr. }
  exists s', ll.
  destruct (partition_shuffled left right (-1) s s' ltac:(lia) Hrun)
    as (Hsh & Hun & _).
  split; [done|]. split; [done|]. split; [done|]. split; [done|].
  split; [done|]. split; [done|]. split; [done|]. split; [done|].
  split; [done|]. split; [done|]. split; [done|].
  intros q Hq. by apply shuffled_order_statistic with (lo := left) (hi := right).
Qed.

Lemma LT_nonneg (x y : obj) : 0 <= RichCompare_LT x y.
Proof. rewrite LT_key. destruct (key x <? key y); lia. Qed.

Lemma shuffled_size (a b : list obj) (lo hi : Z) :
  shuffled obj a b lo hi -> Z.of_nat (length b) = Z.of_nat (length a).
Proof. intros ([Hl _] & _). by rewrite Hl. Qed.

Hypothesis thresh_nonneg : 0 <= SORT_THRESH.

Lemma quick_sort_rec_sorts (fuel : nat) :
  forall (left right : Z) (s : state),
    (Z.to_nat (right - left) < fuel)%nat ->
    0 <= left -> right <= Py_SIZE obj s ->
    bounded_below obj RichCompare_LT (ob_item obj s) left right ->
    exists s',
      quick_sort_rec obj RichCompare_LT rand_at SORT_THRESH fuel left right s
      = Done 0 s' /\
      shuffled obj (ob_item obj s) (ob_item obj s') left right /\
      sorted_region obj RichCompare_LT (ob_item obj s') left right /\
      tree_untouched obj s s'.
Proof.
  induction fuel as [|f IH]; intros left right s Hfuel Hl Hr Hb; [lia|].
  simpl. destruct (Z.leb_spec (right - left) SORT_THRESH) as [Hsmall|Hbig].
  - destruct (insertion_sort_post s left right Hl Hr Hb)
      as (s' & Hrun & Hsh & Hso & Ht & _).
    unfold bind. rewrite Hrun. by exists s'.
  - destruct (partition_run left right s LT_nonneg) as (rc & s1 & Hp & Hrc);
      [lia | lia |].
    destruct (partition_post left right rc s s1 ltac:(lia) Hp Hrc)
      as (Hin & Hsh1 & Ht1 & (pivot & Hpiv & Hless & Hnot) & _ & _).
    unfold bind at 1. rewrite Hp.
    destruct (Z.ltb_spec rc 0) as [Hneg|_]; [lia|].
    pose proof (shuffled_size _ _ _ _ Hsh1) as Hsz1.
    pose proof (bounded_below_shuffled _ _ _ _ Hsh1 Hb) as Hb1.
    (* the items before the pivot *)
    destruct (IH left rc s1) as (s2 & Hq1 & Hsh2 & Hso2 & Ht2);
      [lia | lia | unfold Py_SIZE in *; lia | |].
    { intros b Hbx i x Hi. apply (Hb1 b Hbx i). lia. }
    unfold bind at 1. rewrite Hq1. simpl.
    pose proof (shuffled_size _ _ _ _ Hsh2) as Hsz2.
    pose proof Hsh2 as ([_ Hout2] & _ & Hreg2).
    (* the items after the pivot *)
    destruct (IH (rc + 1) right s2) as (s3 & Hq2 & Hsh3 & Hso3 & Ht3);
      [lia | lia | unfold Py_SIZE in *; lia | |].
    { intros b Hbx i x Hi Hx. replace (rc + 1 - 1) with rc in Hbx by lia.
      rewrite Hout2 in Hbx, Hx by lia. rewrite Hpiv in Hbx. injection Hbx as <-.
      apply (Hnot i); [lia|done]. }
    unfold bind at 1. rewrite Hq2. simpl.
    pose proof Hsh3 as ([_ Hout3] & _ & Hreg3).
    exists s3. split; [done|]. split; [|split].
    + eapply shuffled_trans; [exact Hsh1|].
      eapply shuffled_trans.
      * apply (shuffled_widen _ _ left right) in Hsh2; [exact Hsh2|lia|lia].
      * apply (shuffled_widen _ _ left right) in Hsh3; [exact Hsh3|lia|lia].
    + (* in order: before the pivot, the pivot, after the pivot *)
      assert (forall i x, left <= i < rc ->
                item_at obj (ob_item obj s3) i = Some x -> key x < key pivot)
        as Hlow.
      { intros i x Hi Hx. rewrite Hout3 in Hx by lia.
        destruct (Hreg2 i x ltac:(lia) Hx) as (j & Hj & Hjx).
        apply LT_pos. by apply (Hless j). }
      assert (item_at obj (ob_item obj s3) rc = Some pivot) as Hmid.
      { rewrite Hout3 by lia. rewrite Hout2 by lia. done. }
      assert (forall i x, rc < i < right ->
                item_at obj (ob_item obj s3) i = Some x -> key pivot <= key x)
        as Hhigh.
      { intros i x Hi Hx.
        destruct (Hreg3 i x ltac:(lia) Hx) as (j & Hj & Hjx).
        rewrite Hout2 in Hjx by lia. apply LT_zero. apply (Hnot j); [lia|done]. }
      intros i j x y Hi Hij Hj Hx Hy. apply LT_zero.
      destruct (Z.lt_trichotomy j rc) as [Hjr|[->|Hjr]].
      * apply LT_zero. apply (Hso2 i j); [lia..| |].
        -- rewrite <- Hout3 by lia. done.
        -- rewrite <- Hout3 by lia. done.
      * rewrite Hmid in Hy. injection Hy as <-.
        pose proof (Hlow i x ltac:(lia) Hx). lia.
      * destruct (Z.lt_trichotomy i rc) as [Hir|[->|Hir]].
        -- pose proof (Hlow i x ltac:(lia) Hx).
           pose proof (Hhigh j y ltac:(lia) Hy). lia.
        -- rewrite Hmid in Hx. injection Hx as <-. apply Hhigh with j; [lia|done].
        -- apply LT_zero. apply (Hso3 i j); [lia..|done|done].
    + eapply tree_untouched_trans; [exact Ht1|].
      eapply tree_untouched_trans; [exact Ht2|exact Ht3].
Qed.

(** The run of [quick_sort] on a region bounded below. *)
Lemma quick_sort_post (s : state) (left right : Z) :
  0 <= left -> right <= Py_SIZE obj s ->
  bounded_below obj RichCompare_LT (ob_item obj s) left right ->
  exists s',
    quick_sort obj RichCompare_LT rand_at SORT_THRESH left right s = Done 0 s' /\
    shuffled obj (ob_item obj s) (ob_item obj s') left right /\
    sorted_region obj RichCompare_LT (ob_item obj s') left right /\
    tree_untouched obj s s'.
Proof.
  intros Hl Hr Hb. unfold quick_sort. apply quick_sort_rec_sorts; [lia|done..].
Qed.

(** X3.  [quick_sort] on a region [left, right) of the list, no item of which
    is less than the item just before the region, with comparisons by a key:
    the call returns 0, the region is in nondecreasing order, the list is
    the old one with the items of the region rearranged, and the tree is
    untouched. *)
Theorem quick_sort_sorts (s : state) (left right : Z) :
  0 <= left -> right <= Py_SIZE obj s ->
  bounded_below obj RichCompare_LT (ob_item obj s) left right ->
  exists s',
    quick_sort obj RichCompare_LT rand_at SORT_THRESH left right s = Done 0 s' /\
    shuffled obj (ob_item obj s) (ob_item obj s') left right /\
    sorted_region obj RichCompare_LT (ob_item obj s') left right /\
    tree_untouched obj s s'.
Proof. apply quick_sort_post. Qed.


(** ** Subscripts of a short list *)

(** [ls[k]] once [sort_point] has succeeded at the normalised index. *)
Lemma ls_subscript_run (k : Z) (s s' : state) :
  - Py_SIZE obj s <= k < Py_SIZE obj s ->
  pyerr obj s = false ->
  sort_point obj RichCompare_LT RichCompare_EQ rand_at SORT_THRESH
    (k mod Py_SIZE obj s) s = Done 0 s' ->
  Py_SIZE obj s' = Py_SIZE obj s ->
  exists x,
    ls_subscript obj RichCompare_LT RichCompare_EQ rand_at SORT_THRESH k s
      = Done (Some x) s' /\
    item_at obj (ob_item obj s') (k mod Py_SIZE obj s) = Some x.
Proof.
  intros Hk Herr Hrun Hsize. unfold ls_subscript, bind at 1, get_size.
  unfold bind at 1, err_occurred. rewrite Herr, andb_false_r.
  set (N := Py_SIZE obj s) in *.
  assert ((if k <? 0 then k + N else k) = k mod N) as ->.
  { destruct (Z.ltb_spec k 0).
    - apply (Z.mod_unique k N (-1)); lia.
    - symmetry. apply Z.mod_small. lia. }
  assert (0 <= k mod N < N) as Hmod by (apply Z.mod_pos_bound; lia).
  destruct (Z.ltb_spec (k mod N) 0); [lia|].
  destruct (Z.geb_spec (k mod N) N); [lia|]. cbn [orb].
  rewrite (bind_run _ _ _ _ _ Hrun). cbn [Z.ltb Z.compare].
  destruct (item_at_in_range (ob_item obj s') (k mod N)) as [x Hx];
    [unfold Py_SIZE in Hsize; lia|].
  exists x. split; [|done]. unfold bind, get_item. by rewrite Hx.
Qed.

(** X9.  A list shorter than SORT_THRESH, compared by the < of a total
    preorder: after construction, [ls[k1]] followed by [ls[k2]] (indices
    from [-len] to [len - 1]) both succeed; the first call sorts the whole
    list by insertion sort, the second changes nothing, and each returns the
    item at its index, counted from the end when negative, of that sorted
    permutation of the list: [sorted(l)[k]]. *)
Theorem short_list_subscripts (l : list obj) (k1 k2 : Z) :
  Z.of_nat (length l) < SORT_THRESH ->
  - Z.of_nat (length l) <= k1 < Z.of_nat (length l) ->
  - Z.of_nat (length l) <= k2 < Z.of_nat (length l) ->
  exists s0 s1 x1 x2,
    LS_new obj rand_at l (fresh obj) = Done true s0 /\
    ls_subscript obj RichCompare_LT RichCompare_EQ rand_at SORT_THRESH k1 s0
      = Done (Some x1) s1 /\
    ls_subscript obj RichCompare_LT RichCompare_EQ rand_at SORT_THRESH k2 s1
      = Done (Some x2) s1 /\
    ob_item obj s1 ≡ₚ l /\
    sorted_region obj RichCompare_LT (ob_item obj s1) 0 (Z.of_nat (length l)) /\
    item_at obj (ob_item obj s1) (k1 mod Z.of_nat (length l)) = Some x1 /\
    item_at obj (ob_item obj s1) (k2 mod Z.of_nat (length l)) = Some x2.
Proof.
  intros Hshort Hk1 Hk2. set (N := Z.of_nat (length l)) in *.
  destruct (LS_new_run l)
    as (s0 & t0 & Hnew & Hitems & Ht0 & Hbst0 & Hin0 & _ & _ & Herr0).
  assert (Py_SIZE obj s0 = N) as Hsize0 by (unfold Py_SIZE; by rewrite Hitems).
  assert (0 <= k1 mod N < N) as Hm1 by (apply Z.mod_pos_bound; lia).
  assert (0 <= k2 mod N < N) as Hm2 by (apply Z.mod_pos_bound; lia).
  destruct (sort_point_small_run (k1 mod N) s0 t0 [] [] 1%positive 2%positive
              (-1) UNSORTED N UNSORTED)
    as (s1 & t1 & Hrun1 & Hsh & Hsorted & Ht1 & Hin1 & _ & Herr1);
    [done | done | done | lia | lia | done | done | done | lia | lia | |].
  { intros b Hb. discriminate. }
  change (-1 + 1) with 0 in Hsh, Hsorted.
  pose proof (shuffled_size _ _ _ _ Hsh) as Hlen.
  assert (Py_SIZE obj s1 = N) as Hsize1.
  { unfold Py_SIZE in *. lia. }
  destruct (ls_subscript_run k1 s0 s1) as (x1 & Hget1 & Hx1);
    [rewrite Hsize0; lia | done | by rewrite Hsize0 | congruence |].
  assert (bst t1) as Hbst1.
  { unfold bst, keys in Hbst0 |- *. by rewrite Hin1; rewrite Hin0 in Hbst0. }
  assert (sort_point obj RichCompare_LT RichCompare_EQ rand_at SORT_THRESH
            (k2 mod N) s1 = Done 0 s1) as Hrun2.
  { apply (sort_point_sorted_run (k2 mod N) s1 t1 [] [] 1%positive 2%positive
             (-1) (Z.lor UNSORTED SORTED_LEFT) N (Z.lor UNSORTED SORTED_RIGHT));
      [done | done | done | lia | done]. }
  destruct (ls_subscript_run k2 s1 s1) as (x2 & Hget2 & Hx2);
    [rewrite Hsize1; lia | congruence | by rewrite Hsize1 | done |].
  rewrite Hsize0 in Hx1. rewrite Hsize1 in Hx2.
  exists s0, s1, x1, x2. split; [done|]. split; [done|]. split; [done|].
  split; [|done]. destruct Hsh as (_ & Hperm & _). by rewrite Hperm, Hitems.
Qed.


(** ** The pivots over the list *)

Lemma pairs_ok_app (a : list obj) (xs ys : list (ptr * (Z * Z))) (x : ptr * (Z * Z)) :
  pairs_ok obj RichCompare_LT a (xs ++ x :: ys) <-> pairs_ok obj RichCompare_LT a (xs ++ [x]) /\ pairs_ok obj RichCompare_LT a (x :: ys).
Proof.
  induction xs as [|x0 xs IH]; simpl.
  - tauto.
  - rewrite IH. destruct xs as [|x1 xs]; simpl; tauto.
Qed.

Lemma pairs_ok_snoc_flags (a : list obj) (xs : list (ptr * (Z * Z)))
    (x x' : ptr * (Z * Z)) :
  x'.2.1 = x.2.1 -> has_flag x'.2.2 SORTED_RIGHT = has_flag x.2.2 SORTED_RIGHT ->
  pairs_ok obj RichCompare_LT a (xs ++ [x]) -> pairs_ok obj RichCompare_LT a (xs ++ [x']).
Proof.
  intros Hi Hf. induction xs as [|x0 xs IH]; simpl; [done|].
  intros [H0 Hxs]. split; [|by apply IH].
  destruct xs as [|x1 xs]; simpl in *; [|done].
  unfold pair_ok in *. by rewrite Hi, Hf.
Qed.

Lemma pairs_ok_cons_flags (a : list obj) (ys : list (ptr * (Z * Z)))
    (x x' : ptr * (Z * Z)) :
  x'.2.1 = x.2.1 -> has_flag x'.2.2 SORTED_LEFT = has_flag x.2.2 SORTED_LEFT ->
  pairs_ok obj RichCompare_LT a (x :: ys) -> pairs_ok obj RichCompare_LT a (x' :: ys).
Proof.
  intros Hi Hf. simpl. intros [H0 Hys]. split; [|done].
  destruct ys as [|y ys]; [done|]. unfold pair_ok in *. by rewrite Hi, Hf.
Qed.

Lemma sorted_region_ext (a a' : list obj) (lo hi : Z) :
  (forall j, lo <= j < hi -> item_at obj a' j = item_at obj a j) ->
  sorted_region obj RichCompare_LT a lo hi -> sorted_region obj RichCompare_LT a' lo hi.
Proof.
  intros Hsame Hs i j x y Hi Hij Hj Hx Hy.
  rewrite Hsame in Hx, Hy by lia. by apply (Hs i j).
Qed.

(** Pairs of pivots whose regions lie where two lists agree. *)
Lemma pairs_ok_ext (a a' : list obj) (ps : list (ptr * (Z * Z))) (lo hi : Z) :
  (forall j, lo <= j < hi -> item_at obj a' j = item_at obj a j) ->
  Forall (fun x => lo - 1 <= x.2.1 <= hi) ps ->
  pairs_ok obj RichCompare_LT a ps -> pairs_ok obj RichCompare_LT a' ps.
Proof.
  intros Hsame. induction ps as [|x ps IH]; [done|].
  intros Hall [H0 Hps]. apply Forall_cons in Hall as [Hx Hall].
  split; [|by apply IH]. destruct ps as [|y ps]; [done|].
  apply Forall_cons in Hall as [Hy _]. destruct H0 as [Hflag Hsorted].
  split; [done|]. intros Hf. eapply sorted_region_ext; [|by apply Hsorted].
  intros j Hj. apply Hsame. lia.
Qed.

Lemma sorted_region_merge (a : list obj) (lo p hi : Z) :
  sorted_region obj RichCompare_LT a lo p -> sorted_region obj RichCompare_LT a (p + 1) hi -> order_statistic a p ->
  sorted_region obj RichCompare_LT a lo hi.
Proof.
  intros H1 H2 Hos i j x y Hi Hij Hj Hx Hy.
  destruct (Z.lt_trichotomy j p) as [Hjp|[->|Hjp]].
  - by apply (H1 i j).
  - destruct (Hos y Hy) as [Hb _]. by apply (Hb i).
  - destruct (Z.lt_trichotomy i p) as [Hip|[->|Hip]].
    + destruct (item_at_in_range a p) as [z Hz].
      { apply item_at_Some in Hx, Hy. lia. }
      destruct (Hos z Hz) as [Hb Ha].
      specialize (Hb i x Hip Hx). specialize (Ha j y Hjp Hy).
      apply LT_zero in Hb, Ha. apply LT_zero. lia.
    + destruct (Hos x Hx) as [_ Ha]. by apply (Ha j).
    + apply (H2 i j); [lia|lia|lia|done|done].
Qed.

(** A position inside a sorted region between two order statistics is an
    order statistic. *)
Lemma order_statistic_in_region (a : list obj) (il ir k : Z) :
  sorted_region obj RichCompare_LT a (il + 1) ir -> order_statistic a il -> order_statistic a ir ->
  il < k < ir -> order_statistic a k.
Proof.
  intros Hs Hl Hr Hk x Hx. split; intros i y Hi Hy.
  - destruct (Z.lt_trichotomy i il) as [Hlt|[->|Hgt]].
    + destruct (item_at_in_range a il) as [z Hz].
      { apply item_at_Some in Hx, Hy. lia. }
      destruct (Hl z Hz) as [Hb Ha].
      specialize (Hb i y Hlt Hy). specialize (Ha k x ltac:(lia) Hx).
      apply LT_zero in Hb, Ha. apply LT_zero. lia.
    + destruct (Hl y Hy) as [_ Ha]. apply (Ha k); [lia|done].
    + apply (Hs i k); [lia|lia|lia|done|done].
  - destruct (Z.lt_trichotomy i ir) as [Hlt|[->|Hgt]].
    + apply (Hs k i); [lia|lia|lia|done|done].
    + destruct (Hr y Hy) as [Hb _]. apply (Hb k); [lia|done].
    + destruct (item_at_in_range a ir) as [z Hz].
      { apply item_at_Some in Hx, Hy. lia. }
      destruct (Hr z Hz) as [Hb Ha].
      specialize (Hb k x ltac:(lia) Hx). specialize (Ha i y Hgt Hy).
      apply LT_zero in Hb, Ha. apply LT_zero. lia.
Qed.

(** The index a completed partition returns is an order statistic. *)
Lemma order_statistic_partition (a a' : list obj) (il ir rc : Z) (pivot : obj) :
  shuffled obj a a' (il + 1) ir ->
  order_statistic a il -> order_statistic a ir ->
  il < rc < ir ->
  item_at obj a' rc = Some pivot ->
  (forall j x, il + 1 <= j < rc -> item_at obj a' j = Some x -> 0 < RichCompare_LT x pivot) ->
  (forall j x, rc < j < ir -> item_at obj a' j = Some x -> RichCompare_LT x pivot = 0) ->
  order_statistic a' rc.
Proof.
  intros ([Hlen Hout] & _ & Hreg) Hl Hr Hrc Hpiv Hbefore Hafter x Hx.
  rewrite Hpiv in Hx. injection Hx as <-.
  destruct (Hreg rc pivot ltac:(lia) Hpiv) as (j0 & Hj0 & Hpiv0).
  split; intros i y Hi Hy.
  - destruct (Z.le_gt_cases (il + 1) i) as [Hin|Hlow].
    + specialize (Hbefore i y ltac:(lia) Hy). rewrite LT_key in Hbefore.
      apply LT_zero. destruct (key y <? key pivot) eqn:E; [lia|lia].
    + rewrite Hout in Hy by lia.
      destruct (Z.eq_dec i il) as [->|Hne].
      * destruct (Hl y Hy) as [_ Ha]. apply (Ha j0); [lia|done].
      * destruct (item_at_in_range a il) as [z Hz].
        { apply item_at_Some in Hy, Hpiv0. lia. }
        destruct (Hl z Hz) as [Hb Ha].
        specialize (Hb i y ltac:(lia) Hy). specialize (Ha j0 pivot ltac:(lia) Hpiv0).
        apply LT_zero in Hb, Ha. apply LT_zero. lia.
  - destruct (Z.lt_ge_cases i ir) as [Hin|Hhigh].
    + by apply (Hafter i).
    + rewrite Hout in Hy by lia.
      destruct (Z.eq_dec i ir) as [->|Hne].
      * destruct (Hr y Hy) as [Hb _]. apply (Hb j0); [lia|done].
      * destruct (item_at_in_range a ir) as [z Hz].
        { apply item_at_Some in Hy, Hpiv0. lia. }
        destruct (Hr z Hz) as [Hb Ha].
        specialize (Hb j0 pivot ltac:(lia) Hpiv0). specialize (Ha i y ltac:(lia) Hy).
        apply LT_zero in Hb, Ha. apply LT_zero. lia.
Qed.

Lemma bounded_below_order_statistic (a : list obj) (il ir : Z) :
  order_statistic a il ->
  bounded_below obj RichCompare_LT a (il + 1) ir.
Proof.
  intros Hl b Hb i x Hi Hx. replace (il + 1 - 1) with il in Hb by lia.
  destruct (Hl b Hb) as [_ Ha]. apply (Ha i); [lia|done].
Qed.


(** Between the two sentinels every index that is not a pivot has two
    neighbours. *)
Lemma pivots_neighbours (k : Z) :
  forall (ps : list (ptr * (Z * Z))) (x z : ptr * (Z * Z)),
    last (x :: ps) = Some z -> x.2.1 < k < z.2.1 ->
    k ∉ (fun y => y.2.1) <$> (x :: ps) ->
    exists xs l r ys, x :: ps = xs ++ l :: r :: ys /\ l.2.1 < k < r.2.1.
Proof.
  induction ps as [|y ps IH]; intros x z Hlast Hk Hnot.
  - simpl in Hlast. injection Hlast as <-. lia.
  - rewrite fmap_cons, not_elem_of_cons in Hnot. destruct Hnot as [_ Hnot].
    destruct (Z.lt_ge_cases k y.2.1) as [Hlt|Hge].
    + exists [], x, y, ps. split; [done|lia].
    + assert (y.2.1 <> k) as Hne.
      { rewrite fmap_cons, not_elem_of_cons in Hnot. by destruct Hnot as [Hne _]. }
      destruct (IH y z) as (xs & l & r & ys & Heq & Hlr); [done|lia|done|].
      exists (x :: xs), l, r, ys. split; [by rewrite Heq|done].
Qed.

(** In a sorted list of pivots every index lies between the first and the
    last. *)
Lemma pivots_range :
  forall (ps : list (ptr * (Z * Z))) (h z : ptr * (Z * Z)),
    StronglySorted Z.lt ((fun y => y.2.1) <$> ps) ->
    head ps = Some h -> last ps = Some z ->
    Forall (fun x => h.2.1 <= x.2.1 <= z.2.1) ps.
Proof.
  induction ps as [|x ps IH]; intros h z Hs Hh Hl; [done|].
  simpl in Hh. injection Hh as <-. rewrite fmap_cons in Hs.
  apply StronglySorted_cons in Hs as [Hx Hs].
  destruct ps as [|y ps].
  - simpl in Hl. injection Hl as <-. constructor; [lia|constructor].
  - assert (last (y :: ps) = Some z) as Hl' by done.
    specialize (IH y z Hs eq_refl Hl').
    assert (x.2.1 < z.2.1) as Hxz.
    { rewrite Forall_forall in Hx. apply Hx. apply list_elem_of_fmap.
      exists z. split; [done|]. by apply last_Some_elem_of. }
    constructor; [lia|]. apply Forall_forall. intros w Hw.
    rewrite Forall_forall in Hx. rewrite Forall_forall in IH.
    specialize (IH w Hw).
    assert (x.2.1 < w.2.1); [|lia]. apply Hx. apply list_elem_of_fmap. eauto.
Qed.

Lemma head_app_cons {A} (xs ys ys' : list A) (x x' : A) :
  (xs = [] -> x' = x) -> head (xs ++ x' :: ys') = head (xs ++ x :: ys).
Proof. destruct xs; simpl; [|done]. intros ->; done. Qed.

Lemma length_shuffled (a a' : list obj) (lo hi : Z) :
  shuffled obj a a' lo hi -> length a' = length a.
Proof. by intros ([Hl _] & _). Qed.

(** The pivots around a region keep their order statistics and their
    sorted regions when the region is rearranged. *)
Lemma pivots_outside_shuffled (a a' : list obj) (xs ys : list (ptr * (Z * Z)))
    (l r : ptr * (Z * Z)) :
  pivots_inv obj RichCompare_LT a (xs ++ l :: r :: ys) ->
  StronglySorted Z.lt ((fun y => y.2.1) <$> (xs ++ l :: r :: ys)) ->
  shuffled obj a a' (l.2.1 + 1) r.2.1 ->
  Forall (fun x => order_statistic a' x.2.1) (xs ++ l :: r :: ys) /\
  pairs_ok obj RichCompare_LT a' (xs ++ [l]) /\
  pairs_ok obj RichCompare_LT a' (r :: ys) /\
  -1 <= l.2.1 /\ r.2.1 <= Z.of_nat (length a).
Proof.
  intros ((p0 & f0 & Hhead & _) & (pN & fN & Hlast & _) & Hos & Hpairs) Hs Hsh.
  pose proof (pivots_range _ _ _ Hs Hhead Hlast) as Hrange. simpl in Hrange.
  destruct (sorted_split xs (r :: ys) l Hs) as [Hxs Hrys].
  assert (Forall (fun x => x.2.1 <= l.2.1) (xs ++ [l])) as Hleft.
  { apply Forall_app. split; [|by repeat constructor].
    eapply Forall_impl; [exact Hxs|]. simpl. intros. lia. }
  assert (Forall (fun x => r.2.1 <= x.2.1) (r :: ys)) as Hright.
  { apply Forall_cons in Hrys as [Hlr Hys]. constructor; [lia|].
    replace (xs ++ l :: r :: ys) with ((xs ++ [l]) ++ r :: ys) in Hs
      by (by rewrite <- app_assoc).
    destruct (sorted_split (xs ++ [l]) ys r Hs) as [_ Hys'].
    eapply Forall_impl; [exact Hys'|]. simpl. intros. lia. }
  pose proof Hsh as ([Hlen Hout] & _).
  apply pairs_ok_app in Hpairs as [Hp1 Hp2]. simpl in Hp2.
  destruct Hp2 as [_ Hp2].
  split; [|split; [|split; [|split]]].
  - replace (xs ++ l :: r :: ys) with ((xs ++ [l]) ++ r :: ys) in Hos |- *
      by (by rewrite <- app_assoc).
    apply Forall_app in Hos as [Hos1 Hos2]. apply Forall_app. split.
    + apply Forall_forall. intros x Hx.
      rewrite Forall_forall in Hos1. rewrite Forall_forall in Hleft.
      apply (shuffled_order_statistic a a' _ _ _ Hsh); [|by apply Hos1].
      specialize (Hleft x Hx). simpl in Hleft. lia.
    + apply Forall_forall. intros x Hx.
      rewrite Forall_forall in Hos2. rewrite Forall_forall in Hright.
      apply (shuffled_order_statistic a a' _ _ _ Hsh); [|by apply Hos2].
      specialize (Hright x Hx). simpl in Hright. lia.
  - apply (pairs_ok_ext a a' _ 0 (l.2.1 + 1)); [ | | done].
    + intros j Hj. apply Hout. lia.
    + apply Forall_forall. intros x Hx.
      rewrite Forall_forall in Hleft. rewrite Forall_forall in Hrange.
      specialize (Hleft x Hx). simpl in Hleft.
      assert (x ∈ xs ++ l :: r :: ys) as Hin.
      { apply elem_of_app in Hx as [Hx|Hx%list_elem_of_singleton].
        - apply elem_of_app. by left.
        - subst x. apply elem_of_app. right. apply elem_of_cons. by left. }
      specialize (Hrange x Hin). simpl in Hrange. lia.
  - apply (pairs_ok_ext a a' _ r.2.1 (Z.of_nat (length a) + 1)); [ | | done].
    + intros j Hj. apply Hout. lia.
    + apply Forall_forall. intros x Hx.
      rewrite Forall_forall in Hright. rewrite Forall_forall in Hrange.
      specialize (Hright x Hx). simpl in Hright.
      assert (x ∈ xs ++ l :: r :: ys) as Hin.
      { apply elem_of_app. right. apply elem_of_cons. by right. }
      specialize (Hrange x Hin). simpl in Hrange. lia.
  - rewrite Forall_forall in Hrange.
    assert (l ∈ xs ++ l :: r :: ys) as Hin.
    { apply elem_of_app. right. apply elem_of_cons. by left. }
    specialize (Hrange l Hin). simpl in Hrange. lia.
  - rewrite Forall_forall in Hrange.
    assert (r ∈ xs ++ l :: r :: ys) as Hin.
    { apply elem_of_app. right. apply elem_of_cons. right.
      apply elem_of_cons. by left. }
    specialize (Hrange r Hin). simpl in Hrange. lia.
Qed.


Lemma last_app_cons1 {A} (xs ys : list A) (y : A) :
  last (xs ++ y :: ys) = last (y :: ys).
Proof.
  rewrite last_app. destruct (last (y :: ys)) eqn:E; [done|].
  rewrite last_cons in E. by destruct (last ys).
Qed.

Lemma last_app_cons2 {A} (xs ys : list A) (x y : A) :
  last (xs ++ x :: y :: ys) = last (y :: ys).
Proof. by rewrite last_app_cons1. Qed.

(** A new, unsorted pivot between two neighbours whose region has just been
    partitioned. *)
Lemma pivots_inv_insert (a a' : list obj) (xs ys : list (ptr * (Z * Z)))
    (l r : ptr * (Z * Z)) (n : ptr) (rc : Z) :
  pivots_inv obj RichCompare_LT a (xs ++ l :: r :: ys) ->
  StronglySorted Z.lt ((fun y => y.2.1) <$> (xs ++ l :: r :: ys)) ->
  shuffled obj a a' (l.2.1 + 1) r.2.1 ->
  order_statistic a' rc ->
  has_flag r.2.2 SORTED_RIGHT = false ->
  pivots_inv obj RichCompare_LT a' (xs ++ l :: (n, (rc, UNSORTED)) :: r :: ys).
Proof.
  intros Hinv Hs Hsh Hrc Hfr.
  destruct (pivots_outside_shuffled a a' xs ys l r Hinv Hs Hsh)
    as (Hos & Hp1 & Hp2 & _).
  destruct Hinv as ((p0 & f0 & Hhead & Hf0) & (pN & fN & Hlast & HfN) & _ & Hpairs).
  apply pairs_ok_app in Hpairs as [_ Hlr]. simpl in Hlr.
  destruct Hlr as [[Hflags _] _].
  split; [|split; [|split]].
  - exists p0, f0. split; [|done]. rewrite <- Hhead. by apply head_app_cons.
  - exists pN, fN. split; [|done]. rewrite (length_shuffled _ _ _ _ Hsh).
    rewrite <- Hlast. by rewrite !last_app_cons2.
  - replace (xs ++ l :: r :: ys) with ((xs ++ [l]) ++ r :: ys) in Hos
      by (by rewrite <- app_assoc).
    apply Forall_app in Hos as [Hos1 Hos2].
    replace (xs ++ l :: (n, (rc, UNSORTED)) :: r :: ys)
      with ((xs ++ [l]) ++ (n, (rc, UNSORTED)) :: r :: ys)
      by (by rewrite <- app_assoc).
    apply Forall_app. split; [done|]. by constructor.
  - apply pairs_ok_app. split; [done|]. simpl. split; [|split; [|done]].
    + split; [by rewrite Hflags, Hfr|]. done.
    + split; [by rewrite Hfr|]. by rewrite Hfr.
Qed.

(** The region between two neighbours has been sorted and flagged. *)
Lemma pivots_inv_sorted (a a' : list obj) (xs ys : list (ptr * (Z * Z)))
    (l r : ptr) (il fl ir fr : Z) :
  pivots_inv obj RichCompare_LT a (xs ++ (l, (il, fl)) :: (r, (ir, fr)) :: ys) ->
  StronglySorted Z.lt
    ((fun y => y.2.1) <$> (xs ++ (l, (il, fl)) :: (r, (ir, fr)) :: ys)) ->
  shuffled obj a a' (il + 1) ir ->
  sorted_region obj RichCompare_LT a' (il + 1) ir ->
  pivots_inv obj RichCompare_LT a'
    (xs ++ (l, (il, Z.lor fl SORTED_LEFT)) :: (r, (ir, Z.lor fr SORTED_RIGHT)) :: ys).
Proof.
  intros Hinv Hs Hsh Hsorted.
  destruct (pivots_outside_shuffled a a' xs ys _ _ Hinv Hs Hsh)
    as (Hos & Hp1 & Hp2 & _).
  destruct Hinv as ((p0 & f0 & Hhead & Hf0) & (pN & fN & Hlast & HfN) & _ & _).
  split; [|split; [|split]].
  - destruct xs as [|x xs].
    + simpl in Hhead |- *. injection Hhead as <- <- <-.
      exists l, (Z.lor fl SORTED_LEFT). split; [done|].
      by rewrite (has_flag_lor fl SORTED_LEFT SORTED_RIGHT eq_refl).
    + exists p0, f0. by split.
  - rewrite (length_shuffled _ _ _ _ Hsh). rewrite last_app_cons2 in Hlast |- *.
    destruct ys as [|y ys].
    + simpl in Hlast |- *. injection Hlast as <- <- <-.
      exists r, (Z.lor fr SORTED_RIGHT). split; [done|].
      by rewrite (has_flag_lor fr SORTED_RIGHT SORTED_LEFT eq_refl).
    + exists pN, fN. split; [exact Hlast|done].
  - replace (xs ++ (l, (il, fl)) :: (r, (ir, fr)) :: ys)
      with (xs ++ [(l, (il, fl))] ++ [(r, (ir, fr))] ++ ys) in Hos by done.
    replace (xs ++ (l, (il, Z.lor fl SORTED_LEFT))
                :: (r, (ir, Z.lor fr SORTED_RIGHT)) :: ys)
      with (xs ++ [(l, (il, Z.lor fl SORTED_LEFT))]
               ++ [(r, (ir, Z.lor fr SORTED_RIGHT))] ++ ys) by done.
    rewrite !Forall_app in Hos |- *. rewrite !Forall_singleton in Hos |- *.
    done.
  - apply pairs_ok_app. split.
    + apply (pairs_ok_snoc_flags a' xs (l, (il, fl))); [done| |done].
      simpl. by rewrite (has_flag_lor fl SORTED_LEFT SORTED_RIGHT eq_refl).
    + simpl. split.
      * split; [|done]. simpl.
        rewrite (Z.lor_comm fl), (Z.lor_comm fr). unfold has_flag.
        rewrite !Z.land_lor_distr_l. simpl.
        by destruct (Z.land fl SORTED_LEFT), (Z.land fr SORTED_RIGHT).
      * apply (pairs_ok_cons_flags a' ys (r, (ir, fr))); [done| |done].
        simpl. by rewrite (has_flag_lor fr SORTED_RIGHT SORTED_LEFT eq_refl).
Qed.

(** A pivot flagged on both sides is between two sorted regions: without it
    the region between its neighbours is a sorted one. *)
Lemma pivots_inv_delete (a : list obj) (xs ys : list (ptr * (Z * Z)))
    (p : ptr * (Z * Z)) :
  pivots_inv obj RichCompare_LT a (xs ++ p :: ys) ->
  has_flag p.2.2 SORTED_LEFT = true -> has_flag p.2.2 SORTED_RIGHT = true ->
  pivots_inv obj RichCompare_LT a (xs ++ ys).
Proof.
  intros ((p0 & f0 & Hhead & Hf0) & (pN & fN & Hlast & HfN) & Hos & Hpairs) Hsl Hsr.
  destruct xs as [|x0 xs0].
  { simpl in Hhead. injection Hhead as ->. simpl in Hsr. congruence. }
  destruct ys as [|y ys].
  { rewrite last_snoc in Hlast. injection Hlast as ->. simpl in Hsl. congruence. }
  assert (exists xs' x, x0 :: xs0 = xs' ++ [x]) as (xs' & x & Hxs).
  { exists (removelast (x0 :: xs0)), (List.last (x0 :: xs0) p).
    by apply app_removelast_last. }
  apply Forall_app in Hos as [Hos1 Hos2]. apply Forall_cons in Hos2 as [Hp Hos2].
  split; [|split; [|split]].
  - exists p0, f0. by split.
  - exists pN, fN. split; [|done]. rewrite <- Hlast.
    by rewrite (last_app_cons2 (x0 :: xs0) ys p y), last_app_cons1.
  - apply Forall_app. by split.
  - rewrite Hxs in Hpairs |- *. rewrite <- !app_assoc in Hpairs |- *.
    simpl in Hpairs |- *.
    apply pairs_ok_app in Hpairs as [Hp1 Hp2]. apply pairs_ok_app. split; [done|].
    simpl in Hp2 |- *. destruct Hp2 as ([Hf1 Hs1] & [Hf2 Hs2] & Hrest).
    split; [|done]. rewrite Hsr in Hf1. rewrite Hsl in Hf2.
    split; [congruence|]. intros _.
    apply (sorted_region_merge a _ p.2.1); [by apply Hs1|by apply Hs2|done].
Qed.


(** ** Pivots of a list without equal items *)

Hypothesis EQ_key :
  forall x y, RichCompare_EQ x y = if key x =? key y then 1 else 0.

Lemma keys_distinct (a : list obj) (i j : Z) (x y : obj) :
  NoDup (key <$> a) -> item_at obj a i = Some x -> item_at obj a j = Some y ->
  i <> j -> key x <> key y.
Proof.
  intros Hnd Hx Hy Hij Heq. unfold item_at in Hx, Hy.
  destruct (Z.ltb_spec i 0); [done|]. destruct (Z.ltb_spec j 0); [done|].
  assert ((key <$> a) !! Z.to_nat i = Some (key x)) as Hi
    by (by rewrite list_lookup_fmap, Hx).
  assert ((key <$> a) !! Z.to_nat j = Some (key x)) as Hj
    by (by rewrite list_lookup_fmap, Hy, Heq).
  pose proof (NoDup_lookup _ _ _ _ Hnd Hi Hj). lia.
Qed.

(** The comparison of two items at different places. *)
Lemma ISEQ_distinct (s : state) (i j : Z) :
  NoDup (key <$> ob_item obj s) ->
  0 <= i < Py_SIZE obj s -> 0 <= j < Py_SIZE obj s -> i <> j ->
  exists s',
    (x <- get_item obj i ;; y <- get_item obj j ;; ISEQ obj RichCompare_EQ x y) s
      = Done 0 s' /\
    tree_untouched obj s s' /\ ob_item obj s' = ob_item obj s /\
    rnd obj s' = rnd obj s /\ pyerr obj s' = pyerr obj s.
Proof.
  intros Hnd Hi Hj Hij.
  destruct (item_at_in_range (ob_item obj s) i Hi) as [x Hx].
  destruct (item_at_in_range (ob_item obj s) j Hj) as [y Hy].
  pose proof (keys_distinct _ i j x y Hnd Hx Hy Hij) as Hne.
  unfold bind, get_item. rewrite Hx, Hy. unfold ISEQ, compared.
  rewrite EQ_key. destruct (Z.eqb_spec (key x) (key y)) as [|_]; [done|].
  eexists. split; [reflexivity|]. done.
Qed.

(** With no equal items [uniq_pivots] removes nothing. *)
Lemma uniq_pivots_distinct (s : state) (l m r : ptr) (nl nm nr : PivotNode) :
  mem obj s !! l = Some nl -> mem obj s !! m = Some nm ->
  mem obj s !! r = Some nr ->
  -1 <= idx nl -> idx nl < idx nm < idx nr -> idx nr <= Py_SIZE obj s ->
  NoDup (key <$> ob_item obj s) ->
  exists s',
    uniq_pivots obj RichCompare_EQ (Some l) (Some m) (Some r) s = Done 0 s' /\
    tree_untouched obj s s' /\ ob_item obj s' = ob_item obj s /\
    rnd obj s' = rnd obj s /\ pyerr obj s' = pyerr obj s.
Proof.
  intros Hl Hm Hr Hlo Hlm Hhi Hnd. unfold uniq_pivots.
  rewrite (bind_run _ _ _ _ _ (deref_run l nl s Hl)).
  assert (exists s1,
    (if idx nl >=? 0
     then m0 <- deref obj (Some m) ;;
          x <- get_item obj (idx nl) ;;
          y <- get_item obj (idx m0) ;;
          cmp <- ISEQ obj RichCompare_EQ x y ;;
          if cmp <? 0 then ret (-1)
          else if negb (cmp =? 0)
               then set_flags obj (Some m) (flags nl) ;;;
                    delete_node obj (Some l) ;;; ret 0
               else ret 0
     else ret 0) s = Done 0 s1 /\
    tree_untouched obj s s1 /\ ob_item obj s1 = ob_item obj s /\
    rnd obj s1 = rnd obj s /\ pyerr obj s1 = pyerr obj s)
    as (s1 & Hrun1 & Ht1 & Hi1 & Hr1 & He1).
  { destruct (Z.geb_spec (idx nl) 0) as [Hge|Hlt].
    - rewrite (bind_run _ _ _ _ _ (deref_run m nm s Hm)).
      destruct (ISEQ_distinct s (idx nl) (idx nm) Hnd ltac:(lia) ltac:(lia)
                  ltac:(lia)) as (s1 & Hrun & Hrest).
      exists s1. split; [|exact Hrest].
      unfold bind in Hrun |- *.
      destruct (get_item obj (idx nl) s) as [x sx| |]; [|done..].
      destruct (get_item obj (idx nm) sx) as [y sy| |]; [|done..].
      by rewrite Hrun.
    - exists s. split; [done|]. split; [apply tree_untouched_refl|done]. }
  rewrite (bind_run _ _ _ _ _ Hrun1). cbn [Z.ltb Z.compare].
  destruct Ht1 as (Hroot1 & Hmem1 & Hbrk1).
  assert (mem obj s1 !! r = Some nr) as Hr' by (by rewrite Hmem1).
  assert (mem obj s1 !! m = Some nm) as Hm' by (by rewrite Hmem1).
  rewrite (bind_run _ _ _ _ _ (deref_run r nr s1 Hr')).
  unfold bind at 1, get_size.
  assert (Py_SIZE obj s1 = Py_SIZE obj s) as Hsize by (unfold Py_SIZE; by rewrite Hi1).
  destruct (Z.ltb_spec (idx nr) (Py_SIZE obj s1)) as [Hlt|Hge].
  - rewrite (bind_run _ _ _ _ _ (deref_run m nm s1 Hm')).
    destruct (ISEQ_distinct s1 (idx nm) (idx nr) ltac:(by rewrite Hi1)
                ltac:(lia) ltac:(lia) ltac:(lia))
      as (s2 & Hrun & Ht2 & Hi2 & Hr2 & He2).
    exists s2. split.
    + unfold bind in Hrun |- *.
      destruct (get_item obj (idx nm) s1) as [x sx| |]; [|done..].
      destruct (get_item obj (idx nr) sx) as [y sy| |]; [|done..].
      by rewrite Hrun.
    + split; [|split; [|split]; congruence].
      eapply tree_untouched_trans; [|exact Ht2]. by split.
  - exists s1. split; [done|]. split; [by split|done].
Qed.

(** The insertion [sort_point] makes between two neighbouring pivots. *)
Lemma insert_between_spec (s : state) (t : tree) (xs ys : list (ptr * (Z * Z)))
    (l r : ptr) (il fl ir fr rc : Z) :
  holds_tree obj s t -> bst t -> fresh_above obj s ->
  inorder t = xs ++ (l, (il, fl)) :: (r, (ir, fr)) :: ys ->
  il < rc < ir ->
  exists s' t',
    insert_between obj rand_at rc (Some l) (Some r) s
      = Done (Some (brk obj s)) s' /\
    holds_tree obj s' t' /\ bst t' /\ fresh_above obj s' /\
    inorder t' = xs ++ (l, (il, fl)) :: (brk obj s, (rc, UNSORTED))
                    :: (r, (ir, fr)) :: ys /\
    ob_item obj s' = ob_item obj s /\ pyerr obj s' = pyerr obj s.
Proof.
  intros Ht Hs Hfresh Hin Hrc.
  destruct (holds_tree_lookup s t l il fl Ht) as (nl & Hnl & Hil & _).
  { rewrite Hin. apply elem_of_app. right. apply elem_of_cons. by left. }
  pose proof Hs as Hs'. unfold bst, keys in Hs'. rewrite Hin in Hs'.
  destruct (neighbours_split xs ys (l, (il, fl)) (r, (ir, fr)) rc Hs' Hrc)
    as (Hbelow & Habove & Hnot).
  assert (rc ∉ keys t) as Hk by (unfold keys; by rewrite Hin).
  destruct (holds_tree_insert_pivot rc UNSORTED s t Ht Hk)
    as (s' & Hrun & Ht' & Hitems & _ & _ & _ & Herr).
  exists s', (insert_tree rc UNSORTED (brk obj s) (rand_at (rnd obj s)) t).
  split.
  - unfold insert_between. rewrite (bind_run _ _ _ _ _ (deref_run l nl s Hnl)).
    rewrite <- Hrun.
    rewrite <- (insert_pivot_from_hint rc UNSORTED s s l r nl
                  (bound_idx_between rc s t xs ys l r il fl ir fr Ht Hs Hin Hrc)
                  Hnl ltac:(lia) (Hfresh _ (Pos.le_refl _))).
    unfold hint_of. by destruct (node_right nl).
  - split; [done|]. split; [by apply insert_tree_bst|]. split.
    + eapply keeps_fresh_insert_pivot; [exact Hfresh|exact Hrun].
    + split; [|done]. rewrite (insert_tree_inorder _ _ _ _ t Hs Hk).
      rewrite Hin, Hbelow, Habove. by rewrite <- app_assoc.
Qed.


(** ** The quickselect loop of [sort_point] *)

Lemma elem_of_mid {A} (xs ys : list A) (x : A) : x ∈ xs ++ x :: ys.
Proof. apply elem_of_app. right. apply elem_of_cons. by left. Qed.

Lemma elem_of_mid2 {A} (xs ys : list A) (x y : A) : y ∈ xs ++ x :: y :: ys.
Proof.
  apply elem_of_app. right. apply elem_of_cons. right. apply elem_of_cons.
  by left.
Qed.

Lemma fresh_above_untouched (s s' : state) :
  tree_untouched obj s s' -> fresh_above obj s -> fresh_above obj s'.
Proof. intros (_ & Hm & Hb) Hf q. rewrite Hm, Hb. apply Hf. Qed.

(** C7.  A search tree held by the store, an index [k] strictly between
    two neighbouring pivots [left] and [right] of it (the pivots [bound_idx]
    returns for [k]), and an allocator that hands out an address not in use.
    The insertion [sort_point] and [find_item] perform, starting the descent
    at [left] when [left] has no right child and at [right] otherwise, is
    the insertion that starts at the root: the same outcome and the same
    state.  Both return the new node and leave the search tree made of the
    old pivots and the new one, between [left] and [right]. *)
Theorem insert_between_is_insert_from_root (k : Z) (s : state) (t : tree)
    (xs ys : list (ptr * (Z * Z))) (l r : ptr) (il fl ir fr : Z) :
  holds_tree obj s t -> bst t -> mem obj s !! brk obj s = None ->
  inorder t = xs ++ (l, (il, fl)) :: (r, (ir, fr)) :: ys ->
  il < k < ir ->
  bound_idx obj k (root obj s) s = Done (Some l, Some r) s /\
  insert_between obj rand_at k (Some l) (Some r) s
    = insert_pivot obj rand_at k UNSORTED (root obj s) s /\
  exists s' t',
    insert_pivot obj rand_at k UNSORTED (root obj s) s
      = Done (Some (brk obj s)) s' /\
    holds_tree obj s' t' /\ bst t' /\
    inorder t' = xs ++ (l, (il, fl)) :: (brk obj s, (k, UNSORTED))
                    :: (r, (ir, fr)) :: ys.
Proof.
  intros Ht Hs Hfree Hin Hk.
  pose proof (bound_idx_between k s t xs ys l r il fl ir fr Ht Hs Hin Hk) as Hb.
  destruct (holds_tree_lookup s t l il fl Ht) as (nl & Hnl & Hil & _).
  { rewrite Hin. apply elem_of_mid. }
  pose proof Hs as Hs'. unfold bst, keys in Hs'. rewrite Hin in Hs'.
  destruct (neighbours_split xs ys (l, (il, fl)) (r, (ir, fr)) k Hs' Hk)
    as (Hbelow & Habove & Hnot).
  assert (k ∉ keys t) as Hkt by (unfold keys; by rewrite Hin).
  destruct (holds_tree_insert_pivot k UNSORTED s t Ht Hkt)
    as (s' & Hrun & Ht' & _).
  split; [done|]. split.
  - rewrite <- (insert_pivot_from_hint k UNSORTED s s l r nl Hb Hnl
                  ltac:(lia) Hfree).
    unfold insert_between, bind at 1. rewrite (deref_run l nl s Hnl).
    unfold hint_of. by destruct (node_right nl).
  - exists s', (insert_tree k UNSORTED (brk obj s) (rand_at (rnd obj s)) t).
    split; [done|]. split; [done|]. split; [by apply insert_tree_bst|].
    rewrite (insert_tree_inorder _ _ _ _ t Hs Hkt).
    rewrite Hin, Hbelow, Habove. by rewrite <- app_assoc.
Qed.

(** One round of the loop on a region of at least SORT_THRESH items: the
    partition finds its pivot, the pivot enters the tree between the two
    neighbours, and [uniq_pivots] removes nothing. *)
Lemma quickselect_round (s : state) (t : tree) (xs ys : list (ptr * (Z * Z)))
    (l r : ptr) (il fl ir fr : Z) :
  1 <= SORT_THRESH ->
  lazy_inv obj RichCompare_LT s t -> NoDup (key <$> ob_item obj s) ->
  inorder t = xs ++ (l, (il, fl)) :: (r, (ir, fr)) :: ys ->
  il + 1 + SORT_THRESH <= ir ->
  has_flag fr SORTED_RIGHT = false ->
  exists rc s1 n s2 s3 t',
    partition obj RichCompare_LT rand_at (il + 1) ir s = Done rc s1 /\
    il < rc < ir /\
    insert_between obj rand_at rc (Some l) (Some r) s1 = Done (Some n) s2 /\
    uniq_pivots obj RichCompare_EQ (Some l) (Some n) (Some r) s2 = Done 0 s3 /\
    lazy_inv obj RichCompare_LT s3 t' /\
    inorder t' = xs ++ (l, (il, fl)) :: (n, (rc, UNSORTED)) :: (r, (ir, fr)) :: ys /\
    ob_item obj s3 ≡ₚ ob_item obj s /\ pyerr obj s3 = pyerr obj s.
Proof.
  intros HT (Ht & Hs & Hfresh & Hinv) Hnd Hin Hbig Hfr.
  pose proof Hs as Hs'. unfold bst, keys in Hs'. rewrite Hin in Hs', Hinv.
  destruct (pivots_outside_shuffled _ _ xs ys _ _ Hinv Hs'
              (shuffled_refl _ _ _)) as (Hos & _ & _ & Hlo & Hhi).
  simpl in Hlo, Hhi.
  assert (order_statistic (ob_item obj s) il /\ order_statistic (ob_item obj s) ir)
    as [Hosl Hosr].
  { rewrite Forall_forall in Hos. split.
    - apply (Hos (l, (il, fl))), elem_of_mid.
    - apply (Hos (r, (ir, fr))), elem_of_mid2. }
  destruct (partition_run (il + 1) ir s LT_nonneg ltac:(lia) Hhi)
    as (rc & s1 & Hrun1 & Hne).
  destruct (partition_post (il + 1) ir rc s s1 ltac:(lia) Hrun1 Hne)
    as (Hrc & Hsh & Hun & (pivot & Hpiv & Hbef & Haft) & _ & _).
  pose proof (order_statistic_partition _ _ il ir rc pivot Hsh Hosl Hosr
                ltac:(lia) Hpiv Hbef Haft) as Hosrc.
  pose proof (holds_tree_untouched s s1 t Hun Ht) as Ht1.
  pose proof (fresh_above_untouched s s1 Hun Hfresh) as Hfresh1.
  destruct (insert_between_spec s1 t xs ys l r il fl ir fr rc Ht1 Hs Hfresh1
              Hin ltac:(lia))
    as (s2 & t2 & Hrun2 & Ht2 & Hs2 & Hfresh2 & Hin2 & Hitems2 & Herr2).
  pose proof (keeps_err_partition _ _ _ _ _ Hrun1) as Herr1.
  destruct (holds_tree_lookup s2 t2 l il fl Ht2) as (nl & Hnl & Hil & _).
  { rewrite Hin2. apply elem_of_mid. }
  destruct (holds_tree_lookup s2 t2 (brk obj s1) rc UNSORTED Ht2)
    as (nn & Hnn & Hin' & _).
  { rewrite Hin2. apply elem_of_mid2. }
  destruct (holds_tree_lookup s2 t2 r ir fr Ht2) as (nr & Hnr & Hir & _).
  { rewrite Hin2. apply elem_of_app. right. do 2 (apply elem_of_cons; right).
    apply elem_of_cons. by left. }
  pose proof Hsh as (_ & Hperm & _).
  assert (length (ob_item obj s1) = length (ob_item obj s)) as Hlen
    by (by apply Permutation_length).
  destruct (uniq_pivots_distinct s2 l (brk obj s1) r nl nn nr Hnl Hnn Hnr)
    as (s3 & Hrun3 & Hun3 & Hitems3 & _ & Herr3).
  { lia. } { lia. }
  { unfold Py_SIZE. rewrite Hitems2, Hlen. lia. }
  { rewrite Hitems2.
    assert (key <$> ob_item obj s1 ≡ₚ key <$> ob_item obj s) as ->
      by (by apply fmap_Permutation).
    exact Hnd. }
  exists rc, s1, (brk obj s1), s2, s3, t2.
  split; [done|]. split; [lia|]. split; [done|]. split; [done|].
  split; [|split; [done|split; [by rewrite Hitems3, Hitems2|congruence]]].
  split; [by apply (holds_tree_untouched s2 s3)|]. split; [done|].
  split; [by apply (fresh_above_untouched s2 s3)|].
  rewrite Hitems3, Hitems2, Hin2.
  by apply (pivots_inv_insert (ob_item obj s) (ob_item obj s1) xs ys
              (l, (il, fl)) (r, (ir, fr))).
Qed.


(** The loop ends, and when it ends the invariant holds, the list is a
    permutation of what it was, and either [k] is a pivot or [k] lies
    between two neighbouring pivots. *)
Lemma quickselect_spec (k : Z) :
  1 <= SORT_THRESH ->
  forall (fuel : nat) (s : state) (t : tree) (xs ys : list (ptr * (Z * Z)))
         (l r : ptr) (il fl ir fr : Z),
    lazy_inv obj RichCompare_LT s t -> NoDup (key <$> ob_item obj s) ->
    inorder t = xs ++ (l, (il, fl)) :: (r, (ir, fr)) :: ys ->
    il < k < ir -> has_flag fr SORTED_RIGHT = false ->
    (Z.to_nat (ir - il - 1) < fuel)%nat ->
    exists s' t' q,
      quickselect obj RichCompare_LT RichCompare_EQ rand_at SORT_THRESH
        fuel k (Some l) (Some r) s = Done q s' /\
      lazy_inv obj RichCompare_LT s' t' /\
      ob_item obj s' ≡ₚ ob_item obj s /\ pyerr obj s' = pyerr obj s /\
      match q with
      | inl rc => rc = 0 /\ k ∈ keys t'
      | inr lr =>
          exists xs' ys' l' r' il' fl' ir' fr',
            lr = (Some l', Some r') /\
            inorder t' = xs' ++ (l', (il', fl')) :: (r', (ir', fr')) :: ys' /\
            il' < k < ir' /\ has_flag fr' SORTED_RIGHT = false
      end.
Proof.
  intros HT.
  induction fuel as [|fuel IH];
    intros s t xs ys l r il fl ir fr Hinv Hnd Hin Hk Hfr Hfuel; [lia|].
  pose proof Hinv as (Ht & Hs & _).
  destruct (holds_tree_lookup s t l il fl Ht) as (nl & Hnl & Hil & _).
  { rewrite Hin. apply elem_of_mid. }
  destruct (holds_tree_lookup s t r ir fr Ht) as (nr & Hnr & Hir & _).
  { rewrite Hin. apply elem_of_mid2. }
  simpl.
  rewrite (bind_run _ _ _ _ _ (deref_run l nl s Hnl)).
  rewrite (bind_run _ _ _ _ _ (deref_run r nr s Hnr)).
  rewrite Hil, Hir.
  destruct (Z.leb_spec (il + 1 + SORT_THRESH) ir) as [Hbig|Hsmall].
  - destruct (quickselect_round s t xs ys l r il fl ir fr HT Hinv Hnd Hin
                Hbig Hfr)
      as (rc & s1 & n & s2 & s3 & t' & Hrun1 & Hrc & Hrun2 & Hrun3 & Hinv3
          & Hin3 & Hperm3 & Herr3).
    assert (NoDup (key <$> ob_item obj s3)) as Hnd3.
    { assert (key <$> ob_item obj s3 ≡ₚ key <$> ob_item obj s) as ->
        by (by apply fmap_Permutation).
      exact Hnd. }
    rewrite (bind_run _ _ _ _ _ Hrun1).
    destruct (Z.ltb_spec rc k) as [Hlt|Hge].
    + rewrite (bind_run _ _ _ _ _ Hrun2), (bind_run _ _ _ _ _ Hrun3).
      cbn [Z.ltb Z.compare].
      destruct (IH s3 t' (xs ++ [(l, (il, fl))]) ys n r rc UNSORTED ir fr
                  Hinv3 Hnd3)
        as (s' & t'' & q & Hrun & Hinv' & Hperm' & Herr' & Hq);
        [by rewrite Hin3, <- app_assoc|lia|done|lia|].
      exists s', t'', q. split; [done|]. split; [done|].
      split; [by rewrite Hperm'|]. split; [congruence|done].
    + destruct (Z.gtb_spec rc k) as [Hgt|Hle].
      * rewrite (bind_run _ _ _ _ _ Hrun2), (bind_run _ _ _ _ _ Hrun3).
        cbn [Z.ltb Z.compare].
        destruct (IH s3 t' xs ((r, (ir, fr)) :: ys) l n il fl rc UNSORTED
                    Hinv3 Hnd3)
          as (s' & t'' & q & Hrun & Hinv' & Hperm' & Herr' & Hq);
          [done|lia|done|lia|].
        exists s', t'', q. split; [done|]. split; [done|].
        split; [by rewrite Hperm'|]. split; [congruence|done].
      * rewrite (bind_run _ _ _ _ _ Hrun2), (bind_run _ _ _ _ _ Hrun3).
        cbn [Z.ltb Z.compare].
        exists s3, t', (inl 0). split; [done|]. split; [done|].
        split; [done|]. split; [done|]. split; [done|].
        unfold keys. rewrite Hin3. apply list_elem_of_fmap.
        exists (n, (rc, UNSORTED)). split; [simpl; lia|apply elem_of_mid2].
  - exists s, t, (inr (Some l, Some r)). split; [done|]. split; [done|].
    split; [done|]. split; [done|]. by exists xs, ys, l, r, il, fl, ir, fr.
Qed.


(** ** Regions marked sorted *)

Lemma adjacent_delete {A} (p x y : A) :
  forall xs ys xs' ys' : list A,
    xs ++ ys = xs' ++ x :: y :: ys' ->
    (exists us vs, xs ++ p :: ys = us ++ x :: y :: vs) \/
    (exists xs0 ys0, xs = xs0 ++ [x] /\ ys = y :: ys0).
Proof.
  induction xs as [|a xs IH]; intros ys xs' ys' Heq.
  - left. exists (p :: xs'), ys'. simpl in Heq |- *. by rewrite Heq.
  - destruct xs' as [|b xs''].
    + simpl in Heq. injection Heq as -> Heq.
      destruct xs as [|c xs1].
      * right. exists [], ys'. by simpl in Heq |- *.
      * simpl in Heq. injection Heq as -> Heq.
        left. exists [], (xs1 ++ p :: ys). done.
    + simpl in Heq. injection Heq as -> Heq.
      destruct (IH ys xs'' ys' Heq) as [(us & vs & Hold)|(xs0 & ys0 & -> & ->)].
      * left. exists (b :: us), vs. simpl. by rewrite Hold.
      * right. by exists (b :: xs0), ys0.
Qed.

(** Removing a pivot with SORTED_LEFT keeps the regions around [k] marked:
    its right neighbour has SORTED_RIGHT. *)
Lemma flagged_around_delete (a : list obj) (xs ys : list (ptr * (Z * Z)))
    (p : ptr * (Z * Z)) (k : Z) :
  pairs_ok obj RichCompare_LT a (xs ++ p :: ys) ->
  has_flag p.2.2 SORTED_LEFT = true ->
  flagged_around (xs ++ p :: ys) k -> flagged_around (xs ++ ys) k.
Proof.
  intros Hpairs Hsl Hq xs' ys' x y Heq Hk.
  destruct (adjacent_delete p x y xs ys xs' ys' Heq)
    as [(us & vs & Hold)|(xs0 & ys0 & -> & ->)].
  - by apply (Hq us vs x y Hold).
  - apply pairs_ok_app in Hpairs as [_ Hp]. simpl in Hp.
    destruct Hp as [[Hflag _] _]. by rewrite <- Hflag.
Qed.

Lemma flagged_around_gap (xs ys : list (ptr * (Z * Z))) (l r : ptr * (Z * Z))
    (k : Z) :
  StronglySorted Z.lt ((fun x => x.2.1) <$> (xs ++ l :: r :: ys)) ->
  l.2.1 < k < r.2.1 -> has_flag r.2.2 SORTED_RIGHT = true ->
  flagged_around (xs ++ l :: r :: ys) k.
Proof.
  intros Hs Hk Hf xs' ys' x y Heq Hk'.
  destruct (neighbours_split xs ys l r k Hs Hk) as (_ & Habove & _).
  rewrite Heq in Hs, Habove.
  destruct (neighbours_split xs' ys' x y k Hs Hk') as (_ & Habove' & _).
  rewrite Habove' in Habove. by injection Habove as ->.
Qed.

(** ** The end of [sort_point] under the invariant *)

Lemma has_flag_lor_same (f a : Z) : a <> 0 -> has_flag (Z.lor f a) a = true.
Proof.
  intros Ha. unfold has_flag.
  rewrite Z.land_lor_distr_l, Z.land_diag.
  destruct (Z.eqb_spec (Z.lor (Z.land f a) a) 0) as [H0|_]; [|done].
  apply Z.lor_eq_0_iff in H0. lia.
Qed.

(** Deleting a pivot with both flags keeps the invariant. *)
Lemma delete_node_inv (s : state) (t : tree) (xs ys : list (ptr * (Z * Z)))
    (p : ptr) (i f : Z) :
  lazy_inv obj RichCompare_LT s t ->
  inorder t = xs ++ (p, (i, f)) :: ys ->
  has_flag f SORTED_LEFT = true -> has_flag f SORTED_RIGHT = true ->
  exists s' t',
    delete_node obj (Some p) s = Done tt s' /\
    lazy_inv obj RichCompare_LT s' t' /\
    inorder t' = xs ++ ys /\ ob_item obj s' = ob_item obj s /\
    pyerr obj s' = pyerr obj s.
Proof.
  intros (Ht & Hs & Hfresh & Hinv) Hin Hsl Hsr.
  destruct (delete_node_tree s t xs ys p (i, f) Ht Hin)
    as (s' & t' & Hrun & Ht' & Hin' & (Hitems & _ & _ & _ & Herr) & _).
  exists s', t'. split; [done|]. split; [|done].
  split; [done|]. split; [|split].
  - unfold bst, keys in Hs |- *. rewrite Hin in Hs. rewrite Hin'.
    rewrite fmap_app in Hs |- *. rewrite fmap_cons in Hs.
    by apply sorted_remove in Hs.
  - eapply keeps_fresh_delete_node; [exact Hfresh|exact Hrun].
  - rewrite Hitems, Hin'. rewrite Hin in Hinv.
    by apply (pivots_inv_delete _ xs ys (p, (i, f))).
Qed.

(** The end of [sort_point] between two neighbouring pivots: the region is
    sorted, every index of it becomes an order statistic, and the invariant
    holds again after [depivot]. *)
Lemma finish_region_inv (s : state) (t : tree) (xs ys : list (ptr * (Z * Z)))
    (l r : ptr) (il fl ir fr : Z) :
  lazy_inv obj RichCompare_LT s t ->
  inorder t = xs ++ (l, (il, fl)) :: (r, (ir, fr)) :: ys ->
  exists s' t',
    finish_region obj RichCompare_LT (Some l) (Some r) s = Done tt s' /\
    lazy_inv obj RichCompare_LT s' t' /\
    ob_item obj s' ≡ₚ ob_item obj s /\
    (forall k, il < k < ir -> order_statistic (ob_item obj s') k) /\
    pyerr obj s' = pyerr obj s /\
    (forall k, il < k < ir -> flagged_around (inorder t') k).
Proof.
  intros (Ht & Hs & Hfresh & Hinv) Hin.
  pose proof Hs as Hs'. unfold bst, keys in Hs'. rewrite Hin in Hs', Hinv.
  destruct (pivots_outside_shuffled _ _ xs ys _ _ Hinv Hs'
              (shuffled_refl _ _ _)) as (Hos & _ & _ & Hlo & Hhi).
  simpl in Hlo, Hhi.
  assert (order_statistic (ob_item obj s) il) as Hosl.
  { rewrite Forall_forall in Hos. apply (Hos (l, (il, fl))), elem_of_mid. }
  assert ((l, (il, fl)) ∈ inorder t) as Hl by (rewrite Hin; apply elem_of_mid).
  assert ((r, (ir, fr)) ∈ inorder t) as Hr by (rewrite Hin; apply elem_of_mid2).
  destruct (holds_tree_lookup s t l il fl Ht Hl) as (nl & Hnl & Hil' & Hfl').
  destruct (holds_tree_lookup s t r ir fr Ht Hr) as (nr & Hnr & Hir' & Hfr').
  unfold finish_region.
  rewrite (bind_run _ _ _ _ _ (deref_run l nl s Hnl)).
  rewrite (bind_run _ _ _ _ _ (deref_run r nr s Hnr)).
  rewrite Hil', Hir'.
  destruct (insertion_sort_post s (il + 1) ir ltac:(lia) Hhi
              (bounded_below_order_statistic _ il ir Hosl))
    as (s1 & Hrun & Hsh & Hsorted & Hun & _).
  rewrite (bind_run _ _ _ _ _ Hrun).
  pose proof (holds_tree_untouched s s1 t Hun Ht) as Ht1.
  pose proof (fresh_above_untouched s s1 Hun Hfresh) as Hfresh1.
  destruct (holds_tree_lookup s1 t l il fl Ht1 Hl) as (nl1 & Hnl1 & _ & Hfl1).
  rewrite (bind_run _ _ _ _ _ (deref_run l nl1 s1 Hnl1)). rewrite Hfl1.
  destruct (set_flags_tree s1 t l (Z.lor fl SORTED_LEFT) xs
              ((r, (ir, fr)) :: ys) il fl Ht1 Hin)
    as (s2 & t2 & Hrun2 & Ht2 & Hin2 & Hsl2 & _).
  rewrite (bind_run _ _ _ _ _ Hrun2).
  assert (fresh_above obj s2) as Hfresh2.
  { eapply keeps_fresh_update; [exact Hfresh1|exact Hrun2]. }
  assert ((r, (ir, fr)) ∈ inorder t2) as Hr2
    by (rewrite Hin2; apply elem_of_mid2).
  destruct (holds_tree_lookup s2 t2 r ir fr Ht2 Hr2) as (nr2 & Hnr2 & _ & Hfr2).
  rewrite (bind_run _ _ _ _ _ (deref_run r nr2 s2 Hnr2)). rewrite Hfr2.
  destruct (set_flags_tree s2 t2 r (Z.lor fr SORTED_RIGHT)
              (xs ++ [(l, (il, Z.lor fl SORTED_LEFT))]) ys ir fr Ht2)
    as (s3 & t3 & Hrun3 & Ht3 & Hin3 & Hsl3 & _).
  { by rewrite <- app_assoc. }
  rewrite <- app_assoc in Hin3. simpl in Hin3.
  rewrite (bind_run _ _ _ _ _ Hrun3).
  assert (fresh_above obj s3) as Hfresh3.
  { eapply keeps_fresh_update; [exact Hfresh2|exact Hrun3]. }
  pose proof (keeps_err_insertion_sort _ _ _ _ _ Hrun) as Herr1.
  destruct Hsl2 as (Hi2 & _ & _ & _ & Herr2), Hsl3 as (Hi3 & _ & _ & _ & Herr3').
  assert (pyerr obj s3 = pyerr obj s) as Herr3 by congruence.
  assert (ob_item obj s3 = ob_item obj s1) as Hitems3 by congruence.
  destruct (pivots_outside_shuffled _ _ xs ys _ _ Hinv Hs' Hsh)
    as (Hos1 & _).
  assert (lazy_inv obj RichCompare_LT s3 t3) as Hinv3.
  { split; [done|]. split; [|split; [done|]].
    - unfold bst, keys. rewrite Hin3.
      by rewrite fmap_app, !fmap_cons in Hs' |- *.
    - rewrite Hitems3, Hin3.
      by apply (pivots_inv_sorted (ob_item obj s) (ob_item obj s1)). }
  assert (forall k, il < k < ir -> order_statistic (ob_item obj s3) k) as Hk.
  { intros k Hk. rewrite Hitems3.
    rewrite Forall_forall in Hos1.
    apply (order_statistic_in_region _ il ir k Hsorted); [| |done].
    - apply (Hos1 (l, (il, fl))), elem_of_mid.
    - apply (Hos1 (r, (ir, fr))), elem_of_mid2. }
  assert (ob_item obj s3 ≡ₚ ob_item obj s) as Hperm3.
  { rewrite Hitems3. by destruct Hsh as (_ & Hp & _). }
  assert (forall k, il < k < ir -> flagged_around (inorder t3) k) as Hq3.
  { intros k Hk'. rewrite Hin3. apply flagged_around_gap; [|done|].
    - by rewrite fmap_app, !fmap_cons in Hs' |- *.
    - by apply has_flag_lor_same. }
  clear Hrun Hrun2 Hrun3 Ht Ht1 Ht2 Hfresh Hfresh1 Hfresh2 Hinv Hos Hos1 Hosl.
  unfold depivot.
  destruct (holds_tree_lookup s3 t3 l il (Z.lor fl SORTED_LEFT) Ht3)
    as (nl3 & Hnl3 & _ & Hfl3).
  { rewrite Hin3. apply elem_of_mid. }
  rewrite (bind_run _ _ _ _ _ (deref_run l nl3 s3 Hnl3)). rewrite Hfl3.
  assert (exists s4 t4 xs4,
    (if has_flag (Z.lor fl SORTED_LEFT) SORTED_RIGHT
     then delete_node obj (Some l) else ret tt) s3 = Done tt s4 /\
    lazy_inv obj RichCompare_LT s4 t4 /\
    inorder t4 = xs4 ++ (r, (ir, Z.lor fr SORTED_RIGHT)) :: ys /\
    ob_item obj s4 = ob_item obj s3 /\ pyerr obj s4 = pyerr obj s3 /\
    (forall k, il < k < ir -> flagged_around (inorder t4) k))
    as (s4 & t4 & xs4 & Hrun4 & Hinv4 & Hin4 & Hitems4 & Herr4 & Hq4).
  { destruct (has_flag (Z.lor fl SORTED_LEFT) SORTED_RIGHT) eqn:E.
    - destruct (delete_node_inv s3 t3 xs _ l il _ Hinv3 Hin3
                  (has_flag_lor_same fl SORTED_LEFT ltac:(done)) E)
        as (s4 & t4 & Hrun4 & Hinv4 & Hin4 & Hitems4 & Herr4).
      exists s4, t4, xs. split; [done|]. split; [done|]. split; [done|].
      split; [done|]. split; [done|]. intros k Hk'. rewrite Hin4.
      destruct Hinv3 as (_ & _ & _ & _ & _ & _ & Hpairs3).
      rewrite Hin3 in Hpairs3.
      apply (flagged_around_delete _ _ _ _ k Hpairs3);
        [by apply has_flag_lor_same|].
      rewrite <- Hin3. by apply Hq3.
    - exists s3, t3, (xs ++ [(l, (il, Z.lor fl SORTED_LEFT))]).
      split; [done|]. split; [done|]. split; [|done].
      by rewrite <- app_assoc. }
  rewrite (bind_run _ _ _ _ _ Hrun4).
  pose proof Hinv4 as (Ht4 & _).
  destruct (holds_tree_lookup s4 t4 r ir (Z.lor fr SORTED_RIGHT) Ht4)
    as (nr4 & Hnr4 & _ & Hfr4).
  { rewrite Hin4. apply elem_of_mid. }
  rewrite (bind_run _ _ _ _ _ (deref_run r nr4 s4 Hnr4)). rewrite Hfr4.
  destruct (has_flag (Z.lor fr SORTED_RIGHT) SORTED_LEFT) eqn:E.
  - destruct (delete_node_inv s4 t4 xs4 ys r ir _ Hinv4 Hin4 E
                (has_flag_lor_same fr SORTED_RIGHT ltac:(done)))
      as (s5 & t5 & Hrun5 & Hinv5 & Hin5 & Hitems5 & Herr5).
    exists s5, t5. split; [done|]. split; [done|].
    rewrite Hitems5, Hitems4. split; [done|]. split; [done|].
    split; [congruence|]. intros k Hk'. rewrite Hin5.
    destruct Hinv4 as (_ & _ & _ & _ & _ & _ & Hpairs4).
    rewrite Hin4 in Hpairs4.
    apply (flagged_around_delete _ _ _ _ k Hpairs4); [done|].
    rewrite <- Hin4. by apply Hq4.
  - exists s4, t4. split; [done|]. split; [done|].
    rewrite Hitems4. split; [done|]. split; [done|]. split; [congruence|done].
Qed.


(** ** [sort_point] under the invariant *)

Lemma sort_point_inv (k : Z) (s : state) (t : tree) :
  1 <= SORT_THRESH ->
  lazy_inv obj RichCompare_LT s t -> NoDup (key <$> ob_item obj s) ->
  0 <= k < Py_SIZE obj s ->
  exists s' t',
    sort_point obj RichCompare_LT RichCompare_EQ rand_at SORT_THRESH k s
      = Done 0 s' /\
    lazy_inv obj RichCompare_LT s' t' /\
    ob_item obj s' ≡ₚ ob_item obj s /\
    order_statistic (ob_item obj s') k /\
    pyerr obj s' = pyerr obj s /\
    (k ∈ keys t' \/ flagged_around (inorder t') k).
Proof.
  intros HT Hinv Hnd Hk. pose proof Hinv as (Ht & Hs & Hfresh & Hpiv).
  destruct (decide (k ∈ keys t)) as [Hin|Hnot].
  { pose proof Hin as Hkey.
    unfold keys in Hin. apply list_elem_of_fmap in Hin as ([p [i f]] & Heq & Hin).
    simpl in Heq. subst i. exists s, t.
    split; [by apply (sort_point_pivot_run k s t p f)|]. split; [done|].
    split; [done|]. split; [|by split; [|left]]. destruct Hpiv as (_ & _ & Hos & _).
    rewrite Forall_forall in Hos. apply (Hos _ Hin). }
  pose proof Hpiv as ((p0 & f0 & Hhead & Hf0) & (pN & fN & Hlast & HfN) & Hos
                      & Hpairs).
  destruct (inorder t) as [|x ps] eqn:Hin; [done|].
  simpl in Hhead. injection Hhead as ->.
  destruct (pivots_neighbours k ps _ _ Hlast) as (xs & [l [il fl]] & [r [ir fr]] & ys & Heq & Hlr).
  { simpl. unfold Py_SIZE in Hk. lia. }
  { unfold keys in Hnot. by rewrite Hin in Hnot. }
  simpl in Hlr. rewrite Heq in Hin, Hos, Hpairs, Hpiv. clear Heq Hlast.
  destruct (holds_tree_lookup s t l il fl Ht) as (nl & Hnl & Hil & _).
  { rewrite Hin. apply elem_of_mid. }
  destruct (holds_tree_lookup s t r ir fr Ht) as (nr & Hnr & Hir & Hfr).
  { rewrite Hin. apply elem_of_mid2. }
  unfold sort_point, bind at 1, get_root.
  rewrite (bind_run _ _ _ _ _ (bound_idx_between k s t xs ys l r il fl ir fr
                                 Ht Hs Hin Hlr)). simpl fst. simpl snd.
  rewrite (bind_run _ _ _ _ _ (deref_run l nl s Hnl)).
  destruct (Z.eqb_spec (idx nl) k) as [Heq|_]; [lia|].
  rewrite (bind_run _ _ _ _ _ (deref_run r nr s Hnr)). rewrite Hfr.
  pose proof Hs as Hs'. unfold bst, keys in Hs'. rewrite Hin in Hs'.
  destruct (has_flag fr SORTED_RIGHT) eqn:Hsr.
  { exists s, t. split; [done|]. split; [done|]. split; [done|].
    split; [|split; [done|right; rewrite Hin; by apply flagged_around_gap]].
    apply pairs_ok_app in Hpairs as [_ Hp]. simpl in Hp.
    destruct Hp as [[_ Hsorted] _]. simpl in Hsorted.
    rewrite Forall_forall in Hos.
    apply (order_statistic_in_region _ il ir k (Hsorted Hsr)); [| |done].
    - apply (Hos (l, (il, fl))), elem_of_mid.
    - apply (Hos (r, (ir, fr))), elem_of_mid2. }
  unfold bind at 1, select_fuel.
  destruct (pivots_outside_shuffled _ _ xs ys _ _ Hpiv Hs'
              (shuffled_refl _ _ _)) as (_ & _ & _ & Hlo & Hhi).
  simpl in Hlo, Hhi.
  destruct (quickselect_spec k HT (S (length (ob_item obj s))) s t xs ys l r
              il fl ir fr Hinv Hnd Hin Hlr Hsr ltac:(lia))
    as (s1 & t1 & q & Hrun1 & Hinv1 & Hperm1 & Herr1 & Hq).
  rewrite (bind_run _ _ _ _ _ Hrun1).
  destruct q as [rc|lr].
  - destruct Hq as [-> Hin1]. exists s1, t1. split; [done|]. split; [done|].
    split; [done|]. split; [|by split; [|left]].
    unfold keys in Hin1.
    apply list_elem_of_fmap in Hin1 as ([p [i f]] & Heq & Hin1).
    simpl in Heq. subst i. destruct Hinv1 as (_ & _ & _ & _ & _ & Hos1 & _).
    rewrite Forall_forall in Hos1. apply (Hos1 _ Hin1).
  - destruct Hq as (xs' & ys' & l' & r' & il' & fl' & ir' & fr' & -> & Hin1
                    & Hlr' & _).
    simpl fst. simpl snd.
    destruct (finish_region_inv s1 t1 xs' ys' l' r' il' fl' ir' fr' Hinv1 Hin1)
      as (s2 & t2 & Hrun2 & Hinv2 & Hperm2 & Hos2 & Herr2 & Hq2).
    rewrite (bind_run _ _ _ _ _ Hrun2).
    exists s2, t2. split; [done|]. split; [done|].
    split; [by rewrite Hperm2|]. split; [by apply Hos2|].
    split; [congruence|]. right. by apply Hq2.
Qed.


(** ** The invariant of a new object *)

Lemma keeps_fresh_LS_new (l : list obj) : keeps_fresh (LS_new obj rand_at l).
Proof.
  unfold LS_new.
  assert (keeps_fresh (set_list obj l)) as Hset.
  { apply keeps_fresh_read. by intros s a s' [= _ <-]. }
  assert (keeps_fresh (get_size obj)) as Hsize.
  { apply keeps_fresh_read. by intros s a s' [= _ <-]. }
  apply keeps_fresh_bind; [apply keeps_fresh_get_root|intros rt].
  apply keeps_fresh_bind; [apply keeps_fresh_insert_pivot|intros [a|]];
    [|apply keeps_fresh_ret].
  apply keeps_fresh_bind; [exact Hset|intros _].
  apply keeps_fresh_bind; [exact Hsize|intros n].
  apply keeps_fresh_bind; [apply keeps_fresh_get_root|intros rt'].
  apply keeps_fresh_bind; [apply keeps_fresh_insert_pivot|intros [b|]];
    apply keeps_fresh_ret.
Qed.

Lemma LS_new_inv (l : list obj) :
  exists s t,
    LS_new obj rand_at l (fresh obj) = Done true s /\ ob_item obj s = l /\
    lazy_inv obj RichCompare_LT s t.
Proof.
  destruct (LS_new_run l) as (s & t & Hrun & Hitems & Ht & Hs & Hin & _).
  exists s, t. split; [done|]. split; [done|]. split; [done|].
  split; [done|]. split.
  - eapply (keeps_fresh_LS_new l); [|exact Hrun]. intros q _. apply lookup_empty.
  - rewrite Hin, Hitems. split; [by exists 1%positive, UNSORTED|].
    split; [by exists 2%positive, UNSORTED|]. split.
    + apply Forall_cons. split; [|apply Forall_cons; split; [|constructor]];
        intros x Hx%item_at_Some; simpl in Hx; lia.
    + simpl. split; [|done]. split; [done|]. intros Hf. discriminate Hf.
Qed.


(** ** What a subscript returns *)

(** In a list without equal keys, the item at an order statistic [p] has
    exactly [p] items with a smaller key. *)
Lemma order_statistic_rank (a : list obj) (p : Z) (x : obj) :
  NoDup (key <$> a) -> order_statistic a p -> item_at obj a p = Some x ->
  length (filter (fun y => key y < key x) a) = Z.to_nat p.
Proof.
  intros Hnd Hos Hx. destruct (Hos x Hx) as [Hbefore Hafter].
  pose proof Hx as Hx'. unfold item_at in Hx'.
  destruct (Z.ltb_spec p 0) as [|Hp]; [done|].
  pose proof (lookup_lt_Some _ _ _ Hx') as Hlen.
  rewrite <- (take_drop_middle a (Z.to_nat p) x Hx') at 1.
  rewrite filter_app, length_app.
  rewrite filter_all, (filter_none _ (x :: _)), length_take; [simpl; lia| |].
  - apply Forall_forall. intros y Hy.
    apply elem_of_cons in Hy as [->|Hy]; [lia|].
    apply list_elem_of_lookup in Hy as [j Hj]. rewrite lookup_drop in Hj.
    assert (item_at obj a (Z.of_nat (S (Z.to_nat p) + j)) = Some y) as Hy.
    { unfold item_at. destruct (Z.ltb_spec (Z.of_nat (S (Z.to_nat p) + j)) 0);
        [lia|]. by rewrite Nat2Z.id. }
    specialize (Hafter (Z.of_nat (S (Z.to_nat p) + j)) y ltac:(lia) Hy).
    apply LT_zero in Hafter. lia.
  - apply Forall_forall. intros y Hy.
    apply list_elem_of_lookup in Hy as [j Hj].
    apply lookup_take_Some in Hj as [Hj Hjlen].
    assert (item_at obj a (Z.of_nat j) = Some y) as Hy.
    { unfold item_at. destruct (Z.ltb_spec (Z.of_nat j) 0); [lia|].
      by rewrite Nat2Z.id. }
    pose proof (Hbefore (Z.of_nat j) y ltac:(lia) Hy) as Hle.
    apply LT_zero in Hle.
    pose proof (keys_distinct a (Z.of_nat j) p y x Hnd Hy Hx ltac:(lia)). lia.
Qed.

Lemma ls_subscript_inv (k : Z) (s : state) (t : tree) :
  1 <= SORT_THRESH ->
  lazy_inv obj RichCompare_LT s t -> NoDup (key <$> ob_item obj s) ->
  pyerr obj s = false ->
  - Py_SIZE obj s <= k < Py_SIZE obj s ->
  exists x s' t',
    ls_subscript obj RichCompare_LT RichCompare_EQ rand_at SORT_THRESH k s
      = Done (Some x) s' /\
    x ∈ ob_item obj s /\
    length (filter (fun y => key y < key x) (ob_item obj s))
      = Z.to_nat (k mod Py_SIZE obj s) /\
    lazy_inv obj RichCompare_LT s' t' /\
    ob_item obj s' ≡ₚ ob_item obj s /\ NoDup (key <$> ob_item obj s') /\
    pyerr obj s' = false.
Proof.
  intros HT Hinv Hnd Herr Hk.
  assert (0 <= k mod Py_SIZE obj s < Py_SIZE obj s) as Hmod
    by (apply Z.mod_pos_bound; lia).
  destruct (sort_point_inv _ s t HT Hinv Hnd Hmod)
    as (s' & t' & Hrun & Hinv' & Hperm & Hos & Herr' & _).
  assert (Py_SIZE obj s' = Py_SIZE obj s) as Hsize
    by (unfold Py_SIZE; by rewrite (Permutation_length Hperm)).
  destruct (ls_subscript_run k s s' Hk Herr Hrun Hsize) as (x & Hrun' & Hx).
  assert (NoDup (key <$> ob_item obj s')) as Hnd'.
  { assert (key <$> ob_item obj s' ≡ₚ key <$> ob_item obj s) as ->
      by (by apply fmap_Permutation).
    exact Hnd. }
  exists x, s', t'. split; [done|].
  split; [|split; [|split; [done|split; [done|split; [done|congruence]]]]].
  - rewrite <- Hperm. unfold item_at in Hx.
    destruct (k mod Py_SIZE obj s <? 0); [done|].
    by apply list_elem_of_lookup_2 in Hx.
  - rewrite <- (order_statistic_rank _ _ x Hnd' Hos Hx).
    apply Permutation_length. by rewrite Hperm.
Qed.




(** ** Slices read point by point *)

(** The copy loop with a [sort_point] before each item. *)
Lemma copy_items_point_inv (step : Z) :
  1 <= SORT_THRESH ->
  forall (n : nat) (k : Z) (s : state) (t : tree),
    lazy_inv obj RichCompare_LT s t -> NoDup (key <$> ob_item obj s) ->
    (forall j, 0 <= j < Z.of_nat n -> 0 <= k + j * step < Py_SIZE obj s) ->
    exists xs s' t',
      copy_items obj RichCompare_LT RichCompare_EQ rand_at SORT_THRESH
        n true k step s = Done (Some xs) s' /\
      lazy_inv obj RichCompare_LT s' t' /\
      ob_item obj s' ≡ₚ ob_item obj s /\
      length xs = n /\
      forall (j : nat) x, xs !! j = Some x ->
        x ∈ ob_item obj s /\
        length (filter (fun y => key y < key x) (ob_item obj s))
          = Z.to_nat (k + Z.of_nat j * step).
Proof.
  intros HT. induction n as [|n IH]; intros k s t Hinv Hnd Hrange.
  { exists [], s, t. split; [done|]. split; [done|]. split; [done|].
    split; [done|]. by intros j x Hj. }
  cbn [copy_items].
  assert (0 <= k < Py_SIZE obj s) as Hk.
  { specialize (Hrange 0 ltac:(lia)). lia. }
  destruct (sort_point_inv k s t HT Hinv Hnd Hk)
    as (s1 & t1 & Hrun1 & Hinv1 & Hperm1 & Hos1 & _).
  rewrite (bind_run _ _ _ _ _ Hrun1). cbn [Z.ltb Z.compare].
  assert (Py_SIZE obj s1 = Py_SIZE obj s) as Hsize
    by (unfold Py_SIZE; by rewrite (Permutation_length Hperm1)).
  assert (NoDup (key <$> ob_item obj s1)) as Hnd1.
  { assert (key <$> ob_item obj s1 ≡ₚ key <$> ob_item obj s) as ->
      by (by apply fmap_Permutation).
    exact Hnd. }
  destruct (item_at_in_range (ob_item obj s1) k) as [x Hx];
    [unfold Py_SIZE in Hsize, Hk; lia|].
  assert (get_item obj k s1 = Done x s1) as Hget
    by (unfold get_item; by rewrite Hx).
  rewrite (bind_run _ _ _ _ _ Hget).
  destruct (IH (k + step) s1 t1 Hinv1 Hnd1)
    as (xs & s2 & t2 & Hrun2 & Hinv2 & Hperm2 & Hlen & Hxs).
  { intros j Hj. rewrite Hsize.
    specialize (Hrange (j + 1) ltac:(lia)). lia. }
  rewrite (bind_run _ _ _ _ _ Hrun2).
  exists (x :: xs), s2, t2. split; [done|]. split; [done|].
  split; [by rewrite Hperm2|]. split; [simpl; by rewrite Hlen|].
  intros [|j] y Hy; simpl in Hy.
  - injection Hy as <-. split.
    + rewrite <- Hperm1. unfold item_at in Hx.
      destruct (k <? 0); [done|]. by apply list_elem_of_lookup_2 in Hx.
    + replace (k + Z.of_nat 0 * step) with k by lia.
      rewrite <- (order_statistic_rank _ _ x Hnd1 Hos1 Hx).
      apply Permutation_length. by rewrite Hperm1.
  - destruct (Hxs j y Hy) as [Hin Hrank]. split; [by rewrite <- Hperm1|].
    replace (k + Z.of_nat (S j) * step) with (k + step + Z.of_nat j * step)
      by lia.
    rewrite <- Hrank. apply Permutation_length. by rewrite Hperm1.
Qed.


(** ** [sort_range] under the invariant *)

Lemma sorted_region_narrow (a : list obj) (lo hi lo' hi' : Z) :
  sorted_region obj RichCompare_LT a lo hi -> lo <= lo' -> hi' <= hi ->
  sorted_region obj RichCompare_LT a lo' hi'.
Proof. intros Hs Hlo Hhi i j x y Hi Hij Hj. apply Hs; lia. Qed.

(** Setting the flags of two neighbouring pivots once the region between
    them has been sorted. *)
Lemma mark_sorted_inv (s s1 : state) (t : tree) (xs ys : list (ptr * (Z * Z)))
    (c n : ptr) (ic fc inn fn : Z) :
  lazy_inv obj RichCompare_LT s t ->
  inorder t = xs ++ (c, (ic, fc)) :: (n, (inn, fn)) :: ys ->
  tree_untouched obj s s1 ->
  shuffled obj (ob_item obj s) (ob_item obj s1) (ic + 1) inn ->
  sorted_region obj RichCompare_LT (ob_item obj s1) (ic + 1) inn ->
  exists s3 t3,
    (c1 <- deref obj (Some c) ;;
     set_flags obj (Some c) (Z.lor (flags c1) SORTED_LEFT) ;;;
     n1 <- deref obj (Some n) ;;
     set_flags obj (Some n) (Z.lor (flags n1) SORTED_RIGHT)) s1 = Done tt s3 /\
    lazy_inv obj RichCompare_LT s3 t3 /\
    inorder t3 = xs ++ (c, (ic, Z.lor fc SORTED_LEFT))
                    :: (n, (inn, Z.lor fn SORTED_RIGHT)) :: ys /\
    ob_item obj s3 = ob_item obj s1.
Proof.
  intros (Ht & Hs & Hfresh & Hinv) Hin Hun Hsh Hsorted.
  pose proof Hs as Hs'. unfold bst, keys in Hs'. rewrite Hin in Hs', Hinv.
  assert ((c, (ic, fc)) ∈ inorder t) as Hc by (rewrite Hin; apply elem_of_mid).
  pose proof (holds_tree_untouched s s1 t Hun Ht) as Ht1.
  pose proof (fresh_above_untouched s s1 Hun Hfresh) as Hfresh1.
  destruct (holds_tree_lookup s1 t c ic fc Ht1 Hc) as (nc1 & Hnc1 & _ & Hfc1).
  rewrite (bind_run _ _ _ _ _ (deref_run c nc1 s1 Hnc1)). rewrite Hfc1.
  destruct (set_flags_tree s1 t c (Z.lor fc SORTED_LEFT) xs
              ((n, (inn, fn)) :: ys) ic fc Ht1 Hin)
    as (s2 & t2 & Hrun2 & Ht2 & Hin2 & Hsl2 & _).
  rewrite (bind_run _ _ _ _ _ Hrun2).
  assert (fresh_above obj s2) as Hfresh2.
  { eapply keeps_fresh_update; [exact Hfresh1|exact Hrun2]. }
  assert ((n, (inn, fn)) ∈ inorder t2) as Hn2
    by (rewrite Hin2; apply elem_of_mid2).
  destruct (holds_tree_lookup s2 t2 n inn fn Ht2 Hn2) as (nn2 & Hnn2 & _ & Hfn2).
  rewrite (bind_run _ _ _ _ _ (deref_run n nn2 s2 Hnn2)). rewrite Hfn2.
  destruct (set_flags_tree s2 t2 n (Z.lor fn SORTED_RIGHT)
              (xs ++ [(c, (ic, Z.lor fc SORTED_LEFT))]) ys inn fn Ht2)
    as (s3 & t3 & Hrun3 & Ht3 & Hin3 & Hsl3 & _).
  { by rewrite <- app_assoc. }
  rewrite <- app_assoc in Hin3. simpl in Hin3.
  assert (fresh_above obj s3) as Hfresh3.
  { eapply keeps_fresh_update; [exact Hfresh2|exact Hrun3]. }
  destruct Hsl2 as (Hi2 & _), Hsl3 as (Hi3 & _).
  assert (ob_item obj s3 = ob_item obj s1) as Hitems3 by congruence.
  exists s3, t3. split; [done|]. split; [|done].
  split; [done|]. split; [|split; [done|]].
  - unfold bst, keys. rewrite Hin3.
    by rewrite fmap_app, !fmap_cons in Hs' |- *.
  - rewrite Hitems3, Hin3.
    by apply (pivots_inv_sorted (ob_item obj s) (ob_item obj s1)).
Qed.


(** The loop of [sort_range] from two neighbouring pivots on: it ends at
    the first pivot at or after [stop], with everything from the first
    pivot to that one sorted. *)
Lemma sort_range_loop_inv (stop : Z) :
  forall (fuel : nat) (s : state) (t : tree) (xs ys : list (ptr * (Z * Z)))
         (c n : ptr) (ic fc inn fn : Z),
    lazy_inv obj RichCompare_LT s t ->
    inorder t = xs ++ (c, (ic, fc)) :: (n, (inn, fn)) :: ys ->
    ic < stop -> stop <= Py_SIZE obj s -> (length ys + 1 < fuel)%nat ->
    exists cur icur fcur xs' ys' s' t',
      sort_range_loop obj RichCompare_LT rand_at SORT_THRESH fuel stop
        (Some c) (Some n) s = Done (Some cur) s' /\
      lazy_inv obj RichCompare_LT s' t' /\
      inorder t' = xs' ++ (cur, (icur, fcur)) :: ys' /\
      stop <= icur /\ has_flag fcur SORTED_RIGHT = true /\
      shuffled obj (ob_item obj s) (ob_item obj s') (ic + 1) icur /\
      sorted_region obj RichCompare_LT (ob_item obj s') (ic + 1) icur.
Proof.
  induction fuel as [|fuel IH];
    intros s t xs ys c n ic fc inn fn Hinv Hin Hic Hstop Hfuel; [lia|].
  pose proof Hinv as (Ht & Hs & Hfresh & Hpiv).
  destruct (holds_tree_lookup s t c ic fc Ht) as (nc & Hnc & Hidx & Hflags).
  { rewrite Hin. apply elem_of_mid. }
  destruct (holds_tree_lookup s t n inn fn Ht) as (nn0 & Hnn0 & Hidxn & _).
  { rewrite Hin. apply elem_of_mid2. }
  cbn [sort_range_loop].
  rewrite (bind_run _ _ _ _ _ (deref_run c nc s Hnc)). rewrite Hidx, Hflags.
  destruct (Z.ltb_spec ic stop) as [_|]; [|lia].
  pose proof Hs as Hs'. unfold bst, keys in Hs'. rewrite Hin in Hs', Hpiv.
  destruct (pivots_outside_shuffled _ _ xs ys _ _ Hpiv Hs'
              (shuffled_refl _ _ _)) as (Hos & _ & _ & Hlo & Hhi).
  simpl in Hlo, Hhi.
  assert (order_statistic (ob_item obj s) ic) as Hosc.
  { rewrite Forall_forall in Hos. apply (Hos (c, (ic, fc))), elem_of_mid. }
  assert (ic < inn) as Hicn.
  { destruct (sorted_split xs ((n, (inn, fn)) :: ys) (c, (ic, fc)) Hs')
      as [_ Hafter].
    apply Forall_cons in Hafter as [Hn _]. exact Hn. }
  match goal with
  | |- context [bind ?X ?K s] =>
      assert (exists s3 t3 fc' fn',
        X s = Done tt s3 /\ lazy_inv obj RichCompare_LT s3 t3 /\
        inorder t3 = xs ++ (c, (ic, fc')) :: (n, (inn, fn')) :: ys /\
        has_flag fc' SORTED_LEFT = true /\ has_flag fn' SORTED_RIGHT = true /\
        shuffled obj (ob_item obj s) (ob_item obj s3) (ic + 1) inn /\
        sorted_region obj RichCompare_LT (ob_item obj s3) (ic + 1) inn)
        as (s3 & t3 & fc' & fn' & HrunA & Hinv3 & Hin3 & Hfc' & Hfn' & Hsh3
            & Hsorted3)
  end.
  { destruct (has_flag fc SORTED_LEFT) eqn:Hsl.
    - exists s, t, fc, fn. split; [done|]. split; [done|]. split; [done|].
      split; [done|].
      destruct Hpiv as (_ & _ & _ & Hpairs).
      apply pairs_ok_app in Hpairs as [_ Hp]. simpl in Hp.
      destruct Hp as [[Hflag Hsorted] _]. simpl in Hflag, Hsorted.
      rewrite Hsl in Hflag. symmetry in Hflag.
      split; [done|]. split; [apply shuffled_refl|by apply Hsorted].
    - rewrite (bind_run _ _ _ _ _ (deref_run n nn0 s Hnn0)). rewrite Hidxn.
      destruct (quick_sort_post s (ic + 1) inn ltac:(lia) Hhi
                  (bounded_below_order_statistic _ ic inn Hosc))
        as (s1 & Hrun1 & Hsh & Hsorted & Hun).
      rewrite (bind_run _ _ _ _ _ Hrun1).
      destruct (mark_sorted_inv s s1 t xs ys c n ic fc inn fn Hinv Hin Hun Hsh
                  Hsorted) as (s3 & t3 & Hrun3 & Hinv3 & Hin3 & Hitems3).
      exists s3, t3, (Z.lor fc SORTED_LEFT), (Z.lor fn SORTED_RIGHT).
      split; [exact Hrun3|]. split; [done|]. split; [done|].
      split; [by apply has_flag_lor_same|].
      split; [by apply has_flag_lor_same|]. by rewrite Hitems3. }
  rewrite (bind_run _ _ _ _ _ HrunA).
  pose proof Hinv3 as (Ht3 & _).
  destruct (holds_tree_lookup s3 t3 c ic fc' Ht3) as (nc3 & Hnc3 & _ & Hfc3).
  { rewrite Hin3. apply elem_of_mid. }
  rewrite (bind_run _ _ _ _ _ (deref_run c nc3 s3 Hnc3)). rewrite Hfc3.
  assert (exists s4 t4 xs4,
    (if has_flag fc' SORTED_RIGHT then delete_node obj (Some c) else ret tt) s3
      = Done tt s4 /\
    lazy_inv obj RichCompare_LT s4 t4 /\
    inorder t4 = xs4 ++ (n, (inn, fn')) :: ys /\
    ob_item obj s4 = ob_item obj s3)
    as (s4 & t4 & xs4 & Hrun4 & Hinv4 & Hin4 & Hitems4).
  { destruct (has_flag fc' SORTED_RIGHT) eqn:E.
    - destruct (delete_node_inv s3 t3 xs _ c ic fc' Hinv3 Hin3 Hfc' E)
        as (s4 & t4 & Hrun4 & Hinv4 & Hin4 & Hitems4 & _).
      by exists s4, t4, xs.
    - exists s3, t3, (xs ++ [(c, (ic, fc'))]).
      split; [done|]. split; [done|]. split; [|done].
      by rewrite <- app_assoc. }
  rewrite (bind_run _ _ _ _ _ Hrun4).
  pose proof Hinv4 as (Ht4 & Hs4 & _ & Hpiv4).
  rewrite (bind_run _ _ _ _ _
             (next_pivot_tree s4 t4 xs4 ys n (inn, fn') Ht4 Hs4 Hin4)).
  assert (length (ob_item obj s4) = length (ob_item obj s)) as Hlen4.
  { rewrite Hitems4. by apply (length_shuffled _ _ _ _ Hsh3). }
  destruct (holds_tree_lookup s4 t4 n inn fn' Ht4) as (nn4 & Hnn4 & Hidx4 & _).
  { rewrite Hin4. apply elem_of_mid. }
  destruct (Z.lt_ge_cases inn stop) as [Hlt|Hge].
  - destruct ys as [|[nx [inx fnx]] ys'].
    { exfalso. destruct Hpiv4 as (_ & (pN & fN & Hlast & _) & _).
      rewrite Hin4, last_snoc in Hlast. injection Hlast as _ Hlen _.
      unfold Py_SIZE in Hstop. lia. }
    cbn [head_ptr fst].
    destruct (IH s4 t4 xs4 ys' n nx inn fn' inx fnx Hinv4 Hin4 Hlt)
      as (cur & icur & fcur & xs' & ys'' & s' & t' & Hrun & Hinv' & Hin' & Hcur
          & Hfcur & Hsh' & Hsorted');
      [unfold Py_SIZE in Hstop |- *; lia|simpl in Hfuel; lia|].
    exists cur, icur, fcur, xs', ys'', s', t'.
    split; [done|]. split; [done|]. split; [done|]. split; [done|].
    split; [done|]. rewrite Hitems4 in Hsh'. split.
    + eapply shuffled_trans.
      * apply (shuffled_widen _ _ (ic + 1) icur _ _ Hsh3); lia.
      * apply (shuffled_widen _ _ (ic + 1) icur _ _ Hsh'); lia.
    + apply (sorted_region_merge _ (ic + 1) inn icur); [|done|].
      * apply (sorted_region_ext (ob_item obj s3)); [|done].
        intros j Hj. destruct Hsh' as ([_ Hout] & _). apply Hout. lia.
      * apply (shuffled_order_statistic _ _ _ _ _ Hsh'); [lia|].
        rewrite <- Hitems4. destruct Hpiv4 as (_ & _ & Hos4 & _).
        rewrite Forall_forall in Hos4.
        apply (Hos4 (n, (inn, fn'))). rewrite Hin4. apply elem_of_mid.
  - destruct fuel as [|fuel']; [lia|]. cbn [sort_range_loop].
    rewrite (bind_run _ _ _ _ _ (deref_run n nn4 s4 Hnn4)). rewrite Hidx4.
    destruct (Z.ltb_spec inn stop) as [|_]; [lia|].
    exists n, inn, fn', xs4, ys, s4, t4.
    split; [done|]. split; [done|]. split; [done|]. split; [done|].
    split; [done|]. by rewrite Hitems4.
Qed.


(** [sort_point] at an index up to the length of the list. *)
Lemma sort_point_inv_end (k : Z) (s : state) (t : tree) :
  1 <= SORT_THRESH ->
  lazy_inv obj RichCompare_LT s t -> NoDup (key <$> ob_item obj s) ->
  0 <= k <= Py_SIZE obj s ->
  exists s' t',
    sort_point obj RichCompare_LT RichCompare_EQ rand_at SORT_THRESH k s
      = Done 0 s' /\
    lazy_inv obj RichCompare_LT s' t' /\
    ob_item obj s' ≡ₚ ob_item obj s.
Proof.
  intros HT Hinv Hnd Hk.
  destruct (Z.eq_dec k (Py_SIZE obj s)) as [->|Hne].
  - exists s, t. split; [|done].
    destruct Hinv as (Ht & Hs & _ & _ & (pN & fN & Hlast & _) & _).
    apply (sort_point_pivot_run _ s t pN fN Ht Hs).
    by apply last_Some_elem_of.
  - destruct (sort_point_inv k s t HT Hinv Hnd ltac:(lia))
      as (s' & t' & Hrun & Hinv' & Hperm & _).
    by exists s', t'.
Qed.

(** The loop of [sort_range] and the deletion that follows it. *)
Lemma sort_range_tail (start stop : Z) (s : state) (t : tree)
    (xs ys : list (ptr * (Z * Z))) (c n : ptr) (ic fc inn fn : Z) :
  lazy_inv obj RichCompare_LT s t ->
  inorder t = xs ++ (c, (ic, fc)) :: (n, (inn, fn)) :: ys ->
  ic <= start < stop -> stop <= Py_SIZE obj s ->
  exists s' t',
    (fuel <- tree_fuel obj ;;
     current <- sort_range_loop obj RichCompare_LT rand_at SORT_THRESH fuel
                  stop (Some c) (Some n) ;;
     c <- deref obj current ;;
     (if has_flag (flags c) SORTED_LEFT then delete_node obj current
      else ret tt) ;;;
     ret 0) s = Done 0 s' /\
    lazy_inv obj RichCompare_LT s' t' /\
    ob_item obj s' ≡ₚ ob_item obj s /\
    sorted_region obj RichCompare_LT (ob_item obj s') start stop /\
    (forall p, start <= p < stop -> order_statistic (ob_item obj s') p).
Proof.
  intros Hinv Hin Hstart Hstop. pose proof Hinv as (Ht & _ & _ & Hpiv).
  pose proof (holds_tree_size s t Ht) as Hsize.
  rewrite Hin, length_app in Hsize. simpl in Hsize.
  unfold bind at 1, tree_fuel.
  destruct (sort_range_loop_inv stop (S (size (mem obj s))) s t xs ys c n ic fc
              inn fn Hinv Hin ltac:(lia) Hstop ltac:(lia))
    as (cur & icur & fcur & xs' & ys' & s1 & t1 & Hrun & Hinv1 & Hin1 & Hcur
        & Hfcur & Hsh & Hsorted).
  rewrite (bind_run _ _ _ _ _ Hrun).
  pose proof Hinv1 as (Ht1 & _ & _ & _ & _ & Hos1 & _).
  destruct (holds_tree_lookup s1 t1 cur icur fcur Ht1) as (nc & Hnc & _ & Hf).
  { rewrite Hin1. apply elem_of_mid. }
  rewrite (bind_run _ _ _ _ _ (deref_run cur nc s1 Hnc)). rewrite Hf.
  assert (order_statistic (ob_item obj s1) ic) as Hosc.
  { apply (shuffled_order_statistic _ _ _ _ _ Hsh); [lia|].
    destruct Hpiv as (_ & _ & Hos & _). rewrite Forall_forall in Hos.
    apply (Hos (c, (ic, fc))). rewrite Hin. apply elem_of_mid. }
  assert (order_statistic (ob_item obj s1) icur) as Hoscur.
  { rewrite Forall_forall in Hos1.
    apply (Hos1 (cur, (icur, fcur))). rewrite Hin1. apply elem_of_mid. }
  assert (sorted_region obj RichCompare_LT (ob_item obj s1) start stop
          /\ forall p, start <= p < stop -> order_statistic (ob_item obj s1) p)
    as [Hres1 Hres2].
  { split.
    - apply (sorted_region_narrow _ ic icur); [|lia|lia].
      apply (sorted_region_merge _ ic ic icur); [|done|done].
      intros i j x y Hi Hij Hj. lia.
    - intros p Hp. destruct (Z.eq_dec p ic) as [->|Hne]; [done|].
      apply (order_statistic_in_region _ ic icur p Hsorted Hosc Hoscur). lia. }
  assert (ob_item obj s1 ≡ₚ ob_item obj s) as Hperm
    by (by destruct Hsh as (_ & Hp & _)).
  destruct (has_flag fcur SORTED_LEFT) eqn:E.
  - destruct (delete_node_inv s1 t1 xs' ys' cur icur fcur Hinv1 Hin1 E Hfcur)
      as (s2 & t2 & Hrun2 & Hinv2 & _ & Hitems2 & _).
    rewrite (bind_run _ _ _ _ _ Hrun2).
    exists s2, t2. split; [done|]. split; [done|]. rewrite Hitems2. by split.
  - exists s1, t1. split; [done|]. split; [done|]. by split.
Qed.

Lemma sort_range_inv (start stop : Z) (s : state) (t : tree) :
  1 <= SORT_THRESH ->
  lazy_inv obj RichCompare_LT s t -> NoDup (key <$> ob_item obj s) ->
  0 <= start < stop -> stop <= Py_SIZE obj s ->
  exists s' t',
    sort_range obj RichCompare_LT RichCompare_EQ rand_at SORT_THRESH
      start stop s = Done 0 s' /\
    lazy_inv obj RichCompare_LT s' t' /\
    ob_item obj s' ≡ₚ ob_item obj s /\
    sorted_region obj RichCompare_LT (ob_item obj s') start stop /\
    (forall p, start <= p < stop -> order_statistic (ob_item obj s') p).
Proof.
  intros HT Hinv Hnd Hstart Hstop. unfold sort_range.
  destruct (sort_point_inv start s t HT Hinv Hnd ltac:(lia))
    as (s1 & t1 & Hrun1 & Hinv1 & Hperm1 & _).
  rewrite (bind_run _ _ _ _ _ Hrun1). cbn [Z.ltb Z.compare].
  assert (Py_SIZE obj s1 = Py_SIZE obj s) as Hsize1
    by (unfold Py_SIZE; by rewrite (Permutation_length Hperm1)).
  assert (NoDup (key <$> ob_item obj s1)) as Hnd1.
  { assert (key <$> ob_item obj s1 ≡ₚ key <$> ob_item obj s) as ->
      by (by apply fmap_Permutation).
    exact Hnd. }
  destruct (sort_point_inv_end stop s1 t1 HT Hinv1 Hnd1 ltac:(lia))
    as (s2 & t2 & Hrun2 & Hinv2 & Hperm2).
  rewrite (bind_run _ _ _ _ _ Hrun2). cbn [Z.ltb Z.compare].
  assert (Py_SIZE obj s2 = Py_SIZE obj s) as Hsize2
    by (unfold Py_SIZE;
        by rewrite (Permutation_length Hperm2), (Permutation_length Hperm1)).
  unfold bind at 1, get_root.
  pose proof Hinv2 as (Ht2 & Hs2 & _ & Hpiv2).
  pose proof Hpiv2 as ((p0 & f0 & Hhead & _) & (pN & fN & Hlast & _) & _).
  assert (exists s' t',
    (cn <- bound_idx obj start (root obj s2) ;;
     c <- deref obj cn.1 ;;
     next <- (if idx c =? start then next_pivot obj cn.1 else ret cn.2) ;;
     fuel <- tree_fuel obj ;;
     current <- sort_range_loop obj RichCompare_LT rand_at SORT_THRESH fuel
                  stop cn.1 next ;;
     c <- deref obj current ;;
     (if has_flag (flags c) SORTED_LEFT then delete_node obj current
      else ret tt) ;;;
     ret 0) s2 = Done 0 s' /\
    lazy_inv obj RichCompare_LT s' t' /\
    ob_item obj s' ≡ₚ ob_item obj s2 /\
    sorted_region obj RichCompare_LT (ob_item obj s') start stop /\
    (forall p, start <= p < stop -> order_statistic (ob_item obj s') p))
    as (s' & t' & Hrun & Hinv' & Hperm' & Hres).
  { destruct (decide (start ∈ keys t2)) as [Hkey|Hnot].
    - unfold keys in Hkey.
      apply list_elem_of_fmap in Hkey as ([p [i f]] & Heq & Hp).
      simpl in Heq. subst i.
      pose proof (bound_tree_found start t2 None None p f Hs2 Hp) as Hfst.
      rewrite (bind_run _ _ _ _ _ (bound_idx_tree start s2 t2 Ht2)).
      destruct (bound_tree start t2 None None) as [cl cr]. simpl in Hfst.
      subst cl. cbn [fst snd].
      destruct (holds_tree_lookup s2 t2 p start f Ht2 Hp) as (np & Hnp & Hi & _).
      rewrite (bind_run _ _ _ _ _ (deref_run p np s2 Hnp)).
      rewrite Hi, Z.eqb_refl.
      apply list_elem_of_split in Hp as (xs & rest & Hin).
      rewrite (bind_run _ _ _ _ _
                 (next_pivot_tree s2 t2 xs rest p (start, f) Ht2 Hs2 Hin)).
      destruct rest as [|[n [inn fn]] ys].
      { exfalso. rewrite Hin, last_snoc in Hlast. injection Hlast as _ Hl _.
        unfold Py_SIZE in Hsize2, Hstop. lia. }
      cbn [head_ptr fst].
      apply (sort_range_tail start stop s2 t2 xs ys p n start f inn fn Hinv2
               Hin); lia.
    - destruct (inorder t2) as [|x ps] eqn:Hin; [done|].
      simpl in Hhead. injection Hhead as ->.
      destruct (pivots_neighbours start ps _ _ Hlast)
        as (xs & [l [il fl]] & [r [ir fr]] & ys & Heq & Hlr).
      { simpl. unfold Py_SIZE in Hsize2, Hstop. lia. }
      { unfold keys in Hnot. by rewrite Hin in Hnot. }
      simpl in Hlr. rewrite Heq in Hin. clear Heq.
      rewrite (bind_run _ _ _ _ _
                 (bound_idx_between start s2 t2 xs ys l r il fl ir fr Ht2 Hs2
                    Hin Hlr)).
      cbn [fst snd].
      destruct (holds_tree_lookup s2 t2 l il fl Ht2) as (nl & Hnl & Hil & _).
      { rewrite Hin. apply elem_of_mid. }
      rewrite (bind_run _ _ _ _ _ (deref_run l nl s2 Hnl)). rewrite Hil.
      destruct (Z.eqb_spec il start) as [|_]; [lia|].
      unfold bind at 1, ret at 1.
      apply (sort_range_tail start stop s2 t2 xs ys l r il fl ir fr Hinv2
               Hin); lia. }
  exists s', t'. split; [exact Hrun|]. split; [done|].
  split; [by rewrite Hperm', Hperm2|done].
Qed.


(** ** The invariant, from construction through every subscript *)

(** X14.  Items with pairwise different keys, compared by the < and the ==
    of their keys, SORT_THRESH at least 1, [rand()] never negative.  When
    the object satisfies the invariant of the pivot tree (the store holds a
    search tree, no node lies at or above the allocator's next address, the
    first and the last pivot are the sentinels -1 and [len], every pivot is
    an order statistic, the flags of neighbouring pivots agree and a flagged
    region is sorted), [sort_point(k)] for [0 <= k < len] returns 0: the
    quickselect loop ends, no freed node is read, the invariant holds again,
    the list is a permutation of what it was, and position [k] is an order
    statistic. *)
Theorem sort_point_establishes_order (k : Z) (s : state) (t : tree) :
  1 <= SORT_THRESH ->
  lazy_inv obj RichCompare_LT s t -> NoDup (key <$> ob_item obj s) ->
  0 <= k < Py_SIZE obj s ->
  exists s' t',
    sort_point obj RichCompare_LT RichCompare_EQ rand_at SORT_THRESH k s
      = Done 0 s' /\
    lazy_inv obj RichCompare_LT s' t' /\
    ob_item obj s' ≡ₚ ob_item obj s /\
    order_statistic (ob_item obj s') k.
Proof.
  intros HT Hinv Hnd Hk.
  destruct (sort_point_inv k s t HT Hinv Hnd Hk)
    as (s' & t' & Hrun & Hinv' & Hperm & Hos & _).
  by exists s', t'.
Qed.

(** X15.  [LS_init] on a new object establishes the invariant of the pivot
    tree, for every list and every [rand()]. *)
Theorem LS_new_invariant (l : list obj) :
  exists s t,
    LS_new obj rand_at l (fresh obj) = Done true s /\ ob_item obj s = l /\
    lazy_inv obj RichCompare_LT s t.
Proof. apply LS_new_inv. Qed.

(** X16.  Under the conditions of X14 and with no error pending when the
    call is made (so that the test [k == -1 && PyErr_Occurred()] does not
    fire), [ls[k]] for [-len <= k < len] returns an item of the list that has
    exactly [k mod len] items with a smaller key, that is [sorted(l)[k]],
    and leaves an object that satisfies the invariant again, with a
    permutation of the list and still no error pending: the same holds for
    the next subscript. *)
Theorem ls_subscript_returns_kth (k : Z) (s : state) (t : tree) :
  1 <= SORT_THRESH ->
  lazy_inv obj RichCompare_LT s t -> NoDup (key <$> ob_item obj s) ->
  pyerr obj s = false ->
  - Py_SIZE obj s <= k < Py_SIZE obj s ->
  exists x s' t',
    ls_subscript obj RichCompare_LT RichCompare_EQ rand_at SORT_THRESH k s
      = Done (Some x) s' /\
    x ∈ ob_item obj s /\
    length (filter (fun y => key y < key x) (ob_item obj s))
      = Z.to_nat (k mod Py_SIZE obj s) /\
    lazy_inv obj RichCompare_LT s' t' /\
    ob_item obj s' ≡ₚ ob_item obj s /\ NoDup (key <$> ob_item obj s') /\
    pyerr obj s' = false.
Proof. apply ls_subscript_inv. Qed.

(** X17.  [uniq_pivots] on three pivots of the search tree held by the
    store, with increasing indices, the left one at -1 or above and the
    right one at [len] or below, over a list whose items have pairwise
    different keys: it returns 0 and removes no pivot; the store still holds
    the same tree, and the list, the stream of [rand()] and the error
    indicator are as before (only comparisons were made).  The walks of
    [assert_tree] and [assert_tree_flags] before and after only read this
    tree, which is not empty. *)
Theorem uniq_pivots_keeps_distinct (s : state) (t : tree) (l m r : ptr)
    (il fl im fm ir fr : Z) :
  holds_tree obj s t -> bst t ->
  (l, (il, fl)) ∈ inorder t -> (m, (im, fm)) ∈ inorder t ->
  (r, (ir, fr)) ∈ inorder t ->
  -1 <= il -> il < im < ir -> ir <= Py_SIZE obj s ->
  NoDup (key <$> ob_item obj s) ->
  exists s',
    uniq_pivots obj RichCompare_EQ (Some l) (Some m) (Some r) s = Done 0 s' /\
    tree_untouched obj s s' /\ holds_tree obj s' t /\
    ob_item obj s' = ob_item obj s /\
    rnd obj s' = rnd obj s /\ pyerr obj s' = pyerr obj s.
Proof.
  intros Ht Hs Hl Hm Hr Hlo Hlm Hhi Hnd.
  destruct (holds_tree_lookup s t l il fl Ht Hl) as (nl & Hnl & Hil & _).
  destruct (holds_tree_lookup s t m im fm Ht Hm) as (nm & Hnm & Him & _).
  destruct (holds_tree_lookup s t r ir fr Ht Hr) as (nr & Hnr & Hir & _).
  destruct (uniq_pivots_distinct s l m r nl nm nr Hnl Hnm Hnr)
    as (s' & Hrun & Hun & Hitems & Hrnd & Herr); [lia..|done|].
  exists s'. split; [done|]. split; [done|].
  split; [by apply (holds_tree_untouched s s')|done].
Qed.

(** X18.  Under the conditions of X14, [sort_range(start, stop)] for
    [0 <= start < stop <= len] returns 0: both calls of [sort_point]
    succeed, the loop over the pivots ends, the invariant holds again on a
    permutation of the list, the items at [start .. stop - 1] are in
    nondecreasing order and each of these positions is an order statistic,
    so that they hold [sorted(l)[start:stop]]. *)
Theorem sort_range_sorts_range (start stop : Z) (s : state) (t : tree) :
  1 <= SORT_THRESH ->
  lazy_inv obj RichCompare_LT s t -> NoDup (key <$> ob_item obj s) ->
  0 <= start < stop -> stop <= Py_SIZE obj s ->
  exists s' t',
    sort_range obj RichCompare_LT RichCompare_EQ rand_at SORT_THRESH
      start stop s = Done 0 s' /\
    lazy_inv obj RichCompare_LT s' t' /\
    ob_item obj s' ≡ₚ ob_item obj s /\
    sorted_region obj RichCompare_LT (ob_item obj s') start stop /\
    (forall p, start <= p < stop -> order_statistic (ob_item obj s') p).
Proof. apply sort_range_inv. Qed.

(** X19.  Under the conditions of X14, a slice whose step is outside
    [-CONTIG_THRESH, CONTIG_THRESH], with [slicelength > 0] indices
    [start + j * step] all inside the list (what [PySlice_GetIndicesEx]
    produces): [ls_subscript] returns a list of [slicelength] items, the
    [j]-th of which is the item of the list with exactly [start + j * step]
    items of smaller key, that is [sorted(l)[start + j * step]]; the
    invariant holds again on a permutation of the list. *)
Theorem slice_by_points (start stop step slicelength : Z) (s : state)
    (t : tree) :
  1 <= SORT_THRESH ->
  lazy_inv obj RichCompare_LT s t -> NoDup (key <$> ob_item obj s) ->
  0 < slicelength ->
  step < - CONTIG_THRESH \/ CONTIG_THRESH < step ->
  (forall j, 0 <= j < slicelength -> 0 <= start + j * step < Py_SIZE obj s) ->
  exists xs s' t',
    ls_subscript_slice obj RichCompare_LT RichCompare_EQ rand_at SORT_THRESH
      CONTIG_THRESH start stop step slicelength s = Done (Some xs) s' /\
    lazy_inv obj RichCompare_LT s' t' /\
    ob_item obj s' ≡ₚ ob_item obj s /\
    length xs = Z.to_nat slicelength /\
    forall (j : nat) x, xs !! j = Some x ->
      x ∈ ob_item obj s /\
      length (filter (fun y => key y < key x) (ob_item obj s))
        = Z.to_nat (start + Z.of_nat j * step).
Proof.
  intros HT Hinv Hnd Hlen Hstep Hrange. unfold ls_subscript_slice.
  destruct (Z.leb_spec slicelength 0) as [|_]; [lia|].
  assert ((- CONTIG_THRESH <=? step) && (step <=? CONTIG_THRESH) = false)
    as ->.
  { destruct (Z.leb_spec (- CONTIG_THRESH) step),
             (Z.leb_spec step CONTIG_THRESH); simpl; try done; lia. }
  apply (copy_items_point_inv step HT (Z.to_nat slicelength) start s t Hinv Hnd).
  intros j Hj. apply Hrange. lia.
Qed.


End Keyed.


End Properties.

(** * The code on concrete lists *)

(** C1 (defect).  On a list of 32 equal items, [ls[16]] returns the item and
    leaves a pivot at 16; the next call [ls[1]] partitions the region before
    that pivot, finds the new pivot equal to the pivot at 16, frees the
    latter in [uniq_pivots], and then reads [right->idx] of the freed node:
    the call has no defined result.  This holds for every threshold from 12
    to 16. *)
Theorem get_reads_freed_pivot :
  Forall (fun T =>
            returned (get T 16 (built_state rand_a ones)) = Some (Some 1) /\
            (_ <- get T 16 ;; get T 1) (built_state rand_a ones) = Crash)
         [12; 13; 14; 15; 16].
Proof. repeat constructor; vm_compute; reflexivity. Qed.

(** C3 (as stated, on a concrete list).  [partition] on [5; 3; 7; 1; 9]
    with a comparison that raises for [9 < 3] returns -1 and leaves
    [3; 1; 7; 5; 9]: neither the list before the call nor the list the
    completed partition produces. *)
Lemma partition_failure_is_torn :
  returned (partition Z (picky_lt 9 3) rand_a 0 5 five_state) = Some (-1) /\
  ob_item Z five_torn = [3; 1; 7; 5; 9] /\
  ob_item Z five_torn <> ob_item Z five_state /\
  ob_item Z five_torn
    <> ob_item Z (state_after (partition Z int_lt rand_a 0 5) five_state).
Proof. repeat split; vm_compute; congruence. Qed.

(** C4 (defect).  [ls[20:80]] on the scrambled list, with a comparison that
    raises for [61 < 55].  The two [sort_point] calls of [sort_range] see no
    exception; [quick_sort] on the region between the pivots 43 and 62
    returns -1; [sort_range] nevertheless returns 0, and all the regions
    between the pivots 18 and 81 are marked sorted and merged, although the
    items at 44..61 are not in order: a later [ls[50]] returns 46. *)
Theorem sort_range_ignores_failed_quick_sort :
  let lt := picky_lt 61 55 in
  let s0 := built_state rand_a scrambled in
  let points := (a <- sort_point Z lt int_eq rand_a sort_thresh 20 ;;
                 b <- sort_point Z lt int_eq rand_a sort_thresh 80 ;;
                 ret (a, b)) in
  let range := sort_range Z lt int_eq rand_a sort_thresh 20 80 in
  returned (points s0) = Some (0, 0) /\
  pyerr Z (state_after points s0) = false /\
  returned ((_ <- points ;; quick_sort Z lt rand_a sort_thresh 44 62) s0)
    = Some (-1) /\
  returned (range s0) = Some 0 /\
  pyerr Z (state_after range s0) = true /\
  returned ((_ <- range ;; ls_pivots Z) s0)
    = Some [(-1, 0); (4, 0); (18, 2); (81, 1); (90, 0); (98, 0); (100, 0)] /\
  take 18 (drop 44 (ob_item Z (state_after range s0)))
    = [55; 48; 50; 51; 61; 44; 46; 57; 59; 47; 53; 52; 58; 49; 60; 45; 56; 54] /\
  returned ((_ <- range ;; ls_subscript Z lt int_eq rand_a sort_thresh 50) s0)
    = Some (Some 46).
Proof. repeat split; vm_compute; reflexivity. Qed.

(** C9 (defect).  [between(-7, 3)] on a list of five items: the left index
    becomes -2 and is passed to [sort_point]; [bound_idx] finds no pivot at
    or below -2 and [sort_point] reads [left->idx] through NULL.  With
    [between(-6, 3)] the index -1 meets the sentinel and the copy loop then
    reads [ob_item[-1]]. *)
Theorem between_passes_negative_index :
  between Z int_lt int_eq rand_a sort_thresh (-7) 3
    (built_state rand_a [1; 2; 3; 4; 5]) = Crash /\
  between Z int_lt int_eq rand_a sort_thresh (-6) 3
    (built_state rand_a [1; 2; 3; 4; 5]) = Crash /\
  returned (bound_idx Z (-2) (root Z (built_state rand_a [1; 2; 3; 4; 5]))
              (built_state rand_a [1; 2; 3; 4; 5]))
    = Some (None, Some 1%positive).
Proof. repeat split; vm_compute; reflexivity. Qed.

(** ** Instances of the general theorems *)

Lemma rand_a_nonneg (n : nat) : 0 <= rand_a n.
Proof. unfold rand_a. apply Z.mod_pos_bound. lia. Qed.

Lemma six_state_order_statistic :
  order_statistic Z int_lt (ob_item Z six_state) (1 - 1).
Proof.
  change (ob_item Z six_state) with [1; 5; 3; 4; 2; 9].
  intros x [= <-]. split; intros i y Hi Hy.
  - unfold item_at in Hy. destruct (Z.ltb_spec i 0); [discriminate|lia].
  - unfold item_at in Hy. destruct (i <? 0); [discriminate|].
    apply list_elem_of_lookup_2 in Hy.
    assert (Forall (fun y => int_lt y 1 = 0) [1; 5; 3; 4; 2; 9]) as Hall
      by (repeat constructor).
    rewrite Forall_forall in Hall. by apply Hall.
Qed.

Lemma insertion_sort_frame_witness :
  0 <= 1 /\ 5 <= Py_SIZE Z six_state /\
  order_statistic Z int_lt (ob_item Z six_state) (1 - 1) /\
  exists s',
    insertion_sort Z int_lt 1 5 six_state = Done tt s' /\
    length (ob_item Z s') = length (ob_item Z six_state) /\
    forall j, ~ (1 <= j < 5) ->
      item_at Z (ob_item Z s') j = item_at Z (ob_item Z six_state) j.
Proof.
  assert (5 <= Py_SIZE Z six_state) as Hsize by (vm_compute; discriminate).
  split; [lia|]. split; [exact Hsize|].
  split; [exact six_state_order_statistic|].
  apply (insertion_sort_frame Z int_lt six_state 1 5);
    [lia | exact Hsize | exact six_state_order_statistic].
Defined.

Lemma partition_failure_witness :
  0 <= 1 /\ 1 < 5 < 6 /\ 6 <= Py_SIZE Z seven_state /\
  2 = 1 + Z.rem (rand_a (rnd Z seven_state)) (6 - 1) /\
  item_at Z (ob_item Z seven_state) 1 = Some 5 /\
  item_at Z (ob_item Z seven_state) 2 = Some 3 /\
  (forall j x, 1 < j < 5 ->
     item_at Z (<[Z.to_nat 2 := 5]>
                  (<[Z.to_nat 1 := 3]> (ob_item Z seven_state))) j = Some x ->
     0 <= picky_lt 9 3 x 3) /\
  item_at Z (<[Z.to_nat 2 := 5]>
               (<[Z.to_nat 1 := 3]> (ob_item Z seven_state))) 5 = Some 9 /\
  picky_lt 9 3 9 3 < 0 /\
  exists s' ll,
    partition Z (picky_lt 9 3) rand_a 1 6 seven_state = Done (-1) s' /\
    pyerr Z s' = true /\
    ncmp Z s' = (ncmp Z seven_state + Z.to_nat (5 - 1))%nat /\
    rnd Z s' = S (rnd Z seven_state) /\
    tree_untouched Z seven_state s' /\
    shuffled Z (ob_item Z seven_state) (ob_item Z s') 1 6 /\
    1 <= ll < 5 /\
    item_at Z (ob_item Z s') 1 = Some 3 /\
    (forall j x, 1 < j <= ll -> item_at Z (ob_item Z s') j = Some x ->
                 0 < picky_lt 9 3 x 3) /\
    (forall j x, ll < j < 5 -> item_at Z (ob_item Z s') j = Some x ->
                 picky_lt 9 3 x 3 = 0) /\
    (forall j, 5 <= j ->
       item_at Z (ob_item Z s') j
       = item_at Z (<[Z.to_nat 2 := 5]>
                      (<[Z.to_nat 1 := 3]> (ob_item Z seven_state))) j) /\
    (forall q, ~ (1 <= q < 6) ->
       order_statistic Z (picky_lt 9 3) (ob_item Z seven_state) q ->
       order_statistic Z (picky_lt 9 3) (ob_item Z s') q).
Proof.
  assert (6 <= Py_SIZE Z seven_state) as Hsize by (vm_compute; discriminate).
  assert (2 = 1 + Z.rem (rand_a (rnd Z seven_state)) (6 - 1)) as Hp
    by (vm_compute; reflexivity).
  assert (item_at Z (ob_item Z seven_state) 1 = Some 5) as Hx0
    by (vm_compute; reflexivity).
  assert (item_at Z (ob_item Z seven_state) 2 = Some 3) as Hpiv
    by (vm_compute; reflexivity).
  assert (forall j x, 1 < j < 5 ->
            item_at Z (<[Z.to_nat 2 := 5]>
                         (<[Z.to_nat 1 := 3]> (ob_item Z seven_state))) j
            = Some x ->
            0 <= picky_lt 9 3 x 3) as Hok.
  { intros j x Hj Hx.
    assert (j = 2 \/ j = 3 \/ j = 4) as [-> | [-> | ->]] by lia;
      vm_compute in Hx; injection Hx as <-; vm_compute; discriminate. }
  assert (item_at Z (<[Z.to_nat 2 := 5]>
                       (<[Z.to_nat 1 := 3]> (ob_item Z seven_state))) 5
          = Some 9) as Hxm by (vm_compute; reflexivity).
  assert (picky_lt 9 3 9 3 < 0) as Hbad by (vm_compute; reflexivity).
  split; [lia|]. split; [lia|]. split; [exact Hsize|]. split; [exact Hp|].
  split; [exact Hx0|]. split; [exact Hpiv|]. split; [exact Hok|].
  split; [exact Hxm|]. split; [exact Hbad|].
  apply (partition_failure_keeps_swaps Z (picky_lt 9 3) rand_a rand_a_nonneg
           1 6 5 2 seven_state 3 5 9);
    [lia | lia | exact Hsize | exact Hp | exact Hx0 | exact Hpiv | exact Hok
    | exact Hxm | exact Hbad].
Defined.

Lemma int_lt_key (x y : Z) : int_lt x y = if x <? y then 1 else 0.
Proof. reflexivity. Qed.

(** A region is bounded below when its items, listed, are not less than the
    item before it. *)
Lemma bounded_below_listed (a : list Z) (lo hi b : Z) :
  0 <= lo -> item_at Z a (lo - 1) = Some b ->
  Forall (fun x => int_lt x b = 0)
         (take (Z.to_nat (hi - lo)) (drop (Z.to_nat lo) a)) ->
  bounded_below Z int_lt a lo hi.
Proof.
  intros Hlo Hb Hall b' Hb' i x Hi Hx. rewrite Hb in Hb'. injection Hb' as <-.
  rewrite Forall_forall in Hall. apply Hall.
  unfold item_at in Hx. destruct (Z.ltb_spec i 0); [lia|].
  apply elem_of_take. exists (Z.to_nat (i - lo)). split; [|lia].
  rewrite lookup_drop. by replace (Z.to_nat lo + Z.to_nat (i - lo))%nat
    with (Z.to_nat i) by lia.
Qed.

Lemma bounded_below_start (a : list Z) (hi : Z) : bounded_below Z int_lt a 0 hi.
Proof. intros b Hb. discriminate. Qed.

Lemma tree_state_holds : holds_tree Z tree_state scrambled_tree.
Proof.
  split; [|split; [|split]].
  - vm_compute. tauto.
  - vm_compute. reflexivity.
  - apply (bool_decide_unpack _). vm_compute. exact I.
  - apply (bool_decide_unpack _). vm_compute. exact I.
Qed.

Lemma scrambled_tree_bst : bst scrambled_tree.
Proof. apply (bool_decide_unpack _). vm_compute. exact I. Qed.

Lemma insert_between_witness :
  holds_tree Z tree_state scrambled_tree /\ bst scrambled_tree /\
  mem Z tree_state !! brk Z tree_state = None /\
  inorder scrambled_tree
    = [(1%positive, (-1, 0)); (6%positive, (4, 0)); (9%positive, (18, 2));
       (8%positive, (21, 1)); (7%positive, (30, 0))]
      ++ (5%positive, (36, 0)) :: (4%positive, (43, 0))
      :: [(3%positive, (98, 0)); (2%positive, (100, 0))] /\
  36 < 40 < 43 /\
  bound_idx Z 40 (root Z tree_state) tree_state
    = Done (Some 5%positive, Some 4%positive) tree_state /\
  insert_between Z rand_a 40 (Some 5%positive) (Some 4%positive) tree_state
    = insert_pivot Z rand_a 40 UNSORTED (root Z tree_state) tree_state /\
  exists s' t',
    insert_pivot Z rand_a 40 UNSORTED (root Z tree_state) tree_state
      = Done (Some (brk Z tree_state)) s' /\
    holds_tree Z s' t' /\ bst t' /\
    inorder t'
      = [(1%positive, (-1, 0)); (6%positive, (4, 0)); (9%positive, (18, 2));
         (8%positive, (21, 1)); (7%positive, (30, 0))]
        ++ (5%positive, (36, 0)) :: (brk Z tree_state, (40, UNSORTED))
        :: (4%positive, (43, 0))
        :: [(3%positive, (98, 0)); (2%positive, (100, 0))].
Proof.
  assert (mem Z tree_state !! brk Z tree_state = None) as Hfree
    by (vm_compute; reflexivity).
  assert (36 < 40 < 43) as Hk by lia.
  split; [exact tree_state_holds|]. split; [exact scrambled_tree_bst|].
  split; [exact Hfree|]. split; [reflexivity|]. split; [exact Hk|].
  exact (insert_between_is_insert_from_root Z rand_a 40 tree_state
           scrambled_tree
           [(1%positive, (-1, 0)); (6%positive, (4, 0)); (9%positive, (18, 2));
            (8%positive, (21, 1)); (7%positive, (30, 0))]
           [(3%positive, (98, 0)); (2%positive, (100, 0))]
           5%positive 4%positive 36 0 43 0
           tree_state_holds scrambled_tree_bst Hfree eq_refl Hk).
Defined.

Lemma partition_splits_witness :
  0 <= 0 < 5 /\
  partition Z int_lt rand_a 0 5 five_state = Done 1 five_split /\
  1 <> -1 /\
  0 <= 1 < 5 /\
  shuffled Z (ob_item Z five_state) (ob_item Z five_split) 0 5 /\
  tree_untouched Z five_state five_split /\
  (exists pivot,
      item_at Z (ob_item Z five_split) 1 = Some pivot /\
      (forall j x, 0 <= j < 1 -> item_at Z (ob_item Z five_split) j = Some x ->
                   0 < int_lt x pivot) /\
      (forall j x, 1 < j < 5 -> item_at Z (ob_item Z five_split) j = Some x ->
                   int_lt x pivot = 0)) /\
  ncmp Z five_split = (ncmp Z five_state + Z.to_nat (5 - 0 - 1))%nat /\
  rnd Z five_split = S (rnd Z five_state).
Proof.
  assert (partition Z int_lt rand_a 0 5 five_state = Done 1 five_split)
    as Hrun by (vm_compute; reflexivity).
  split; [lia|]. split; [exact Hrun|]. split; [lia|].
  apply (partition_splits Z int_lt rand_a rand_a_nonneg 0 5 1
           five_state five_split); [lia | exact Hrun | lia].
Defined.

Lemma six_state_bounded_below :
  bounded_below Z int_lt (ob_item Z six_state) 1 5.
Proof.
  apply (bounded_below_listed _ 1 5 1); [lia | by vm_compute |].
  apply (bool_decide_unpack _). vm_compute. exact I.
Qed.

Lemma insertion_sort_sorts_witness :
  0 <= 1 /\ 5 <= Py_SIZE Z six_state /\
  bounded_below Z int_lt (ob_item Z six_state) 1 5 /\
  exists s',
    insertion_sort Z int_lt 1 5 six_state = Done tt s' /\
    shuffled Z (ob_item Z six_state) (ob_item Z s') 1 5 /\
    sorted_region Z int_lt (ob_item Z s') 1 5 /\
    tree_untouched Z six_state s' /\ rnd Z s' = rnd Z six_state.
Proof.
  assert (5 <= Py_SIZE Z six_state) as Hsize by (vm_compute; discriminate).
  split; [lia|]. split; [exact Hsize|]. split; [exact six_state_bounded_below|].
  apply (insertion_sort_sorts Z int_lt (fun x => x) int_lt_key six_state 1 5);
    [lia | exact Hsize | exact six_state_bounded_below].
Defined.

Lemma quick_sort_sorts_witness :
  0 <= sort_thresh /\ 0 <= 0 /\ 100 <= Py_SIZE Z scrambled_state /\
  bounded_below Z int_lt (ob_item Z scrambled_state) 0 100 /\
  exists s',
    quick_sort Z int_lt rand_a sort_thresh 0 100 scrambled_state = Done 0 s' /\
    shuffled Z (ob_item Z scrambled_state) (ob_item Z s') 0 100 /\
    sorted_region Z int_lt (ob_item Z s') 0 100 /\
    tree_untouched Z scrambled_state s'.
Proof.
  assert (0 <= sort_thresh) as Ht by (vm_compute; discriminate).
  assert (100 <= Py_SIZE Z scrambled_state) as Hsize
    by (vm_compute; discriminate).
  split; [exact Ht|]. split; [lia|]. split; [exact Hsize|].
  split; [apply bounded_below_start|].
  apply (quick_sort_sorts Z int_lt rand_a sort_thresh rand_a_nonneg
           (fun x => x) int_lt_key Ht scrambled_state 0 100);
    [lia | exact Hsize | apply bounded_below_start].
Defined.

Lemma sort_point_at_pivot_witness :
  holds_tree Z tree_state scrambled_tree /\ bst scrambled_tree /\
  (5%positive, (36, 0)) ∈ inorder scrambled_tree /\
  sort_point Z int_lt int_eq rand_a sort_thresh 36 tree_state
    = Done 0 tree_state.
Proof.
  assert ((5%positive, (36, 0)) ∈ inorder scrambled_tree) as Hin.
  { apply (bool_decide_unpack _). vm_compute. exact I. }
  split; [exact tree_state_holds|]. split; [exact scrambled_tree_bst|].
  split; [exact Hin|].
  exact (sort_point_at_pivot Z int_lt int_eq rand_a sort_thresh 36 tree_state
           scrambled_tree 5%positive 0 tree_state_holds scrambled_tree_bst Hin).
Defined.

Lemma sort_point_in_sorted_region_witness :
  holds_tree Z tree_state scrambled_tree /\ bst scrambled_tree /\
  inorder scrambled_tree
    = [(1%positive, (-1, 0)); (6%positive, (4, 0))]
      ++ (9%positive, (18, 2)) :: (8%positive, (21, 1))
      :: [(7%positive, (30, 0)); (5%positive, (36, 0)); (4%positive, (43, 0));
          (3%positive, (98, 0)); (2%positive, (100, 0))] /\
  18 < 19 < 21 /\ has_flag 1 SORTED_RIGHT = true /\
  sort_point Z int_lt int_eq rand_a sort_thresh 19 tree_state
    = Done 0 tree_state.
Proof.
  split; [exact tree_state_holds|]. split; [exact scrambled_tree_bst|].
  split; [reflexivity|]. split; [lia|]. split; [reflexivity|].
  apply (sort_point_in_sorted_region Z int_lt int_eq rand_a sort_thresh 19
           tree_state scrambled_tree
           [(1%positive, (-1, 0)); (6%positive, (4, 0))]
           [(7%positive, (30, 0)); (5%positive, (36, 0)); (4%positive, (43, 0));
            (3%positive, (98, 0)); (2%positive, (100, 0))]
           9%positive 8%positive 18 2 21 1);
    [exact tree_state_holds | exact scrambled_tree_bst | reflexivity | lia
    | reflexivity].
Defined.

Lemma tree_state_bounded_below :
  bounded_below Z int_lt (ob_item Z tree_state) (30 + 1) 36.
Proof.
  apply (bounded_below_listed _ (30 + 1) 36 30); [lia | by vm_compute |].
  apply (bool_decide_unpack _). vm_compute. exact I.
Qed.

Lemma sort_point_small_region_witness :
  holds_tree Z tree_state scrambled_tree /\ bst scrambled_tree /\
  inorder scrambled_tree
    = [(1%positive, (-1, 0)); (6%positive, (4, 0)); (9%positive, (18, 2));
       (8%positive, (21, 1))]
      ++ (7%positive, (30, 0)) :: (5%positive, (36, 0))
      :: [(4%positive, (43, 0)); (3%positive, (98, 0)); (2%positive, (100, 0))] /\
  30 < 33 < 36 /\ 36 < 30 + 1 + sort_thresh /\
  has_flag 0 SORTED_RIGHT = false /\ has_flag 0 SORTED_LEFT = false /\
  -1 <= 30 /\ 36 <= Py_SIZE Z tree_state /\
  bounded_below Z int_lt (ob_item Z tree_state) (30 + 1) 36 /\
  exists s' t',
    sort_point Z int_lt int_eq rand_a sort_thresh 33 tree_state = Done 0 s' /\
    shuffled Z (ob_item Z tree_state) (ob_item Z s') (30 + 1) 36 /\
    sorted_region Z int_lt (ob_item Z s') (30 + 1) 36 /\
    holds_tree Z s' t' /\
    inorder t'
      = [(1%positive, (-1, 0)); (6%positive, (4, 0)); (9%positive, (18, 2));
         (8%positive, (21, 1))]
        ++ (7%positive, (30, Z.lor 0 SORTED_LEFT))
        :: (5%positive, (36, Z.lor 0 SORTED_RIGHT))
        :: [(4%positive, (43, 0)); (3%positive, (98, 0)); (2%positive, (100, 0))] /\
    rnd Z s' = rnd Z tree_state.
Proof.
  assert (36 < 30 + 1 + sort_thresh) as Hsmall by (vm_compute; reflexivity).
  assert (36 <= Py_SIZE Z tree_state) as Hsize by (vm_compute; discriminate).
  split; [exact tree_state_holds|]. split; [exact scrambled_tree_bst|].
  split; [reflexivity|]. split; [lia|]. split; [exact Hsmall|].
  split; [reflexivity|]. split; [reflexivity|]. split; [lia|].
  split; [exact Hsize|]. split; [exact tree_state_bounded_below|].
  apply (sort_point_small_region Z int_lt int_eq rand_a sort_thresh
           (fun x => x) int_lt_key 33 tree_state scrambled_tree
           [(1%positive, (-1, 0)); (6%positive, (4, 0)); (9%positive, (18, 2));
            (8%positive, (21, 1))]
           [(4%positive, (43, 0)); (3%positive, (98, 0)); (2%positive, (100, 0))]
           7%positive 5%positive 30 0 36 0);
    [exact tree_state_holds | exact scrambled_tree_bst | reflexivity | lia
    | exact Hsmall | reflexivity | reflexivity | reflexivity | lia
    | exact Hsize | exact tree_state_bounded_below].
Defined.

Lemma insert_pivot_inserts_witness :
  holds_tree Z tree_state scrambled_tree /\ bst scrambled_tree /\
  40 ∉ keys scrambled_tree /\
  exists s' t',
    insert_pivot Z rand_a 40 UNSORTED (root Z tree_state) tree_state
      = Done (Some (brk Z tree_state)) s' /\
    holds_tree Z s' t' /\ bst t' /\
    inorder t' = below 40 (inorder scrambled_tree)
                 ++ (brk Z tree_state, (40, UNSORTED))
                 :: above 40 (inorder scrambled_tree) /\
    ob_item Z s' = ob_item Z tree_state /\ rnd Z s' = S (rnd Z tree_state) /\
    ncmp Z s' = ncmp Z tree_state /\ pyerr Z s' = pyerr Z tree_state.
Proof.
  assert (40 ∉ keys scrambled_tree) as Hk.
  { apply (bool_decide_unpack _). vm_compute. exact I. }
  split; [exact tree_state_holds|]. split; [exact scrambled_tree_bst|].
  split; [exact Hk|].
  exact (insert_pivot_inserts Z rand_a 40 UNSORTED tree_state scrambled_tree
           tree_state_holds scrambled_tree_bst Hk).
Defined.

Lemma short_list_subscripts_witness :
  Z.of_nat (length five) < sort_thresh /\
  - Z.of_nat (length five) <= 2 < Z.of_nat (length five) /\
  - Z.of_nat (length five) <= -1 < Z.of_nat (length five) /\
  exists s0 s1 x1 x2,
    LS_new Z rand_a five (fresh Z) = Done true s0 /\
    ls_subscript Z int_lt int_eq rand_a sort_thresh 2 s0 = Done (Some x1) s1 /\
    ls_subscript Z int_lt int_eq rand_a sort_thresh (-1) s1 = Done (Some x2) s1 /\
    ob_item Z s1 ≡ₚ five /\
    sorted_region Z int_lt (ob_item Z s1) 0 (Z.of_nat (length five)) /\
    item_at Z (ob_item Z s1) (2 mod Z.of_nat (length five)) = Some x1 /\
    item_at Z (ob_item Z s1) (-1 mod Z.of_nat (length five)) = Some x2.
Proof.
  assert (Z.of_nat (length five) < sort_thresh) as Hshort
    by (vm_compute; reflexivity).
  assert (- Z.of_nat (length five) <= 2 < Z.of_nat (length five)) as Hk1
    by (simpl; lia).
  assert (- Z.of_nat (length five) <= -1 < Z.of_nat (length five)) as Hk2
    by (simpl; lia).
  split; [exact Hshort|]. split; [exact Hk1|]. split; [exact Hk2|].
  exact (short_list_subscripts Z int_lt int_eq rand_a sort_thresh (fun x => x)
           int_lt_key five 2 (-1) Hshort Hk1 Hk2).
Defined.

Lemma next_pivot_successor_witness :
  holds_tree Z tree_state scrambled_tree /\ bst scrambled_tree /\
  inorder scrambled_tree
    = [(1%positive, (-1, 0)); (6%positive, (4, 0)); (9%positive, (18, 2));
       (8%positive, (21, 1)); (7%positive, (30, 0))]
      ++ (5%positive, (36, 0))
      :: [(4%positive, (43, 0)); (3%positive, (98, 0)); (2%positive, (100, 0))] /\
  next_pivot Z (Some 5%positive) tree_state = Done (Some 4%positive) tree_state.
Proof.
  split; [exact tree_state_holds|]. split; [exact scrambled_tree_bst|].
  split; [reflexivity|].
  exact (next_pivot_successor Z tree_state scrambled_tree
           [(1%positive, (-1, 0)); (6%positive, (4, 0)); (9%positive, (18, 2));
            (8%positive, (21, 1)); (7%positive, (30, 0))]
           [(4%positive, (43, 0)); (3%positive, (98, 0)); (2%positive, (100, 0))]
           5%positive (36, 0) tree_state_holds scrambled_tree_bst eq_refl).
Defined.

Lemma ls_pivots_in_order_witness :
  holds_tree Z tree_state scrambled_tree /\ bst scrambled_tree /\
  scrambled_tree <> Leaf /\
  ls_pivots Z tree_state
    = Done [(-1, 0); (4, 0); (18, 2); (21, 1); (30, 0); (36, 0); (43, 0);
            (98, 0); (100, 0)] tree_state.
Proof.
  assert (scrambled_tree <> Leaf) as Hne by discriminate.
  split; [exact tree_state_holds|]. split; [exact scrambled_tree_bst|].
  split; [exact Hne|].
  exact (ls_pivots_in_order Z tree_state scrambled_tree
           tree_state_holds scrambled_tree_bst Hne).
Defined.

Lemma insert_pivot_duplicate_witness :
  holds_tree Z tree_state scrambled_tree /\ bst scrambled_tree /\
  36 ∈ keys scrambled_tree /\
  exists s',
    insert_pivot Z rand_a 36 UNSORTED (root Z tree_state) tree_state
      = Done None s' /\
    pyerr Z s' = true /\ holds_tree Z s' scrambled_tree /\
    mem Z s' !! brk Z tree_state
      = Some (mkNode 36 UNSORTED (rand_a (rnd Z tree_state)) None None None) /\
    (forall q, q <> brk Z tree_state ->
               mem Z s' !! q = mem Z tree_state !! q) /\
    ob_item Z s' = ob_item Z tree_state /\ rnd Z s' = S (rnd Z tree_state).
Proof.
  assert (36 ∈ keys scrambled_tree) as Hk.
  { apply (bool_decide_unpack _). vm_compute. exact I. }
  split; [exact tree_state_holds|]. split; [exact scrambled_tree_bst|].
  split; [exact Hk|].
  exact (insert_pivot_duplicate Z rand_a 36 UNSORTED tree_state scrambled_tree
           tree_state_holds scrambled_tree_bst Hk).
Defined.

Lemma delete_node_removes_witness :
  holds_tree Z tree_state scrambled_tree /\ bst scrambled_tree /\
  inorder scrambled_tree
    = [(1%positive, (-1, 0)); (6%positive, (4, 0))]
      ++ (9%positive, (18, 2))
      :: [(8%positive, (21, 1)); (7%positive, (30, 0)); (5%positive, (36, 0));
          (4%positive, (43, 0)); (3%positive, (98, 0)); (2%positive, (100, 0))] /\
  [(1%positive, (-1, 0)); (6%positive, (4, 0))]
    ++ [(8%positive, (21, 1)); (7%positive, (30, 0)); (5%positive, (36, 0));
        (4%positive, (43, 0)); (3%positive, (98, 0)); (2%positive, (100, 0))]
    <> [] /\
  exists s' t',
    delete_node Z (Some 9%positive) tree_state = Done tt s' /\
    holds_tree Z s' t' /\ bst t' /\ t' <> Leaf /\
    inorder t'
      = [(1%positive, (-1, 0)); (6%positive, (4, 0))]
        ++ [(8%positive, (21, 1)); (7%positive, (30, 0)); (5%positive, (36, 0));
            (4%positive, (43, 0)); (3%positive, (98, 0)); (2%positive, (100, 0))] /\
    same_list Z tree_state s' /\ mem Z s' !! 9%positive = None /\
    (forall x, x ∉ ptrs scrambled_tree -> mem Z s' !! x = mem Z tree_state !! x).
Proof.
  assert ([(1%positive, (-1, 0)); (6%positive, (4, 0))]
            ++ [(8%positive, (21, 1)); (7%positive, (30, 0));
                (5%positive, (36, 0)); (4%positive, (43, 0));
                (3%positive, (98, 0)); (2%positive, (100, 0))]
          <> ([] : list (ptr * (Z * Z)))) as Hne by (simpl; discriminate).
  split; [exact tree_state_holds|]. split; [exact scrambled_tree_bst|].
  split; [reflexivity|]. split; [exact Hne|].
  exact (delete_node_removes Z tree_state scrambled_tree
           [(1%positive, (-1, 0)); (6%positive, (4, 0))]
           [(8%positive, (21, 1)); (7%positive, (30, 0)); (5%positive, (36, 0));
            (4%positive, (43, 0)); (3%positive, (98, 0)); (2%positive, (100, 0))]
           9%positive (18, 2) tree_state_holds scrambled_tree_bst eq_refl
           Hne).
Defined.

Lemma int_eq_key (x y : Z) : int_eq x y = if x =? y then 1 else 0.
Proof. reflexivity. Qed.

Lemma scrambled_distinct : NoDup ((fun x => x) <$> ob_item Z scrambled_state).
Proof. apply (bool_decide_unpack _). vm_compute. exact I. Qed.

Lemma scrambled_state_inv : exists t, lazy_inv Z int_lt scrambled_state t.
Proof.
  destruct (LS_new_inv Z int_lt rand_a scrambled) as (s & t & Hrun & _ & Hinv).
  exists t. unfold scrambled_state, built_state, built. by rewrite Hrun.
Qed.

Lemma sort_point_establishes_order_witness :
  1 <= sort_thresh /\
  (exists t, lazy_inv Z int_lt scrambled_state t) /\
  NoDup ((fun x => x) <$> ob_item Z scrambled_state) /\
  0 <= 20 < Py_SIZE Z scrambled_state /\
  exists s' t',
    sort_point Z int_lt int_eq rand_a sort_thresh 20 scrambled_state
      = Done 0 s' /\
    lazy_inv Z int_lt s' t' /\
    ob_item Z s' ≡ₚ ob_item Z scrambled_state /\
    order_statistic Z int_lt (ob_item Z s') 20.
Proof.
  assert (1 <= sort_thresh) as HT by (vm_compute; discriminate).
  assert (0 <= 20 < Py_SIZE Z scrambled_state) as Hk
    by (split; vm_compute; [discriminate|reflexivity]).
  split; [exact HT|]. split; [exact scrambled_state_inv|].
  split; [exact scrambled_distinct|]. split; [exact Hk|].
  destruct scrambled_state_inv as [t Hinv].
  exact (sort_point_establishes_order Z int_lt int_eq rand_a sort_thresh
           rand_a_nonneg (fun x => x) int_lt_key int_eq_key 20 scrambled_state
           t HT Hinv scrambled_distinct Hk).
Defined.

Lemma ls_subscript_returns_kth_witness :
  1 <= sort_thresh /\
  (exists t, lazy_inv Z int_lt scrambled_state t) /\
  NoDup ((fun x => x) <$> ob_item Z scrambled_state) /\
  pyerr Z scrambled_state = false /\
  - Py_SIZE Z scrambled_state <= -1 < Py_SIZE Z scrambled_state /\
  exists x s' t',
    ls_subscript Z int_lt int_eq rand_a sort_thresh (-1) scrambled_state
      = Done (Some x) s' /\
    x ∈ ob_item Z scrambled_state /\
    length (filter (fun y => y < x) (ob_item Z scrambled_state))
      = Z.to_nat (-1 mod Py_SIZE Z scrambled_state) /\
    lazy_inv Z int_lt s' t' /\
    ob_item Z s' ≡ₚ ob_item Z scrambled_state /\
    NoDup ((fun x => x) <$> ob_item Z s') /\
    pyerr Z s' = false.
Proof.
  assert (1 <= sort_thresh) as HT by (vm_compute; discriminate).
  assert (pyerr Z scrambled_state = false) as Herr by (vm_compute; reflexivity).
  assert (- Py_SIZE Z scrambled_state <= -1 < Py_SIZE Z scrambled_state) as Hk
    by (split; vm_compute; [discriminate|reflexivity]).
  split; [exact HT|]. split; [exact scrambled_state_inv|].
  split; [exact scrambled_distinct|]. split; [exact Herr|]. split; [exact Hk|].
  destruct scrambled_state_inv as [t Hinv].
  exact (ls_subscript_returns_kth Z int_lt int_eq rand_a sort_thresh
           rand_a_nonneg (fun x => x) int_lt_key int_eq_key (-1)
           scrambled_state t HT Hinv scrambled_distinct Herr Hk).
Defined.

Lemma tree_state_distinct : NoDup ((fun x => x) <$> ob_item Z tree_state).
Proof. apply (bool_decide_unpack _). vm_compute. exact I. Qed.

Lemma uniq_pivots_keeps_distinct_witness :
  holds_tree Z tree_state scrambled_tree /\ bst scrambled_tree /\
  (6%positive, (4, 0)) ∈ inorder scrambled_tree /\
  (9%positive, (18, 2)) ∈ inorder scrambled_tree /\
  (8%positive, (21, 1)) ∈ inorder scrambled_tree /\
  -1 <= 4 /\ 4 < 18 < 21 /\ 21 <= Py_SIZE Z tree_state /\
  NoDup ((fun x => x) <$> ob_item Z tree_state) /\
  exists s',
    uniq_pivots Z int_eq (Some 6%positive) (Some 9%positive)
      (Some 8%positive) tree_state = Done 0 s' /\
    tree_untouched Z tree_state s' /\ holds_tree Z s' scrambled_tree /\
    ob_item Z s' = ob_item Z tree_state /\
    rnd Z s' = rnd Z tree_state /\ pyerr Z s' = pyerr Z tree_state.
Proof.
  assert ((6%positive, (4, 0)) ∈ inorder scrambled_tree) as Hl
    by (apply (bool_decide_unpack _); vm_compute; exact I).
  assert ((9%positive, (18, 2)) ∈ inorder scrambled_tree) as Hm
    by (apply (bool_decide_unpack _); vm_compute; exact I).
  assert ((8%positive, (21, 1)) ∈ inorder scrambled_tree) as Hr
    by (apply (bool_decide_unpack _); vm_compute; exact I).
  assert (21 <= Py_SIZE Z tree_state) as Hsize by (vm_compute; discriminate).
  assert (-1 <= 4) as H1 by lia.
  assert (4 < 18 < 21) as H2 by lia.
  split; [exact tree_state_holds|]. split; [exact scrambled_tree_bst|].
  split; [exact Hl|]. split; [exact Hm|]. split; [exact Hr|].
  split; [exact H1|]. split; [exact H2|]. split; [exact Hsize|].
  split; [exact tree_state_distinct|].
  exact (uniq_pivots_keeps_distinct Z int_eq (fun x => x) int_eq_key tree_state
           scrambled_tree 6%positive 9%positive 8%positive 4 0 18 2 21 1
           tree_state_holds scrambled_tree_bst Hl Hm Hr H1 H2 Hsize
           tree_state_distinct).
Defined.

Lemma scrambled_size : Py_SIZE Z scrambled_state = 100.
Proof. vm_compute. reflexivity. Qed.

Lemma sort_range_sorts_range_witness :
  0 <= sort_thresh /\ 1 <= sort_thresh /\
  (exists t, lazy_inv Z int_lt scrambled_state t) /\
  NoDup ((fun x => x) <$> ob_item Z scrambled_state) /\
  0 <= 10 < 30 /\ 30 <= Py_SIZE Z scrambled_state /\
  exists s' t',
    sort_range Z int_lt int_eq rand_a sort_thresh 10 30 scrambled_state
      = Done 0 s' /\
    lazy_inv Z int_lt s' t' /\
    ob_item Z s' ≡ₚ ob_item Z scrambled_state /\
    sorted_region Z int_lt (ob_item Z s') 10 30 /\
    (forall p, 10 <= p < 30 -> order_statistic Z int_lt (ob_item Z s') p).
Proof.
  assert (1 <= sort_thresh) as HT by (vm_compute; discriminate).
  assert (0 <= sort_thresh) as Hnn by (vm_compute; discriminate).
  assert (0 <= 10 < 30) as Hk by lia.
  assert (30 <= Py_SIZE Z scrambled_state) as Hstop
    by (rewrite scrambled_size; lia).
  split; [exact Hnn|]. split; [exact HT|]. split; [exact scrambled_state_inv|].
  split; [exact scrambled_distinct|]. split; [exact Hk|].
  split; [exact Hstop|].
  destruct scrambled_state_inv as [t Hinv].
  exact (sort_range_sorts_range Z int_lt int_eq rand_a sort_thresh
           rand_a_nonneg (fun x => x) int_lt_key Hnn int_eq_key 10 30
           scrambled_state t HT Hinv scrambled_distinct Hk Hstop).
Defined.

Lemma slice_by_points_witness :
  1 <= sort_thresh /\
  (exists t, lazy_inv Z int_lt scrambled_state t) /\
  NoDup ((fun x => x) <$> ob_item Z scrambled_state) /\
  0 < 3 /\
  (30 < - contig_thresh \/ contig_thresh < 30) /\
  (forall j, 0 <= j < 3 -> 0 <= 5 + j * 30 < Py_SIZE Z scrambled_state) /\
  exists xs s' t',
    ls_subscript_slice Z int_lt int_eq rand_a sort_thresh contig_thresh
      5 95 30 3 scrambled_state = Done (Some xs) s' /\
    lazy_inv Z int_lt s' t' /\
    ob_item Z s' ≡ₚ ob_item Z scrambled_state /\
    length xs = Z.to_nat 3 /\
    forall (j : nat) x, xs !! j = Some x ->
      x ∈ ob_item Z scrambled_state /\
      length (filter (fun y => y < x) (ob_item Z scrambled_state))
        = Z.to_nat (5 + Z.of_nat j * 30).
Proof.
  assert (1 <= sort_thresh) as HT by (vm_compute; discriminate).
  assert (0 < 3) as Hlen by lia.
  assert (30 < - contig_thresh \/ contig_thresh < 30) as Hstep
    by (right; vm_compute; reflexivity).
  assert (forall j, 0 <= j < 3 -> 0 <= 5 + j * 30 < Py_SIZE Z scrambled_state)
    as Hrange by (intros j Hj; rewrite scrambled_size; lia).
  split; [exact HT|]. split; [exact scrambled_state_inv|].
  split; [exact scrambled_distinct|]. split; [exact Hlen|].
  split; [exact Hstep|]. split; [exact Hrange|].
  destruct scrambled_state_inv as [t Hinv].
  exact (slice_by_points Z int_lt int_eq rand_a sort_thresh contig_thresh
           rand_a_nonneg (fun x => x) int_lt_key int_eq_key 5 95 30 3
           scrambled_state t HT Hinv scrambled_distinct Hlen Hstep Hrange).
Defined.


